(** * toontojson: the TOON/JSON conversion core of [src/lib/toon.ts]

    A shallow embedding of the relaxed recursive-descent parser
    ([parseJson] and its helpers), of the strict parser ([parseToon], a
    call to the platform's [JSON.parse]), of the two serializers
    ([toToon], [toJson]) and of the JSON-to-TOON request handler,
    followed by the properties the specification states about them. *)

From Stdlib Require Import String Ascii.
From Stdlib Require Import List NArith ZArith Bool Lia.
Import ListNotations.

Set Implicit Arguments.

(* ================================================================== *)
(** * JavaScript strings *)
(* ================================================================== *)

(** A JavaScript string is a sequence of UTF-16 code units. *)
Definition char := N.
Definition jsstring := list char.

(** [str "abc"] is the JavaScript string of an ASCII literal, [ch "a"]
    one code unit. *)
Definition ch (a : ascii) : char := N_of_ascii a.

Fixpoint str (s : string) : jsstring :=
  match s with
  | EmptyString => []
  | String a s' => ch a :: str s'
  end.

(** Characters that have no printable literal form. *)
Definition DQ : char := 34%N.         (* the double quote *)
Definition SQ : char := 39%N.         (* the single quote *)
Definition BACKSLASH : char := 92%N.
Definition LF : char := 10%N.         (* \n *)
Definition CR : char := 13%N.         (* \r *)
Definition TAB : char := 9%N.         (* \t *)
Definition BS : char := 8%N.          (* \b *)
Definition FF : char := 12%N.         (* \f *)

Fixpoint jsstring_eqb (a b : jsstring) : bool :=
  match a, b with
  | [], [] => true
  | x :: a', y :: b' => N.eqb x y && jsstring_eqb a' b'
  | _, _ => false
  end.

(** [s.startsWith(p)] *)
Fixpoint startsWith (s p : jsstring) {struct p} : bool :=
  match p with
  | [] => true
  | c :: p' =>
      match s with
      | [] => false
      | d :: s' => N.eqb d c && startsWith s' p'
      end
  end.

(** [s.substring(k)] and [s.substring(0, k)] *)
Definition substring (k : nat) (s : jsstring) : jsstring := skipn k s.
Definition substring0 (k : nat) (s : jsstring) : jsstring := firstn k s.

(** White space as [String.prototype.trim] and the regular expression
    class [\s] see it: the WhiteSpace and LineTerminator code points of
    ECMA-262. *)
Definition isWhiteSpace (c : char) : bool :=
  ((9 <=? c) && (c <=? 13) || (c =? 32) || (c =? 160) || (c =? 5760)
   || (8192 <=? c) && (c <=? 8202) || (c =? 8232) || (c =? 8233)
   || (c =? 8239) || (c =? 8287) || (c =? 12288) || (c =? 65279))%N.

Fixpoint trimStart (s : jsstring) : jsstring :=
  match s with
  | [] => []
  | c :: s' => if isWhiteSpace c then trimStart s' else s
  end.

Definition trimEnd (s : jsstring) : jsstring := rev (trimStart (rev s)).

(** [s.trim()] *)
Definition trim (s : jsstring) : jsstring := trimEnd (trimStart s).

(** [parts.join(sep)] *)
Fixpoint join (sep : jsstring) (parts : list jsstring) : jsstring :=
  match parts with
  | [] => []
  | [p] => p
  | p :: ps => p ++ sep ++ join sep ps
  end.

(** ['  '.repeat(indent)] *)
Fixpoint indentation (indent : nat) : jsstring :=
  match indent with
  | O => []
  | S n => str "  " ++ indentation n
  end.

(** [s.replace(/c/g, r)] for a one-character pattern [c]. *)
Fixpoint replaceAll (c : char) (r : jsstring) (s : jsstring) : jsstring :=
  match s with
  | [] => []
  | d :: s' => (if N.eqb d c then r else [d]) ++ replaceAll c r s'
  end.

(** Character classes of the regular expressions of the source. *)
Definition isDigit (c : char) : bool := ((48 <=? c) && (c <=? 57))%N.

Definition isIdentStart (c : char) : bool :=          (* [a-zA-Z_$] *)
  ((97 <=? c) && (c <=? 122) || (65 <=? c) && (c <=? 90)
   || (c =? 95) || (c =? 36))%N.

Definition isIdentPart (c : char) : bool :=           (* [a-zA-Z0-9_$] *)
  isIdentStart c || isDigit c.

(** The longest prefix of [s] whose characters satisfy [p], and the rest. *)
Fixpoint span (p : char -> bool) (s : jsstring) : jsstring * jsstring :=
  match s with
  | [] => ([], [])
  | c :: s' =>
      if p c then let (a, b) := span p s' in (c :: a, b) else ([], s)
  end.

(** [/^[a-zA-Z_$][a-zA-Z0-9_$]*$/.test(key)] *)
Definition isIdentifier (key : jsstring) : bool :=
  match key with
  | [] => false
  | c :: key' => isIdentStart c && forallb isIdentPart key'
  end.

(** The unquoted key of [parseObject]: an identifier (a character of
    [a-zA-Z_$], then any number of [a-zA-Z0-9_$]), optional white space
    and a colon, anchored at the start of [remaining].  The result is the
    captured identifier and what follows the whole match.  Every quantifier is
    greedy and nothing it could give back would let the match go on, so
    the greedy scan is the match. *)
Definition matchKey (s : jsstring) : option (jsstring * jsstring) :=
  match s with
  | [] => None
  | c :: s' =>
      if isIdentStart c then
        let (name, rest) := span isIdentPart s' in
        match snd (span isWhiteSpace rest) with
        | d :: rest' => if N.eqb d (ch ":") then Some (c :: name, rest') else None
        | [] => None
        end
      else None
  end.

(* ================================================================== *)
(** * Numbers *)
(* ================================================================== *)

(** A JavaScript number, up to [===]: the two zeros are one value.  A
    finite non-zero number is kept in the form ECMA-262 gives it in
    [Number::toString]: its significant decimal digits [digits] (as the
    characters '0'..'9', the first and the last not '0') and the position
    [point] of the decimal point, the value being
    [0.digits * 10 ^ point] with the sign [negative].  The arithmetic is
    exact decimal arithmetic: rounding to binary64 is outside the model. *)
Inductive number :=
| NaN
| Infinity (negative : bool)
| Zero
| Decimal (negative : bool) (digits : jsstring) (point : Z).

Fixpoint dropZeros (ds : jsstring) : jsstring :=
  match ds with
  | [] => []
  | d :: ds' => if N.eqb d (ch "0") then dropZeros ds' else ds
  end.

Definition dropTrailingZeros (ds : jsstring) : jsstring :=
  rev (dropZeros (rev ds)).

(** The number a decimal literal denotes: integer digits, fraction
    digits and a power of ten. *)
Definition decimalValue (negative : bool) (int frac : jsstring) (exp : Z)
  : number :=
  match dropZeros (int ++ frac) with
  | [] => Zero
  | all =>
      Decimal negative (dropTrailingZeros all)
        (Z.of_nat (length all) + exp - Z.of_nat (length frac))
  end.

(** Decimal digits of a natural number, and back. *)
Fixpoint digitsOfFuel (fuel : nat) (n : N) : jsstring :=
  match fuel with
  | O => []
  | S fuel' =>
      if (n <? 10)%N then [(48 + n)%N]
      else digitsOfFuel fuel' (n / 10)%N ++ [(48 + n mod 10)%N]
  end.

Definition digitsOf (n : N) : jsstring :=
  digitsOfFuel (S (N.to_nat (N.log2 n))) n.

Definition natOfDigits (ds : jsstring) : N :=
  fold_left (fun acc d => (10 * acc + (d - 48))%N) ds 0%N.

(** The integer [z] as a number. *)
Definition integer (z : Z) : number :=
  decimalValue (z <? 0)%Z (digitsOf (Z.abs_N z)) [] 0.

(** The exponent part of a number in scientific notation. *)
Definition exponentText (e : Z) : jsstring :=
  str "e" ++ (if (e <? 0)%Z then str "-" else str "+") ++ digitsOf (Z.abs_N e).

(** [x.toString()], ECMA-262 Number::toString with radix 10. *)
Definition Number_toString (x : number) : jsstring :=
  match x with
  | NaN => str "NaN"
  | Infinity false => str "Infinity"
  | Infinity true => str "-Infinity"
  | Zero => str "0"
  | Decimal negative digits n =>
      let k := Z.of_nat (length digits) in
      (if negative then str "-" else []) ++
      if ((k <=? n) && (n <=? 21))%Z then
        digits ++ repeat (ch "0") (Z.to_nat (n - k))
      else if ((0 <? n) && (n <=? 21))%Z then
        firstn (Z.to_nat n) digits ++ str "." ++ skipn (Z.to_nat n) digits
      else if ((-6 <? n) && (n <=? 0))%Z then
        str "0." ++ repeat (ch "0") (Z.to_nat (- n)) ++ digits
      else
        let e := (n - 1)%Z in
        let exponent := exponentText e in
        match digits with
        | [] => exponent
        | [d] => [d] ++ exponent
        | d :: more => [d] ++ str "." ++ more ++ exponent
        end
  end.

(** What the number pattern of the source,
    [-?\d+(\.\d+)?([eE][+-]?\d+)?] anchored at the start, matches: the
    matched text and the number it denotes.  The optional groups are
    greedy; a group that starts and cannot finish is left out. *)
Definition scanFraction (s : jsstring) : jsstring * jsstring :=
  match s with
  | c :: r =>
      if N.eqb c (ch ".") then
        match span isDigit r with
        | ([], _) => ([], s)
        | (frac, r') => (frac, r')
        end
      else ([], s)
  | [] => ([], s)
  end.

Definition scanSign (s : jsstring) : jsstring * jsstring :=
  match s with
  | c :: r => if N.eqb c (ch "+") || N.eqb c (ch "-") then ([c], r) else ([], s)
  | [] => ([], s)
  end.

Definition scanExponent (s : jsstring) : jsstring * jsstring :=
  match s with
  | c :: r =>
      if N.eqb c (ch "e") || N.eqb c (ch "E") then
        let (sign, r1) := scanSign r in
        match span isDigit r1 with
        | ([], _) => ([], s)
        | (ds, r2) => (c :: sign ++ ds, r2)
        end
      else ([], s)
  | [] => ([], s)
  end.

Definition exponentValue (e : jsstring) : Z :=
  match e with
  | _ :: c :: ds =>
      if N.eqb c (ch "-") then (- Z.of_N (natOfDigits ds))%Z
      else if N.eqb c (ch "+") then Z.of_N (natOfDigits ds)
      else Z.of_N (natOfDigits (c :: ds))
  | _ => 0%Z
  end.

Definition scanNumber (s : jsstring) : option (jsstring * number) :=
  let (negative, s1) :=
    match s with
    | c :: r => if N.eqb c (ch "-") then (true, r) else (false, s)
    | [] => (false, s)
    end in
  match span isDigit s1 with
  | ([], _) => None
  | (int, s2) =>
      let (frac, s3) := scanFraction s2 in
      let (e, _) := scanExponent s3 in
      Some ((if negative then str "-" else [])
              ++ int ++ (match frac with [] => [] | _ => ch "." :: frac end) ++ e,
            decimalValue negative int frac (exponentValue e))
  end.

(** [input.match(/^(-?\d+(\.\d+)?([eE][+-]?\d+)?)/)], group 1. *)
Definition matchNumber (input : jsstring) : option jsstring :=
  option_map fst (scanNumber input).

(** [parseFloat(numStr)] on the strings the source passes to it, those
    the number pattern has matched; [NaN] where no number starts. *)
Definition parseFloat (numStr : jsstring) : number :=
  match scanNumber numStr with
  | Some (_, x) => x
  | None => NaN
  end.

(* ================================================================== *)
(** * Value trees *)
(* ================================================================== *)

(** The values the parsers build and the serializers accept.  An object
    lists its own enumerable properties in the order [Object.keys]
    reports them. *)
Unset Elimination Schemes.
Inductive Value :=
| VNull
| VBool (b : bool)
| VNum (x : number)
| VStr (s : jsstring)
| VArr (items : list Value)
| VObj (entries : list (jsstring * Value)).
Set Elimination Schemes.

Definition Object := list (jsstring * Value).

(** [key] as an array index (ECMA-262: a canonical numeric string below
    2^32 - 1).  An ordinary object lists such keys first, in ascending
    order, and the others after them in the order of their creation. *)
Definition arrayIndex (key : jsstring) : option N :=
  match key with
  | [] => None
  | c :: key' =>
      if forallb isDigit key
         && (negb (N.eqb c (ch "0")) || match key' with [] => true | _ => false end)
         && (length key <=? 10)%nat
         && (natOfDigits key <? 4294967295)%N
      then Some (natOfDigits key) else None
  end.

Fixpoint hasKey (obj : Object) (key : jsstring) : bool :=
  match obj with
  | [] => false
  | (k, _) :: obj' => jsstring_eqb k key || hasKey obj' key
  end.

Fixpoint replaceValue (obj : Object) (key : jsstring) (v : Value) : Object :=
  match obj with
  | [] => []
  | (k, w) :: obj' =>
      if jsstring_eqb k key then (k, v) :: obj'
      else (k, w) :: replaceValue obj' key v
  end.

Fixpoint insertIndex (obj : Object) (i : N) (key : jsstring) (v : Value)
  : Object :=
  match obj with
  | [] => [(key, v)]
  | (k, w) :: obj' =>
      match arrayIndex k with
      | Some j =>
          if (j <? i)%N then (k, w) :: insertIndex obj' i key v
          else (key, v) :: obj
      | None => (key, v) :: obj
      end
  end.

(** CreateDataProperty: what [JSON.parse] does with a member.  An
    existing key keeps its place and takes the new value. *)
Definition defineProperty (obj : Object) (key : jsstring) (v : Value)
  : Object :=
  if hasKey obj key then replaceValue obj key v
  else match arrayIndex key with
       | Some i => insertIndex obj i key v
       | None => obj ++ [(key, v)]
       end.

(** A value as the relaxed parser holds it.  [tree] is the value as
    [typeof], [Array.isArray] and [Object.keys] show it, which is all
    that [toToon], [toJson] and the callers of [parseJson] read of it: of
    an object, its own enumerable properties.  [chained] tells of an
    object or an array whether its prototype chain reaches
    [Object.prototype], where the accessor [__proto__] lives; of another
    value it is not read. *)
Record JsValue := mkJsValue { tree : Value; chained : bool }.

(** A value as a literal, [[]] or [{}] makes it. *)
Definition plain (v : Value) : JsValue := mkJsValue v true.

(** The object [obj] that [parseObject] fills: its own properties and
    whether its prototype chain reaches [Object.prototype]. *)
Record JsObject := mkJsObject { properties : Object; inherits : bool }.

(** [{}] *)
Definition emptyObject : JsObject := mkJsObject [] true.

Definition objectValue (obj : JsObject) : JsValue :=
  mkJsValue (VObj (properties obj)) (inherits obj).

(** [obj[key] = v].  While the prototype chain of [obj] reaches
    [Object.prototype], the key [__proto__] finds the accessor there,
    which creates no own property: given null, an array or an object it
    makes that the prototype of [obj], and given another value it does
    nothing.  Once the chain is cut (the prototype is null, or an object
    whose own chain is cut) [__proto__] is a key like any other.  Any
    other key is created on [obj] itself, also when an object further up
    the chain has it, or takes the new value where it stands. *)
Definition setProperty (obj : JsObject) (key : jsstring) (v : JsValue)
  : JsObject :=
  if jsstring_eqb key (str "__proto__") && inherits obj then
    match tree v with
    | VNull => mkJsObject (properties obj) false
    | VArr _ | VObj _ => mkJsObject (properties obj) (chained v)
    | _ => obj
    end
  else mkJsObject (defineProperty (properties obj) key (tree v)) (inherits obj).

(* ================================================================== *)
(** * The relaxed parser *)
(* ================================================================== *)

(** The outcome of a call: a result, [throw new Error(message)], or the
    recursion bound of the embedding used up; [parseJson_total] shows
    that the last one never comes out of [parseJson]. *)
Inductive Result (A : Type) :=
| Ok (a : A)
| Throw (message : jsstring)
| OutOfFuel.
Arguments Ok {A} a.
Arguments Throw {A} message.
Arguments OutOfFuel {A}.

Definition bind {A B} (r : Result A) (k : A -> Result B) : Result B :=
  match r with
  | Ok a => k a
  | Throw m => Throw m
  | OutOfFuel => OutOfFuel
  end.

Notation "'let*' x ':=' r 'in' k" := (bind r (fun x => k))
  (at level 10, x pattern, r at level 100, k at level 200).

(** [interface ParseResult { value; remaining }] *)
Record ParseResult (A : Type) := mkParseResult
  { value : A; remaining : jsstring }.
Arguments mkParseResult {A} value remaining.

(** [parseString(input)]: the loop from [i = 1], as a scan of the
    characters after the opening quote; [acc] is the variable [value]. *)
Fixpoint parseString_loop (quote : char) (acc : jsstring) (escaped : bool)
  (rest : jsstring) : Result (ParseResult jsstring) :=
  match rest with
  | [] => Throw (str "Unterminated string")
  | char :: rest' =>
      if escaped then
        let acc' :=
          if N.eqb char (ch "n") then acc ++ [LF]
          else if N.eqb char (ch "t") then acc ++ [TAB]
          else if N.eqb char (ch "r") then acc ++ [CR]
          else if N.eqb char BACKSLASH then acc ++ [BACKSLASH]
          else if N.eqb char quote then acc ++ [quote]
          else acc ++ [char] in
        parseString_loop quote acc' false rest'
      else if N.eqb char BACKSLASH then parseString_loop quote acc true rest'
      else if N.eqb char quote then Ok (mkParseResult acc rest')
      else parseString_loop quote (acc ++ [char]) false rest'
  end.

Definition parseString (input : jsstring) : Result (ParseResult jsstring) :=
  match input with
  | quote :: rest =>
      if N.eqb quote DQ || N.eqb quote SQ
      then parseString_loop quote [] false rest
      else Throw (str "Expected string to start with quote")
  | [] => Throw (str "Expected string to start with quote")
  end.

Definition parseNumber (input : jsstring) : Result (ParseResult JsValue) :=
  match matchNumber input with
  | None => Throw (str "Expected number")
  | Some numStr =>
      let num := parseFloat numStr in
      Ok (mkParseResult (plain (VNum num)) (substring (length numStr) input))
  end.

Section RecursiveDescent.

  (** The recursive calls of [parseValue] made by [parseObject] and
      [parseArray]. *)
Variable parseValue : jsstring -> Result (ParseResult JsValue).

  (** The [while (true)] loop of [parseObject]; every turn that goes on
      has consumed a key, so [fuel] need not exceed the length of
      [remaining]. *)
Fixpoint parseObject_loop (fuel : nat) (obj : JsObject) (remaining0 : jsstring)
    : Result (ParseResult JsValue) :=
    match fuel with
    | O => OutOfFuel
    | S fuel' =>
        let remaining1 := trim remaining0 in
        match remaining1 with
        | [] => Ok (mkParseResult (objectValue obj) remaining1)
        | _ =>
            let* (key, keyMatch, remaining2) :=
              (if startsWith remaining1 [DQ] || startsWith remaining1 [SQ] then
                 let* keyResult := parseString remaining1 in
                 Ok (value keyResult, false, trim (remaining keyResult))
               else
                 match matchKey remaining1 with
                 | None =>
                     Throw (str "Expected key, got: " ++ substring0 30 remaining1)
                 | Some (key, after) => Ok (key, true, trim after)
                 end) in
            if negb keyMatch && negb (startsWith remaining2 (str ":")) then
              Throw (str "Expected ':' after key, got: "
                       ++ substring0 30 remaining2)
            else
              let remaining3 :=
                if negb keyMatch && startsWith remaining2 (str ":")
                then trim (substring 1 remaining2) else remaining2 in
              let* valueResult := parseValue remaining3 in
              let obj' := setProperty obj key (value valueResult) in
              let remaining4 := trim (remaining valueResult) in
              if startsWith remaining4 (str "}") then
                Ok (mkParseResult (objectValue obj') (substring 1 remaining4))
              else if startsWith remaining4 (str ",") then
                parseObject_loop fuel' obj' (trim (substring 1 remaining4))
              else if (0 <? length remaining4)%nat then
                Throw (str "Expected ',' or '}', got: "
                         ++ substring0 30 remaining4)
              else Ok (mkParseResult (objectValue obj') remaining4)
        end
    end.

Definition parseObject (input : jsstring) : Result (ParseResult JsValue) :=
    if negb (startsWith input (str "{")) then
      Throw (str "Expected object to start with {")
    else
      let remaining0 := substring 1 input in
      let obj : JsObject := emptyObject in
      let remaining1 := trim remaining0 in
      if startsWith remaining1 (str "}") then
        Ok (mkParseResult (objectValue obj) (substring 1 remaining1))
      else parseObject_loop (S (length remaining1)) obj remaining1.

  (** The [while (true)] loop of [parseArray]. *)
Fixpoint parseArray_loop (fuel : nat) (arr : list Value) (remaining0 : jsstring)
    : Result (ParseResult JsValue) :=
    match fuel with
    | O => OutOfFuel
    | S fuel' =>
        let remaining1 := trim remaining0 in
        let* valueResult := parseValue remaining1 in
        let arr' := arr ++ [tree (value valueResult)] in
        let remaining2 := trim (remaining valueResult) in
        if startsWith remaining2 (str "]") then
          Ok (mkParseResult (plain (VArr arr')) (substring 1 remaining2))
        else if startsWith remaining2 (str ",") then
          parseArray_loop fuel' arr' (trim (substring 1 remaining2))
        else
          Throw (str "Expected ',' or ']', got: " ++ substring0 20 remaining2)
    end.

Definition parseArray (input : jsstring) : Result (ParseResult JsValue) :=
    if negb (startsWith input (str "[")) then
      Throw (str "Expected array to start with [")
    else
      let remaining0 := trim (substring 1 input) in
      let arr : list Value := [] in
      if startsWith remaining0 (str "]") then
        Ok (mkParseResult (plain (VArr arr)) (substring 1 remaining0))
      else parseArray_loop (S (length remaining0)) arr remaining0.

  (** The body of [parseValue]. *)
Definition parseValue_body (input : jsstring) : Result (ParseResult JsValue) :=
    let trimmed := trim input in
    if startsWith trimmed (str "{") then parseObject trimmed
    else if startsWith trimmed (str "[") then parseArray trimmed
    else if startsWith trimmed [DQ] || startsWith trimmed [SQ] then
      let* r := parseString trimmed in
      Ok (mkParseResult (plain (VStr (value r))) (remaining r))
    else if match matchNumber trimmed with Some _ => true | None => false end
    then parseNumber trimmed
    else if startsWith trimmed (str "true") then
      Ok (mkParseResult (plain (VBool true)) (substring 4 trimmed))
    else if startsWith trimmed (str "false") then
      Ok (mkParseResult (plain (VBool false)) (substring 5 trimmed))
    else if startsWith trimmed (str "null") then
      Ok (mkParseResult (plain VNull) (substring 4 trimmed))
    else Throw (str "Unexpected token: " ++ substring0 20 trimmed).

End RecursiveDescent.

(** [parseValue], its recursion depth bounded by [fuel]. *)
Fixpoint parseValue (fuel : nat) (input : jsstring)
  : Result (ParseResult JsValue) :=
  match fuel with
  | O => OutOfFuel
  | S fuel' => parseValue_body (parseValue fuel') input
  end.

(** A call of [parseValue] from outside.  Every nested call consumes a
    character, so the length of the text bounds the depth. *)
Definition parseValueTop (input : jsstring) : Result (ParseResult JsValue) :=
  parseValue (S (length input)) input.

(** [parseJson(input)] *)
Definition parseJson (input : jsstring) : Result Value :=
  let trimmed := trim input in
  match trimmed with
  | [] => Throw (str "Empty input")
  | _ =>
      let* result := parseValueTop trimmed in
      if (0 <? length (trim (remaining result)))%nat then
        Throw (str "Unexpected characters after parsed value: "
                 ++ substring0 20 (remaining result))
      else Ok (tree (value result))
  end.

(* ================================================================== *)
(** * The strict parser *)
(* ================================================================== *)

(** Modelled from the spec: [JSON.parse], the standard-conformant JSON
    parser [parseToon] delegates to, is a built-in of the platform and
    not code of the repository.  The definitions of this part follow the
    JSON grammar of ECMA-404 and ECMA-262: four white-space characters,
    the literals, numbers without leading zeros, double-quoted strings
    with the escapes of the quote, the backslash, the slash, [\b], [\f],
    [\n], [\r], [\t] and [\uXXXX] and no raw control character, arrays and objects without trailing commas, members
    stored by CreateDataProperty. *)
Module JSON.

  (** The text of the engine's [SyntaxError] is not fixed by the
      standard; one text stands for all of them. *)
Definition syntaxError : jsstring := str "Unexpected token in JSON".

Definition isWhiteSpace (c : char) : bool :=
    ((c =? 9) || (c =? 10) || (c =? 13) || (c =? 32))%N.

Fixpoint skipWhiteSpace (s : jsstring) : jsstring :=
    match s with
    | [] => []
    | c :: s' => if isWhiteSpace c then skipWhiteSpace s' else s
    end.

Definition hexDigit (c : char) : option N :=
    if ((48 <=? c) && (c <=? 57))%N then Some (c - 48)%N
    else if ((97 <=? c) && (c <=? 102))%N then Some (c - 87)%N
    else if ((65 <=? c) && (c <=? 70))%N then Some (c - 55)%N
    else None.

Definition hex4 (a b c d : char) : option char :=
    match hexDigit a, hexDigit b, hexDigit c, hexDigit d with
    | Some x, Some y, Some z, Some w =>
        Some (4096 * x + 256 * y + 16 * z + w)%N
    | _, _, _, _ => None
    end.

  (** The characters of a string after its opening quote. *)
Fixpoint stringChars (acc : jsstring) (s : jsstring)
    : Result (ParseResult jsstring) :=
    match s with
    | [] => Throw syntaxError
    | c :: s' =>
        if N.eqb c DQ then Ok (mkParseResult acc s')
        else if N.eqb c BACKSLASH then
          match s' with
          | [] => Throw syntaxError
          | e :: s'' =>
              if N.eqb e DQ then stringChars (acc ++ [DQ]) s''
              else if N.eqb e BACKSLASH then stringChars (acc ++ [BACKSLASH]) s''
              else if N.eqb e (ch "/") then stringChars (acc ++ [ch "/"]) s''
              else if N.eqb e (ch "b") then stringChars (acc ++ [BS]) s''
              else if N.eqb e (ch "f") then stringChars (acc ++ [FF]) s''
              else if N.eqb e (ch "n") then stringChars (acc ++ [LF]) s''
              else if N.eqb e (ch "r") then stringChars (acc ++ [CR]) s''
              else if N.eqb e (ch "t") then stringChars (acc ++ [TAB]) s''
              else if N.eqb e (ch "u") then
                match s'' with
                | h1 :: h2 :: h3 :: h4 :: s3 =>
                    match hex4 h1 h2 h3 h4 with
                    | Some u => stringChars (acc ++ [u]) s3
                    | None => Throw syntaxError
                    end
                | _ => Throw syntaxError
                end
              else Throw syntaxError
          end
        else if (c <? 32)%N then Throw syntaxError
        else stringChars (acc ++ [c]) s'
    end.

  (** A number: what the number pattern matches, provided the integer
      part has no leading zero and no fraction or exponent is left
      without its digits. *)
Definition leadingZero (numStr : jsstring) : bool :=
    match (if startsWith numStr (str "-") then substring 1 numStr else numStr) with
    | c :: d :: _ => N.eqb c (ch "0") && isDigit d
    | _ => false
    end.

Definition number (s : jsstring) : Result (ParseResult Value) :=
    match scanNumber s with
    | None => Throw syntaxError
    | Some (numStr, x) =>
        let rest := substring (length numStr) s in
        if leadingZero numStr then Throw syntaxError
        else if startsWith rest (str ".") || startsWith rest (str "e")
                || startsWith rest (str "E")
        then Throw syntaxError
        else Ok (mkParseResult (VNum x) rest)
    end.

Section Grammar.

Variable parseValue : jsstring -> Result (ParseResult Value).

    (** The members after [{] or after a comma. *)
Fixpoint members (fuel : nat) (obj : Object) (s : jsstring)
      : Result (ParseResult Value) :=
      match fuel with
      | O => OutOfFuel
      | S fuel' =>
          match skipWhiteSpace s with
          | c :: s1 =>
              if N.eqb c DQ then
                let* key := stringChars [] s1 in
                match skipWhiteSpace (remaining key) with
                | d :: s2 =>
                    if N.eqb d (ch ":") then
                      let* v := parseValue s2 in
                      let obj' := defineProperty obj (value key) (value v) in
                      match skipWhiteSpace (remaining v) with
                      | e :: s3 =>
                          if N.eqb e (ch "}") then Ok (mkParseResult (VObj obj') s3)
                          else if N.eqb e (ch ",") then members fuel' obj' s3
                          else Throw syntaxError
                      | [] => Throw syntaxError
                      end
                    else Throw syntaxError
                | [] => Throw syntaxError
                end
              else Throw syntaxError
          | [] => Throw syntaxError
          end
      end.

    (** The elements after [[] or after a comma. *)
Fixpoint elements (fuel : nat) (arr : list Value) (s : jsstring)
      : Result (ParseResult Value) :=
      match fuel with
      | O => OutOfFuel
      | S fuel' =>
          let* v := parseValue s in
          let arr' := arr ++ [value v] in
          match skipWhiteSpace (remaining v) with
          | e :: s1 =>
              if N.eqb e (ch "]") then Ok (mkParseResult (VArr arr') s1)
              else if N.eqb e (ch ",") then elements fuel' arr' s1
              else Throw syntaxError
          | [] => Throw syntaxError
          end
      end.

    (** A value, after optional white space. *)
Definition value_body (s : jsstring) : Result (ParseResult Value) :=
      match skipWhiteSpace s with
      | [] => Throw syntaxError
      | (c :: s1) as t =>
          if N.eqb c (ch "{") then
            match skipWhiteSpace s1 with
            | (d :: s2) as u =>
                if N.eqb d (ch "}") then Ok (mkParseResult (VObj []) s2)
                else members (S (length u)) [] u
            | [] => Throw syntaxError
            end
          else if N.eqb c (ch "[") then
            match skipWhiteSpace s1 with
            | (d :: s2) as u =>
                if N.eqb d (ch "]") then Ok (mkParseResult (VArr []) s2)
                else elements (S (length u)) [] u
            | [] => Throw syntaxError
            end
          else if N.eqb c DQ then
            let* r := stringChars [] s1 in
            Ok (mkParseResult (VStr (value r)) (remaining r))
          else if startsWith t (str "true") then
            Ok (mkParseResult (VBool true) (substring 4 t))
          else if startsWith t (str "false") then
            Ok (mkParseResult (VBool false) (substring 5 t))
          else if startsWith t (str "null") then
            Ok (mkParseResult VNull (substring 4 t))
          else number t
      end.

End Grammar.

Fixpoint parseValue (fuel : nat) (s : jsstring) : Result (ParseResult Value) :=
    match fuel with
    | O => OutOfFuel
    | S fuel' => value_body (parseValue fuel') s
    end.

  (** [JSON.parse(text)] *)
Definition parse (text : jsstring) : Result Value :=
    let* r := parseValue (S (length text)) text in
    match skipWhiteSpace (remaining r) with
    | [] => Ok (value r)
    | _ => Throw syntaxError
    end.

End JSON.

(** [parseToon(input)] *)
Definition parseToon (input : jsstring) : Result Value :=
  match JSON.parse input with
  | Ok v => Ok v
  | Throw message => Throw (str "Invalid TOON format: " ++ message)
  | OutOfFuel => OutOfFuel
  end.

(* ================================================================== *)
(** * The serializers *)
(* ================================================================== *)

(** The five [replace] calls that escape a string, in their order. *)
Definition escape (obj : jsstring) : jsstring :=
  replaceAll TAB (BACKSLASH :: str "t")
    (replaceAll CR (BACKSLASH :: str "r")
       (replaceAll LF (BACKSLASH :: str "n")
          (replaceAll DQ [BACKSLASH; DQ]
             (replaceAll BACKSLASH [BACKSLASH; BACKSLASH] obj)))).

(** [typeof val === 'string' || typeof val === 'number' ||
     typeof val === 'boolean' || val === null] *)
Definition isScalar (val : Value) : bool :=
  match val with
  | VStr _ | VNum _ | VBool _ | VNull => true
  | VArr _ | VObj _ => false
  end.

(** The test [isCompactArray] makes on one item. *)
Definition isCompactItem (item : Value) : bool :=
  match item with
  | VObj entries =>
      (length entries <=? 5)%nat && forallb (fun kv => isScalar (snd kv)) entries
  | _ => false
  end.

(** The test behind [isCompactObject]. *)
Definition isCompactObject (entries : Object) : bool :=
  (length entries <=? 5)%nat
  && forallb (fun kv =>
                isScalar (snd kv)
                || match snd kv with
                   | VArr val => (length val <=? 10)%nat
                   | _ => false
                   end) entries.

(** [toToon(obj, indent)].  [Object.keys(o).map(key => ... o[key] ...)]
    visits the own properties of [o] in their order. *)
Fixpoint toToon (obj : Value) (indent : nat) {struct obj} : jsstring :=
  let indentStr := indentation indent in
  let nextIndent := (indent + 1)%nat in
  let nextIndentStr := indentation nextIndent in
  match obj with
  | VNull => str "null"
  | VBool b => if b then str "true" else str "false"
  | VNum x => Number_toString x
  | VStr s => [DQ] ++ escape s ++ [DQ]
  | VArr [] => str "[]"
  | VArr obj =>
      if forallb isCompactItem obj then
        let items :=
          map (fun item =>
                 match item with
                 | VObj entries =>
                     let pairs :=
                       map (fun kv =>
                              let keyStr := [DQ] ++ fst kv ++ [DQ] in
                              let valueStr := toToon (snd kv) 0 in
                              keyStr ++ str ": " ++ valueStr) entries in
                     str "{ " ++ join (str ", ") pairs ++ str " }"
                 | _ => str "{  }"
                 end) obj in
        str "[" ++ [LF] ++ nextIndentStr
          ++ join (str "," ++ [LF] ++ nextIndentStr) items
          ++ [LF] ++ indentStr ++ str "]"
      else
        let items := map (fun item => nextIndentStr ++ toToon item nextIndent) obj in
        str "[" ++ [LF] ++ join (str "," ++ [LF]) items
          ++ [LF] ++ indentStr ++ str "]"
  | VObj [] => str "{}"
  | VObj entries =>
      if isCompactObject entries && (indent =? 0)%nat then
        let pairs :=
          map (fun kv =>
                 let keyStr := [DQ] ++ fst kv ++ [DQ] in
                 match snd kv with
                 | VArr ((_ :: _) as val) =>
                     let items :=
                       map (fun item =>
                              match item with
                              | VObj ientries =>
                                  let itemPairs :=
                                    map (fun kv' =>
                                           let kStr := [DQ] ++ fst kv' ++ [DQ] in
                                           let vStr := toToon (snd kv') 0 in
                                           kStr ++ str ": " ++ vStr) ientries in
                                  str "{ " ++ join (str ", ") itemPairs ++ str " }"
                              | _ => toToon item 0
                              end) val in
                     keyStr ++ str ": [" ++ [LF] ++ nextIndentStr
                       ++ join (str "," ++ [LF] ++ nextIndentStr) items
                       ++ [LF] ++ indentStr ++ str "]"
                 | _ => keyStr ++ str ": " ++ toToon (snd kv) 0
                 end) entries in
        str "{" ++ [LF] ++ nextIndentStr
          ++ join (str "," ++ [LF] ++ nextIndentStr) pairs
          ++ [LF] ++ indentStr ++ str "}"
      else
        let pairs :=
          map (fun kv =>
                 let keyStr := [DQ] ++ fst kv ++ [DQ] in
                 let valueStr := toToon (snd kv) nextIndent in
                 nextIndentStr ++ keyStr ++ str ": " ++ valueStr) entries in
        str "{" ++ [LF] ++ join (str "," ++ [LF]) pairs
          ++ [LF] ++ indentStr ++ str "}"
  end.

(** The key of an entry as [toJson] writes it: [key] itself when the
    identifier pattern matches all of it, [toJson(key, 0)] otherwise,
    which for a string is its escaped form between double quotes. *)
Definition keyText (key : jsstring) : jsstring :=
  if isIdentifier key then key else [DQ] ++ escape key ++ [DQ].

(** [toJson(obj, indent)] *)
Fixpoint toJson (obj : Value) (indent : nat) {struct obj} : jsstring :=
  let indentStr := indentation indent in
  let nextIndent := (indent + 1)%nat in
  let nextIndentStr := indentation nextIndent in
  match obj with
  | VNull => str "null"
  | VBool b => if b then str "true" else str "false"
  | VNum x => Number_toString x
  | VStr s => [DQ] ++ escape s ++ [DQ]
  | VArr [] => str "[]"
  | VArr obj =>
      let items := map (fun item => nextIndentStr ++ toJson item nextIndent) obj in
      str "[" ++ [LF] ++ join (str "," ++ [LF]) items
        ++ [LF] ++ indentStr ++ str "]"
  | VObj [] => str "{}"
  | VObj entries =>
      let pairs :=
        map (fun kv =>
               let key := fst kv in
               let keyStr := keyText key in
               let valueStr := toJson (snd kv) nextIndent in
               nextIndentStr ++ keyStr ++ str ": " ++ valueStr) entries in
      str "{" ++ [LF] ++ join (str "," ++ [LF]) pairs
        ++ [LF] ++ indentStr ++ str "}"
  end.

(* ================================================================== *)
(** * The JSON-to-TOON request handler *)
(* ================================================================== *)

(** [req.body.data] as the handler tells it apart. *)
Inductive BodyData :=
| NoData                       (* absent, or not a string *)
| StringData (data : jsstring).

(** [res.status(code).json({ data })] and [res.status(code).json({ error })] *)
Inductive Response :=
| RespondData (status : nat) (data : jsstring)
| RespondError (status : nat) (error : jsstring).

(** [handler(req, res)] of the [json-to-toon] route. *)
Definition handler (method : jsstring) (body : BodyData) : Result Response :=
  if negb (jsstring_eqb method (str "POST")) then
    Ok (RespondError 405 (str "Method not allowed"))
  else
    match body with
    | NoData | StringData [] =>
        Ok (RespondError 400 (str "Invalid input: expected a string"))
    | StringData data =>
        match parseJson data with
        | Ok parsed =>
            let toon := toToon parsed 0 in
            Ok (RespondData 200 toon)
        | Throw message =>
            Ok (RespondError 400
                  (match message with
                   | [] => str "Invalid JSON format"
                   | _ => message
                   end))
        | OutOfFuel => OutOfFuel
        end
    end.

(* ================================================================== *)
(** * Value trees the platform can hold *)
(* ================================================================== *)

(** The digits of a finite non-zero number: at least one, all decimal,
    the first and the last not '0'. *)
Definition canonicalDigits (ds : jsstring) : bool :=
  forallb isDigit ds
  && match ds with [] => false | d :: _ => negb (N.eqb d (ch "0")) end
  && match rev ds with [] => false | d :: _ => negb (N.eqb d (ch "0")) end.

Definition wellFormedNumber (x : number) : bool :=
  match x with
  | Decimal _ ds _ => canonicalDigits ds
  | _ => true
  end.

Definition isFinite (x : number) : bool :=
  match x with
  | NaN | Infinity _ => false
  | _ => true
  end.

(** [k] may come before [k'] among the keys of an object: they differ,
    array indices ascend, and no array index follows another key. *)
Definition keyBefore (k k' : jsstring) : bool :=
  negb (jsstring_eqb k k')
  && match arrayIndex k, arrayIndex k' with
     | Some i, Some j => (i <? j)%N
     | Some _, None => true
     | None, Some _ => false
     | None, None => true
     end.

Fixpoint keysOrdered (keys : list jsstring) : bool :=
  match keys with
  | [] => true
  | k :: keys' => forallb (keyBefore k) keys' && keysOrdered keys'
  end.

(** [everywhere pn ps pk v]: every number of [v] satisfies [pn], every
    string value [ps], every list of object keys [pk]. *)
Fixpoint everywhere (pn : number -> bool) (ps : jsstring -> bool)
  (pk : list jsstring -> bool) (v : Value) {struct v} : bool :=
  match v with
  | VNull | VBool _ => true
  | VNum x => pn x
  | VStr s => ps s
  | VArr items => forallb (everywhere pn ps pk) items
  | VObj entries =>
      pk (map fst entries)
      && forallb (fun kv => everywhere pn ps pk (snd kv)) entries
  end.

(** A value tree as JavaScript holds it: numbers in canonical form,
    object keys pairwise different and in property order. *)
Definition wellFormed : Value -> bool :=
  everywhere wellFormedNumber (fun _ => true) keysOrdered.

Definition finiteNumbers : Value -> bool :=
  everywhere isFinite (fun _ => true) (fun _ => true).

(** No object has an own property named [__proto__]. *)
Definition noProtoKey : Value -> bool :=
  everywhere (fun _ => true) (fun _ => true)
    (forallb (fun k => negb (jsstring_eqb k (str "__proto__")))).

(** A character the JSON grammar lets stand unescaped in a string. *)
Definition isPlainChar (c : char) : bool :=
  negb (c <? 32)%N && negb (N.eqb c DQ) && negb (N.eqb c BACKSLASH).

(** A character the serializers write so that [JSON.parse] reads it
    back: one they escape, or one that needs no escape. *)
Definition isJsonSafeChar (c : char) : bool :=
  negb (c <? 32)%N || N.eqb c LF || N.eqb c CR || N.eqb c TAB.

(** Every string value consists of such characters, and every key of
    characters that need no escape at all. *)
Definition jsonSafe : Value -> bool :=
  everywhere (fun _ => true) (forallb isJsonSafeChar)
    (forallb (forallb isPlainChar)).

Fixpoint depth (v : Value) {struct v} : nat :=
  match v with
  | VArr items => S (fold_right (fun item d => Nat.max (depth item) d) 0%nat items)
  | VObj entries =>
      S (fold_right (fun kv d => Nat.max (depth (snd kv)) d) 0%nat entries)
  | _ => 0%nat
  end.

(* ================================================================== *)
(** * Shapes of texts *)
(* ================================================================== *)

(** [s] does not end in white space. *)
Definition endsTight (s : jsstring) : bool :=
  match rev s with
  | [] => true
  | c :: _ => negb (isWhiteSpace c)
  end.

(** [s] is not empty and does not start with white space. *)
Definition startsTight (s : jsstring) : bool :=
  match s with
  | [] => false
  | c :: _ => negb (isWhiteSpace c)
  end.

(** What may follow a number for the number pattern to stop there. *)
Definition numberBoundary (rest : jsstring) : bool :=
  match rest with
  | [] => true
  | c :: _ =>
      negb (isDigit c) && negb (N.eqb c (ch "."))
      && negb (N.eqb c (ch "e")) && negb (N.eqb c (ch "E"))
  end.

(** The fraction and the exponent of a number text, when there is one. *)
Definition fractionText (frac : jsstring) : jsstring :=
  match frac with [] => [] | _ => ch "." :: frac end.

Definition optionalExponent (e : option Z) : jsstring :=
  match e with None => [] | Some z => exponentText z end.

(** What the five replacements of [escape] make of one character. *)
Definition escapeChar (c : char) : jsstring :=
  if N.eqb c BACKSLASH then [BACKSLASH; BACKSLASH]
  else if N.eqb c DQ then [BACKSLASH; DQ]
  else if N.eqb c LF then BACKSLASH :: str "n"
  else if N.eqb c CR then BACKSLASH :: str "r"
  else if N.eqb c TAB then BACKSLASH :: str "t"
  else [c].

(* ================================================================== *)
(** * One turn of the object loop, in two halves *)
(* ================================================================== *)

(** The first half of a turn of [parseObject_loop], from the trimmed
    [remaining1] to the key and to what the value is parsed from. *)
Definition parseObject_key (remaining1 : jsstring)
  : Result (jsstring * jsstring) :=
  let* (key, keyMatch, remaining2) :=
    (if startsWith remaining1 [DQ] || startsWith remaining1 [SQ] then
       let* keyResult := parseString remaining1 in
       Ok (value keyResult, false, trim (remaining keyResult))
     else
       match matchKey remaining1 with
       | None => Throw (str "Expected key, got: " ++ substring0 30 remaining1)
       | Some (key, after) => Ok (key, true, trim after)
       end) in
  if negb keyMatch && negb (startsWith remaining2 (str ":")) then
    Throw (str "Expected ':' after key, got: " ++ substring0 30 remaining2)
  else
    Ok (key,
        if negb keyMatch && startsWith remaining2 (str ":")
        then trim (substring 1 remaining2) else remaining2).

(** The second half, after the value: the closing brace, a comma, an
    error, or the end of the input. *)
Inductive AfterEntry :=
| Return (result : ParseResult JsValue)
| Continue (remaining : jsstring)
| Raise (message : jsstring)
| Break.

Definition parseObject_after (obj' : JsObject) (remaining4 : jsstring)
  : AfterEntry :=
  if startsWith remaining4 (str "}") then
    Return (mkParseResult (objectValue obj') (substring 1 remaining4))
  else if startsWith remaining4 (str ",") then
    Continue (trim (substring 1 remaining4))
  else if (0 <? length remaining4)%nat then
    Raise (str "Expected ',' or '}', got: " ++ substring0 30 remaining4)
  else Break.

(** [rec] reads the value [v] off the text [t], whatever follows it. *)
Definition parsesTo (rec : jsstring -> Result (ParseResult JsValue))
  (t : jsstring) (v : Value) : Prop :=
  forall tail,
    endsTight tail = true -> numberBoundary tail = true ->
    rec (t ++ tail) = Ok (mkParseResult (plain v) tail).

(** A text with no white space at either end. *)
Definition tight (t : jsstring) : Prop :=
  startsTight t = true /\ endsTight t = true.

(** The text of the items of an array and of what closes it, for the
    white space [sepw] after a comma and [closew] before the bracket. *)
Definition itemsText (sepw closew : jsstring) (tvs : list (jsstring * Value))
  (rest : jsstring) : jsstring :=
  join (str "," ++ sepw) (map fst tvs) ++ closew ++ str "]" ++ rest.

(** The text of the entries of an object and of what closes it; an entry
    is a key, the text of its value and the value. *)
Definition entryText (e : jsstring * jsstring * Value) : jsstring :=
  keyText (fst (fst e)) ++ str ": " ++ snd (fst e).

Definition entryPair (e : jsstring * jsstring * Value) : jsstring * Value :=
  (fst (fst e), snd e).

Definition entriesText (sepw closew : jsstring)
  (es : list (jsstring * jsstring * Value)) (rest : jsstring) : jsstring :=
  join (str "," ++ sepw) (map entryText es) ++ closew ++ str "}" ++ rest.

(** The first character of the text of a value. *)
Definition valueHead (c : char) : bool :=
  isDigit c || N.eqb c (ch "-") || N.eqb c DQ || N.eqb c (ch "[")
  || N.eqb c (ch "{") || N.eqb c (ch "n") || N.eqb c (ch "t")
  || N.eqb c (ch "f").

(** The items of an array with the text [render] gives them, and the
    entries of an object likewise. *)
Definition itemTexts (render : Value -> jsstring) (items : list Value)
  : list (jsstring * Value) :=
  map (fun item => (render item, item)) items.

Definition entryTexts (render : Value -> jsstring) (entries : Object)
  : list (jsstring * jsstring * Value) :=
  map (fun kv => (fst kv, render (snd kv), snd kv)) entries.

(* ================================================================== *)
(** * Texts the strict parser reads *)
(* ================================================================== *)

(** [rec] reads the value [v] off the text [t], after any white space
    and whatever follows. *)
Definition jsonParsesTo (rec : jsstring -> Result (ParseResult Value))
  (t : jsstring) (v : Value) : Prop :=
  forall w tail,
    forallb JSON.isWhiteSpace w = true -> numberBoundary tail = true ->
    rec (w ++ t ++ tail) = Ok (mkParseResult v tail).

(** A member as [toToon] writes it: the key between quotes as it is, a
    colon, a space and the text of the value. *)
Definition memberText (e : jsstring * jsstring * Value) : jsstring :=
  ([DQ] ++ fst (fst e) ++ [DQ]) ++ str ": " ++ snd (fst e).

Definition membersText (sepw closew : jsstring)
  (es : list (jsstring * jsstring * Value)) (rest : jsstring) : jsstring :=
  join (str "," ++ sepw) (map memberText es) ++ closew ++ str "}" ++ rest.

(** The single-line forms of [toToon]: a pair, the brace block of an
    object, an item and a value of the outermost compact object. *)
Definition pairText (kv : jsstring * Value) : jsstring :=
  ([DQ] ++ fst kv ++ [DQ]) ++ str ": " ++ toToon (snd kv) 0.

Definition braceBlock (entries : Object) : jsstring :=
  str "{ " ++ join (str ", ") (map pairText entries) ++ str " }".

Definition inlineItem (item : Value) : jsstring :=
  match item with
  | VObj entries => braceBlock entries
  | _ => toToon item 0
  end.

Definition inlineValue (val : Value) : jsstring :=
  match val with
  | VArr ((_ :: _) as items) =>
      str "[" ++ [LF] ++ indentation 1
        ++ join (str "," ++ [LF] ++ indentation 1) (map inlineItem items)
        ++ [LF] ++ indentation 0 ++ str "]"
  | _ => toToon val 0
  end.

(* ================================================================== *)
(** * The words of the specification *)
(* ================================================================== *)

(** The text of a scalar as the specification gives it: [null], [true]
    or [false], the decimal form of a number, a string between double
    quotes with the backslash, the quote, the newline, the carriage
    return and the tab escaped. *)
Definition specScalarText (v : Value) : jsstring :=
  match v with
  | VNull => str "null"
  | VBool true => str "true"
  | VBool false => str "false"
  | VNum x => Number_toString x
  | VStr s => [DQ] ++ flat_map escapeChar s ++ [DQ]
  | _ => []
  end.

(** The single-line brace block of the specification, the keys between
    double quotes: an opening brace, the pairs joined by a comma and a
    space, a closing brace, with a space inside each brace. *)
Definition specBraceBlock (item : Value) : jsstring :=
  match item with
  | VObj entries =>
      str "{ "
        ++ join (str ", ")
             (map (fun kv => [DQ] ++ fst kv ++ [DQ] ++ str ": "
                               ++ specScalarText (snd kv)) entries)
        ++ str " }"
  | _ => []
  end.

(** The compact array of the specification: the brace blocks joined by
    a comma and a newline one level deeper, inside the brackets. *)
Definition specCompactArray (items : list Value) (indent : nat) : jsstring :=
  str "[" ++ [LF] ++ indentation (indent + 1)
    ++ join (str "," ++ [LF] ++ indentation (indent + 1))
         (map specBraceBlock items)
    ++ [LF] ++ indentation indent ++ str "]".

(** The line-per-element array of the specification, for the serializer
    [render]: every element rendered one level deeper on a line of its
    own behind its indentation, the lines joined by a comma and a
    newline, inside the brackets. *)
Definition specLinePerElement (render : Value -> nat -> jsstring)
  (items : list Value) (indent : nat) : jsstring :=
  str "[" ++ [LF]
    ++ join (str "," ++ [LF])
         (map (fun item => indentation (indent + 1) ++ render item (indent + 1))
            items)
    ++ [LF] ++ indentation indent ++ str "]".

(** A string between double quotes. *)
Definition quoted (s : jsstring) : jsstring := [DQ] ++ s ++ [DQ].

(** The line-per-entry object of the specification, for the serializer
    [render]: every key between double quotes, a colon, a space and the
    value rendered one level deeper, each pair on a line of its own
    behind its indentation, the lines joined by a comma and a newline,
    inside the braces. *)
Definition specLinePerMember (render : Value -> nat -> jsstring)
  (entries : Object) (indent : nat) : jsstring :=
  str "{" ++ [LF]
    ++ join (str "," ++ [LF])
         (map (fun kv => indentation (indent + 1) ++ quoted (fst kv) ++ str ": "
                           ++ render (snd kv) (indent + 1))
            entries)
    ++ [LF] ++ indentation indent ++ str "}".

(** The compact object: what the heuristic for the outermost object
    writes, for the serializer [render].  An element of an array inside
    it is a single-line brace block when it is an object, of any size
    and with any values, and is rendered at indent level 0 otherwise;
    so are the values of the brace block. *)
Definition specInlineElement (render : Value -> nat -> jsstring)
  (item : Value) : jsstring :=
  match item with
  | VObj entries =>
      str "{ "
        ++ join (str ", ")
             (map (fun kv => quoted (fst kv) ++ str ": " ++ render (snd kv) 0)
                entries)
        ++ str " }"
  | _ => render item 0
  end.

(** A value of the compact object: a non-empty array has its elements
    on lines of their own behind one level of indentation, joined by a
    comma and a newline, and its closing bracket at the start of a line;
    any other value is rendered at indent level 0. *)
Definition specInlineValue (render : Value -> nat -> jsstring)
  (val : Value) : jsstring :=
  match val with
  | VArr ((_ :: _) as items) =>
      str "[" ++ [LF] ++ indentation 1
        ++ join (str "," ++ [LF] ++ indentation 1)
             (map (specInlineElement render) items)
        ++ [LF] ++ str "]"
  | _ => render val 0
  end.

(** The pairs of the compact object on lines of their own behind one
    level of indentation, inside the braces. *)
Definition specCompactObject (render : Value -> nat -> jsstring)
  (entries : Object) : jsstring :=
  str "{" ++ [LF] ++ indentation 1
    ++ join (str "," ++ [LF] ++ indentation 1)
         (map (fun kv => quoted (fst kv) ++ str ": "
                           ++ specInlineValue render (snd kv))
            entries)
    ++ [LF] ++ str "}".

(** The strict serializer in the words of the specification, with the
    two heuristics: a non-empty array is a compact array when all its
    elements pass [isCompactItem] and a line-per-element array
    otherwise; a non-empty object is a compact object at indent level 0
    when it passes [isCompactObject] and a line-per-entry object
    otherwise. *)
Fixpoint specStrict (v : Value) (indent : nat) {struct v} : jsstring :=
  match v with
  | VArr [] => str "[]"
  | VArr items =>
      if forallb isCompactItem items then specCompactArray items indent
      else specLinePerElement specStrict items indent
  | VObj [] => str "{}"
  | VObj entries =>
      if isCompactObject entries && (indent =? 0)%nat
      then specCompactObject specStrict entries
      else specLinePerMember specStrict entries indent
  | _ => specScalarText v
  end.

(* ================================================================== *)
(** * Examples of the specification *)
(* ================================================================== *)

(** [[{"id":1,"name":"Alice"},{"id":2,"name":"Bob"}]] *)
Definition exampleUsers : list Value :=
  [ VObj [(str "id", VNum (integer 1)); (str "name", VStr (str "Alice"))];
    VObj [(str "id", VNum (integer 2)); (str "name", VStr (str "Bob"))] ].

(** The text the specification gives for it: an opening bracket, the two
    brace blocks on lines of their own behind two spaces, a closing
    bracket. *)
Definition exampleUsersCompact : jsstring :=
  str "[" ++ [LF]
    ++ str "  { " ++ quoted (str "id") ++ str ": 1, "
    ++ quoted (str "name") ++ str ": " ++ quoted (str "Alice") ++ str " },"
    ++ [LF]
    ++ str "  { " ++ quoted (str "id") ++ str ": 2, "
    ++ quoted (str "name") ++ str ": " ++ quoted (str "Bob") ++ str " }"
    ++ [LF] ++ str "]".

(** A tree with every kind of value: a key that is no identifier, a
    string with a quote, a backslash and a newline, the number -1.5. *)
Definition exampleTree : Value :=
  VObj [ (str "users", VArr exampleUsers);
         (str "first name", VStr (str "a" ++ [DQ; BACKSLASH; LF] ++ str "b"));
         (str "n", VNum (Decimal true (str "15") 1));
         (str "rest", VArr [VNull; VBool true; VObj []; VArr []; VNum Zero]) ].

(** [{"a": [1]}], and the text [toToon] writes for it: the element of
    the array behind one level of indentation, not two, and the closing
    bracket behind none. *)
Definition exampleInline : Value :=
  VObj [(str "a", VArr [VNum (integer 1)])].

Definition exampleInlineText : jsstring :=
  str "{" ++ [LF]
    ++ str "  " ++ quoted (str "a") ++ str ": [" ++ [LF]
    ++ str "  1" ++ [LF]
    ++ str "]" ++ [LF]
    ++ str "}".

(** An object whose only key is [__proto__], as [JSON.parse] makes it
    from [{"__proto__": null}]. *)
Definition exampleProto : Value := VObj [(str "__proto__", VNull)].



Definition exampleUnclosed : jsstring :=
  str "{" ++ quoted (str "a") ++ str ": 1".

(** [{name: "Alice", age: 30}] and [{"name": "Alice", "age": 30}] *)
Definition exampleUnquoted : jsstring :=
  str "{name: " ++ quoted (str "Alice") ++ str ", age: 30}".

Definition exampleQuoted : jsstring :=
  str "{" ++ quoted (str "name") ++ str ": " ++ quoted (str "Alice")
    ++ str ", " ++ quoted (str "age") ++ str ": 30}".

(** [{"a":1} garbage] *)
Definition exampleTrailing : jsstring :=
  str "{" ++ quoted (str "a") ++ str ":1} garbage".

(** The eight characters of the string literal with the escape [A],
    and an object that uses the escape [a] in a key. *)
Definition exampleUnicode : jsstring := quoted (BACKSLASH :: str "u0041").

Definition exampleUnicodeKey : jsstring :=
  str "{" ++ quoted (str "a") ++ str ":1," ++ quoted (str "u0061") ++ str ":1,"
    ++ quoted (BACKSLASH :: str "u0061") ++ str ":1}".

(** The characters after the opening quote of a string literal have,
    before the quote that closes it, a backslash followed by [u]. *)
Fixpoint hasUnicodeEscape (s : jsstring) : bool :=
  match s with
  | [] => false
  | c :: s' =>
      if N.eqb c DQ then false
      else if N.eqb c BACKSLASH then
        match s' with
        | [] => false
        | e :: s'' => if N.eqb e (ch "u") then true else hasUnicodeEscape s''
        end
      else hasUnicodeEscape s'
  end.

(** Every object of the tree has its keys pairwise different and in
    property order. *)
Definition orderedKeys : Value -> bool :=
  everywhere (fun _ => true) (fun _ => true) keysOrdered.

(* ================================================================== *)
(** * The TOON-to-JSON request handler *)
(* ================================================================== *)

Module ToonToJson.

(** [handler(req, res)] of the [toon-to-json] route. *)
Definition handler (method : jsstring) (body : BodyData) : Result Response :=
  if negb (jsstring_eqb method (str "POST")) then
    Ok (RespondError 405 (str "Method not allowed"))
  else
    match body with
    | NoData | StringData [] =>
        Ok (RespondError 400 (str "Invalid input: expected a string"))
    | StringData data =>
        match parseToon data with
        | Ok parsed =>
            let json := toJson parsed 0 in
            Ok (RespondData 200 json)
        | Throw message =>
            Ok (RespondError 400
                  (match message with
                   | [] => str "Invalid TOON format"
                   | _ => message
                   end))
        | OutOfFuel => OutOfFuel
        end
    end.

End ToonToJson.

(* ================================================================== *)
(** * Notions for the properties of the parsers *)
(* ================================================================== *)

(** The messages of the errors the relaxed parser can throw: two fixed
    texts, and six beginnings that a piece of the input follows. *)
Definition relaxedErrorPrefixes : list jsstring :=
  [ str "Unexpected characters after parsed value: ";
    str "Unexpected token: ";
    str "Expected key, got: ";
    str "Expected ':' after key, got: ";
    str "Expected ',' or '}', got: ";
    str "Expected ',' or ']', got: " ].

Definition isRelaxedError (message : jsstring) : bool :=
  jsstring_eqb message (str "Empty input")
  || jsstring_eqb message (str "Unterminated string")
  || existsb (startsWith message) relaxedErrorPrefixes.

(** No backslash of the text, read in pairs from the left, is followed
    by [b], [f] or [u]: the escapes [JSON.parse] decodes and the relaxed
    parser does not. *)
Fixpoint plainEscapes (s : jsstring) : bool :=
  match s with
  | [] => true
  | c :: s' =>
      if N.eqb c BACKSLASH then
        match s' with
        | [] => true
        | e :: s'' =>
            negb (N.eqb e (ch "b")) && negb (N.eqb e (ch "f"))
            && negb (N.eqb e (ch "u")) && plainEscapes s''
        end
      else plainEscapes s'
  end.

(** The value tree without the entries named [__proto__], at any depth. *)
Definition isProto (kv : jsstring * Value) : bool :=
  jsstring_eqb (fst kv) (str "__proto__").

Fixpoint withoutProto (v : Value) {struct v} : Value :=
  match v with
  | VArr items => VArr (map withoutProto items)
  | VObj entries =>
      VObj (filter (fun kv => negb (isProto kv))
              (map (fun kv => (fst kv, withoutProto (snd kv))) entries))
  | _ => v
  end.

(** [s] ends with [t]. *)
Definition endsWith (s t : jsstring) : Prop := exists before, s = before ++ t.

Definition withoutProtoEntries (entries : Object) : Object :=
  filter (fun kv => negb (isProto kv))
    (map (fun kv => (fst kv, withoutProto (snd kv))) entries).

(** A character that is no double quote, no backslash and no colon. *)
Definition isDull (c : char) : bool :=
  negb (N.eqb c DQ) && negb (N.eqb c BACKSLASH) && negb (N.eqb c (ch ":")).

(** [p] has no quote, no backslash and no colon and ends with a digit,
    as every text the number pattern matches. *)
Definition digitEnd (p : jsstring) : bool :=
  forallb isDull p
  && match rev p with d :: _ => isDigit d | [] => false end.

(** The backslashes of [t] pair up inside [t], and none of the pairs is
    [\b], [\f] or [\u]: whatever text follows [t] is read on its own. *)
Definition closedEscapes (t : jsstring) : Prop :=
  forall rest, plainEscapes (t ++ rest) = plainEscapes rest.

(** The status code of a response, and whether it carries [data]. *)
Definition responseStatus (response : Response) : nat :=
  match response with
  | RespondData status _ => status
  | RespondError status _ => status
  end.

Definition hasData (response : Response) : bool :=
  match response with
  | RespondData _ _ => true
  | RespondError _ _ => false
  end.

(* ================================================================== *)
(** * Notions for the two parsers side by side *)
(* ================================================================== *)

(** The entries of the objects of a value tree, at every depth: each
    one stands for a member some text has written. *)
Fixpoint entryCount (v : Value) {struct v} : nat :=
  match v with
  | VArr items => list_sum (map entryCount items)
  | VObj entries => list_sum (map (fun kv => S (entryCount (snd kv))) entries)
  | _ => 0%nat
  end.

(** The characters of the strings and of the keys of a value tree. *)
Fixpoint characters (v : Value) {struct v} : nat :=
  match v with
  | VStr s => length s
  | VArr items => list_sum (map characters items)
  | VObj entries =>
      list_sum (map (fun kv => (length (fst kv) + characters (snd kv))%nat) entries)
  | _ => 0%nat
  end.

(** The colons of a text that stand outside its string literals, one
    after the key of each member; [inString] tells where the text
    starts. *)
Fixpoint colons (inString : bool) (s : jsstring) {struct s} : nat :=
  match s with
  | [] => 0%nat
  | c :: s' =>
      if inString then
        if N.eqb c BACKSLASH then
          match s' with
          | [] => 0%nat
          | _ :: s'' => colons true s''
          end
        else if N.eqb c DQ then colons false s'
        else colons true s'
      else if N.eqb c DQ then colons true s'
      else ((if N.eqb c (ch ":") then 1 else 0) + colons false s')%nat
  end.

(** Some backslash of the text, read in pairs from the left, is followed
    by [u]. *)
Fixpoint unicodeEscaped (s : jsstring) : bool :=
  match s with
  | [] => false
  | c :: s' =>
      if N.eqb c BACKSLASH then
        match s' with
        | [] => false
        | e :: s'' => N.eqb e (ch "u") || unicodeEscaped s''
        end
      else unicodeEscaped s'
  end.

(** Two value trees that differ in their entries named [__proto__] only,
    the second having such an entry only where the first has one: the
    other entries are the same, in the same order. *)
Definition notProto (kv : jsstring * Value) : bool := negb (isProto kv).

Inductive alike : Value -> Value -> Prop :=
| alike_null : alike VNull VNull
| alike_bool (b : bool) : alike (VBool b) (VBool b)
| alike_num (x : number) : alike (VNum x) (VNum x)
| alike_str (s : jsstring) : alike (VStr s) (VStr s)
| alike_arr (xs ys : list Value) :
    Forall2 alike xs ys -> alike (VArr xs) (VArr ys)
| alike_obj (so ro : Object) :
    Forall2 (fun e e' => fst e = fst e' /\ alike (snd e) (snd e'))
      (filter notProto so) (filter notProto ro) ->
    (hasKey ro (str "__proto__") = true -> hasKey so (str "__proto__") = true) ->
    alike (VObj so) (VObj ro).

(** Two entries with the same key and values that are alike. *)
Definition sameEntry (e e' : jsstring * Value) : Prop :=
  fst e = fst e' /\ alike (snd e) (snd e').

Definition alikeEntries (so ro : Object) : Prop :=
  Forall2 (fun e e' => fst e = fst e' /\ alike (snd e) (snd e'))
    (filter notProto so) (filter notProto ro)
  /\ (hasKey ro (str "__proto__") = true -> hasKey so (str "__proto__") = true).

(** From the text [s] to its end [r] there are [n] colons outside
    strings and no backslash. *)
Definition passes (n : nat) (s r : jsstring) : Prop :=
  colons false s = (n + colons false r)%nat
  /\ unicodeEscaped s = unicodeEscaped r
  /\ plainEscapes s = plainEscapes r.

(** What the two parsers have made, [v] the strict one and [v'] the
    relaxed one, of the text from [s] to [r].  When it has none of the
    escapes only [JSON.parse] decodes they are alike.  Neither has more
    entries than the text has members; when both have that many, no
    member was overwritten or dropped, and then [v'] has at least the
    characters of [v], and more when the text has a backslash followed
    by [u]. *)
Definition sideBySide (s r : jsstring) (v v' : Value) : Prop :=
  (plainEscapes s = true -> plainEscapes r = true /\ alike v v')
  /\ exists n,
      colons false s = (n + colons false r)%nat
      /\ entryCount v <= n /\ entryCount v' <= n
      /\ (entryCount v = n -> entryCount v' = n ->
          characters v <= characters v'
          /\ (unicodeEscaped s = true ->
              unicodeEscaped r = true \/ characters v < characters v')).

(** The same of an object or an array under construction, [acc] by the
    strict parser and [acc'] by the relaxed one, that the text from [s]
    to [r] completes to [v] and [v']; [P] stands for what came before. *)
Definition sideBySideFrom (P : Prop) (acc acc' : Value) (s r : jsstring)
  (v v' : Value) : Prop :=
  (P -> plainEscapes s = true -> plainEscapes r = true /\ alike v v')
  /\ exists n,
      colons false s = (n + colons false r)%nat
      /\ entryCount v <= entryCount acc + n
      /\ entryCount v' <= entryCount acc' + n
      /\ (entryCount v = (entryCount acc + n)%nat ->
          entryCount v' = (entryCount acc' + n)%nat ->
          characters v + characters acc' <= characters v' + characters acc
          /\ (unicodeEscaped s = true ->
              unicodeEscaped r = true
              \/ characters v + characters acc' < characters v' + characters acc)).

(* ================================================================== *)
(** * Notions for the members of an object literal *)
(* ================================================================== *)







(** The object literal with the given members, in their order, keys
    repeated or not: an opening brace, each key between double quotes
    with a colon, a space and the text of its value, a comma and a space
    between two members, a closing brace. *)
Definition objectText (members : Object) : jsstring :=
  str "{"
    ++ join (str ", ")
         (map (fun kv => quoted (fst kv) ++ str ": " ++ toToon (snd kv) 0) members)
    ++ str "}".

(** [{"__proto__": 1, "__proto__": 2}] and
    [{"__proto__": null, "__proto__": 1}] *)
Definition exampleProtoTwice : jsstring :=
  objectText [(str "__proto__", VNum (integer 1));
              (str "__proto__", VNum (integer 2))].

Definition exampleProtoCut : jsstring :=
  objectText [(str "__proto__", VNull); (str "__proto__", VNum (integer 1))].


Unset Implicit Arguments.

(* ================================================================== *)
(** * Strings: basic facts *)
(* ================================================================== *)

(** Boolean tests on characters, turned into arithmetic. *)
Ltac char_facts :=
  repeat match goal with
         | H : _ && _ = true |- _ => apply andb_true_iff in H; destruct H
         | H : _ || _ = false |- _ => apply orb_false_iff in H; destruct H
         | H : negb _ = true |- _ => apply negb_true_iff in H
         | H : negb _ = false |- _ => apply negb_false_iff in H
         | H : N.eqb _ _ = true |- _ => apply N.eqb_eq in H
         | H : N.eqb _ _ = false |- _ => apply N.eqb_neq in H
         | H : N.leb _ _ = true |- _ => apply N.leb_le in H
         | H : N.leb _ _ = false |- _ => apply N.leb_gt in H
         | H : N.ltb _ _ = true |- _ => apply N.ltb_lt in H
         | H : N.ltb _ _ = false |- _ => apply N.ltb_ge in H
         end.

Ltac char_case c :=
  repeat match goal with
         | |- context [N.eqb c ?k] => destruct (N.eqb_spec c k)
         | |- context [N.leb c ?k] => destruct (N.leb_spec c k)
         | |- context [N.leb ?k c] => destruct (N.leb_spec k c)
         | |- context [N.ltb c ?k] => destruct (N.ltb_spec c k)
         end.

Ltac char_consts :=
  repeat match goal with
         | |- context [ch ?a] =>
             let v := eval vm_compute in (ch a) in change (ch a) with v
         | H : context [ch ?a] |- _ =>
             let v := eval vm_compute in (ch a) in change (ch a) with v in H
         end.

Ltac char_solve :=
  unfold isIdentPart in *;
  unfold isWhiteSpace, JSON.isWhiteSpace, isDigit, isIdentStart,
    isPlainChar, isJsonSafeChar, DQ, SQ, BACKSLASH, LF, CR, TAB, BS, FF in *;
  char_consts;
  repeat progress
    (rewrite ?andb_true_iff, ?orb_true_iff, ?negb_true_iff, ?andb_false_iff,
       ?orb_false_iff, ?negb_false_iff, ?N.eqb_eq, ?N.eqb_neq, ?N.leb_le,
       ?N.leb_gt, ?N.ltb_lt, ?N.ltb_ge in *);
  lia.

(** Comparisons of two known characters are evaluated. *)
Ltac decide_chars :=
  repeat match goal with
         | |- context [N.eqb ?a ?b] =>
             let v := eval vm_compute in (N.eqb a b) in
             lazymatch v with
             | true => change (N.eqb a b) with true
             | false => change (N.eqb a b) with false
             end
         end;
  cbv iota.

Lemma Ok_inj (A : Type) (a b : A) : Ok a = Ok b -> a = b.
Proof. congruence. Qed.

Lemma Return_inj (a b : ParseResult JsValue) : Return a = Return b -> a = b.
Proof. congruence. Qed.

Lemma Continue_inj (a b : jsstring) : Continue a = Continue b -> a = b.
Proof. congruence. Qed.

Lemma jsstring_eqb_eq (a b : jsstring) : jsstring_eqb a b = true <-> a = b.
Proof.
  revert b; induction a as [|x a IH]; intros [|y b]; cbn; split;
    try congruence; try reflexivity.
  - intros H. apply andb_true_iff in H. destruct H as [H1 H2].
    apply N.eqb_eq in H1. apply IH in H2. congruence.
  - intros H. injection H as -> ->. rewrite N.eqb_refl. cbn. now apply IH.
Qed.

Lemma jsstring_eqb_refl (a : jsstring) : jsstring_eqb a a = true.
Proof. now apply jsstring_eqb_eq. Qed.

Lemma jsstring_eqb_neq (a b : jsstring) : jsstring_eqb a b = false <-> a <> b.
Proof.
  split.
  - intros H E. apply jsstring_eqb_eq in E. congruence.
  - intros H. destruct (jsstring_eqb a b) eqn:E; [|reflexivity].
    apply jsstring_eqb_eq in E. contradiction.
Qed.

Lemma startsWith_app (p s : jsstring) : startsWith (p ++ s) p = true.
Proof. induction p as [|c p IH]; cbn; [reflexivity|]. now rewrite N.eqb_refl. Qed.

Lemma startsWith_char (c d : char) (s : jsstring) :
  startsWith (d :: s) [c] = N.eqb d c.
Proof. cbn. now rewrite andb_true_r. Qed.

(** ** White space and [trim] *)

Lemma trimStart_length (s : jsstring) : length (trimStart s) <= length s.
Proof.
  induction s as [|c s IH]; cbn; [lia|]. destruct (isWhiteSpace c); cbn; lia.
Qed.

Lemma trimEnd_length (s : jsstring) : length (trimEnd s) <= length s.
Proof.
  unfold trimEnd. rewrite length_rev.
  etransitivity; [apply trimStart_length|]. now rewrite length_rev.
Qed.

Lemma trim_length (s : jsstring) : length (trim s) <= length s.
Proof.
  unfold trim. etransitivity; [apply trimEnd_length|apply trimStart_length].
Qed.

Lemma trimEnd_tight (s : jsstring) : endsTight s = true -> trimEnd s = s.
Proof.
  unfold endsTight, trimEnd. intros H.
  destruct (rev s) as [|c r] eqn:E.
  - cbn. apply (f_equal (@rev _)) in E. now rewrite rev_involutive in E.
  - cbn. apply negb_true_iff in H. rewrite H. rewrite <- E. apply rev_involutive.
Qed.

Lemma endsTight_app (a b : jsstring) :
  endsTight a = true -> endsTight b = true -> endsTight (a ++ b) = true.
Proof.
  unfold endsTight. rewrite rev_app_distr.
  destruct (rev b) as [|c r]; cbn; auto.
Qed.

Lemma endsTight_app_r (a b : jsstring) :
  b <> [] -> endsTight b = true -> endsTight (a ++ b) = true.
Proof.
  unfold endsTight. rewrite rev_app_distr. intros Hb.
  destruct (rev b) as [|c r] eqn:E; cbn; auto.
  apply (f_equal (@rev _)) in E. rewrite rev_involutive in E. contradiction.
Qed.

Lemma endsTight_cons (c : char) (s : jsstring) :
  s <> [] -> endsTight s = true -> endsTight (c :: s) = true.
Proof. intros. now apply (endsTight_app_r [c]). Qed.

Lemma endsTight_tail (a b : jsstring) :
  b <> [] -> endsTight (a ++ b) = true -> endsTight b = true.
Proof.
  unfold endsTight. rewrite rev_app_distr. intros Hb.
  destruct (rev b) as [|c r] eqn:E; cbn; auto.
Qed.

Lemma trimStart_tight (s : jsstring) : startsTight s = true -> trimStart s = s.
Proof.
  destruct s as [|c s]; cbn; [discriminate|].
  intros H. apply negb_true_iff in H. now rewrite H.
Qed.

Lemma trim_tight (s : jsstring) :
  startsTight s = true -> endsTight s = true -> trim s = s.
Proof.
  intros H1 H2. unfold trim. rewrite trimStart_tight by assumption.
  now apply trimEnd_tight.
Qed.

Lemma trim_nil : trim [] = [].
Proof. reflexivity. Qed.

Lemma trimStart_ws (w s : jsstring) :
  forallb isWhiteSpace w = true -> trimStart (w ++ s) = trimStart s.
Proof.
  induction w as [|c w IH]; cbn; [reflexivity|].
  intros H. apply andb_true_iff in H. destruct H as [H1 H2]. rewrite H1. auto.
Qed.

Lemma trim_ws (w s : jsstring) :
  forallb isWhiteSpace w = true -> trim (w ++ s) = trim s.
Proof. intros H. unfold trim. now rewrite trimStart_ws. Qed.

Lemma trimStart_all_ws (w : jsstring) :
  forallb isWhiteSpace w = true -> trimStart w = [].
Proof.
  induction w as [|c w IH]; cbn; [reflexivity|].
  intros H. apply andb_true_iff in H. destruct H as [H1 H2]. rewrite H1. auto.
Qed.

Lemma trimStart_nil_inv (s : jsstring) :
  trimStart s = [] -> forallb isWhiteSpace s = true.
Proof.
  induction s as [|c s IH]; cbn; [reflexivity|].
  destruct (isWhiteSpace c); cbn; [assumption|discriminate].
Qed.

Lemma trim_nil_inv (s : jsstring) : trim s = [] -> forallb isWhiteSpace s = true.
Proof.
  unfold trim, trimEnd. intros H.
  apply (f_equal (@rev _)) in H. rewrite rev_involutive in H. cbn in H.
  apply trimStart_nil_inv in H.
  rewrite forallb_forall in H.
  assert (forallb isWhiteSpace (trimStart s) = true) as H'.
  { apply forallb_forall. intros x Hx. apply H. now apply -> in_rev. }
  clear H. induction s as [|c s IH]; cbn in *; [reflexivity|].
  destruct (isWhiteSpace c) eqn:E; cbn; auto.
  cbn in H'. now rewrite E in H'.
Qed.

Lemma trim_all_ws (s : jsstring) : forallb isWhiteSpace s = true -> trim s = [].
Proof. intros H. unfold trim. now rewrite trimStart_all_ws. Qed.

Lemma indentation_ws (n : nat) : forallb isWhiteSpace (indentation n) = true.
Proof. induction n; cbn; auto. Qed.

Lemma indentation_length (n : nat) : length (indentation n) = 2 * n.
Proof. induction n; cbn; lia. Qed.

(** ** [span] *)

Lemma span_app (p : char -> bool) (a b : jsstring) :
  forallb p a = true ->
  match b with [] => True | c :: _ => p c = false end ->
  span p (a ++ b) = (a, b).
Proof.
  induction a as [|x a IH]; cbn; intros Ha Hb.
  - destruct b as [|c b]; cbn; [reflexivity|]. now rewrite Hb.
  - apply andb_true_iff in Ha. destruct Ha as [H1 H2]. rewrite H1.
    now rewrite IH.
Qed.

Lemma span_spec (p : char -> bool) (s : jsstring) :
  s = fst (span p s) ++ snd (span p s)
  /\ forallb p (fst (span p s)) = true
  /\ match snd (span p s) with [] => True | c :: _ => p c = false end.
Proof.
  induction s as [|c s IH]; cbn; [auto|].
  destruct (p c) eqn:E.
  - destruct (span p s) as [a b]. cbn in *. destruct IH as (-> & H1 & H2).
    rewrite E. auto.
  - cbn. auto.
Qed.

Lemma span_length (p : char -> bool) (s : jsstring) :
  length (fst (span p s)) + length (snd (span p s)) = length s.
Proof.
  destruct (span_spec p s) as (E & _). rewrite E at 3. now rewrite length_app.
Qed.

(** ** [join] *)

Lemma join_cons (sep p : jsstring) (ps : list jsstring) :
  ps <> [] -> join sep (p :: ps) = p ++ sep ++ join sep ps.
Proof. destruct ps; [contradiction|reflexivity]. Qed.

Lemma join_length_ge (sep : jsstring) (ps : list jsstring) (p : jsstring) :
  In p ps -> length p <= length (join sep ps).
Proof.
  induction ps as [|x ps IH]; [contradiction|].
  intros [->|H].
  - destruct ps; cbn; [lia|]. rewrite length_app. lia.
  - destruct ps as [|y ps]; [contradiction|].
    change (join sep (x :: y :: ps)) with (x ++ sep ++ join sep (y :: ps)).
    rewrite !length_app. specialize (IH H). lia.
Qed.

Lemma join_length_count (sep : jsstring) (ps : list jsstring) :
  (forall p, In p ps -> 0 < length p) -> length ps <= length (join sep ps).
Proof.
  induction ps as [|x ps IH]; intros H; [cbn; lia|].
  destruct ps as [|y ps].
  - cbn. specialize (H x (or_introl eq_refl)). lia.
  - change (join sep (x :: y :: ps)) with (x ++ sep ++ join sep (y :: ps)).
    rewrite !length_app.
    assert (0 < length x) by (apply H; now left).
    assert (length (y :: ps) <= length (join sep (y :: ps))).
    { apply IH. intros p Hp. apply H. now right. }
    cbn [length] in *. lia.
Qed.


(* ================================================================== *)
(** * Numbers: printing and reading back *)
(* ================================================================== *)

Lemma natOfDigits_snoc (ds : jsstring) (d : char) :
  natOfDigits (ds ++ [d]) = (10 * natOfDigits ds + (d - 48))%N.
Proof. unfold natOfDigits. now rewrite fold_left_app. Qed.

Lemma digitsOfFuel_spec (fuel : nat) :
  forall n : N,
    (N.to_nat (N.log2 n) < fuel)%nat ->
    natOfDigits (digitsOfFuel fuel n) = n
    /\ forallb isDigit (digitsOfFuel fuel n) = true
    /\ digitsOfFuel fuel n <> [].
Proof.
  induction fuel as [|fuel IH]; intros n Hn; [lia|].
  cbn [digitsOfFuel]. destruct (N.ltb_spec n 10) as [Hlt|Hge].
  - repeat split.
    + unfold natOfDigits. cbn [fold_left]. lia.
    + cbn [forallb]. rewrite andb_true_r. unfold isDigit.
      apply andb_true_iff. split; [apply N.leb_le|apply N.leb_le]; lia.
    + discriminate.
  - assert (0 < n / 10)%N as Hpos.
    { apply N.div_str_pos. lia. }
    assert (N.log2 (n / 10) < N.log2 n)%N as Hlog.
    { apply N.log2_lt_pow2; [assumption|].
      assert (0 < n)%N as Hn0 by lia.
      pose proof (N.log2_spec n Hn0) as [_ Hup].
      rewrite N.pow_succ_r' in Hup.
      pose proof (N.Div0.mul_div_le n 10).
      remember (2 ^ N.log2 n)%N as P. remember (n / 10)%N as m.
      clear - Hup H. lia. }
    destruct (IH (n / 10)%N) as (E & D & NE); [lia|].
    repeat split.
    + rewrite natOfDigits_snoc, E.
      clear. pose proof (N.div_mod n 10 ltac:(lia)) as Hdm.
      remember (n / 10)%N as q. remember (n mod 10)%N as r. lia.
    + rewrite forallb_app, D. cbn [forallb andb]. rewrite andb_true_r.
      unfold isDigit.
      pose proof (N.mod_lt n 10 ltac:(lia)) as Hm.
      remember (n mod 10)%N as r. clear - Hm.
      apply andb_true_iff. split; apply N.leb_le; lia.
    + intros H. apply app_eq_nil in H. destruct H. discriminate.
Qed.

Lemma digitsOf_spec (n : N) :
  natOfDigits (digitsOf n) = n
  /\ forallb isDigit (digitsOf n) = true
  /\ digitsOf n <> [].
Proof. apply digitsOfFuel_spec. lia. Qed.

(** ** Zeros at the ends *)

Lemma dropZeros_head (d : char) (ds : jsstring) :
  N.eqb d (ch "0") = false -> dropZeros (d :: ds) = d :: ds.
Proof. intros H. cbn in *. now rewrite H. Qed.

Lemma dropZeros_repeat (m : nat) (s : jsstring) :
  dropZeros (repeat (ch "0") m ++ s) = dropZeros s.
Proof. induction m; cbn; auto. Qed.

Lemma dropTrailingZeros_last (ds : jsstring) (d : char) :
  N.eqb d (ch "0") = false -> dropTrailingZeros (ds ++ [d]) = ds ++ [d].
Proof.
  intros H. unfold dropTrailingZeros. rewrite rev_app_distr. cbn [rev app].
  rewrite dropZeros_head by assumption.
  change (d :: rev ds) with ([d] ++ rev ds). rewrite rev_app_distr.
  now rewrite rev_involutive.
Qed.

Lemma rev_repeat (c : char) (m : nat) : rev (repeat c m) = repeat c m.
Proof.
  induction m; cbn; [reflexivity|]. rewrite IHm.
  clear. induction m; cbn; [reflexivity|]. now rewrite IHm.
Qed.

Lemma dropTrailingZeros_repeat (ds : jsstring) (m : nat) :
  dropTrailingZeros (ds ++ repeat (ch "0") m) = dropTrailingZeros ds.
Proof.
  unfold dropTrailingZeros. rewrite rev_app_distr, rev_repeat.
  now rewrite dropZeros_repeat.
Qed.

Lemma forallb_isDigit_repeat (m : nat) :
  forallb isDigit (repeat (ch "0") m) = true.
Proof. induction m; cbn; auto. Qed.

(** What [canonicalDigits] says. *)
Lemma canonicalDigits_inv (ds : jsstring) :
  canonicalDigits ds = true ->
  forallb isDigit ds = true
  /\ (exists d more, ds = d :: more /\ N.eqb d (ch "0") = false)
  /\ (exists front d, ds = front ++ [d] /\ N.eqb d (ch "0") = false).
Proof.
  unfold canonicalDigits. intros H.
  apply andb_true_iff in H. destruct H as [H H3].
  apply andb_true_iff in H. destruct H as [H1 H2].
  split; [assumption|]. split.
  - destruct ds as [|d more]; [discriminate|].
    exists d, more. split; [reflexivity|]. now apply negb_true_iff.
  - destruct (rev ds) as [|d r] eqn:E; [discriminate|].
    exists (rev r), d. split; [|now apply negb_true_iff].
    apply (f_equal (@rev _)) in E. rewrite rev_involutive in E. now cbn in E.
Qed.

Lemma dropZeros_canonical (ds s : jsstring) :
  canonicalDigits ds = true -> dropZeros (ds ++ s) = ds ++ s.
Proof.
  intros H. apply canonicalDigits_inv in H.
  destruct H as (_ & (d & more & -> & Hd) & _).
  cbn [app]. now apply dropZeros_head.
Qed.

Lemma dropTrailingZeros_canonical (ds : jsstring) :
  canonicalDigits ds = true -> dropTrailingZeros ds = ds.
Proof.
  intros H. apply canonicalDigits_inv in H.
  destruct H as (_ & _ & (front & d & -> & Hd)).
  now apply dropTrailingZeros_last.
Qed.

(** ** The pieces of the number pattern *)

Lemma numberBoundary_span (ds rest : jsstring) :
  forallb isDigit ds = true -> numberBoundary rest = true ->
  span isDigit (ds ++ rest) = (ds, rest).
Proof.
  intros Hd Hb. apply span_app; [assumption|].
  destruct rest as [|c rest]; [exact I|].
  cbn in Hb. apply andb_true_iff in Hb. destruct Hb as [Hb _].
  apply andb_true_iff in Hb. destruct Hb as [Hb _].
  apply andb_true_iff in Hb. destruct Hb as [Hb _].
  now apply negb_true_iff.
Qed.

Lemma scanFraction_boundary (rest : jsstring) :
  numberBoundary rest = true -> scanFraction rest = ([], rest).
Proof.
  destruct rest as [|c rest]; [reflexivity|]. cbn. intros H.
  destruct (N.eqb_spec c 46) as [->|]; [discriminate|reflexivity].
Qed.

Lemma scanExponent_boundary (rest : jsstring) :
  numberBoundary rest = true -> scanExponent rest = ([], rest).
Proof.
  destruct rest as [|c rest]; [reflexivity|]. cbn. intros H.
  destruct (N.eqb_spec c 101) as [->|]; [discriminate|].
  destruct (N.eqb_spec c 69) as [->|]; [discriminate|reflexivity].
Qed.

Lemma scanFraction_digits (frac rest : jsstring) :
  frac <> [] -> forallb isDigit frac = true ->
  match rest with [] => True | c :: _ => isDigit c = false end ->
  scanFraction (ch "." :: frac ++ rest) = (frac, rest).
Proof.
  intros Hne Hd Hr. cbn. rewrite span_app by assumption.
  destruct frac; [contradiction|reflexivity].
Qed.

Lemma scanExponent_text (e : Z) (rest : jsstring) :
  numberBoundary rest = true ->
  scanExponent (exponentText e ++ rest) = (exponentText e, rest).
Proof.
  intros Hb. destruct (digitsOf_spec (Z.abs_N e)) as (_ & Hd & Hne).
  unfold exponentText.
  destruct (e <? 0)%Z; cbn -[digitsOf span];
    rewrite numberBoundary_span by assumption;
    destruct (digitsOf (Z.abs_N e)); try contradiction; reflexivity.
Qed.

Lemma exponentValue_text (e : Z) : exponentValue (exponentText e) = e.
Proof.
  destruct (digitsOf_spec (Z.abs_N e)) as (E & _ & _).
  unfold exponentText. destruct (Z.ltb_spec e 0); cbn -[digitsOf natOfDigits];
    rewrite E; lia.
Qed.

Lemma exponentText_head (e : Z) :
  exists t, exponentText e = ch "e" :: t.
Proof. unfold exponentText. cbn. eauto. Qed.

(** ** The number pattern on a literal given by its parts *)

Lemma isDigit_not_minus (c : char) : isDigit c = true -> N.eqb c (ch "-") = false.
Proof. intros H. char_solve. Qed.

Lemma nextNotDigit (e : option Z) (rest : jsstring) :
  numberBoundary rest = true ->
  match optionalExponent e ++ rest with
  | [] => True
  | c :: _ => isDigit c = false
  end.
Proof.
  intros Hb. destruct e as [z|]; cbn [optionalExponent].
  - destruct (exponentText_head z) as [t ->]. reflexivity.
  - cbn [app]. destruct rest as [|c rest]; [exact I|]. cbn in Hb.
    destruct (isDigit c); [discriminate|reflexivity].
Qed.

Lemma scanExponent_optional (e : option Z) (rest : jsstring) :
  numberBoundary rest = true ->
  scanExponent (optionalExponent e ++ rest) = (optionalExponent e, rest).
Proof.
  intros Hb. destruct e as [z|]; cbn [optionalExponent].
  - now apply scanExponent_text.
  - now apply scanExponent_boundary.
Qed.

Lemma scanFraction_optional (frac : jsstring) (e : option Z) (rest : jsstring) :
  forallb isDigit frac = true -> numberBoundary rest = true ->
  scanFraction (fractionText frac ++ optionalExponent e ++ rest)
  = (frac, optionalExponent e ++ rest).
Proof.
  intros Hd Hb. destruct frac as [|f frac].
  - cbn [fractionText app]. destruct e as [z|]; cbn [optionalExponent].
    + destruct (exponentText_head z) as [t ->]. reflexivity.
    + now apply scanFraction_boundary.
  - cbn [fractionText]. rewrite <- app_comm_cons.
    apply scanFraction_digits; [discriminate|assumption|].
    now apply nextNotDigit.
Qed.

Lemma scanNumber_parts (negative : bool) (int frac : jsstring) (e : option Z)
  (rest : jsstring) :
  int <> [] -> forallb isDigit int = true -> forallb isDigit frac = true ->
  numberBoundary rest = true ->
  scanNumber ((if negative then str "-" else [])
                ++ int ++ fractionText frac ++ optionalExponent e ++ rest)
  = Some ((if negative then str "-" else [])
            ++ int ++ fractionText frac ++ optionalExponent e,
          decimalValue negative int frac (exponentValue (optionalExponent e))).
Proof.
  intros Hne Hint Hfrac Hb.
  assert (span isDigit (int ++ fractionText frac ++ optionalExponent e ++ rest)
          = (int, fractionText frac ++ optionalExponent e ++ rest)) as Hspan.
  { apply span_app; [assumption|].
    destruct frac as [|f frac]; cbn [fractionText app].
    - now apply nextNotDigit.
    - reflexivity. }
  destruct int as [|i int]; [contradiction|].
  assert (N.eqb i (ch "-") = false) as Hi.
  { apply isDigit_not_minus. cbn in Hint. now apply andb_true_iff in Hint. }
  unfold scanNumber.
  destruct negative; cbn [app str]; [rewrite N.eqb_refl|rewrite Hi];
    rewrite app_comm_cons, Hspan;
    rewrite scanFraction_optional, scanExponent_optional by assumption;
    reflexivity.
Qed.

(** ** [Number_toString] read back *)

Lemma firstn_skipn_digits (n : nat) (ds : jsstring) :
  forallb isDigit ds = true ->
  forallb isDigit (firstn n ds) = true /\ forallb isDigit (skipn n ds) = true.
Proof.
  intros H. rewrite <- (firstn_skipn n ds) in H.
  rewrite forallb_app in H. now apply andb_true_iff in H.
Qed.

Lemma decimalValue_nonzero (negative : bool) (int frac all : jsstring) (exp : Z) :
  dropZeros (int ++ frac) = all -> all <> [] ->
  decimalValue negative int frac exp
  = Decimal negative (dropTrailingZeros all)
      (Z.of_nat (length all) + exp - Z.of_nat (length frac)).
Proof.
  intros E Hne. unfold decimalValue. rewrite E.
  destruct all; [contradiction|reflexivity].
Qed.

(** The text of a finite non-zero number by its parts. *)
Lemma Number_toString_parts (negative : bool) (ds : jsstring) (n : Z) :
  canonicalDigits ds = true ->
  exists int frac e,
    Number_toString (Decimal negative ds n)
    = (if negative then str "-" else [])
        ++ int ++ fractionText frac ++ optionalExponent e
    /\ int <> [] /\ forallb isDigit int = true /\ forallb isDigit frac = true
    /\ decimalValue negative int frac (exponentValue (optionalExponent e))
       = Decimal negative ds n.
Proof.
  intros Hc. pose proof (canonicalDigits_inv ds Hc) as (Hd & (d & more & Eds & Hd0) & _).
  assert (ds <> []) as Hne by (subst; discriminate).
  assert (0 < length ds)%nat as Hlen by (subst; cbn; lia).
  unfold Number_toString.
  set (k := Z.of_nat (length ds)).
  destruct ((k <=? n) && (n <=? 21))%Z eqn:C1.
  { (* digits and zeros *)
    apply andb_true_iff in C1. destruct C1 as [C1 _]. apply Z.leb_le in C1.
    exists (ds ++ repeat (ch "0") (Z.to_nat (n - k))), [], None.
    cbn [fractionText optionalExponent]. rewrite !app_nil_r.
    repeat split.
    - intros H. apply app_eq_nil in H. tauto.
    - now rewrite forallb_app, Hd, forallb_isDigit_repeat.
    - rewrite decimalValue_nonzero
        with (all := ds ++ repeat (ch "0") (Z.to_nat (n - k))).
      + rewrite dropTrailingZeros_repeat.
        rewrite dropTrailingZeros_canonical by assumption.
        f_equal. rewrite length_app, repeat_length. cbn [exponentValue length].
        subst k. lia.
      + rewrite app_nil_r. now apply dropZeros_canonical.
      + intros H. apply app_eq_nil in H. tauto. }
  destruct ((0 <? n) && (n <=? 21))%Z eqn:C2.
  { (* a decimal point inside the digits *)
    apply andb_true_iff in C2. destruct C2 as [C2 C2']. apply Z.ltb_lt in C2.
    rewrite C2' in C1. rewrite andb_true_r in C1. apply Z.leb_gt in C1.
    pose proof (firstn_skipn_digits (Z.to_nat n) ds Hd) as [Hf Hs].
    assert (skipn (Z.to_nat n) ds <> []) as Hsk.
    { intros H. apply (f_equal (@length _)) in H. rewrite length_skipn in H.
      cbn in H. subst k. lia. }
    assert (firstn (Z.to_nat n) ds <> []) as Hfi.
    { intros H. apply (f_equal (@length _)) in H. rewrite length_firstn in H.
      cbn in H. subst k. lia. }
    exists (firstn (Z.to_nat n) ds), (skipn (Z.to_nat n) ds), None.
    cbn [optionalExponent]. rewrite !app_nil_r.
    repeat split; try assumption.
    - destruct (skipn (Z.to_nat n) ds); [contradiction|reflexivity].
    - rewrite decimalValue_nonzero with (all := ds).
      + rewrite dropTrailingZeros_canonical by assumption.
        f_equal. rewrite length_skipn. cbn [exponentValue]. subst k. lia.
      + rewrite firstn_skipn. rewrite <- (app_nil_r ds) at 1.
        rewrite dropZeros_canonical by assumption. apply app_nil_r.
      + assumption. }
  destruct ((-6 <? n) && (n <=? 0))%Z eqn:C3.
  { (* zeros after the point *)
    apply andb_true_iff in C3. destruct C3 as [_ C3]. apply Z.leb_le in C3.
    exists (str "0"), (repeat (ch "0") (Z.to_nat (- n)) ++ ds), None.
    cbn [optionalExponent]. rewrite !app_nil_r.
    repeat split.
    - destruct (repeat (ch "0") (Z.to_nat (- n)) ++ ds) eqn:E.
      { apply app_eq_nil in E. tauto. }
      reflexivity.
    - discriminate.
    - now rewrite forallb_app, Hd, forallb_isDigit_repeat.
    - rewrite decimalValue_nonzero with (all := ds).
      + rewrite dropTrailingZeros_canonical by assumption.
        f_equal. rewrite length_app, repeat_length. cbn [exponentValue].
        subst k. lia.
      + change (str "0" ++ ?x) with (repeat (ch "0") 1 ++ x).
        rewrite !dropZeros_repeat. rewrite <- (app_nil_r ds) at 1.
        rewrite dropZeros_canonical by assumption. apply app_nil_r.
      + assumption. }
  (* scientific notation *)
  subst ds. destruct more as [|m more].
  - exists [d], [], (Some (n - 1)%Z).
    cbn [fractionText optionalExponent app].
    repeat split.
    + discriminate.
    + exact Hd.
    + rewrite decimalValue_nonzero with (all := [d]).
      * rewrite exponentValue_text.
        rewrite dropTrailingZeros_canonical by assumption.
        f_equal. cbn [length]. lia.
      * cbn [app]. now apply dropZeros_head.
      * discriminate.
  - exists [d], (m :: more), (Some (n - 1)%Z).
    cbn [fractionText optionalExponent app].
    repeat split.
    + discriminate.
    + cbn in Hd |- *. apply andb_true_iff in Hd. destruct Hd as [Hd _].
      now rewrite Hd.
    + cbn in Hd. apply andb_true_iff in Hd. now destruct Hd.
    + rewrite decimalValue_nonzero with (all := d :: m :: more).
      * rewrite exponentValue_text.
        rewrite dropTrailingZeros_canonical by assumption.
        f_equal. cbn [length]. lia.
      * cbn [app]. now apply dropZeros_head.
      * discriminate.
Qed.

Lemma scanNumber_toString (x : number) (rest : jsstring) :
  wellFormedNumber x = true -> isFinite x = true ->
  numberBoundary rest = true ->
  scanNumber (Number_toString x ++ rest) = Some (Number_toString x, x).
Proof.
  intros Hw Hf Hb. destruct x as [| |  |negative ds n]; try discriminate.
  - (* zero *)
    apply (@scanNumber_parts false (str "0") [] None rest);
      try assumption; try reflexivity. discriminate.
  - destruct (Number_toString_parts negative ds n Hw)
      as (int & frac & e & -> & Hne & Hi & Hfr & Hv).
    rewrite <- !app_assoc.
    rewrite scanNumber_parts by assumption. now rewrite Hv.
Qed.

(** ** The shape of a number text *)

Lemma isDigit_not_ws (c : char) : isDigit c = true -> isWhiteSpace c = false.
Proof. intros H. char_solve. Qed.

Lemma endsTight_digits (ds : jsstring) :
  ds <> [] -> forallb isDigit ds = true -> endsTight ds = true.
Proof.
  intros Hne Hd. unfold endsTight.
  destruct (rev ds) as [|c r] eqn:E.
  - reflexivity.
  - assert (In c ds) as Hin by (apply in_rev; rewrite E; now left).
    rewrite forallb_forall in Hd. apply Hd in Hin.
    now rewrite isDigit_not_ws.
Qed.

Lemma exponentText_endsTight (z : Z) : endsTight (exponentText z) = true.
Proof.
  destruct (digitsOf_spec (Z.abs_N z)) as (_ & Hd & Hne).
  unfold exponentText. rewrite app_assoc.
  apply endsTight_app_r; [assumption|]. now apply endsTight_digits.
Qed.

Lemma Number_toString_endsTight (x : number) :
  wellFormedNumber x = true -> endsTight (Number_toString x) = true.
Proof.
  intros Hw. destruct x as [|[|]| |negative ds n]; try reflexivity.
  destruct (Number_toString_parts negative ds n Hw)
    as (int & frac & e & -> & Hne & Hi & Hfr & _).
  destruct e as [z|].
  - rewrite !app_assoc. apply endsTight_app_r.
    + destruct (exponentText_head z) as [t E]. cbn [optionalExponent].
      rewrite E. discriminate.
    + apply exponentText_endsTight.
  - cbn [optionalExponent]. rewrite app_nil_r.
    destruct frac as [|f frac].
    + cbn [fractionText]. rewrite app_nil_r.
      apply endsTight_app_r; [assumption|]. now apply endsTight_digits.
    + rewrite app_assoc. cbn [fractionText].
      change (ch "." :: f :: frac) with ([ch "."] ++ f :: frac).
      rewrite app_assoc.
      apply endsTight_app_r; [discriminate|].
      apply endsTight_digits; [discriminate|assumption].
Qed.

Lemma Number_toString_head (x : number) :
  wellFormedNumber x = true -> isFinite x = true ->
  exists c t, Number_toString x = c :: t
              /\ (isDigit c = true \/ c = ch "-").
Proof.
  intros Hw Hf. destruct x as [| |  |negative ds n]; try discriminate.
  - exists (ch "0"), []. split; [reflexivity|now left].
  - destruct (Number_toString_parts negative ds n Hw)
      as (int & frac & e & -> & Hne & Hi & Hfr & _).
    destruct negative.
    + eexists _, _. split; [reflexivity|now right].
    + destruct int as [|i int]; [contradiction|].
      exists i, (int ++ fractionText frac ++ optionalExponent e).
      split; [reflexivity|]. left. cbn in Hi.
      now apply andb_true_iff in Hi.
Qed.

Lemma matchNumber_toString (x : number) (rest : jsstring) :
  wellFormedNumber x = true -> isFinite x = true ->
  numberBoundary rest = true ->
  matchNumber (Number_toString x ++ rest) = Some (Number_toString x).
Proof.
  intros. unfold matchNumber. now rewrite scanNumber_toString.
Qed.

Lemma parseFloat_toString (x : number) :
  wellFormedNumber x = true -> isFinite x = true ->
  parseFloat (Number_toString x) = x.
Proof.
  intros Hw Hf. unfold parseFloat.
  rewrite <- (app_nil_r (Number_toString x)).
  now rewrite scanNumber_toString.
Qed.


(* ================================================================== *)
(** * Strings: escaping and reading back *)
(* ================================================================== *)

Lemma replaceAll_app (c : char) (r a b : jsstring) :
  replaceAll c r (a ++ b) = replaceAll c r a ++ replaceAll c r b.
Proof.
  induction a as [|d a IH]; cbn; [reflexivity|]. now rewrite IH, app_assoc.
Qed.

Lemma escape_cons (c : char) (s : jsstring) :
  escape (c :: s) = escapeChar c ++ escape s.
Proof.
  unfold escape. cbn [replaceAll]. rewrite !replaceAll_app. f_equal.
  unfold escapeChar.
  destruct (N.eqb_spec c BACKSLASH) as [->|H1]; [reflexivity|].
  destruct (N.eqb_spec c DQ) as [->|H2]; [reflexivity|].
  destruct (N.eqb_spec c LF) as [->|H3]; [reflexivity|].
  destruct (N.eqb_spec c CR) as [->|H4]; [reflexivity|].
  destruct (N.eqb_spec c TAB) as [->|H5]; [reflexivity|].
  cbn [replaceAll app].
  apply N.eqb_neq in H2, H3, H4, H5.
  now rewrite H2; cbn [replaceAll app]; rewrite H3; cbn [replaceAll app];
    rewrite H4; cbn [replaceAll app]; rewrite H5.
Qed.

Lemma escape_nil : escape [] = [].
Proof. reflexivity. Qed.

Lemma escape_flat_map (s : jsstring) : escape s = flat_map escapeChar s.
Proof.
  induction s as [|c s IH]; [reflexivity|].
  rewrite escape_cons. cbn [flat_map]. now rewrite IH.
Qed.

(** The relaxed string scanner reads an escaped string back. *)
Lemma parseString_loop_escape (s acc rest : jsstring) :
  parseString_loop DQ acc false (escape s ++ DQ :: rest)
  = Ok (mkParseResult (acc ++ s) rest).
Proof.
  revert acc. induction s as [|c s IH]; intros acc.
  - cbn. now rewrite app_nil_r.
  - rewrite escape_cons. unfold escapeChar.
    replace (acc ++ c :: s) with ((acc ++ [c]) ++ s)
      by (now rewrite <- app_assoc).
    destruct (N.eqb_spec c BACKSLASH) as [->|H1]; [apply IH|].
    destruct (N.eqb_spec c DQ) as [->|H2]; [apply IH|].
    destruct (N.eqb_spec c LF) as [->|H3]; [apply IH|].
    destruct (N.eqb_spec c CR) as [->|H4]; [apply IH|].
    destruct (N.eqb_spec c TAB) as [->|H5]; [apply IH|].
    cbn [app parseString_loop].
    apply N.eqb_neq in H1, H2. rewrite H1, H2. apply IH.
Qed.

Lemma parseString_escape (s rest : jsstring) :
  parseString ([DQ] ++ escape s ++ [DQ] ++ rest)
  = Ok (mkParseResult s rest).
Proof.
  cbn [app parseString]. rewrite N.eqb_refl. cbn [orb].
  apply (parseString_loop_escape s [] rest).
Qed.

(** [JSON.parse] reads an escaped string back when what the escaping
    leaves as it is may stand in a JSON string. *)
Lemma JSON_stringChars_escape (s acc rest : jsstring) :
  forallb isJsonSafeChar s = true ->
  JSON.stringChars acc (escape s ++ DQ :: rest)
  = Ok (mkParseResult (acc ++ s) rest).
Proof.
  revert acc. induction s as [|c s IH]; intros acc Hs.
  - cbn. now rewrite app_nil_r.
  - cbn [forallb] in Hs. apply andb_true_iff in Hs. destruct Hs as [Hc Hs].
    rewrite escape_cons. unfold escapeChar.
    replace (acc ++ c :: s) with ((acc ++ [c]) ++ s)
      by (now rewrite <- app_assoc).
    destruct (N.eqb_spec c BACKSLASH) as [->|H1]; [now apply IH|].
    destruct (N.eqb_spec c DQ) as [->|H2]; [now apply IH|].
    destruct (N.eqb_spec c LF) as [->|H3]; [now apply IH|].
    destruct (N.eqb_spec c CR) as [->|H4]; [now apply IH|].
    destruct (N.eqb_spec c TAB) as [->|H5]; [now apply IH|].
    cbn [app JSON.stringChars].
    assert ((c <? 32)%N = false) as H6.
    { unfold isJsonSafeChar in Hc.
      apply N.eqb_neq in H3, H4, H5. rewrite H3, H4, H5 in Hc.
      rewrite !orb_false_r in Hc. now apply negb_true_iff. }
    apply N.eqb_neq in H1, H2. rewrite H1, H2, H6. now apply IH.
Qed.

(** A key written between quotes as it is. *)
Lemma JSON_stringChars_plain (s acc rest : jsstring) :
  forallb isPlainChar s = true ->
  JSON.stringChars acc (s ++ DQ :: rest) = Ok (mkParseResult (acc ++ s) rest).
Proof.
  revert acc. induction s as [|c s IH]; intros acc Hs.
  - cbn. now rewrite app_nil_r.
  - cbn [forallb] in Hs. apply andb_true_iff in Hs. destruct Hs as [Hc Hs].
    replace (acc ++ c :: s) with ((acc ++ [c]) ++ s)
      by (now rewrite <- app_assoc).
    unfold isPlainChar in Hc.
    apply andb_true_iff in Hc. destruct Hc as [Hc H2].
    apply andb_true_iff in Hc. destruct Hc as [H6 H1].
    apply negb_true_iff in H1, H2, H6.
    cbn [app JSON.stringChars]. rewrite H1, H2, H6. now apply IH.
Qed.

(** ** Unquoted keys *)

Lemma isWhiteSpace_not_identPart (c : char) :
  isWhiteSpace c = true -> isIdentPart c = false.
Proof. intros H. char_solve. Qed.

Lemma matchKey_identifier (key ws rest : jsstring) :
  isIdentifier key = true -> forallb isWhiteSpace ws = true ->
  matchKey (key ++ ws ++ ch ":" :: rest) = Some (key, rest).
Proof.
  intros Hk Hw. destruct key as [|c key]; [discriminate|].
  cbn [isIdentifier] in Hk. apply andb_true_iff in Hk. destruct Hk as [Hc Hk].
  cbn [matchKey app]. rewrite Hc.
  rewrite span_app.
  - rewrite span_app; [|assumption|reflexivity].
    cbn [snd]. now rewrite N.eqb_refl.
  - assumption.
  - destruct ws as [|w ws]; [reflexivity|].
    cbn [forallb] in Hw. apply andb_true_iff in Hw. destruct Hw as [Hw _].
    now apply isWhiteSpace_not_identPart.
Qed.

Lemma isIdentStart_facts (c : char) :
  isIdentStart c = true ->
  isWhiteSpace c = false /\ N.eqb c DQ = false /\ N.eqb c SQ = false.
Proof. intros H. repeat split; char_solve. Qed.


(* ================================================================== *)
(** * Induction on value trees *)
(* ================================================================== *)

Lemma Value_ind (P : Value -> Prop) :
  P VNull ->
  (forall b, P (VBool b)) ->
  (forall x, P (VNum x)) ->
  (forall s, P (VStr s)) ->
  (forall items, Forall P items -> P (VArr items)) ->
  (forall entries, Forall (fun kv => P (snd kv)) entries -> P (VObj entries)) ->
  forall v, P v.
Proof.
  intros Hnull Hbool Hnum Hstr Harr Hobj.
  fix IH 1. intros [|b|x|s|items|entries].
  - exact Hnull.
  - apply Hbool.
  - apply Hnum.
  - apply Hstr.
  - apply Harr. induction items as [|item items IHitems]; constructor.
    + apply IH.
    + exact IHitems.
  - apply Hobj. induction entries as [|[k w] entries IHentries]; constructor.
    + apply IH.
    + exact IHentries.
Qed.

(* ================================================================== *)
(** * The relaxed parser returns *)
(* ================================================================== *)

Lemma parseObject_loop_unfold
  (rec : jsstring -> Result (ParseResult JsValue))
  (fuel : nat) (obj : JsObject) (remaining0 : jsstring) :
  parseObject_loop rec (S fuel) obj remaining0
  = match trim remaining0 with
    | [] => Ok (mkParseResult (objectValue obj) [])
    | remaining1 =>
        let* (key, remaining3) := parseObject_key remaining1 in
        let* valueResult := rec remaining3 in
        let obj' := setProperty obj key (value valueResult) in
        match parseObject_after obj' (trim (remaining valueResult)) with
        | Return result => Ok result
        | Continue r => parseObject_loop rec fuel obj' r
        | Raise message => Throw message
        | Break => Ok (mkParseResult (objectValue obj') (trim (remaining valueResult)))
        end
    end.
Proof.
  cbn [parseObject_loop]. destruct (trim remaining0) as [|c r] eqn:E; [reflexivity|].
  unfold parseObject_key.
  destruct (startsWith (c :: r) [DQ] || startsWith (c :: r) [SQ]).
  - destruct (parseString (c :: r)) as [kr| |]; cbn [bind]; try reflexivity.
    cbn [negb andb].
    destruct (startsWith (trim (remaining kr)) (str ":")); cbn [negb bind];
      [|reflexivity].
    destruct (rec (trim (substring 1 (trim (remaining kr))))) as [vr| |];
      cbn [bind]; try reflexivity.
    unfold parseObject_after.
    destruct (startsWith _ (str "}")); [reflexivity|].
    destruct (startsWith _ (str ",")); [reflexivity|].
    destruct (0 <? _)%nat; reflexivity.
  - destruct (matchKey (c :: r)) as [[key after]|]; cbn [bind]; [|reflexivity].
    cbn [negb andb bind].
    destruct (rec (trim after)) as [vr| |]; cbn [bind]; try reflexivity.
    unfold parseObject_after.
    destruct (startsWith _ (str "}")); [reflexivity|].
    destruct (startsWith _ (str ",")); [reflexivity|].
    destruct (0 <? _)%nat; reflexivity.
Qed.

Lemma parseString_loop_consumes (quote : char) (rest acc : jsstring)
  (escaped : bool) (r : ParseResult jsstring) :
  parseString_loop quote acc escaped rest = Ok r ->
  length (remaining r) < length rest.
Proof.
  revert acc escaped. induction rest as [|c rest IH]; intros acc escaped;
    cbn [parseString_loop]; [discriminate|].
  destruct escaped.
  - intros H. apply IH in H. cbn [length]. lia.
  - destruct (N.eqb c BACKSLASH).
    + intros H. apply IH in H. cbn [length]. lia.
    + destruct (N.eqb c quote).
      * intros H. apply Ok_inj in H. subst r. cbn. lia.
      * intros H. apply IH in H. cbn [length]. lia.
Qed.

Lemma parseString_loop_returns (quote : char) (rest acc : jsstring)
  (escaped : bool) :
  parseString_loop quote acc escaped rest <> OutOfFuel.
Proof.
  revert acc escaped. induction rest as [|c rest IH]; intros acc escaped;
    cbn [parseString_loop]; [discriminate|].
  destruct escaped; [apply IH|].
  destruct (N.eqb c BACKSLASH); [apply IH|].
  destruct (N.eqb c quote); [discriminate|apply IH].
Qed.

Lemma parseString_consumes (input : jsstring) (r : ParseResult jsstring) :
  parseString input = Ok r -> length (remaining r) < length input.
Proof.
  destruct input as [|q rest]; cbn [parseString]; [discriminate|].
  destruct (N.eqb q DQ || N.eqb q SQ); [|discriminate].
  intros H. apply parseString_loop_consumes in H. cbn [length]. lia.
Qed.

Lemma parseString_returns (input : jsstring) : parseString input <> OutOfFuel.
Proof.
  destruct input as [|q rest]; cbn [parseString]; [discriminate|].
  destruct (N.eqb q DQ || N.eqb q SQ); [|discriminate].
  apply parseString_loop_returns.
Qed.

Lemma matchKey_consumes (s key after : jsstring) :
  matchKey s = Some (key, after) -> length after < length s.
Proof.
  destruct s as [|c s]; cbn [matchKey]; [discriminate|].
  destruct (isIdentStart c); [|discriminate].
  pose proof (span_length isIdentPart s) as H1.
  destruct (span isIdentPart s) as [name rest]. cbn [fst snd] in H1.
  pose proof (span_length isWhiteSpace rest) as H2.
  destruct (span isWhiteSpace rest) as [ws rest']. cbn [fst snd] in *.
  destruct rest' as [|d rest'']; [discriminate|].
  destruct (N.eqb d (ch ":")); [|discriminate].
  intros H. injection H as <- <-. cbn [length] in *. lia.
Qed.

Lemma skipn_shorter (k : nat) (s : jsstring) :
  0 < k -> s <> [] -> length (skipn k s) < length s.
Proof.
  intros Hk Hs. rewrite length_skipn. destruct s; [contradiction|].
  cbn [length]. lia.
Qed.

Lemma scanNumber_nonempty (s numStr : jsstring) (x : number) :
  scanNumber s = Some (numStr, x) -> numStr <> [] /\ s <> [].
Proof.
  unfold scanNumber.
  destruct (match s with
            | [] => (false, s)
            | c :: r => if N.eqb c (ch "-") then (true, r) else (false, s)
            end) as [negative s1] eqn:E1.
  destruct (span isDigit s1) as [int s2] eqn:E2.
  destruct int as [|i int]; [discriminate|].
  destruct (scanFraction s2) as [frac s3].
  destruct (scanExponent s3) as [e s4].
  intros H. injection H as <- _. split.
  - destruct negative; discriminate.
  - intros ->. injection E1 as <- <-. discriminate.
Qed.

Lemma parseNumber_consumes (input : jsstring) (r : ParseResult JsValue) :
  parseNumber input = Ok r -> length (remaining r) < length input.
Proof.
  unfold parseNumber, matchNumber.
  destruct (scanNumber input) as [[numStr x]|] eqn:E; cbn [option_map fst];
    [|discriminate].
  apply scanNumber_nonempty in E. destruct E as [E1 E2].
  intros H. apply Ok_inj in H. subst r. cbn [remaining]. unfold substring.
  apply skipn_shorter; [|assumption].
  destruct numStr; [contradiction|cbn; lia].
Qed.

Lemma startsWith_nonempty (s p : jsstring) :
  p <> [] -> startsWith s p = true -> s <> [].
Proof. destruct p; [contradiction|]. destruct s; cbn; [discriminate|discriminate]. Qed.

Lemma substring_shorter (k : nat) (s p : jsstring) :
  0 < k -> p <> [] -> startsWith s p = true ->
  length (substring k s) < length s.
Proof.
  intros Hk Hp H. apply skipn_shorter; [assumption|].
  now apply startsWith_nonempty with p.
Qed.

Lemma parseObject_key_consumes (remaining1 key remaining3 : jsstring) :
  parseObject_key remaining1 = Ok (key, remaining3) ->
  length remaining3 < length remaining1.
Proof.
  unfold parseObject_key.
  destruct (startsWith remaining1 [DQ] || startsWith remaining1 [SQ]).
  - destruct (parseString remaining1) as [kr| |] eqn:E; cbn [bind];
      try discriminate.
    apply parseString_consumes in E. cbn [negb andb].
    pose proof (trim_length (remaining kr)).
    destruct (startsWith (trim (remaining kr)) (str ":")) eqn:Ec;
      cbn [negb]; [|discriminate].
    intros H'. injection H' as <- <-.
    change (length (trim (substring 1 (trim (remaining kr))))
            < length remaining1).
    pose proof (trim_length (substring 1 (trim (remaining kr)))) as H1.
    unfold substring in H1. rewrite length_skipn in H1.
    unfold substring. lia.
  - destruct (matchKey remaining1) as [[k after]|] eqn:E; cbn [bind];
      [|discriminate].
    apply matchKey_consumes in E. cbn [negb andb].
    intros H. injection H as <- <-.
    pose proof (trim_length after). lia.
Qed.

Lemma parseObject_key_returns (remaining1 : jsstring) :
  parseObject_key remaining1 <> OutOfFuel.
Proof.
  unfold parseObject_key.
  destruct (startsWith remaining1 [DQ] || startsWith remaining1 [SQ]).
  - pose proof (parseString_returns remaining1).
    destruct (parseString remaining1) as [kr| |]; cbn [bind];
      try discriminate; try contradiction.
    cbn [negb andb]. destruct (negb _); discriminate.
  - destruct (matchKey remaining1) as [[k after]|]; cbn [bind negb andb];
      discriminate.
Qed.

Lemma parseObject_after_Continue (obj' : JsObject) (remaining4 r : jsstring) :
  parseObject_after obj' remaining4 = Continue r ->
  length r < length remaining4.
Proof.
  unfold parseObject_after.
  destruct (startsWith remaining4 (str "}")); [discriminate|].
  destruct (startsWith remaining4 (str ",")) eqn:E.
  - intros H. apply Continue_inj in H. subst r.
    pose proof (trim_length (substring 1 remaining4)).
    assert (length (substring 1 remaining4) < length remaining4).
    { apply substring_shorter with (str ","); [lia|discriminate|assumption]. }
    lia.
  - destruct (0 <? _)%nat; discriminate.
Qed.

Lemma parseObject_after_Return (obj' : JsObject) (remaining4 : jsstring)
  (result : ParseResult JsValue) :
  parseObject_after obj' remaining4 = Return result ->
  length (remaining result) < length remaining4.
Proof.
  unfold parseObject_after.
  destruct (startsWith remaining4 (str "}")) eqn:E.
  - intros H. apply Return_inj in H. subst result. cbn [remaining].
    apply substring_shorter with (str "}"); [lia|discriminate|assumption].
  - destruct (startsWith remaining4 (str ",")); [discriminate|].
    destruct (0 <? _)%nat; discriminate.
Qed.

Section Returns.

Variable rec : jsstring -> Result (ParseResult JsValue).

Hypothesis rec_consumes :
  forall s r, rec s = Ok r -> length (remaining r) < length s.

Lemma parseObject_loop_consumes (fuel : nat) :
  forall obj remaining0 r,
    parseObject_loop rec fuel obj remaining0 = Ok r ->
    length (remaining r) <= length remaining0.
Proof.
  induction fuel as [|fuel IH]; intros obj remaining0 r; [discriminate|].
  rewrite parseObject_loop_unfold.
  pose proof (trim_length remaining0) as Ht.
  destruct (trim remaining0) as [|c t] eqn:Et.
  - intros H. apply Ok_inj in H. subst r. cbn. lia.
  - destruct (parseObject_key (c :: t)) as [[key remaining3]| |] eqn:Ek;
      cbn [bind]; try discriminate.
    apply parseObject_key_consumes in Ek.
    destruct (rec remaining3) as [vr| |] eqn:Ev; cbn [bind]; try discriminate.
    apply rec_consumes in Ev.
    pose proof (trim_length (remaining vr)) as Ht'.
    destruct (parseObject_after _ _) as [result|r'|m|] eqn:Ea.
    + apply parseObject_after_Return in Ea. intros H. apply Ok_inj in H. subst r. lia.
    + apply parseObject_after_Continue in Ea. intros H. apply IH in H. lia.
    + discriminate.
    + intros H. apply Ok_inj in H. subst r. cbn [remaining]. lia.
Qed.

Lemma parseObject_consumes (input : jsstring) (r : ParseResult JsValue) :
  parseObject rec input = Ok r -> length (remaining r) < length input.
Proof.
  unfold parseObject.
  destruct (startsWith input (str "{")) eqn:E; cbn [negb]; [|discriminate].
  assert (length (substring 1 input) < length input) as H1.
  { apply substring_shorter with (str "{"); [lia|discriminate|assumption]. }
  pose proof (trim_length (substring 1 input)) as H2.
  destruct (startsWith (trim (substring 1 input)) (str "}")) eqn:E2.
  - intros H. apply Ok_inj in H. subst r. cbn [remaining].
    assert (length (substring 1 (trim (substring 1 input)))
            < length (trim (substring 1 input))).
    { apply substring_shorter with (str "}"); [lia|discriminate|assumption]. }
    lia.
  - intros H. apply parseObject_loop_consumes in H. lia.
Qed.

Lemma parseArray_loop_consumes (fuel : nat) :
  forall arr remaining0 r,
    parseArray_loop rec fuel arr remaining0 = Ok r ->
    length (remaining r) < length remaining0.
Proof.
  induction fuel as [|fuel IH]; intros arr remaining0 r; [discriminate|].
  cbn [parseArray_loop].
  pose proof (trim_length remaining0) as Ht.
  destruct (rec (trim remaining0)) as [vr| |] eqn:Ev; cbn [bind];
    try discriminate.
  apply rec_consumes in Ev.
  pose proof (trim_length (remaining vr)) as Ht'.
  destruct (startsWith (trim (remaining vr)) (str "]")) eqn:E1.
  - intros H. apply Ok_inj in H. subst r. cbn [remaining].
    assert (length (substring 1 (trim (remaining vr)))
            < length (trim (remaining vr))).
    { apply substring_shorter with (str "]"); [lia|discriminate|assumption]. }
    lia.
  - destruct (startsWith (trim (remaining vr)) (str ",")) eqn:E2; [|discriminate].
    intros H. apply IH in H.
    pose proof (trim_length (substring 1 (trim (remaining vr)))).
    assert (length (substring 1 (trim (remaining vr)))
            < length (trim (remaining vr))).
    { apply substring_shorter with (str ","); [lia|discriminate|assumption]. }
    lia.
Qed.

Lemma parseArray_consumes (input : jsstring) (r : ParseResult JsValue) :
  parseArray rec input = Ok r -> length (remaining r) < length input.
Proof.
  unfold parseArray.
  destruct (startsWith input (str "[")) eqn:E; cbn [negb]; [|discriminate].
  assert (length (substring 1 input) < length input) as H1.
  { apply substring_shorter with (str "["); [lia|discriminate|assumption]. }
  pose proof (trim_length (substring 1 input)) as H2.
  destruct (startsWith (trim (substring 1 input)) (str "]")) eqn:E2.
  - intros H. apply Ok_inj in H. subst r. cbn [remaining].
    assert (length (substring 1 (trim (substring 1 input)))
            < length (trim (substring 1 input))).
    { apply substring_shorter with (str "]"); [lia|discriminate|assumption]. }
    lia.
  - intros H. apply parseArray_loop_consumes in H. lia.
Qed.

Lemma parseValue_body_consumes (input : jsstring) (r : ParseResult JsValue) :
  parseValue_body rec input = Ok r -> length (remaining r) < length input.
Proof.
  unfold parseValue_body. pose proof (trim_length input) as Ht.
  destruct (startsWith (trim input) (str "{")).
  { intros H. apply parseObject_consumes in H. lia. }
  destruct (startsWith (trim input) (str "[")).
  { intros H. apply parseArray_consumes in H. lia. }
  destruct (startsWith (trim input) [DQ] || startsWith (trim input) [SQ]).
  { destruct (parseString (trim input)) as [sr| |] eqn:E; cbn [bind];
      try discriminate.
    apply parseString_consumes in E.
    intros H. apply Ok_inj in H. subst r. cbn [remaining]. lia. }
  destruct (matchNumber (trim input)).
  { intros H. apply parseNumber_consumes in H. lia. }
  destruct (startsWith (trim input) (str "true")) eqn:E1.
  { intros H. apply Ok_inj in H. subst r. cbn [remaining].
    assert (length (substring 4 (trim input)) < length (trim input)).
    { apply substring_shorter with (str "true"); [lia|discriminate|assumption]. }
    lia. }
  destruct (startsWith (trim input) (str "false")) eqn:E2.
  { intros H. apply Ok_inj in H. subst r. cbn [remaining].
    assert (length (substring 5 (trim input)) < length (trim input)).
    { apply substring_shorter with (str "false"); [lia|discriminate|assumption]. }
    lia. }
  destruct (startsWith (trim input) (str "null")) eqn:E3; [|discriminate].
  intros H. apply Ok_inj in H. subst r. cbn [remaining].
  assert (length (substring 4 (trim input)) < length (trim input)).
  { apply substring_shorter with (str "null"); [lia|discriminate|assumption]. }
  lia.
Qed.

(** No call runs out of fuel when the recursive calls return on every
    text shorter than [bound]. *)
Variable bound : nat.

Hypothesis rec_returns : forall s, length s < bound -> rec s <> OutOfFuel.

Lemma parseObject_loop_returns (fuel : nat) :
  forall obj remaining0,
    length remaining0 < fuel -> length remaining0 <= bound ->
    parseObject_loop rec fuel obj remaining0 <> OutOfFuel.
Proof.
  induction fuel as [|fuel IH]; intros obj remaining0 Hf Hb; [lia|].
  rewrite parseObject_loop_unfold.
  pose proof (trim_length remaining0) as Ht.
  destruct (trim remaining0) as [|c t] eqn:Et; [discriminate|].
  pose proof (parseObject_key_returns (c :: t)) as Hk.
  destruct (parseObject_key (c :: t)) as [[key remaining3]| |] eqn:Ek;
    cbn [bind]; try discriminate; try contradiction.
  apply parseObject_key_consumes in Ek.
  assert (rec remaining3 <> OutOfFuel) as Hr by (apply rec_returns; lia).
  destruct (rec remaining3) as [vr| |] eqn:Ev; cbn [bind];
    try discriminate; try contradiction.
  apply rec_consumes in Ev.
  pose proof (trim_length (remaining vr)) as Ht'.
  destruct (parseObject_after _ _) as [result|r'|m|] eqn:Ea; try discriminate.
  apply parseObject_after_Continue in Ea. apply IH; lia.
Qed.

Lemma parseArray_loop_returns (fuel : nat) :
  forall arr remaining0,
    length remaining0 < fuel -> length remaining0 < bound ->
    parseArray_loop rec fuel arr remaining0 <> OutOfFuel.
Proof.
  induction fuel as [|fuel IH]; intros arr remaining0 Hf Hb; [lia|].
  cbn [parseArray_loop].
  pose proof (trim_length remaining0) as Ht.
  assert (rec (trim remaining0) <> OutOfFuel) as Hr by (apply rec_returns; lia).
  destruct (rec (trim remaining0)) as [vr| |] eqn:Ev; cbn [bind];
    try discriminate; try contradiction.
  apply rec_consumes in Ev.
  pose proof (trim_length (remaining vr)) as Ht'.
  destruct (startsWith (trim (remaining vr)) (str "]")); [discriminate|].
  destruct (startsWith (trim (remaining vr)) (str ",")) eqn:E2; [|discriminate].
  pose proof (trim_length (substring 1 (trim (remaining vr)))).
  assert (length (substring 1 (trim (remaining vr)))
          < length (trim (remaining vr))).
  { apply substring_shorter with (str ","); [lia|discriminate|assumption]. }
  apply IH; lia.
Qed.

Lemma parseValue_body_returns (input : jsstring) :
  length input <= bound -> parseValue_body rec input <> OutOfFuel.
Proof.
  intros Hb. unfold parseValue_body. pose proof (trim_length input) as Ht.
  destruct (startsWith (trim input) (str "{")) eqn:E1.
  { unfold parseObject. rewrite E1. cbn [negb].
    assert (length (substring 1 (trim input)) < length (trim input)) as H1.
    { apply substring_shorter with (str "{"); [lia|discriminate|assumption]. }
    pose proof (trim_length (substring 1 (trim input))) as H2.
    destruct (startsWith _ (str "}")); [discriminate|].
    apply parseObject_loop_returns; lia. }
  destruct (startsWith (trim input) (str "[")) eqn:E2.
  { unfold parseArray. rewrite E2. cbn [negb].
    assert (length (substring 1 (trim input)) < length (trim input)) as H1.
    { apply substring_shorter with (str "["); [lia|discriminate|assumption]. }
    pose proof (trim_length (substring 1 (trim input))) as H2.
    destruct (startsWith _ (str "]")); [discriminate|].
    apply parseArray_loop_returns; lia. }
  destruct (startsWith (trim input) [DQ] || startsWith (trim input) [SQ]).
  { pose proof (parseString_returns (trim input)).
    destruct (parseString (trim input)); cbn [bind];
      try discriminate; try contradiction. }
  destruct (matchNumber (trim input)) eqn:E3.
  { unfold parseNumber. rewrite E3. discriminate. }
  destruct (startsWith (trim input) (str "true")); [discriminate|].
  destruct (startsWith (trim input) (str "false")); [discriminate|].
  destruct (startsWith (trim input) (str "null")); discriminate.
Qed.

End Returns.

Lemma parseValue_consumes (fuel : nat) :
  forall input r,
    parseValue fuel input = Ok r -> length (remaining r) < length input.
Proof.
  induction fuel as [|fuel IH]; intros input r; [discriminate|].
  cbn [parseValue]. now apply parseValue_body_consumes.
Qed.

Lemma parseValue_returns (fuel : nat) :
  forall input, length input < fuel -> parseValue fuel input <> OutOfFuel.
Proof.
  induction fuel as [|fuel IH]; intros input Hf; [lia|].
  cbn [parseValue].
  apply parseValue_body_returns with (bound := fuel).
  - apply parseValue_consumes.
  - exact IH.
  - lia.
Qed.

(** [parseJson] returns a value or throws, on every input. *)
Lemma parseJson_total (input : jsstring) : parseJson input <> OutOfFuel.
Proof.
  unfold parseJson. destruct (trim input) as [|c t] eqn:E; [discriminate|].
  assert (parseValueTop (c :: t) <> OutOfFuel) as H.
  { apply parseValue_returns. lia. }
  destruct (parseValueTop _) as [r| |]; cbn [bind]; try discriminate.
  - destruct (0 <? _)%nat; discriminate.
  - contradiction.
Qed.


(* ================================================================== *)
(** * Objects: keys in property order *)
(* ================================================================== *)

Lemma keysOrdered_app (keys : list jsstring) (k : jsstring) :
  keysOrdered (keys ++ [k]) = true ->
  keysOrdered keys = true /\ forallb (fun k' => keyBefore k' k) keys = true.
Proof.
  induction keys as [|k0 keys IH]; cbn [keysOrdered app forallb]; [auto|].
  intros H. apply andb_true_iff in H. destruct H as [H1 H2].
  rewrite forallb_app in H1. apply andb_true_iff in H1. destruct H1 as [H1 H3].
  cbn [forallb] in H3. rewrite andb_true_r in H3.
  destruct (IH H2) as [H4 H5]. now rewrite H1, H3, H4, H5.
Qed.

Lemma keysOrdered_app_l (keys keys' : list jsstring) :
  keysOrdered (keys ++ keys') = true -> keysOrdered keys = true.
Proof.
  induction keys as [|k0 keys IH]; cbn [keysOrdered app]; [auto|].
  intros H. apply andb_true_iff in H. destruct H as [H1 H2].
  rewrite forallb_app in H1. apply andb_true_iff in H1. destruct H1 as [H1 _].
  now rewrite H1, IH.
Qed.

Lemma keysOrdered_app_r (keys keys' : list jsstring) :
  keysOrdered (keys ++ keys') = true -> keysOrdered keys' = true.
Proof.
  induction keys as [|k0 keys IH]; cbn [keysOrdered app]; [auto|].
  intros H. apply andb_true_iff in H. destruct H as [_ H2]. auto.
Qed.

Lemma hasKey_false (obj : Object) (key : jsstring) :
  forallb (fun k' => keyBefore k' key) (map fst obj) = true ->
  hasKey obj key = false.
Proof.
  induction obj as [|[k w] obj IH]; cbn [map fst forallb hasKey]; [auto|].
  intros H. apply andb_true_iff in H. destruct H as [H1 H2].
  unfold keyBefore in H1. apply andb_true_iff in H1. destruct H1 as [H1 _].
  apply negb_true_iff in H1. rewrite H1. cbn [orb]. auto.
Qed.

Lemma insertIndex_append (obj : Object) (i : N) (key : jsstring) (v : Value) :
  arrayIndex key = Some i ->
  forallb (fun k' => keyBefore k' key) (map fst obj) = true ->
  insertIndex obj i key v = obj ++ [(key, v)].
Proof.
  intros Hi. induction obj as [|[k w] obj IH];
    cbn [map fst forallb insertIndex app]; [auto|].
  intros H. apply andb_true_iff in H. destruct H as [H1 H2].
  unfold keyBefore in H1. apply andb_true_iff in H1. destruct H1 as [_ H1].
  rewrite Hi in H1. destruct (arrayIndex k) as [j|]; [|discriminate].
  rewrite H1. now rewrite IH.
Qed.

Lemma defineProperty_append (obj : Object) (key : jsstring) (v : Value) :
  keysOrdered (map fst (obj ++ [(key, v)])) = true ->
  defineProperty obj key v = obj ++ [(key, v)].
Proof.
  rewrite map_app. cbn [map fst]. intros H.
  apply keysOrdered_app in H. destruct H as [_ H].
  unfold defineProperty. rewrite hasKey_false by assumption.
  destruct (arrayIndex key) as [i|] eqn:E; [|reflexivity].
  now apply insertIndex_append.
Qed.

Lemma setProperty_append (obj : JsObject) (key : jsstring) (v : Value) :
  jsstring_eqb key (str "__proto__") = false ->
  keysOrdered (map fst (properties obj ++ [(key, v)])) = true ->
  setProperty obj key (plain v)
  = mkJsObject (properties obj ++ [(key, v)]) (inherits obj).
Proof.
  intros Hp H. unfold setProperty. rewrite Hp. cbn [andb plain tree].
  now rewrite defineProperty_append.
Qed.

(* ================================================================== *)
(** * The relaxed parser on the relaxed serializer's text *)
(* ================================================================== *)

Lemma join_prefix (A : Type) (sep p : jsstring) (f : A -> jsstring)
  (l : list A) :
  l <> [] ->
  join sep (map (fun x => p ++ f x) l) = p ++ join (sep ++ p) (map f l).
Proof.
  induction l as [|x l IH]; [contradiction|]. intros _.
  destruct l as [|y l]; [reflexivity|].
  change (join sep (map (fun x0 => p ++ f x0) (x :: y :: l)))
    with ((p ++ f x) ++ sep ++ join sep (map (fun x0 => p ++ f x0) (y :: l))).
  rewrite IH by discriminate.
  change (join (sep ++ p) (map f (x :: y :: l)))
    with (f x ++ (sep ++ p) ++ join (sep ++ p) (map f (y :: l))).
  now rewrite <- !app_assoc.
Qed.

Lemma skipn_length_app (a b : jsstring) : skipn (length a) (a ++ b) = b.
Proof. induction a; cbn; auto. Qed.

Lemma trim_idempotent_tight (w s : jsstring) :
  forallb isWhiteSpace w = true -> startsTight s = true -> endsTight s = true ->
  trim (w ++ s) = s.
Proof. intros. rewrite trim_ws by assumption. now apply trim_tight. Qed.

Lemma startsTight_app (a b : jsstring) :
  startsTight a = true -> startsTight (a ++ b) = true.
Proof. destruct a; [discriminate|auto]. Qed.

Lemma startsTight_nonempty (a : jsstring) : startsTight a = true -> a <> [].
Proof. destruct a; [discriminate|discriminate]. Qed.

Lemma tight_app (a b : jsstring) :
  startsTight a = true -> endsTight a = true -> endsTight b = true ->
  trim (a ++ b) = a ++ b.
Proof.
  intros. apply trim_tight; [now apply startsTight_app|now apply endsTight_app].
Qed.

Lemma parseObject_key_keyText (key t : jsstring) :
  startsTight t = true -> endsTight t = true ->
  parseObject_key (keyText key ++ str ": " ++ t) = Ok (key, t).
Proof.
  intros Hs He. unfold keyText, parseObject_key.
  assert (trim (ch " " :: t) = t) as Ht.
  { apply (trim_idempotent_tight [ch " "] t); auto. }
  destruct (isIdentifier key) eqn:Hid.
  - destruct key as [|c key]; [discriminate|].
    pose proof Hid as Hid'. cbn [isIdentifier] in Hid'.
    apply andb_true_iff in Hid'. destruct Hid' as [Hc _].
    destruct (isIdentStart_facts c Hc) as (_ & Hq1 & Hq2).
    cbn [app]. rewrite !startsWith_char, Hq1, Hq2. cbn [orb].
    change (c :: key ++ str ": " ++ t)
      with ((c :: key) ++ [] ++ ch ":" :: ch " " :: t).
    rewrite matchKey_identifier by auto.
    cbn [bind negb andb]. now rewrite Ht.
  - cbn [app]. rewrite startsWith_char, N.eqb_refl. cbn [orb].
    pose proof (parseString_escape key (str ": " ++ t)) as Hp.
    cbn [app] in Hp. rewrite <- app_assoc. cbn [app]. rewrite Hp.
    cbn [bind value remaining negb andb].
    change (str ": " ++ t) with (ch ":" :: ch " " :: t).
    assert (trim (ch ":" :: ch " " :: t) = ch ":" :: ch " " :: t) as Ht2.
    { apply trim_tight; [reflexivity|].
      apply (endsTight_app_r (str ": ") t); [|assumption].
      now apply startsTight_nonempty. }
    rewrite Ht2.
    change (startsWith (ch ":" :: ch " " :: t) (str ":")) with true.
    cbn [negb].
    change (substring 1 (ch ":" :: ch " " :: t)) with (ch " " :: t).
    now rewrite Ht.
Qed.

Lemma parseObject_loop_step
  (rec : jsstring -> Result (ParseResult JsValue))
  (fuel : nat) (obj : JsObject) (remaining0 : jsstring) :
  trim remaining0 <> [] ->
  parseObject_loop rec (S fuel) obj remaining0
  = let* (key, remaining3) := parseObject_key (trim remaining0) in
    let* valueResult := rec remaining3 in
    let obj' := setProperty obj key (value valueResult) in
    match parseObject_after obj' (trim (remaining valueResult)) with
    | Return result => Ok result
    | Continue r => parseObject_loop rec fuel obj' r
    | Raise message => Throw message
    | Break => Ok (mkParseResult (objectValue obj') (trim (remaining valueResult)))
    end.
Proof.
  intros H. rewrite parseObject_loop_unfold.
  destruct (trim remaining0); [contradiction|reflexivity].
Qed.

Lemma numberBoundary_ws (w : jsstring) (c : char) (r : jsstring) :
  forallb isWhiteSpace w = true ->
  numberBoundary (c :: r) = true ->
  numberBoundary (w ++ c :: r) = true.
Proof.
  destruct w as [|d w]; [auto|]. intros Hw _.
  cbn [forallb] in Hw. apply andb_true_iff in Hw. destruct Hw as [Hd _].
  cbn [app numberBoundary]. char_solve.
Qed.

Lemma tight_closing (closew : jsstring) (c : char) (rest : jsstring) :
  forallb isWhiteSpace closew = true -> isWhiteSpace c = false ->
  endsTight rest = true ->
  endsTight (closew ++ c :: rest) = true
  /\ trim (closew ++ c :: rest) = c :: rest.
Proof.
  intros Hw Hc Hr.
  assert (endsTight (c :: rest) = true) as H1.
  { apply (endsTight_app [c] rest); [|assumption].
    unfold endsTight. cbn. now rewrite Hc. }
  split.
  - apply endsTight_app_r; [discriminate|assumption].
  - apply trim_idempotent_tight; try assumption. cbn. now rewrite Hc.
Qed.

Section Loops.

Variable rec : jsstring -> Result (ParseResult JsValue).
Variables sepw closew : jsstring.
Hypothesis sepw_ws : forallb isWhiteSpace sepw = true.
Hypothesis closew_ws : forallb isWhiteSpace closew = true.

Lemma itemsText_cons (t : jsstring) (v : Value) (tvs : list (jsstring * Value))
  (rest : jsstring) :
  tvs <> [] ->
  itemsText sepw closew ((t, v) :: tvs) rest
  = t ++ str "," ++ sepw ++ itemsText sepw closew tvs rest.
Proof.
  intros H. unfold itemsText. cbn [map fst].
  rewrite join_cons by (destruct tvs; [contradiction|discriminate]).
  now rewrite <- !app_assoc.
Qed.

Lemma itemsText_tight (tvs : list (jsstring * Value)) (rest : jsstring) :
  tvs <> [] ->
  (forall t v, In (t, v) tvs -> tight t) ->
  endsTight rest = true ->
  tight (itemsText sepw closew tvs rest).
Proof.
  intros Hne Ht Hr. split.
  - destruct tvs as [|[t v] tvs]; [contradiction|].
    destruct (Ht t v (or_introl eq_refl)) as [Hs _].
    unfold itemsText. cbn [map fst].
    destruct (map fst tvs); cbn [join]; rewrite <- ?app_assoc;
      now apply startsTight_app.
  - unfold itemsText. rewrite app_assoc.
    apply endsTight_app_r; [discriminate|].
    apply (endsTight_app (str "]") rest); [reflexivity|assumption].
Qed.

Lemma parseArray_loop_items (tvs : list (jsstring * Value)) :
  tvs <> [] ->
  (forall t v, In (t, v) tvs -> tight t /\ parsesTo rec t v) ->
  forall fuel arr rest remaining0,
    length tvs <= fuel -> endsTight rest = true ->
    trim remaining0 = itemsText sepw closew tvs rest ->
    parseArray_loop rec fuel arr remaining0
    = Ok (mkParseResult (plain (VArr (arr ++ map snd tvs))) rest).
Proof.
  induction tvs as [|[t v] tvs IH]; [contradiction|].
  intros _ Hall fuel arr rest remaining0 Hfuel Hrest Htrim.
  destruct fuel as [|fuel]; [cbn in Hfuel; lia|].
  destruct (Hall t v (or_introl eq_refl)) as [[Hts Hte] Hp].
  cbn [parseArray_loop]. rewrite Htrim.
  destruct tvs as [|tv' tvs'].
  - (* the last item *)
    unfold itemsText. cbn [map fst join].
    destruct (tight_closing closew (ch "]") rest closew_ws eq_refl Hrest)
      as [Hc1 Hc2].
    rewrite Hp; [|exact Hc1|].
    + cbn [bind value remaining].
      change (closew ++ str "]" ++ rest) with (closew ++ ch "]" :: rest).
      rewrite Hc2.
      change (startsWith (ch "]" :: rest) (str "]")) with true.
      cbv iota. reflexivity.
    + apply numberBoundary_ws; [assumption|reflexivity].
  - (* an item and a comma *)
    rewrite itemsText_cons by discriminate.
    set (J := itemsText sepw closew (tv' :: tvs') rest).
    assert (tight J) as [HJs HJe].
    { apply itemsText_tight; [discriminate| |assumption].
      intros t0 v0 Hin. apply (Hall t0 v0). now right. }
    assert (endsTight (str "," ++ sepw ++ J) = true) as Htail.
    { rewrite app_assoc. apply endsTight_app_r; [|assumption].
      now apply startsTight_nonempty. }
    rewrite Hp; [|exact Htail|reflexivity].
    cbn [bind value remaining].
    rewrite (trim_tight (str "," ++ sepw ++ J)); [|reflexivity|exact Htail].
    change (startsWith (str "," ++ sepw ++ J) (str "]")) with false.
    change (startsWith (str "," ++ sepw ++ J) (str ",")) with true.
    cbv iota.
    change (substring 1 (str "," ++ sepw ++ J)) with (sepw ++ J).
    rewrite IH with (rest := rest).
    + now rewrite <- app_assoc.
    + discriminate.
    + intros t0 v0 Hin. apply (Hall t0 v0). now right.
    + cbn [length] in *. lia.
    + assumption.
    + rewrite (trim_idempotent_tight sepw J) by assumption.
      now apply trim_tight.
Qed.

Lemma keyText_startsTight (key : jsstring) (t : jsstring) :
  startsTight (keyText key ++ str ": " ++ t) = true.
Proof.
  unfold keyText. destruct (isIdentifier key) eqn:E.
  - destruct key as [|c key]; [discriminate|].
    cbn [isIdentifier] in E. apply andb_true_iff in E. destruct E as [E _].
    destruct (isIdentStart_facts c E) as (Hw & _ & _).
    cbn. now rewrite Hw.
  - reflexivity.
Qed.

Lemma entriesText_cons (e : jsstring * jsstring * Value)
  (es : list (jsstring * jsstring * Value)) (rest : jsstring) :
  es <> [] ->
  entriesText sepw closew (e :: es) rest
  = entryText e ++ str "," ++ sepw ++ entriesText sepw closew es rest.
Proof.
  intros H. unfold entriesText. cbn [map].
  rewrite join_cons by (destruct es; [contradiction|discriminate]).
  now rewrite <- !app_assoc.
Qed.

Lemma entriesText_tight (es : list (jsstring * jsstring * Value))
  (rest : jsstring) :
  es <> [] ->
  (forall e, In e es -> tight (snd (fst e))) ->
  endsTight rest = true ->
  tight (entriesText sepw closew es rest).
Proof.
  intros Hne Ht Hr. split.
  - destruct es as [|e es]; [contradiction|].
    unfold entriesText. cbn [map]. unfold entryText at 1.
    destruct (map entryText es); cbn [join]; rewrite <- ?app_assoc;
      apply keyText_startsTight.
  - unfold entriesText. rewrite app_assoc.
    apply endsTight_app_r; [discriminate|].
    apply (endsTight_app (str "}") rest); [reflexivity|assumption].
Qed.

Lemma parseObject_loop_entries (es : list (jsstring * jsstring * Value)) :
  es <> [] ->
  (forall e, In e es ->
             tight (snd (fst e)) /\ parsesTo rec (snd (fst e)) (snd e)
             /\ jsstring_eqb (fst (fst e)) (str "__proto__") = false) ->
  forall fuel obj rest remaining0,
    length es <= fuel -> endsTight rest = true ->
    keysOrdered (map fst (properties obj ++ map entryPair es)) = true ->
    trim remaining0 = entriesText sepw closew es rest ->
    parseObject_loop rec fuel obj remaining0
    = Ok (mkParseResult
            (objectValue
               (mkJsObject (properties obj ++ map entryPair es) (inherits obj)))
            rest).
Proof.
  induction es as [|[[k t] v] es IH]; [contradiction|].
  intros _ Hall fuel obj rest remaining0 Hfuel Hrest Hkeys Htrim.
  destruct fuel as [|fuel]; [cbn in Hfuel; lia|].
  destruct (Hall (k, t, v) (or_introl eq_refl)) as ([Hts Hte] & Hp & Hproto).
  cbn [fst snd] in Hts, Hte, Hp, Hproto.
  assert (setProperty obj k (plain v)
          = mkJsObject (properties obj ++ [(k, v)]) (inherits obj)) as Hset.
  { apply setProperty_append; [assumption|].
    apply keysOrdered_app_l with (keys' := map fst (map entryPair es)).
    rewrite <- map_app, <- app_assoc. exact Hkeys. }
  rewrite parseObject_loop_step.
  2:{ rewrite Htrim. apply startsTight_nonempty.
      apply entriesText_tight; [discriminate| |assumption].
      intros e Hin. now apply (Hall e). }
  rewrite Htrim.
  destruct es as [|e' es'].
  - (* the last entry *)
    unfold entriesText. cbn [map join]. unfold entryText. cbn [fst snd].
    destruct (tight_closing closew (ch "}") rest closew_ws eq_refl Hrest)
      as [Hc1 Hc2].
    change (closew ++ str "}" ++ rest) with (closew ++ ch "}" :: rest).
    rewrite <- !app_assoc.
    rewrite parseObject_key_keyText;
      [|now apply startsTight_app
       |apply endsTight_app_r; [|assumption];
        destruct closew; discriminate].
    cbn [bind]. rewrite Hp; [|exact Hc1|].
    + cbn [bind value remaining]. rewrite Hc2, Hset.
      unfold parseObject_after.
      change (startsWith (ch "}" :: rest) (str "}")) with true.
      cbv iota. reflexivity.
    + apply numberBoundary_ws; [assumption|reflexivity].
  - (* an entry and a comma *)
    rewrite entriesText_cons by discriminate.
    set (J := entriesText sepw closew (e' :: es') rest).
    assert (tight J) as [HJs HJe].
    { apply entriesText_tight; [discriminate| |assumption].
      intros e Hin. apply (Hall e). now right. }
    assert (endsTight (str "," ++ sepw ++ J) = true) as Htail.
    { rewrite app_assoc. apply endsTight_app_r; [|assumption].
      now apply startsTight_nonempty. }
    unfold entryText at 1. cbn [fst snd]. rewrite <- !app_assoc.
    rewrite parseObject_key_keyText;
      [|now apply startsTight_app
       |apply endsTight_app_r; [discriminate|assumption]].
    cbn [bind]. rewrite Hp; [|exact Htail|reflexivity].
    cbn [bind value remaining]. rewrite Hset.
    rewrite (trim_tight (str "," ++ sepw ++ J)); [|reflexivity|exact Htail].
    unfold parseObject_after.
    change (startsWith (str "," ++ sepw ++ J) (str "}")) with false.
    change (startsWith (str "," ++ sepw ++ J) (str ",")) with true.
    cbv iota.
    change (substring 1 (str "," ++ sepw ++ J)) with (sepw ++ J).
    rewrite IH with (rest := rest).
    + cbn [map properties inherits]. change (entryPair (k, t, v)) with (k, v).
      now rewrite <- app_assoc.
    + discriminate.
    + intros e Hin. apply (Hall e). now right.
    + cbn [length] in *. lia.
    + assumption.
    + cbn [map properties] in *.
      change (entryPair (k, t, v)) with (k, v) in Hkeys.
      now rewrite <- app_assoc.
    + rewrite (trim_idempotent_tight sepw J) by assumption.
      now apply trim_tight.
Qed.

End Loops.

(** ** The text of [toJson] *)

Lemma valueHead_facts (c : char) :
  valueHead c = true ->
  isWhiteSpace c = false /\ N.eqb c (ch "]") = false
  /\ N.eqb c (ch "}") = false /\ JSON.isWhiteSpace c = false.
Proof. unfold valueHead. intros H. repeat split; char_solve. Qed.

Lemma map_snd_itemTexts (render : Value -> jsstring) (items : list Value) :
  map snd (itemTexts render items) = items.
Proof.
  unfold itemTexts. rewrite map_map. cbn [snd]. apply map_id.
Qed.

Lemma map_fst_itemTexts (render : Value -> jsstring) (items : list Value) :
  map fst (itemTexts render items) = map render items.
Proof. unfold itemTexts. now rewrite map_map. Qed.

Lemma map_entryPair_entryTexts (render : Value -> jsstring) (entries : Object) :
  map entryPair (entryTexts render entries) = entries.
Proof.
  unfold entryTexts. rewrite map_map. unfold entryPair. cbn [fst snd].
  induction entries as [|[k v] entries IH]; cbn [map fst snd]; [reflexivity|].
  now rewrite IH.
Qed.

Lemma toJson_array_text (item : Value) (items : list Value) (indent : nat)
  (rest : jsstring) :
  toJson (VArr (item :: items)) indent ++ rest
  = str "[" ++ (LF :: indentation (indent + 1))
      ++ itemsText (LF :: indentation (indent + 1)) (LF :: indentation indent)
           (itemTexts (fun v => toJson v (indent + 1)) (item :: items)) rest.
Proof.
  cbn [toJson]. unfold itemsText. rewrite map_fst_itemTexts.
  rewrite (join_prefix _ (str "," ++ [LF]) (indentation (indent + 1))
             (fun v => toJson v (indent + 1)) (item :: items))
    by discriminate.
  rewrite <- !app_assoc. reflexivity.
Qed.

Lemma toJson_object_text (e : jsstring * Value) (entries : Object)
  (indent : nat) (rest : jsstring) :
  toJson (VObj (e :: entries)) indent ++ rest
  = str "{" ++ (LF :: indentation (indent + 1))
      ++ entriesText (LF :: indentation (indent + 1)) (LF :: indentation indent)
           (entryTexts (fun v => toJson v (indent + 1)) (e :: entries)) rest.
Proof.
  cbn [toJson]. unfold entriesText, entryTexts. rewrite map_map.
  unfold entryText. cbn [fst snd].
  rewrite (join_prefix _ (str "," ++ [LF]) (indentation (indent + 1))
             (fun kv => keyText (fst kv) ++ str ": " ++ toJson (snd kv) (indent + 1))
             (e :: entries))
    by discriminate.
  rewrite <- !app_assoc. reflexivity.
Qed.

Lemma endsTight_closed (a : jsstring) (c : char) :
  isWhiteSpace c = false -> endsTight (a ++ [c]) = true.
Proof.
  intros H. apply endsTight_app_r; [discriminate|].
  unfold endsTight. cbn. now rewrite H.
Qed.

Lemma toJson_shape (v : Value) (indent : nat) :
  wellFormed v = true -> finiteNumbers v = true ->
  (exists c t, toJson v indent = c :: t /\ valueHead c = true)
  /\ endsTight (toJson v indent) = true.
Proof.
  intros Hw Hf. destruct v as [|b|x|s|items|entries].
  - split; [|reflexivity]. now exists (ch "n"), (str "ull").
  - destruct b; (split; [|reflexivity]).
    + now exists (ch "t"), (str "rue").
    + now exists (ch "f"), (str "alse").
  - cbn in Hw, Hf. split.
    + destruct (Number_toString_head x Hw Hf) as (c & t & E & Hc).
      exists c, t. split; [exact E|]. unfold valueHead.
      destruct Hc as [Hc| ->]; [now rewrite Hc|].
      now rewrite N.eqb_refl, orb_true_r.
    + now apply Number_toString_endsTight.
  - split.
    + now exists DQ, (escape s ++ [DQ]).
    + cbn [toJson]. rewrite app_assoc. now apply endsTight_closed.
  - destruct items as [|item items].
    + split; [|reflexivity]. now exists (ch "["), (str "]").
    + split.
      * eexists (ch "["), _. split; [reflexivity|reflexivity].
      * cbn [toJson]. rewrite !app_assoc. now apply endsTight_closed.
  - destruct entries as [|e entries].
    + split; [|reflexivity]. now exists (ch "{"), (str "}").
    + split.
      * eexists (ch "{"), _. split; [reflexivity|reflexivity].
      * cbn [toJson]. rewrite !app_assoc. now apply endsTight_closed.
Qed.

Lemma toJson_tight (v : Value) (indent : nat) :
  wellFormed v = true -> finiteNumbers v = true -> tight (toJson v indent).
Proof.
  intros Hw Hf. destruct (toJson_shape v indent Hw Hf) as [(c & t & E & Hc) He].
  split; [|assumption]. rewrite E. cbn.
  destruct (valueHead_facts c Hc) as (-> & _). reflexivity.
Qed.

(** ** Pieces of [everywhere] *)

Lemma everywhere_items (pn : number -> bool) (ps : jsstring -> bool)
  (pk : list jsstring -> bool) (items : list Value) (item : Value) :
  everywhere pn ps pk (VArr items) = true -> In item items ->
  everywhere pn ps pk item = true.
Proof.
  cbn [everywhere]. intros H Hin. rewrite forallb_forall in H. now apply H.
Qed.

Lemma everywhere_entries (pn : number -> bool) (ps : jsstring -> bool)
  (pk : list jsstring -> bool) (entries : Object) (kv : jsstring * Value) :
  everywhere pn ps pk (VObj entries) = true -> In kv entries ->
  everywhere pn ps pk (snd kv) = true.
Proof.
  cbn [everywhere]. intros H Hin. apply andb_true_iff in H. destruct H as [_ H].
  rewrite forallb_forall in H. now apply (H kv).
Qed.

Lemma everywhere_keys (pn : number -> bool) (ps : jsstring -> bool)
  (pk : list jsstring -> bool) (entries : Object) :
  everywhere pn ps pk (VObj entries) = true -> pk (map fst entries) = true.
Proof.
  cbn [everywhere]. intros H. now apply andb_true_iff in H.
Qed.

Lemma depth_item (items : list Value) (item : Value) :
  In item items -> depth item < depth (VArr items).
Proof.
  cbn [depth]. induction items as [|x items IH]; [contradiction|].
  intros [->|H]; cbn [fold_right]; [lia|]. specialize (IH H). lia.
Qed.

Lemma depth_entry (entries : Object) (kv : jsstring * Value) :
  In kv entries -> depth (snd kv) < depth (VObj entries).
Proof.
  cbn [depth]. induction entries as [|x entries IH]; [contradiction|].
  intros [->|H]; cbn [fold_right]; [lia|]. specialize (IH H). lia.
Qed.

(** ** The round trip *)

Lemma substring_app (a b : jsstring) : substring (length a) (a ++ b) = b.
Proof. apply skipn_length_app. Qed.

Lemma parseValue_body_number (rec : jsstring -> Result (ParseResult JsValue))
  (x : number) (tail : jsstring) :
  wellFormedNumber x = true -> isFinite x = true ->
  endsTight tail = true -> numberBoundary tail = true ->
  parseValue_body rec (Number_toString x ++ tail)
  = Ok (mkParseResult (plain (VNum x)) tail).
Proof.
  intros Hw Hf Ht Hb. unfold parseValue_body.
  destruct (Number_toString_head x Hw Hf) as (c & t & E & Hc).
  assert (trim (Number_toString x ++ tail) = Number_toString x ++ tail) as Htrim.
  { apply tight_app; [| |assumption].
    - rewrite E. cbn. destruct Hc as [Hc| ->]; [|reflexivity].
      now rewrite isDigit_not_ws.
    - now apply Number_toString_endsTight. }
  rewrite Htrim.
  assert (startsWith (Number_toString x ++ tail) (str "{") = false
          /\ startsWith (Number_toString x ++ tail) (str "[") = false
          /\ startsWith (Number_toString x ++ tail) [DQ] = false
          /\ startsWith (Number_toString x ++ tail) [SQ] = false)
    as (H1 & H2 & H3 & H4).
  { rewrite E. cbn [app startsWith str]. rewrite !andb_true_r.
    destruct Hc as [Hc| ->]; [|repeat split; reflexivity].
    repeat split; char_solve. }
  rewrite H1, H2, H3, H4. cbn [orb].
  rewrite matchNumber_toString by assumption.
  unfold parseNumber. rewrite matchNumber_toString by assumption.
  rewrite parseFloat_toString by assumption.
  now rewrite substring_app.
Qed.

Lemma parseValue_body_string (rec : jsstring -> Result (ParseResult JsValue))
  (s tail : jsstring) :
  endsTight tail = true ->
  parseValue_body rec (([DQ] ++ escape s ++ [DQ]) ++ tail)
  = Ok (mkParseResult (plain (VStr s)) tail).
Proof.
  intros Ht. unfold parseValue_body.
  rewrite tight_app; [|reflexivity| |assumption].
  2:{ rewrite app_assoc. now apply endsTight_closed. }
  rewrite <- !app_assoc.
  change (startsWith ([DQ] ++ escape s ++ [DQ] ++ tail) (str "{")) with false.
  change (startsWith ([DQ] ++ escape s ++ [DQ] ++ tail) (str "[")) with false.
  change (startsWith ([DQ] ++ escape s ++ [DQ] ++ tail) [DQ]) with true.
  cbn [orb]. cbv iota.
  now rewrite parseString_escape.
Qed.

Lemma parseValue_body_array (rec : jsstring -> Result (ParseResult JsValue))
  (sepw closew w : jsstring) (tvs : list (jsstring * Value)) (rest : jsstring) :
  forallb isWhiteSpace sepw = true -> forallb isWhiteSpace closew = true ->
  forallb isWhiteSpace w = true ->
  tvs <> [] ->
  (forall t v, In (t, v) tvs ->
               tight t /\ parsesTo rec t v
               /\ startsWith t (str "]") = false) ->
  endsTight rest = true ->
  parseValue_body rec (str "[" ++ w ++ itemsText sepw closew tvs rest)
  = Ok (mkParseResult (plain (VArr (map snd tvs))) rest).
Proof.
  intros Hsep Hclose Hw Hne Hall Hrest.
  assert (tight (itemsText sepw closew tvs rest)) as [HJs HJe].
  { apply itemsText_tight; try assumption.
    intros t v Hin. now apply (Hall t v). }
  set (J := itemsText sepw closew tvs rest) in *.
  unfold parseValue_body.
  rewrite (trim_tight (str "[" ++ w ++ J)).
  2:{ reflexivity. }
  2:{ rewrite app_assoc. apply endsTight_app_r; [|assumption].
      now apply startsTight_nonempty. }
  change (startsWith (str "[" ++ w ++ J) (str "{")) with false.
  change (startsWith (str "[" ++ w ++ J) (str "[")) with true.
  cbv iota. unfold parseArray.
  change (startsWith (str "[" ++ w ++ J) (str "[")) with true.
  cbn [negb]. change (substring 1 (str "[" ++ w ++ J)) with (w ++ J).
  rewrite (trim_idempotent_tight w J) by assumption.
  assert (startsWith J (str "]") = false) as Hno.
  { subst J. destruct tvs as [|[t v] tvs]; [contradiction|].
    destruct (Hall t v (or_introl eq_refl)) as ([Hts _] & _ & Hb).
    unfold itemsText. cbn [map fst].
    destruct t as [|c t]; [discriminate|].
    destruct (map fst tvs); cbn [join]; rewrite <- ?app_assoc; exact Hb. }
  rewrite Hno.
  rewrite (parseArray_loop_items rec sepw closew Hsep Hclose tvs Hne)
    with (rest := rest).
  - reflexivity.
  - intros t v Hin. destruct (Hall t v Hin) as (H1 & H2 & _). now split.
  - subst J. unfold itemsText. rewrite length_app.
    assert (length (map fst tvs) <= length (join (str "," ++ sepw) (map fst tvs))).
    { apply join_length_count. intros p Hp. apply in_map_iff in Hp.
      destruct Hp as ([t v] & <- & Hin). cbn [fst].
      destruct (Hall t v Hin) as ([Hts _] & _).
      destruct t; [discriminate|cbn; lia]. }
    rewrite length_map in H. lia.
  - assumption.
  - now apply trim_tight.
Qed.

Lemma keyText_not_brace (key t : jsstring) :
  startsWith (keyText key ++ t) (str "}") = false.
Proof.
  unfold keyText. destruct (isIdentifier key) eqn:E.
  - destruct key as [|c key]; [discriminate|].
    cbn [isIdentifier] in E. apply andb_true_iff in E. destruct E as [E _].
    cbn [app startsWith str]. rewrite andb_true_r. char_solve.
  - reflexivity.
Qed.

Lemma keyText_nonempty (key : jsstring) : 0 < length (keyText key).
Proof.
  unfold keyText. destruct (isIdentifier key) eqn:E.
  - destruct key; [discriminate|cbn; lia].
  - cbn. lia.
Qed.

Lemma parseValue_body_object (rec : jsstring -> Result (ParseResult JsValue))
  (sepw closew w : jsstring) (es : list (jsstring * jsstring * Value))
  (rest : jsstring) :
  forallb isWhiteSpace sepw = true -> forallb isWhiteSpace closew = true ->
  forallb isWhiteSpace w = true ->
  es <> [] ->
  (forall e, In e es ->
             tight (snd (fst e)) /\ parsesTo rec (snd (fst e)) (snd e)
             /\ jsstring_eqb (fst (fst e)) (str "__proto__") = false) ->
  endsTight rest = true ->
  keysOrdered (map fst (map entryPair es)) = true ->
  parseValue_body rec (str "{" ++ w ++ entriesText sepw closew es rest)
  = Ok (mkParseResult (plain (VObj (map entryPair es))) rest).
Proof.
  intros Hsep Hclose Hw Hne Hall Hrest Hkeys.
  assert (tight (entriesText sepw closew es rest)) as [HJs HJe].
  { apply entriesText_tight; try assumption.
    intros e Hin. now apply (Hall e). }
  assert (startsWith (entriesText sepw closew es rest) (str "}") = false) as Hno.
  { destruct es as [|e es]; [contradiction|].
    unfold entriesText. cbn [map]. unfold entryText at 1.
    destruct (map entryText es); cbn [join]; rewrite <- ?app_assoc;
      apply keyText_not_brace. }
  assert (length es <= length (entriesText sepw closew es rest)) as Hlen.
  { unfold entriesText. rewrite length_app.
    assert (length (map entryText es)
            <= length (join (str "," ++ sepw) (map entryText es))).
    { apply join_length_count. intros p Hp. apply in_map_iff in Hp.
      destruct Hp as (e & <- & Hin). unfold entryText. rewrite length_app.
      pose proof (keyText_nonempty (fst (fst e))). lia. }
    rewrite length_map in H. lia. }
  set (J := entriesText sepw closew es rest) in *.
  unfold parseValue_body.
  rewrite (trim_tight (str "{" ++ w ++ J)).
  2:{ reflexivity. }
  2:{ rewrite app_assoc. apply endsTight_app_r; [|assumption].
      now apply startsTight_nonempty. }
  change (startsWith (str "{" ++ w ++ J) (str "{")) with true.
  cbv iota. unfold parseObject.
  change (startsWith (str "{" ++ w ++ J) (str "{")) with true.
  cbn [negb]. change (substring 1 (str "{" ++ w ++ J)) with (w ++ J).
  rewrite (trim_idempotent_tight w J) by assumption.
  rewrite Hno.
  rewrite (parseObject_loop_entries rec sepw closew Hsep Hclose es Hne Hall)
    with (rest := rest).
  - reflexivity.
  - lia.
  - assumption.
  - assumption.
  - now apply trim_tight.
Qed.

Lemma fold_max_le (A : Type) (f : A -> nat) (l : list A) (b : nat) :
  (forall x, In x l -> f x <= b) ->
  fold_right (fun x d => Nat.max (f x) d) 0 l <= b.
Proof.
  induction l as [|x l IH]; intros H; cbn [fold_right]; [lia|].
  assert (f x <= b) by (apply H; now left).
  assert (fold_right (fun x d => Nat.max (f x) d) 0 l <= b).
  { apply IH. intros y Hy. apply H. now right. }
  lia.
Qed.

(** The relaxed parser reads back what the relaxed serializer writes. *)
Lemma parseValue_toJson (v : Value) :
  wellFormed v = true -> finiteNumbers v = true -> noProtoKey v = true ->
  forall indent fuel,
    depth v < fuel -> parsesTo (parseValue fuel) (toJson v indent) v.
Proof.
  induction v as [|b|x|s|items IH|entries IH] using Value_ind;
    intros Hw Hf Hp indent fuel Hfuel tail Htail Hbound;
    (destruct fuel as [|fuel]; [lia|]); cbn [parseValue].
  - (* null *)
    cbn [toJson]. unfold parseValue_body.
    rewrite (tight_app (str "null") tail) by auto. reflexivity.
  - (* booleans *)
    cbn [toJson]. unfold parseValue_body. destruct b.
    + rewrite (tight_app (str "true") tail) by auto. reflexivity.
    + rewrite (tight_app (str "false") tail) by auto. reflexivity.
  - (* numbers *)
    cbn [toJson]. now apply parseValue_body_number.
  - (* strings *)
    cbn [toJson]. now apply parseValue_body_string.
  - (* arrays *)
    destruct items as [|item items].
    + cbn [toJson]. unfold parseValue_body.
      rewrite (tight_app (str "[]") tail) by auto.
      change (startsWith (str "[]" ++ tail) (str "{")) with false.
      change (startsWith (str "[]" ++ tail) (str "[")) with true.
      cbv iota. unfold parseArray.
      change (startsWith (str "[]" ++ tail) (str "[")) with true.
      cbn [negb]. change (substring 1 (str "[]" ++ tail)) with (str "]" ++ tail).
      rewrite (tight_app (str "]") tail) by auto. reflexivity.
    + rewrite toJson_array_text.
      rewrite parseValue_body_array.
      * now rewrite map_snd_itemTexts.
      * apply (indentation_ws (indent + 1)).
      * apply (indentation_ws indent).
      * apply (indentation_ws (indent + 1)).
      * discriminate.
      * intros t v Hin. unfold itemTexts in Hin. apply in_map_iff in Hin.
        destruct Hin as (it & E & Hin). injection E as <- <-.
        pose proof (everywhere_items _ _ _ _ it Hw Hin) as Hw'.
        pose proof (everywhere_items _ _ _ _ it Hf Hin) as Hf'.
        pose proof (everywhere_items _ _ _ _ it Hp Hin) as Hp'.
        pose proof (depth_item _ it Hin) as Hd.
        rewrite Forall_forall in IH.
        split; [now apply toJson_tight|]. split.
        -- apply IH; try assumption. lia.
        -- destruct (toJson_shape it (indent + 1) Hw' Hf')
             as [(c & t & -> & Hc) _].
           destruct (valueHead_facts c Hc) as (_ & H2 & _).
           cbn [startsWith str]. now rewrite H2.
      * assumption.
  - (* objects *)
    destruct entries as [|e entries].
    + cbn [toJson]. unfold parseValue_body.
      rewrite (tight_app (str "{}") tail) by auto.
      change (startsWith (str "{}" ++ tail) (str "{")) with true.
      cbv iota. unfold parseObject.
      change (startsWith (str "{}" ++ tail) (str "{")) with true.
      cbn [negb]. change (substring 1 (str "{}" ++ tail)) with (str "}" ++ tail).
      rewrite (tight_app (str "}") tail) by auto. reflexivity.
    + rewrite toJson_object_text.
      rewrite parseValue_body_object.
      * now rewrite map_entryPair_entryTexts.
      * apply (indentation_ws (indent + 1)).
      * apply (indentation_ws indent).
      * apply (indentation_ws (indent + 1)).
      * discriminate.
      * intros e0 Hin. unfold entryTexts in Hin. apply in_map_iff in Hin.
        destruct Hin as (kv & E & Hin). subst e0. cbn [fst snd].
        pose proof (everywhere_entries _ _ _ _ kv Hw Hin) as Hw'.
        pose proof (everywhere_entries _ _ _ _ kv Hf Hin) as Hf'.
        pose proof (everywhere_entries _ _ _ _ kv Hp Hin) as Hp'.
        pose proof (depth_entry _ kv Hin) as Hd.
        rewrite Forall_forall in IH.
        split; [now apply toJson_tight|]. split.
        -- apply (IH kv Hin); try assumption. lia.
        -- apply everywhere_keys in Hp. rewrite forallb_forall in Hp.
           apply negb_true_iff. apply Hp. now apply in_map.
      * assumption.
      * rewrite map_entryPair_entryTexts. now apply everywhere_keys in Hw.
Qed.

Lemma depth_le_toJson (v : Value) :
  forall indent, depth v <= length (toJson v indent).
Proof.
  induction v as [|b|x|s|items IH|entries IH] using Value_ind; intros indent;
    try (cbn [depth]; lia).
  - destruct items as [|item items]; [cbn; lia|].
    set (l := item :: items) in *.
    change (toJson (VArr l) indent)
      with (str "[" ++ [LF]
              ++ join (str "," ++ [LF])
                   (map (fun it => indentation (indent + 1) ++ toJson it (indent + 1)) l)
              ++ [LF] ++ indentation indent ++ str "]").
    cbn [depth]. rewrite !length_app. cbn [length str].
    assert (fold_right (fun it d => Nat.max (depth it) d) 0 l
            <= length (join (str "," ++ [LF])
                         (map (fun it => indentation (indent + 1)
                                           ++ toJson it (indent + 1)) l))).
    { apply fold_max_le. intros it Hin. rewrite Forall_forall in IH.
      etransitivity; [apply (IH it Hin (indent + 1))|].
      etransitivity; [|apply join_length_ge; apply in_map; exact Hin].
      rewrite length_app. lia. }
    cbn [str] in H. lia.
  - destruct entries as [|e entries]; [cbn; lia|].
    set (l := e :: entries) in *.
    change (toJson (VObj l) indent)
      with (str "{" ++ [LF]
              ++ join (str "," ++ [LF])
                   (map (fun kv => indentation (indent + 1)
                                     ++ keyText (fst kv) ++ str ": "
                                     ++ toJson (snd kv) (indent + 1)) l)
              ++ [LF] ++ indentation indent ++ str "}").
    cbn [depth]. rewrite !length_app. cbn [length str].
    assert (fold_right (fun kv d => Nat.max (depth (snd kv)) d) 0 l
            <= length (join (str "," ++ [LF])
                         (map (fun kv => indentation (indent + 1)
                                     ++ keyText (fst kv) ++ str ": "
                                     ++ toJson (snd kv) (indent + 1)) l))).
    { apply (fold_max_le _ (fun kv => depth (snd kv))).
      intros kv Hin. rewrite Forall_forall in IH.
      etransitivity; [apply (IH kv Hin (indent + 1))|].
      etransitivity;
        [|apply join_length_ge;
          apply (in_map (fun kv => indentation (indent + 1)
                                     ++ keyText (fst kv) ++ str ": "
                                     ++ toJson (snd kv) (indent + 1)));
          exact Hin].
      rewrite !length_app. lia. }
    cbn [str] in H. lia.
Qed.

(** [parseJson(toJson(v))] gives [v] back. *)
Lemma parseJson_toJson (v : Value) :
  wellFormed v = true -> finiteNumbers v = true -> noProtoKey v = true ->
  parseJson (toJson v 0) = Ok v.
Proof.
  intros Hw Hf Hp. unfold parseJson.
  destruct (toJson_tight v 0 Hw Hf) as [Hs He].
  rewrite trim_tight by assumption.
  destruct (toJson v 0) as [|c t] eqn:E; [discriminate|]. rewrite <- E.
  pose proof (parseValue_toJson v Hw Hf Hp 0 (S (length (toJson v 0)))) as H.
  unfold parseValueTop. rewrite <- (app_nil_r (toJson v 0)) at 2.
  rewrite H; [reflexivity| |reflexivity|reflexivity].
  pose proof (depth_le_toJson v 0). lia.
Qed.


(* ================================================================== *)
(** * The strict parser on texts with quoted keys *)
(* ================================================================== *)

Lemma JSON_skipWhiteSpace_ws (w s : jsstring) :
  forallb JSON.isWhiteSpace w = true ->
  JSON.skipWhiteSpace (w ++ s) = JSON.skipWhiteSpace s.
Proof.
  induction w as [|c w IH]; cbn [app JSON.skipWhiteSpace forallb]; [auto|].
  intros H. apply andb_true_iff in H. destruct H as [H1 H2]. rewrite H1. auto.
Qed.

Lemma JSON_skipWhiteSpace_head (c : char) (s : jsstring) :
  JSON.isWhiteSpace c = false -> JSON.skipWhiteSpace (c :: s) = c :: s.
Proof. intros H. cbn [JSON.skipWhiteSpace]. now rewrite H. Qed.

Lemma JSON_skip_to (w : jsstring) (c : char) (s : jsstring) :
  forallb JSON.isWhiteSpace w = true -> JSON.isWhiteSpace c = false ->
  JSON.skipWhiteSpace (w ++ c :: s) = c :: s.
Proof.
  intros Hw Hc. rewrite JSON_skipWhiteSpace_ws by assumption.
  now apply JSON_skipWhiteSpace_head.
Qed.

Lemma indentation_json_ws (n : nat) :
  forallb JSON.isWhiteSpace (indentation n) = true.
Proof. induction n; cbn; auto. Qed.

Lemma Number_toString_leadingZero (x : number) :
  wellFormedNumber x = true -> isFinite x = true ->
  JSON.leadingZero (Number_toString x) = false.
Proof.
  intros Hw Hf. destruct x as [| | |negative ds n]; try discriminate;
    [reflexivity|].
  cbn [wellFormedNumber] in Hw.
  destruct (canonicalDigits_inv ds Hw) as (Hd & (d & more & -> & Hd0) & _).
  assert (isDigit d = true) as Hdd.
  { cbn [forallb] in Hd. now apply andb_true_iff in Hd. }
  assert (forall body : jsstring,
             (exists t, body = d :: t)
             \/ (exists t, body = ch "0" :: ch "." :: t) ->
             JSON.leadingZero ((if negative then str "-" else []) ++ body) = false)
    as Hbody.
  { intros body Hb. unfold JSON.leadingZero.
    assert ((if startsWith ((if negative then str "-" else []) ++ body) (str "-")
             then substring 1 ((if negative then str "-" else []) ++ body)
             else (if negative then str "-" else []) ++ body) = body) as ->.
    { destruct negative; [reflexivity|]. cbn [app].
      destruct Hb as [[t ->]|[t ->]]; cbn [startsWith str];
        [|reflexivity].
      rewrite (isDigit_not_minus d Hdd). reflexivity. }
    destruct Hb as [[t ->]|[t ->]].
    - destruct t; [reflexivity|]. cbv beta iota. now rewrite Hd0.
    - reflexivity. }
  unfold Number_toString. apply Hbody.
  destruct ((Z.of_nat (length (d :: more)) <=? n) && (n <=? 21))%Z.
  { left. eexists. cbn [app]. reflexivity. }
  destruct ((0 <? n) && (n <=? 21))%Z eqn:C2.
  { left. apply andb_true_iff in C2. destruct C2 as [C2 _]. apply Z.ltb_lt in C2.
    destruct (Z.to_nat n) as [|m] eqn:E; [lia|].
    eexists. cbn [firstn app]. reflexivity. }
  destruct ((-6 <? n) && (n <=? 0))%Z.
  { right. eexists. cbn [app str]. reflexivity. }
  left. destruct more as [|m more]; eexists; cbn [app]; reflexivity.
Qed.

Lemma numberBoundary_starts (tail : jsstring) :
  numberBoundary tail = true ->
  startsWith tail (str ".") || startsWith tail (str "e")
  || startsWith tail (str "E") = false.
Proof.
  destruct tail as [|c tail]; [reflexivity|].
  cbn [numberBoundary startsWith str]. rewrite !andb_true_r. intros H.
  char_solve.
Qed.

Lemma JSON_number_toString (x : number) (tail : jsstring) :
  wellFormedNumber x = true -> isFinite x = true ->
  numberBoundary tail = true ->
  JSON.number (Number_toString x ++ tail) = Ok (mkParseResult (VNum x) tail).
Proof.
  intros Hw Hf Hb. unfold JSON.number.
  rewrite scanNumber_toString by assumption.
  rewrite Number_toString_leadingZero by assumption.
  rewrite substring_app. now rewrite numberBoundary_starts.
Qed.

Section JsonLoops.

Variable rec : jsstring -> Result (ParseResult Value).
Variables sepw closew : jsstring.
Hypothesis sepw_ws : forallb JSON.isWhiteSpace sepw = true.
Hypothesis closew_ws : forallb JSON.isWhiteSpace closew = true.

Lemma numberBoundary_json_ws (w : jsstring) (c : char) (r : jsstring) :
  forallb JSON.isWhiteSpace w = true ->
  numberBoundary (c :: r) = true ->
  numberBoundary (w ++ c :: r) = true.
Proof.
  destruct w as [|d w]; [auto|]. intros Hw _.
  cbn [forallb] in Hw. apply andb_true_iff in Hw. destruct Hw as [Hd _].
  cbn [app numberBoundary]. char_solve.
Qed.

Lemma JSON_elements_items (tvs : list (jsstring * Value)) :
  tvs <> [] ->
  (forall t v, In (t, v) tvs -> jsonParsesTo rec t v) ->
  forall fuel arr rest w,
    length tvs <= fuel -> forallb JSON.isWhiteSpace w = true ->
    JSON.elements rec fuel arr (w ++ itemsText sepw closew tvs rest)
    = Ok (mkParseResult (VArr (arr ++ map snd tvs)) rest).
Proof.
  induction tvs as [|[t v] tvs IH]; [contradiction|].
  intros _ Hall fuel arr rest w Hfuel Hw.
  destruct fuel as [|fuel]; [cbn in Hfuel; lia|].
  pose proof (Hall t v (or_introl eq_refl)) as Hp.
  cbn [JSON.elements].
  destruct tvs as [|tv' tvs'].
  - unfold itemsText. cbn [map fst join]. rewrite <- ?app_assoc.
    rewrite (Hp w (closew ++ str "]" ++ rest) Hw).
    2:{ apply numberBoundary_json_ws; [assumption|reflexivity]. }
    cbn [bind value remaining].
    change (closew ++ str "]" ++ rest) with (closew ++ ch "]" :: rest).
    rewrite JSON_skip_to by auto.
    rewrite N.eqb_refl. reflexivity.
  - rewrite itemsText_cons by discriminate.
    set (J := itemsText sepw closew (tv' :: tvs') rest).
    rewrite (Hp w (str "," ++ sepw ++ J) Hw eq_refl).
    cbn [bind value remaining].
    change (str "," ++ sepw ++ J) with (ch "," :: sepw ++ J).
    rewrite JSON_skipWhiteSpace_head by reflexivity.
    change (N.eqb (ch ",") (ch "]")) with false.
    rewrite N.eqb_refl. cbv iota. subst J.
    rewrite IH.
    + now rewrite <- app_assoc.
    + discriminate.
    + intros t0 v0 Hin. apply (Hall t0 v0). now right.
    + cbn [length] in *. lia.
    + assumption.
Qed.

Lemma membersText_cons (e : jsstring * jsstring * Value)
  (es : list (jsstring * jsstring * Value)) (rest : jsstring) :
  es <> [] ->
  membersText sepw closew (e :: es) rest
  = memberText e ++ str "," ++ sepw ++ membersText sepw closew es rest.
Proof.
  intros H. unfold membersText. cbn [map].
  rewrite join_cons by (destruct es; [contradiction|discriminate]).
  now rewrite <- ?app_assoc.
Qed.

Lemma JSON_members_entries (es : list (jsstring * jsstring * Value)) :
  es <> [] ->
  (forall e, In e es ->
             jsonParsesTo rec (snd (fst e)) (snd e)
             /\ forallb isPlainChar (fst (fst e)) = true) ->
  forall fuel obj rest w,
    length es <= fuel -> forallb JSON.isWhiteSpace w = true ->
    keysOrdered (map fst (obj ++ map entryPair es)) = true ->
    JSON.members rec fuel obj (w ++ membersText sepw closew es rest)
    = Ok (mkParseResult (VObj (obj ++ map entryPair es)) rest).
Proof.
  induction es as [|[[k t] v] es IH]; [contradiction|].
  intros _ Hall fuel obj rest w Hfuel Hw Hkeys.
  destruct fuel as [|fuel]; [cbn in Hfuel; lia|].
  destruct (Hall (k, t, v) (or_introl eq_refl)) as (Hp & Hplain).
  cbn [fst snd] in Hp, Hplain.
  assert (defineProperty obj k v = obj ++ [(k, v)]) as Hset.
  { apply defineProperty_append.
    apply keysOrdered_app_l with (keys' := map fst (map entryPair es)).
    rewrite <- map_app, <- app_assoc. exact Hkeys. }
  cbn [JSON.members].
  assert (forall X : jsstring,
             JSON.skipWhiteSpace (w ++ memberText (k, t, v) ++ X)
             = DQ :: k ++ DQ :: str ": " ++ t ++ X) as Hskip.
  { intros X. unfold memberText. cbn [fst snd]. rewrite <- ?app_assoc.
    cbn [app]. now rewrite JSON_skip_to. }
  destruct es as [|e' es'].
  - unfold membersText. cbn [map join]. rewrite <- ?app_assoc.
    rewrite Hskip. rewrite N.eqb_refl.
    rewrite (JSON_stringChars_plain k [] _ Hplain).
    cbn [bind value remaining app str].
    rewrite (JSON_skipWhiteSpace_head (ch ":")) by reflexivity.
    rewrite N.eqb_refl.
    assert (numberBoundary (closew ++ ch "}" :: rest) = true) as HB.
    { apply numberBoundary_json_ws; [assumption|reflexivity]. }
    pose proof (Hp [ch " "] (closew ++ ch "}" :: rest) eq_refl HB) as Hv.
    cbn [app] in Hv. rewrite Hv.
    cbn [bind value remaining]. rewrite Hset.
    rewrite JSON_skip_to by auto.
    rewrite N.eqb_refl. reflexivity.
  - rewrite membersText_cons by discriminate.
    set (J := membersText sepw closew (e' :: es') rest).
    rewrite Hskip. rewrite N.eqb_refl.
    rewrite (JSON_stringChars_plain k [] _ Hplain).
    cbn [bind value remaining app str].
    rewrite (JSON_skipWhiteSpace_head (ch ":")) by reflexivity.
    rewrite N.eqb_refl.
    pose proof (Hp [ch " "] (ch "," :: sepw ++ J) eq_refl eq_refl) as Hv.
    cbn [app] in Hv. rewrite Hv.
    cbn [bind value remaining]. rewrite Hset.
    rewrite JSON_skipWhiteSpace_head by reflexivity.
    change (N.eqb (ch ",") (ch "}")) with false.
    rewrite N.eqb_refl. cbv iota. subst J.
    rewrite IH.
    + cbn [map]. change (entryPair (k, t, v)) with (k, v).
      now rewrite <- app_assoc.
    + discriminate.
    + intros e Hin. apply (Hall e). now right.
    + cbn [length] in *. lia.
    + assumption.
    + cbn [map] in Hkeys. change (entryPair (k, t, v)) with (k, v) in Hkeys.
      now rewrite <- app_assoc.
Qed.

End JsonLoops.

(** ** Arrays and objects as a whole *)

Lemma itemsText_head (sepw closew : jsstring) (t : jsstring) (v : Value)
  (tvs : list (jsstring * Value)) (rest : jsstring) (c : char) (t' : jsstring) :
  t = c :: t' ->
  exists s, itemsText sepw closew ((t, v) :: tvs) rest = c :: s.
Proof.
  intros ->. unfold itemsText. cbn [map fst].
  destruct (map fst tvs); cbn [join]; rewrite <- ?app_assoc; cbn [app]; eauto.
Qed.

Lemma itemsText_length (sepw closew : jsstring) (tvs : list (jsstring * Value))
  (rest : jsstring) :
  (forall t v, In (t, v) tvs -> t <> []) ->
  length tvs <= length (itemsText sepw closew tvs rest).
Proof.
  intros Hall. unfold itemsText. rewrite length_app.
  assert (length (map fst tvs) <= length (join (str "," ++ sepw) (map fst tvs))).
  { apply join_length_count. intros p Hp. apply in_map_iff in Hp.
    destruct Hp as ([t v] & <- & Hin). cbn [fst].
    specialize (Hall t v Hin). destruct t; [contradiction|cbn; lia]. }
  rewrite length_map in H. lia.
Qed.

Lemma membersText_length (sepw closew : jsstring)
  (es : list (jsstring * jsstring * Value)) (rest : jsstring) :
  length es <= length (membersText sepw closew es rest).
Proof.
  unfold membersText. rewrite length_app.
  assert (length (map memberText es)
          <= length (join (str "," ++ sepw) (map memberText es))).
  { apply join_length_count. intros p Hp. apply in_map_iff in Hp.
    destruct Hp as (e & <- & Hin). unfold memberText. cbn. lia. }
  rewrite length_map in H. lia.
Qed.

Lemma membersText_head (sepw closew : jsstring)
  (e : jsstring * jsstring * Value) (es : list (jsstring * jsstring * Value))
  (rest : jsstring) :
  exists s, membersText sepw closew (e :: es) rest = DQ :: s.
Proof.
  unfold membersText. cbn [map]. unfold memberText at 1.
  destruct (map memberText es); cbn [join]; rewrite <- ?app_assoc; cbn [app];
    eauto.
Qed.

Lemma JSON_value_body_array (rec : jsstring -> Result (ParseResult Value))
  (sepw closew w : jsstring) (tvs : list (jsstring * Value)) :
  forallb JSON.isWhiteSpace sepw = true ->
  forallb JSON.isWhiteSpace closew = true ->
  forallb JSON.isWhiteSpace w = true ->
  tvs <> [] ->
  (forall t v, In (t, v) tvs ->
               jsonParsesTo rec t v
               /\ exists c t', t = c :: t' /\ valueHead c = true) ->
  jsonParsesTo (JSON.value_body rec)
    (str "[" ++ w ++ itemsText sepw closew tvs []) (VArr (map snd tvs)).
Proof.
  intros Hsep Hclose Hw Hne Hall w0 tail Hw0 Hb.
  assert ((str "[" ++ w ++ itemsText sepw closew tvs []) ++ tail
          = ch "[" :: w ++ itemsText sepw closew tvs tail) as ->.
  { unfold itemsText. rewrite <- !app_assoc. reflexivity. }
  unfold JSON.value_body.
  rewrite JSON_skip_to by auto.
  change (N.eqb (ch "[") (ch "{")) with false.
  rewrite N.eqb_refl. cbv iota.
  destruct tvs as [|[t v] tvs]; [contradiction|].
  destruct (Hall t v (or_introl eq_refl)) as (_ & c & t' & Et & Hc).
  destruct (itemsText_head sepw closew t v tvs tail c t' Et) as [s Es].
  destruct (valueHead_facts c Hc) as (_ & Hc1 & _ & Hc2).
  rewrite Es. rewrite JSON_skip_to by auto. rewrite Hc1.
  rewrite <- Es.
  rewrite (JSON_elements_items rec sepw closew Hsep Hclose ((t, v) :: tvs)
             Hne) with (w := []) (arr := []) (rest := tail).
  - reflexivity.
  - intros t0 v0 Hin. now apply (Hall t0 v0).
  - etransitivity; [apply (itemsText_length sepw closew _ tail)|lia].
    intros t0 v0 Hin. destruct (Hall t0 v0 Hin) as (_ & c0 & t0' & -> & _).
    discriminate.
  - reflexivity.
Qed.

Lemma JSON_value_body_object (rec : jsstring -> Result (ParseResult Value))
  (sepw closew w : jsstring) (es : list (jsstring * jsstring * Value)) :
  forallb JSON.isWhiteSpace sepw = true ->
  forallb JSON.isWhiteSpace closew = true ->
  forallb JSON.isWhiteSpace w = true ->
  es <> [] ->
  (forall e, In e es ->
             jsonParsesTo rec (snd (fst e)) (snd e)
             /\ forallb isPlainChar (fst (fst e)) = true) ->
  keysOrdered (map fst (map entryPair es)) = true ->
  jsonParsesTo (JSON.value_body rec)
    (str "{" ++ w ++ membersText sepw closew es []) (VObj (map entryPair es)).
Proof.
  intros Hsep Hclose Hw Hne Hall Hkeys w0 tail Hw0 Hb.
  assert ((str "{" ++ w ++ membersText sepw closew es []) ++ tail
          = ch "{" :: w ++ membersText sepw closew es tail) as ->.
  { unfold membersText. rewrite <- !app_assoc. reflexivity. }
  unfold JSON.value_body.
  rewrite JSON_skip_to by auto.
  rewrite N.eqb_refl.
  destruct es as [|e es]; [contradiction|].
  destruct (membersText_head sepw closew e es tail) as [s Es].
  rewrite Es. rewrite JSON_skip_to by auto.
  change (N.eqb DQ (ch "}")) with false. cbv iota.
  rewrite <- Es.
  rewrite (JSON_members_entries rec sepw closew Hsep Hclose (e :: es)
             Hne Hall) with (w := []) (obj := []) (rest := tail).
  - reflexivity.
  - etransitivity; [apply (membersText_length sepw closew _ tail)|lia].
  - reflexivity.
  - assumption.
Qed.

(** ** The texts of [toToon] *)

Lemma isCompactItem_inlineItem (items : list Value) :
  forallb isCompactItem items = true ->
  map (fun item =>
         match item with
         | VObj entries =>
             str "{ " ++ join (str ", ") (map pairText entries) ++ str " }"
         | _ => str "{  }"
         end) items
  = map inlineItem items.
Proof.
  intros H. apply map_ext_in. intros item Hin.
  rewrite forallb_forall in H. specialize (H item Hin).
  destruct item; try discriminate. reflexivity.
Qed.

Lemma toToon_array_compact (item : Value) (items : list Value) (indent : nat) :
  forallb isCompactItem (item :: items) = true ->
  toToon (VArr (item :: items)) indent
  = str "[" ++ (LF :: indentation (indent + 1))
      ++ itemsText (LF :: indentation (indent + 1)) (LF :: indentation indent)
           (itemTexts inlineItem (item :: items)) [].
Proof.
  intros H. 
  change (toToon (VArr (item :: items)) indent)
    with (if forallb isCompactItem (item :: items)
          then str "[" ++ [LF] ++ indentation (indent + 1)
                 ++ join (str "," ++ [LF] ++ indentation (indent + 1))
                      (map (fun item =>
                              match item with
                              | VObj entries =>
                                  str "{ " ++ join (str ", ") (map pairText entries)
                                    ++ str " }"
                              | _ => str "{  }"
                              end) (item :: items))
                 ++ [LF] ++ indentation indent ++ str "]"
          else str "[" ++ [LF]
                 ++ join (str "," ++ [LF])
                      (map (fun it => indentation (indent + 1)
                                      ++ toToon it (indent + 1)) (item :: items))
                 ++ [LF] ++ indentation indent ++ str "]").
  rewrite H. rewrite isCompactItem_inlineItem by assumption.
  unfold itemsText. rewrite map_fst_itemTexts.
  rewrite <- ?app_assoc. reflexivity.
Qed.

Lemma toToon_array_normal (item : Value) (items : list Value) (indent : nat) :
  forallb isCompactItem (item :: items) = false ->
  toToon (VArr (item :: items)) indent
  = str "[" ++ (LF :: indentation (indent + 1))
      ++ itemsText (LF :: indentation (indent + 1)) (LF :: indentation indent)
           (itemTexts (fun v => toToon v (indent + 1)) (item :: items)) [].
Proof.
  intros H.
  change (toToon (VArr (item :: items)) indent)
    with (if forallb isCompactItem (item :: items)
          then str "[" ++ [LF] ++ indentation (indent + 1)
                 ++ join (str "," ++ [LF] ++ indentation (indent + 1))
                      (map (fun item =>
                              match item with
                              | VObj entries =>
                                  str "{ " ++ join (str ", ") (map pairText entries)
                                    ++ str " }"
                              | _ => str "{  }"
                              end) (item :: items))
                 ++ [LF] ++ indentation indent ++ str "]"
          else str "[" ++ [LF]
                 ++ join (str "," ++ [LF])
                      (map (fun it => indentation (indent + 1)
                                      ++ toToon it (indent + 1)) (item :: items))
                 ++ [LF] ++ indentation indent ++ str "]").
  rewrite H. unfold itemsText. rewrite map_fst_itemTexts.
  rewrite (join_prefix _ (str "," ++ [LF]) (indentation (indent + 1))
             (fun v => toToon v (indent + 1)) (item :: items))
    by discriminate.
  rewrite <- ?app_assoc. reflexivity.
Qed.

Lemma inlineValue_array (item : Value) (items : list Value) :
  inlineValue (VArr (item :: items))
  = str "[" ++ (LF :: indentation 1)
      ++ itemsText (LF :: indentation 1) [LF]
           (itemTexts inlineItem (item :: items)) [].
Proof.
  unfold inlineValue, itemsText. rewrite map_fst_itemTexts.
  rewrite <- ?app_assoc. reflexivity.
Qed.

Lemma map_memberText_entryTexts (render : Value -> jsstring) (entries : Object) :
  map memberText (entryTexts render entries)
  = map (fun kv => ([DQ] ++ fst kv ++ [DQ]) ++ str ": " ++ render (snd kv))
      entries.
Proof. unfold entryTexts. rewrite map_map. reflexivity. Qed.

Lemma braceBlock_text (e : jsstring * Value) (entries : Object) :
  braceBlock (e :: entries)
  = str "{" ++ str " "
      ++ membersText (str " ") (str " ")
           (entryTexts (fun v => toToon v 0) (e :: entries)) [].
Proof.
  unfold braceBlock, membersText. rewrite map_memberText_entryTexts.
  change (map pairText (e :: entries))
    with (map (fun kv => ([DQ] ++ fst kv ++ [DQ]) ++ str ": " ++ toToon (snd kv) 0)
            (e :: entries)).
  rewrite <- ?app_assoc. reflexivity.
Qed.

Lemma toToon_object_normal (e : jsstring * Value) (entries : Object)
  (indent : nat) :
  isCompactObject (e :: entries) && (indent =? 0)%nat = false ->
  toToon (VObj (e :: entries)) indent
  = str "{" ++ (LF :: indentation (indent + 1))
      ++ membersText (LF :: indentation (indent + 1)) (LF :: indentation indent)
           (entryTexts (fun v => toToon v (indent + 1)) (e :: entries)) [].
Proof.
  intros H.
  change (toToon (VObj (e :: entries)) indent)
    with (if isCompactObject (e :: entries) && (indent =? 0)%nat
          then str "{" ++ [LF] ++ indentation (indent + 1)
                 ++ join (str "," ++ [LF] ++ indentation (indent + 1))
                      (map (fun kv =>
                              match snd kv with
                              | VArr ((_ :: _) as val) =>
                                  ([DQ] ++ fst kv ++ [DQ]) ++ str ": [" ++ [LF]
                                    ++ indentation (indent + 1)
                                    ++ join (str "," ++ [LF] ++ indentation (indent + 1))
                                         (map inlineItem val)
                                    ++ [LF] ++ indentation indent ++ str "]"
                              | _ => ([DQ] ++ fst kv ++ [DQ]) ++ str ": "
                                       ++ toToon (snd kv) 0
                              end) (e :: entries))
                 ++ [LF] ++ indentation indent ++ str "}"
          else str "{" ++ [LF]
                 ++ join (str "," ++ [LF])
                      (map (fun kv => indentation (indent + 1)
                                        ++ ([DQ] ++ fst kv ++ [DQ]) ++ str ": "
                                        ++ toToon (snd kv) (indent + 1))
                         (e :: entries))
                 ++ [LF] ++ indentation indent ++ str "}").
  rewrite H. unfold membersText. rewrite map_memberText_entryTexts.
  rewrite (join_prefix _ (str "," ++ [LF]) (indentation (indent + 1))
             (fun kv => ([DQ] ++ fst kv ++ [DQ]) ++ str ": "
                          ++ toToon (snd kv) (indent + 1)) (e :: entries))
    by discriminate.
  rewrite <- ?app_assoc. reflexivity.
Qed.

Lemma inlineValue_member (kv : jsstring * Value) :
  match snd kv with
  | VArr ((_ :: _) as val) =>
      ([DQ] ++ fst kv ++ [DQ]) ++ str ": [" ++ [LF]
        ++ indentation (0 + 1)
        ++ join (str "," ++ [LF] ++ indentation (0 + 1)) (map inlineItem val)
        ++ [LF] ++ indentation 0 ++ str "]"
  | _ => ([DQ] ++ fst kv ++ [DQ]) ++ str ": " ++ toToon (snd kv) 0
  end
  = ([DQ] ++ fst kv ++ [DQ]) ++ str ": " ++ inlineValue (snd kv).
Proof.
  destruct kv as [k val]. cbn [fst snd]. unfold inlineValue.
  destruct val as [| | | |[|x xs]|]; reflexivity.
Qed.

Lemma toToon_object_compact (e : jsstring * Value) (entries : Object) :
  isCompactObject (e :: entries) = true ->
  toToon (VObj (e :: entries)) 0
  = str "{" ++ (LF :: indentation 1)
      ++ membersText (LF :: indentation 1) [LF]
           (entryTexts inlineValue (e :: entries)) [].
Proof.
  intros H.
  change (toToon (VObj (e :: entries)) 0)
    with (if isCompactObject (e :: entries) && (0 =? 0)%nat
          then str "{" ++ [LF] ++ indentation (0 + 1)
                 ++ join (str "," ++ [LF] ++ indentation (0 + 1))
                      (map (fun kv =>
                              match snd kv with
                              | VArr ((_ :: _) as val) =>
                                  ([DQ] ++ fst kv ++ [DQ]) ++ str ": [" ++ [LF]
                                    ++ indentation (0 + 1)
                                    ++ join (str "," ++ [LF] ++ indentation (0 + 1))
                                         (map inlineItem val)
                                    ++ [LF] ++ indentation 0 ++ str "]"
                              | _ => ([DQ] ++ fst kv ++ [DQ]) ++ str ": "
                                       ++ toToon (snd kv) 0
                              end) (e :: entries))
                 ++ [LF] ++ indentation 0 ++ str "}"
          else str "{" ++ [LF]
                 ++ join (str "," ++ [LF])
                      (map (fun kv => indentation (0 + 1)
                                        ++ ([DQ] ++ fst kv ++ [DQ]) ++ str ": "
                                        ++ toToon (snd kv) (0 + 1))
                         (e :: entries))
                 ++ [LF] ++ indentation 0 ++ str "}").
  rewrite H. cbn [andb Nat.eqb]. cbv iota.
  unfold membersText. rewrite map_memberText_entryTexts.
  rewrite (map_ext _ _ inlineValue_member).
  rewrite <- ?app_assoc. reflexivity.
Qed.

(** ** Heads of the texts *)

Lemma toToon_head (v : Value) (indent : nat) :
  wellFormed v = true -> finiteNumbers v = true ->
  exists c t, toToon v indent = c :: t /\ valueHead c = true.
Proof.
  intros Hw Hf. destruct v as [|b|x|s|items|entries].
  - now exists (ch "n"), (str "ull").
  - destruct b; [now exists (ch "t"), (str "rue")|now exists (ch "f"), (str "alse")].
  - cbn in Hw, Hf.
    destruct (Number_toString_head x Hw Hf) as (c & t & E & Hc).
    exists c, t. split; [exact E|]. unfold valueHead.
    destruct Hc as [Hc| ->]; [now rewrite Hc|].
    now rewrite N.eqb_refl, orb_true_r.
  - now exists DQ, (escape s ++ [DQ]).
  - destruct items as [|item items]; [now exists (ch "["), (str "]")|].
    destruct (forallb isCompactItem (item :: items)) eqn:E.
    + rewrite toToon_array_compact by assumption. eexists _, _. split; reflexivity.
    + rewrite toToon_array_normal by assumption. eexists _, _. split; reflexivity.
  - destruct entries as [|e entries]; [now exists (ch "{"), (str "}")|].
    destruct (isCompactObject (e :: entries) && (indent =? 0)%nat) eqn:E.
    + apply andb_true_iff in E. destruct E as [E1 E2].
      apply Nat.eqb_eq in E2. subst indent.
      rewrite toToon_object_compact by assumption.
      eexists _, _. split; reflexivity.
    + rewrite toToon_object_normal by assumption.
      eexists _, _. split; reflexivity.
Qed.

Lemma inlineItem_head (v : Value) :
  wellFormed v = true -> finiteNumbers v = true ->
  exists c t, inlineItem v = c :: t /\ valueHead c = true.
Proof.
  intros Hw Hf. destruct v; try (now apply toToon_head).
  eexists _, _. split; reflexivity.
Qed.

Lemma inlineValue_head (v : Value) :
  wellFormed v = true -> finiteNumbers v = true ->
  exists c t, inlineValue v = c :: t /\ valueHead c = true.
Proof.
  intros Hw Hf. destruct v as [| | | |[|x xs]|]; try (now apply toToon_head).
  eexists _, _. split; reflexivity.
Qed.

(** ** Values without parts *)

Lemma JSON_value_body_scalar (rec : jsstring -> Result (ParseResult Value))
  (v : Value) (indent : nat) :
  isScalar v = true ->
  jsonSafe v = true -> wellFormed v = true -> finiteNumbers v = true ->
  jsonParsesTo (JSON.value_body rec) (toToon v indent) v.
Proof.
  intros Hs Hj Hw Hf w tail Hws Hb. destruct v as [|b|x|s| |]; try discriminate;
    unfold JSON.value_body.
  - cbn [toToon]. cbn [app str]. rewrite JSON_skip_to by auto. reflexivity.
  - destruct b; cbn [toToon]; cbn [app str]; rewrite JSON_skip_to by auto;
      reflexivity.
  - cbn [toToon]. cbn in Hw, Hf.
    destruct (Number_toString_head x Hw Hf) as (c & t & E & Hc).
    pose proof (JSON_number_toString x tail Hw Hf Hb) as Hn.
    rewrite E in *. cbn [app] in *.
    assert (JSON.isWhiteSpace c = false /\ N.eqb c (ch "{") = false
            /\ N.eqb c (ch "[") = false /\ N.eqb c DQ = false
            /\ N.eqb c (ch "t") = false /\ N.eqb c (ch "f") = false
            /\ N.eqb c (ch "n") = false) as (H0 & H1 & H2 & H3 & H4 & H5 & H6).
    { destruct Hc as [Hc| ->]; [|repeat split; reflexivity].
      repeat split; char_solve. }
    rewrite JSON_skip_to by auto. rewrite H1, H2, H3.
    cbn [startsWith str]. rewrite H4, H5, H6. cbn [andb]. exact Hn.
  - cbn [toToon]. rewrite <- !app_assoc. cbn [app].
    rewrite JSON_skip_to by auto.
    change (N.eqb DQ (ch "{")) with false.
    change (N.eqb DQ (ch "[")) with false.
    rewrite N.eqb_refl. cbv iota.
    rewrite JSON_stringChars_escape by exact Hj. reflexivity.
Qed.

Lemma JSON_value_body_empty_array
  (rec : jsstring -> Result (ParseResult Value)) :
  jsonParsesTo (JSON.value_body rec) (str "[]") (VArr []).
Proof.
  intros w tail Hw Hb. unfold JSON.value_body. cbn [app str].
  rewrite JSON_skip_to by auto. reflexivity.
Qed.

Lemma JSON_value_body_empty_object
  (rec : jsstring -> Result (ParseResult Value)) (w0 : jsstring) :
  forallb JSON.isWhiteSpace w0 = true ->
  jsonParsesTo (JSON.value_body rec) (str "{" ++ w0 ++ str "}") (VObj []).
Proof.
  intros Hw0 w tail Hw Hb. unfold JSON.value_body. rewrite <- !app_assoc.
  cbn [app str]. rewrite JSON_skip_to by auto.
  rewrite N.eqb_refl. rewrite JSON_skip_to by auto.
  rewrite N.eqb_refl. reflexivity.
Qed.

(** ** The strict round trip *)

Lemma jsonSafe_keys (entries : Object) (kv : jsstring * Value) :
  jsonSafe (VObj entries) = true -> In kv entries ->
  forallb isPlainChar (fst kv) = true.
Proof.
  intros H Hin. apply everywhere_keys in H. rewrite forallb_forall in H.
  apply H. now apply in_map.
Qed.

Lemma JSON_parseValue_toToon (v : Value) :
  jsonSafe v = true -> wellFormed v = true -> finiteNumbers v = true ->
  forall fuel,
    depth v < fuel ->
    (forall indent, jsonParsesTo (JSON.parseValue fuel) (toToon v indent) v)
    /\ jsonParsesTo (JSON.parseValue fuel) (inlineItem v) v
    /\ jsonParsesTo (JSON.parseValue fuel) (inlineValue v) v.
Proof.
  induction v as [|b|x|s|items IH|entries IH] using Value_ind;
    intros Hj Hw Hf fuel Hfuel;
    (destruct fuel as [|fuel]; [lia|]); cbn [JSON.parseValue].
  1-4: repeat split; intros; now apply JSON_value_body_scalar.
  - (* arrays *)
    rewrite Forall_forall in IH.
    assert (forall item, In item items ->
              (forall indent,
                  jsonParsesTo (JSON.parseValue fuel) (toToon item indent) item)
              /\ jsonParsesTo (JSON.parseValue fuel) (inlineItem item) item)
      as Hitems.
    { intros item Hin.
      pose proof (depth_item items item Hin) as Hd.
      destruct (IH item Hin (everywhere_items _ _ _ _ item Hj Hin)
                  (everywhere_items _ _ _ _ item Hw Hin)
                  (everywhere_items _ _ _ _ item Hf Hin) fuel)
        as (H1 & H2 & _); [lia|]. now split. }
    assert (forall closew,
               forallb JSON.isWhiteSpace closew = true ->
               items <> [] ->
               jsonParsesTo (JSON.value_body (JSON.parseValue fuel))
                 (str "[" ++ (LF :: indentation 1)
                    ++ itemsText (LF :: indentation 1) closew
                         (itemTexts inlineItem items) [])
                 (VArr items)) as Hinline.
    { intros closew Hclose Hne.
      rewrite <- (map_snd_itemTexts inlineItem items) at 2.
      apply JSON_value_body_array; try assumption; try reflexivity.
      - destruct items; [contradiction|discriminate].
      - intros t v Hin. unfold itemTexts in Hin. apply in_map_iff in Hin.
        destruct Hin as (item & E & Hin). injection E as <- <-.
        split; [now apply Hitems|].
        apply inlineItem_head;
          [exact (everywhere_items _ _ _ _ item Hw Hin)
          |exact (everywhere_items _ _ _ _ item Hf Hin)]. }
    assert (forall indent,
               jsonParsesTo (JSON.value_body (JSON.parseValue fuel))
                 (toToon (VArr items) indent) (VArr items)) as Hnormal.
    { intros indent. destruct items as [|item items].
      { apply JSON_value_body_empty_array. }
      destruct (forallb isCompactItem (item :: items)) eqn:E.
      - rewrite toToon_array_compact by assumption.
        rewrite <- (map_snd_itemTexts inlineItem (item :: items)) at 2.
        apply JSON_value_body_array; try reflexivity.
        + apply (indentation_json_ws (indent + 1)).
        + apply (indentation_json_ws indent).
        + apply (indentation_json_ws (indent + 1)).
        + discriminate.
        + intros t v Hin. unfold itemTexts in Hin. apply in_map_iff in Hin.
          destruct Hin as (it & E' & Hin). injection E' as <- <-.
          split; [now apply Hitems|].
          apply inlineItem_head;
            [exact (everywhere_items _ _ _ _ it Hw Hin)
            |exact (everywhere_items _ _ _ _ it Hf Hin)].
      - rewrite toToon_array_normal by assumption.
        rewrite <- (map_snd_itemTexts (fun v => toToon v (indent + 1))
                      (item :: items)) at 2.
        apply JSON_value_body_array; try reflexivity.
        + apply (indentation_json_ws (indent + 1)).
        + apply (indentation_json_ws indent).
        + apply (indentation_json_ws (indent + 1)).
        + discriminate.
        + intros t v Hin. unfold itemTexts in Hin. apply in_map_iff in Hin.
          destruct Hin as (it & E' & Hin). injection E' as <- <-.
          split; [now apply Hitems|].
          apply toToon_head;
            [exact (everywhere_items _ _ _ _ it Hw Hin)
            |exact (everywhere_items _ _ _ _ it Hf Hin)]. }
    split; [exact Hnormal|]. split; [exact (Hnormal 0)|].
    destruct items as [|item items]; [exact (Hnormal 0)|].
    rewrite inlineValue_array. apply Hinline; [reflexivity|discriminate].
  - (* objects *)
    rewrite Forall_forall in IH.
    assert (forall kv, In kv entries ->
              (forall indent,
                  jsonParsesTo (JSON.parseValue fuel)
                    (toToon (snd kv) indent) (snd kv))
              /\ jsonParsesTo (JSON.parseValue fuel)
                   (inlineValue (snd kv)) (snd kv)) as Hentries.
    { intros kv Hin.
      pose proof (depth_entry entries kv Hin) as Hd.
      destruct (IH kv Hin (everywhere_entries _ _ _ _ kv Hj Hin)
                  (everywhere_entries _ _ _ _ kv Hw Hin)
                  (everywhere_entries _ _ _ _ kv Hf Hin) fuel)
        as (H1 & _ & H3); [lia|]. now split. }
    assert (forall (render : Value -> jsstring) sepw closew w,
               forallb JSON.isWhiteSpace sepw = true ->
               forallb JSON.isWhiteSpace closew = true ->
               forallb JSON.isWhiteSpace w = true ->
               entries <> [] ->
               (forall kv, In kv entries ->
                           jsonParsesTo (JSON.parseValue fuel)
                             (render (snd kv)) (snd kv)) ->
               jsonParsesTo (JSON.value_body (JSON.parseValue fuel))
                 (str "{" ++ w ++ membersText sepw closew
                                    (entryTexts render entries) [])
                 (VObj entries)) as Hmembers.
    { intros render sepw closew w Hsep Hclose Hws Hne Hr.
      rewrite <- (map_entryPair_entryTexts render entries) at 2.
      apply JSON_value_body_object; try assumption.
      - destruct entries; [contradiction|discriminate].
      - intros e Hin. unfold entryTexts in Hin. apply in_map_iff in Hin.
        destruct Hin as (kv & <- & Hin). cbn [fst snd].
        split; [now apply Hr|]. now apply (jsonSafe_keys entries).
      - rewrite map_entryPair_entryTexts. now apply everywhere_keys in Hw. }
    assert (forall indent,
               jsonParsesTo (JSON.value_body (JSON.parseValue fuel))
                 (toToon (VObj entries) indent) (VObj entries)) as Hnormal.
    { intros indent. destruct entries as [|e entries].
      { apply (JSON_value_body_empty_object _ []). reflexivity. }
      destruct (isCompactObject (e :: entries) && (indent =? 0)%nat) eqn:E.
      - apply andb_true_iff in E. destruct E as [E1 E2].
        apply Nat.eqb_eq in E2. subst indent.
        rewrite toToon_object_compact by assumption.
        apply Hmembers; try reflexivity; [discriminate|].
        intros kv Hin. now apply Hentries.
      - rewrite toToon_object_normal by assumption.
        apply Hmembers.
        + apply (indentation_json_ws (indent + 1)).
        + apply (indentation_json_ws indent).
        + apply (indentation_json_ws (indent + 1)).
        + discriminate.
        + intros kv Hin. now apply Hentries. }
    split; [exact Hnormal|]. split; [|exact (Hnormal 0)].
    cbn [inlineItem]. destruct entries as [|e entries].
    + apply (JSON_value_body_empty_object _ (str "  ")). reflexivity.
    + rewrite braceBlock_text.
      apply Hmembers; try reflexivity; [discriminate|].
      intros kv Hin. now apply Hentries.
Qed.

(** ** The length of the text bounds the depth *)

Lemma itemsText_depth (sepw closew : jsstring) (render : Value -> jsstring)
  (items : list Value) (rest : jsstring) :
  (forall item, In item items -> depth item <= length (render item)) ->
  fold_right (fun item d => Nat.max (depth item) d) 0 items
  <= length (itemsText sepw closew (itemTexts render items) rest).
Proof.
  intros H. apply fold_max_le. intros item Hin.
  etransitivity; [apply (H item Hin)|].
  unfold itemsText. rewrite length_app, map_fst_itemTexts.
  etransitivity; [apply (join_length_ge (str "," ++ sepw) (map render items))|lia].
  now apply in_map.
Qed.

Lemma membersText_depth (sepw closew : jsstring) (render : Value -> jsstring)
  (entries : Object) (rest : jsstring) :
  (forall kv, In kv entries -> depth (snd kv) <= length (render (snd kv))) ->
  fold_right (fun kv d => Nat.max (depth (snd kv)) d) 0 entries
  <= length (membersText sepw closew (entryTexts render entries) rest).
Proof.
  intros H. apply (fold_max_le _ (fun kv => depth (snd kv))). intros kv Hin.
  etransitivity; [apply (H kv Hin)|].
  unfold membersText. rewrite length_app.
  etransitivity;
    [|etransitivity;
      [apply (join_length_ge (str "," ++ sepw)
                (map memberText (entryTexts render entries))
                (memberText (fst kv, render (snd kv), snd kv)))|lia]].
  - unfold memberText. cbn [fst snd]. rewrite !length_app. lia.
  - apply in_map. unfold entryTexts.
    apply (in_map (fun kv => (fst kv, render (snd kv), snd kv))). exact Hin.
Qed.

Lemma depth_le_toToon (v : Value) :
  (forall indent, depth v <= length (toToon v indent))
  /\ depth v <= length (inlineItem v)
  /\ depth v <= length (inlineValue v).
Proof.
  induction v as [|b|x|s|items IH|entries IH] using Value_ind;
    try (repeat split; intros; cbn [depth]; lia).
  - rewrite Forall_forall in IH.
    assert (forall indent, depth (VArr items) <= length (toToon (VArr items) indent))
      as Hnormal.
    { intros indent. destruct items as [|item items]; [cbn; lia|].
      destruct (forallb isCompactItem (item :: items)) eqn:E.
      - rewrite toToon_array_compact by assumption.
        rewrite !length_app. cbn [depth length str].
        pose proof (itemsText_depth (LF :: indentation (indent + 1))
                      (LF :: indentation indent) inlineItem (item :: items) [])
          as H.
        assert (forall it, In it (item :: items) ->
                           depth it <= length (inlineItem it)) as Hi.
        { intros it Hin. now destruct (IH it Hin) as (_ & ? & _). }
        specialize (H Hi). lia.
      - rewrite toToon_array_normal by assumption.
        rewrite !length_app. cbn [depth length str].
        pose proof (itemsText_depth (LF :: indentation (indent + 1))
                      (LF :: indentation indent)
                      (fun v => toToon v (indent + 1)) (item :: items) [])
          as H.
        assert (forall it, In it (item :: items) ->
                           depth it <= length (toToon it (indent + 1))) as Hi.
        { intros it Hin. destruct (IH it Hin) as (Ht & _). apply Ht. }
        specialize (H Hi). lia. }
    split; [exact Hnormal|]. split; [exact (Hnormal 0)|].
    destruct items as [|item items]; [exact (Hnormal 0)|].
    rewrite inlineValue_array.
    rewrite !length_app. cbn [depth length str].
    pose proof (itemsText_depth (LF :: indentation 1) [LF] inlineItem
                  (item :: items) []) as H.
    assert (forall it, In it (item :: items) ->
                       depth it <= length (inlineItem it)) as Hi.
    { intros it Hin. now destruct (IH it Hin) as (_ & ? & _). }
    specialize (H Hi). lia.
  - rewrite Forall_forall in IH.
    assert (forall indent,
               depth (VObj entries) <= length (toToon (VObj entries) indent))
      as Hnormal.
    { intros indent. destruct entries as [|e entries]; [cbn; lia|].
      destruct (isCompactObject (e :: entries) && (indent =? 0)%nat) eqn:E.
      - apply andb_true_iff in E. destruct E as [E1 E2].
        apply Nat.eqb_eq in E2. subst indent.
        rewrite toToon_object_compact by assumption.
        rewrite !length_app. cbn [depth length str].
        pose proof (membersText_depth (LF :: indentation 1) [LF] inlineValue
                      (e :: entries) []) as H.
        assert (forall kv, In kv (e :: entries) ->
                           depth (snd kv) <= length (inlineValue (snd kv))) as Hi.
        { intros kv Hin. now destruct (IH kv Hin) as (_ & _ & ?). }
        specialize (H Hi). lia.
      - rewrite toToon_object_normal by assumption.
        rewrite !length_app. cbn [depth length str].
        pose proof (membersText_depth (LF :: indentation (indent + 1))
                      (LF :: indentation indent)
                      (fun v => toToon v (indent + 1)) (e :: entries) [])
          as H.
        assert (forall kv, In kv (e :: entries) ->
                           depth (snd kv) <= length (toToon (snd kv) (indent + 1)))
          as Hi.
        { intros kv Hin. destruct (IH kv Hin) as (Ht & _). apply Ht. }
        specialize (H Hi). lia. }
    split; [exact Hnormal|]. split; [|exact (Hnormal 0)].
    cbn [inlineItem]. destruct entries as [|e entries]; [cbn; lia|].
    rewrite braceBlock_text.
    rewrite !length_app. cbn [depth length str].
    pose proof (membersText_depth (str " ") (str " ") (fun v => toToon v 0)
                  (e :: entries) []) as H.
    assert (forall kv, In kv (e :: entries) ->
                       depth (snd kv) <= length (toToon (snd kv) 0)) as Hi.
    { intros kv Hin. destruct (IH kv Hin) as (Ht & _). apply Ht. }
    specialize (H Hi). cbn [str] in H. lia.
Qed.

(** [JSON.parse(toToon(v))] gives [v] back. *)
Lemma JSON_parse_toToon (v : Value) :
  jsonSafe v = true -> wellFormed v = true -> finiteNumbers v = true ->
  JSON.parse (toToon v 0) = Ok v.
Proof.
  intros Hj Hw Hf. unfold JSON.parse.
  destruct (JSON_parseValue_toToon v Hj Hw Hf (S (length (toToon v 0))))
    as (H & _).
  { destruct (depth_le_toToon v) as (Hd & _). specialize (Hd 0). lia. }
  specialize (H 0 [] [] eq_refl eq_refl). cbn [app] in H.
  rewrite app_nil_r in H. rewrite H. reflexivity.
Qed.

Lemma parseToon_toToon (v : Value) :
  jsonSafe v = true -> wellFormed v = true -> finiteNumbers v = true ->
  parseToon (toToon v 0) = Ok v.
Proof.
  intros Hj Hw Hf. unfold parseToon. now rewrite JSON_parse_toToon.
Qed.


(* ================================================================== *)
(** * The claims of the specification *)
(* ================================================================== *)

(** ** Round trips *)

(** C1, as stated, fails: the relaxed round trip loses an own property
    named [__proto__], which [obj[key] = value] does not create on the
    object the parser starts from, and it fails on the number Infinity,
    whose text [Infinity] the relaxed parser rejects. *)
Lemma relaxed_round_trip_fails :
  parseJson (toJson exampleProto 0) = Ok (VObj [])
  /\ VObj [] <> exampleProto
  /\ parseJson (toJson (VNum (Infinity false)) 0)
     = Throw (str "Unexpected token: Infinity").
Proof.
  split; [reflexivity|]. split; [discriminate|reflexivity].
Qed.

(** C1, amended: for every value tree built from null, booleans, finite
    numbers, strings, arrays and objects, no object of which has a key
    named [__proto__], parsing the text of the relaxed serializer with
    the relaxed parser gives the tree back:
    [parseJson(toJson(V)) = V], whatever the depth of [V].  The tree is
    one JavaScript can hold ([wellFormed]): the keys of an object differ
    and stand in property order. *)
Theorem relaxed_round_trip (V : Value) :
  wellFormed V = true -> finiteNumbers V = true -> noProtoKey V = true ->
  parseJson (toJson V 0) = Ok V.
Proof. apply parseJson_toJson. Qed.

Lemma relaxed_round_trip_witness :
  wellFormed exampleTree = true /\ finiteNumbers exampleTree = true
  /\ noProtoKey exampleTree = true
  /\ parseJson (toJson exampleTree 0) = Ok exampleTree.
Proof.
  split; [reflexivity|]. split; [reflexivity|]. split; [reflexivity|].
  apply (relaxed_round_trip exampleTree); reflexivity.
Defined.

(** C4, as stated, fails: the strict serializer writes a backspace as it
    is, and a quote inside a key as it is, and [JSON.parse] rejects both
    texts. *)
Lemma strict_round_trip_fails :
  toToon (VStr [BS]) 0 = [DQ; BS; DQ]
  /\ parseToon (toToon (VStr [BS]) 0)
     = Throw (str "Invalid TOON format: " ++ JSON.syntaxError)
  /\ parseToon (toToon (VObj [([DQ], VNull)]) 0)
     = Throw (str "Invalid TOON format: " ++ JSON.syntaxError).
Proof. split; [reflexivity|]. split; reflexivity. Qed.

(** C4, amended: for every value tree built from null, booleans, finite
    numbers, strings whose characters below U+0020 are only the newline,
    the carriage return and the tab, arrays, and objects whose keys have
    no double quote, no backslash and no character below U+0020, parsing
    the text of the strict serializer with the strict parser gives the
    tree back: [parseToon(toToon(V)) = V], whatever the depth of [V].
    The tree is one JavaScript can hold ([wellFormed]): the keys of an
    object differ and stand in property order. *)
Theorem strict_round_trip (V : Value) :
  wellFormed V = true -> finiteNumbers V = true -> jsonSafe V = true ->
  parseToon (toToon V 0) = Ok V.
Proof. intros Hw Hf Hj. now apply parseToon_toToon. Qed.

Lemma strict_round_trip_witness :
  wellFormed exampleTree = true /\ finiteNumbers exampleTree = true
  /\ jsonSafe exampleTree = true
  /\ parseToon (toToon exampleTree 0) = Ok exampleTree.
Proof.
  split; [reflexivity|]. split; [reflexivity|]. split; [reflexivity|].
  apply (strict_round_trip exampleTree); reflexivity.
Defined.

(** ** The layout of arrays *)

Lemma toToon_scalar (v : Value) (indent : nat) :
  isScalar v = true -> toToon v indent = specScalarText v.
Proof.
  destruct v as [|[|]|x|s| |]; try discriminate; try reflexivity.
  intros _. cbn [toToon specScalarText]. now rewrite escape_flat_map.
Qed.

Lemma inlineItem_specBraceBlock (item : Value) :
  isCompactItem item = true -> inlineItem item = specBraceBlock item.
Proof.
  destruct item as [| | | | |entries]; try discriminate.
  cbn [isCompactItem]. intros H. apply andb_true_iff in H. destruct H as [_ H].
  cbn [inlineItem specBraceBlock]. unfold braceBlock. do 3 f_equal.
  apply map_ext_in. intros kv Hin. rewrite forallb_forall in H.
  unfold pairText. rewrite toToon_scalar by now apply H.
  now rewrite <- !app_assoc.
Qed.

(** C2, as stated, fails: the relaxed serializer has no compact form,
    and renders the array of the example one entry per line with the
    keys unquoted. *)
Lemma relaxed_compact_array_fails :
  toJson (VArr exampleUsers) 0
  = str "[" ++ [LF]
      ++ str "  {" ++ [LF] ++ str "    id: 1," ++ [LF]
      ++ str "    name: " ++ quoted (str "Alice") ++ [LF] ++ str "  }," ++ [LF]
      ++ str "  {" ++ [LF] ++ str "    id: 2," ++ [LF]
      ++ str "    name: " ++ quoted (str "Bob") ++ [LF] ++ str "  }" ++ [LF]
      ++ str "]"
  /\ toJson (VArr exampleUsers) 0 <> exampleUsersCompact.
Proof. split; [reflexivity|discriminate]. Qed.

(** C2, amended: the compact array heuristic is the strict serializer's.
    For every non-empty array whose elements are all non-array objects
    with at most 5 keys and only null, boolean, number and string
    values, [toToon] renders each element as a single-line brace block
    with double-quoted keys, the blocks joined by a comma and a newline
    one indent level deeper inside the outer brackets; rendering the
    array of the example with [toToon] yields exactly the text the
    specification gives. *)
Theorem strict_compact_array :
  (forall items indent,
      items <> [] -> forallb isCompactItem items = true ->
      toToon (VArr items) indent = specCompactArray items indent)
  /\ toToon (VArr exampleUsers) 0 = exampleUsersCompact.
Proof.
  split; [|reflexivity].
  intros items indent Hne Hc. destruct items as [|item items]; [contradiction|].
  rewrite toToon_array_compact by assumption.
  unfold specCompactArray, itemsText. rewrite map_fst_itemTexts.
  rewrite (map_ext_in inlineItem specBraceBlock).
  - rewrite app_nil_r. rewrite <- ?app_assoc. reflexivity.
  - intros it Hin. apply inlineItem_specBraceBlock.
    rewrite forallb_forall in Hc. now apply Hc.
Qed.

Lemma strict_compact_array_witness :
  exampleUsers <> [] /\ forallb isCompactItem exampleUsers = true
  /\ toToon (VArr exampleUsers) 1 = specCompactArray exampleUsers 1.
Proof.
  split; [discriminate|]. split; [reflexivity|].
  apply (proj1 strict_compact_array exampleUsers 1); [discriminate|reflexivity].
Defined.

(** ** The strict serializer in the words of the specification *)

Lemma inlineItem_spec (item : Value) :
  inlineItem item = specInlineElement toToon item.
Proof. destruct item; reflexivity. Qed.

Lemma inlineValue_spec (val : Value) :
  inlineValue val = specInlineValue toToon val.
Proof.
  destruct val as [| | | |[|item items]|]; reflexivity.
Qed.

Lemma toToon_array_layout (items : list Value) (indent : nat) :
  items <> [] -> forallb isCompactItem items = false ->
  toToon (VArr items) indent = specLinePerElement toToon items indent.
Proof.
  intros Hne Hc. destruct items as [|item items]; [contradiction|].
  rewrite toToon_array_normal by assumption.
  unfold specLinePerElement, itemsText. rewrite map_fst_itemTexts.
  rewrite (join_prefix _ (str "," ++ [LF]) (indentation (indent + 1))
             (fun v => toToon v (indent + 1)) (item :: items))
    by discriminate.
  rewrite app_nil_r. rewrite <- ?app_assoc. reflexivity.
Qed.

Lemma toToon_array_blocks (items : list Value) (indent : nat) :
  items <> [] -> forallb isCompactItem items = true ->
  toToon (VArr items) indent = specCompactArray items indent.
Proof.
  intros Hne Hc. destruct items as [|item items]; [contradiction|].
  rewrite toToon_array_compact by assumption.
  unfold specCompactArray, itemsText. rewrite map_fst_itemTexts.
  rewrite (map_ext_in inlineItem specBraceBlock).
  - rewrite app_nil_r. rewrite <- ?app_assoc. reflexivity.
  - intros it Hin. apply inlineItem_specBraceBlock.
    rewrite forallb_forall in Hc. now apply Hc.
Qed.

Lemma toToon_object_inline (entries : Object) :
  entries <> [] -> isCompactObject entries = true ->
  toToon (VObj entries) 0 = specCompactObject toToon entries.
Proof.
  intros Hne Hc. destruct entries as [|e entries]; [contradiction|].
  rewrite toToon_object_compact by assumption.
  unfold specCompactObject, membersText. rewrite map_memberText_entryTexts.
  rewrite (map_ext _ (fun kv => quoted (fst kv) ++ str ": "
                                  ++ specInlineValue toToon (snd kv))).
  - rewrite app_nil_r. rewrite <- ?app_assoc. reflexivity.
  - intros kv. unfold quoted. now rewrite inlineValue_spec.
Qed.

Lemma toToon_object_layout (entries : Object) (indent : nat) :
  entries <> [] -> isCompactObject entries && (indent =? 0)%nat = false ->
  toToon (VObj entries) indent = specLinePerMember toToon entries indent.
Proof.
  intros Hne Hc. destruct entries as [|e entries]; [contradiction|].
  rewrite toToon_object_normal by assumption.
  unfold specLinePerMember, membersText. rewrite map_memberText_entryTexts.
  rewrite (join_prefix _ (str "," ++ [LF]) (indentation (indent + 1))
             (fun kv => quoted (fst kv) ++ str ": " ++ toToon (snd kv) (indent + 1))
             (e :: entries))
    by discriminate.
  rewrite app_nil_r. unfold quoted. rewrite <- ?app_assoc. reflexivity.
Qed.

Lemma toToon_specStrict (v : Value) :
  (forall indent, toToon v indent = specStrict v indent)
  /\ specInlineElement toToon v = specInlineElement specStrict v
  /\ specInlineValue toToon v = specInlineValue specStrict v.
Proof.
  induction v as [|b|x|s|items IH|entries IH] using Value_ind.
  1-4: repeat split; intros; cbn [specInlineElement specInlineValue specStrict];
    now apply toToon_scalar.
  - (* arrays *)
    rewrite Forall_forall in IH.
    assert (forall indent, toToon (VArr items) indent
                           = specStrict (VArr items) indent) as Harr.
    { intros indent. destruct items as [|item items]; [reflexivity|].
      cbn [specStrict].
      destruct (forallb isCompactItem (item :: items)) eqn:E.
      - apply toToon_array_blocks; [discriminate|assumption].
      - rewrite toToon_array_layout by (assumption || discriminate).
        unfold specLinePerElement.
        rewrite (map_ext_in _ (fun it => indentation (indent + 1)
                                         ++ specStrict it (indent + 1)));
          [reflexivity|].
        intros it Hin. f_equal. now apply IH. }
    repeat split; [exact Harr|apply Harr|].
    destruct items as [|item items]; [reflexivity|].
    cbn [specInlineValue].
    rewrite (map_ext_in _ (specInlineElement specStrict)); [reflexivity|].
    intros it Hin. now apply IH.
  - (* objects *)
    rewrite Forall_forall in IH.
    assert (forall indent, toToon (VObj entries) indent
                           = specStrict (VObj entries) indent) as Hobj.
    { intros indent. destruct entries as [|e entries]; [reflexivity|].
      cbn [specStrict].
      destruct (isCompactObject (e :: entries) && (indent =? 0)%nat) eqn:E.
      - apply andb_true_iff in E. destruct E as [E E0].
        apply Nat.eqb_eq in E0. subst indent.
        rewrite toToon_object_inline by (assumption || discriminate).
        unfold specCompactObject.
        rewrite (map_ext_in _ (fun kv => quoted (fst kv) ++ str ": "
                                         ++ specInlineValue specStrict (snd kv)));
          [reflexivity|].
        intros kv Hin. do 2 f_equal. now apply IH.
      - rewrite toToon_object_layout by (assumption || discriminate).
        unfold specLinePerMember.
        rewrite (map_ext_in _ (fun kv => indentation (indent + 1)
                                         ++ quoted (fst kv) ++ str ": "
                                         ++ specStrict (snd kv) (indent + 1)));
          [reflexivity|].
        intros kv Hin. do 3 f_equal. now apply IH. }
    repeat split; [exact Hobj| |apply Hobj].
    cbn [specInlineElement].
    rewrite (map_ext_in _ (fun kv => quoted (fst kv) ++ str ": "
                                     ++ specStrict (snd kv) 0));
      [reflexivity|].
    intros kv Hin. do 2 f_equal. now apply IH.
Qed.

(** C3, as stated, fails twice.  The strict serializer renders the
    array of the example with single-line brace blocks, not with every
    element rendered by [toToon] one level deeper.  And an array that is
    a value of the outermost object, when that object has at most 5
    keys, is not rendered by [toToon] one level deeper either: the
    element of the array of [{"a": [1]}] stands behind one level of
    indentation and the closing bracket behind none. *)
Lemma strict_line_per_element_fails :
  toToon (VArr exampleUsers) 0 = exampleUsersCompact
  /\ toToon (VArr exampleUsers) 0 <> specLinePerElement toToon exampleUsers 0
  /\ toToon exampleInline 0 = exampleInlineText
  /\ toToon exampleInline 0
     <> specLinePerMember
          (fun v indent =>
             match v with
             | VArr items => specLinePerElement toToon items indent
             | _ => toToon v indent
             end)
          [(str "a", VArr [VNum (integer 1)])] 0.
Proof. repeat split; try reflexivity; discriminate. Qed.

(** C3, amended: for every value tree and every indent level, the
    strict serializer renders every non-empty array with each element
    rendered by [toToon] at the indent level plus one, one element per
    line behind its indentation of two spaces per level, the lines
    joined by a comma and a newline and wrapped in brackets, but for two
    kinds of arrays.  An array that meets the compact array heuristic
    (every element a non-array object with at most 5 keys and only
    scalar values) is rendered with single-line brace blocks.  A
    non-empty array that is a value of an object rendered at indent
    level 0 which has at most 5 keys, each value a scalar or an array of
    at most 10 elements, is written by the object itself: its elements
    one per line behind one level of indentation, an object among them
    as a single-line brace block whatever its size and any other element
    rendered by [toToon] at indent level 0, and the closing bracket
    behind no indentation.  Every other object hands its values to
    [toToon] at the indent level plus one.  So [toToon] is the
    serializer [specStrict] of these rules, for every tree.  The
    serializer that renders every non-empty array one element per
    line, and never uses a compact form, is the relaxed one,
    [toJson]. *)
Theorem strict_line_per_element :
  (forall items indent,
      items <> [] -> forallb isCompactItem items = false ->
      toToon (VArr items) indent = specLinePerElement toToon items indent)
  /\ (forall items indent,
         items <> [] -> forallb isCompactItem items = true ->
         toToon (VArr items) indent = specCompactArray items indent)
  /\ (forall entries,
         entries <> [] -> isCompactObject entries = true ->
         toToon (VObj entries) 0 = specCompactObject toToon entries)
  /\ (forall entries indent,
         entries <> [] ->
         isCompactObject entries && (indent =? 0)%nat = false ->
         toToon (VObj entries) indent = specLinePerMember toToon entries indent)
  /\ (forall v indent, toToon v indent = specStrict v indent)
  /\ (forall items indent,
         items <> [] ->
         toJson (VArr items) indent = specLinePerElement toJson items indent).
Proof.
  split; [exact toToon_array_layout|]. split; [exact toToon_array_blocks|].
  split; [exact toToon_object_inline|]. split; [exact toToon_object_layout|].
  split; [intros v; apply toToon_specStrict|].
  intros items indent Hne. destruct items as [|item items]; [contradiction|].
  rewrite <- (app_nil_r (toJson (VArr (item :: items)) indent)).
  rewrite toJson_array_text.
  unfold specLinePerElement, itemsText. rewrite map_fst_itemTexts.
  rewrite (join_prefix _ (str "," ++ [LF]) (indentation (indent + 1))
             (fun v => toJson v (indent + 1)) (item :: items))
    by discriminate.
  rewrite app_nil_r. rewrite <- ?app_assoc. reflexivity.
Qed.

Lemma strict_line_per_element_witness :
  toToon (VArr [VNum (integer 1); VArr exampleUsers]) 0
  = specLinePerElement toToon [VNum (integer 1); VArr exampleUsers] 0
  /\ toToon (VObj [(str "users", VArr [VNum (integer 1); VObj []])]) 0
     = specCompactObject toToon [(str "users", VArr [VNum (integer 1); VObj []])]
  /\ toToon (VObj [(str "users", VArr [VNum (integer 1); VObj []])]) 1
     = specLinePerMember toToon [(str "users", VArr [VNum (integer 1); VObj []])] 1
  /\ toJson (VArr exampleUsers) 0 = specLinePerElement toJson exampleUsers 0.
Proof.
  split.
  { apply (proj1 strict_line_per_element); [discriminate|reflexivity]. }
  split.
  { apply (proj1 (proj2 (proj2 strict_line_per_element)));
      [discriminate|reflexivity]. }
  split.
  { apply (proj1 (proj2 (proj2 (proj2 strict_line_per_element))));
      [discriminate|reflexivity]. }
  apply (proj2 (proj2 (proj2 (proj2 (proj2 strict_line_per_element))))).
  discriminate.
Defined.

(** ** The conversion *)

(** C6: for every input string, the JSON-to-TOON conversion answers with
    [toToon] applied to the result of [parseJson], and it fails, with an
    error message that is not empty, exactly when [parseJson] fails on
    the text: with the message of [parseJson], or with its own message
    for the empty string. *)
Theorem conversion_composition (text : jsstring) :
  match parseJson text with
  | Ok parsed =>
      handler (str "POST") (StringData text)
      = Ok (RespondData 200 (toToon parsed 0))
  | Throw message =>
      exists error,
        handler (str "POST") (StringData text) = Ok (RespondError 400 error)
        /\ error <> []
        /\ (text <> [] -> message <> [] -> error = message)
  | OutOfFuel => False
  end.
Proof.
  pose proof (parseJson_total text) as Htotal.
  destruct (parseJson text) as [parsed|message|] eqn:E; [| |contradiction].
  - destruct text as [|c text]; [discriminate|].
    unfold handler.
    change (jsstring_eqb (str "POST") (str "POST")) with true.
    cbn [negb]. now rewrite E.
  - destruct text as [|c text].
    + exists (str "Invalid input: expected a string").
      split; [reflexivity|]. split; [discriminate|]. now intros H.
    + unfold handler.
      change (jsstring_eqb (str "POST") (str "POST")) with true.
      cbn [negb]. rewrite E.
      destruct message as [|m message].
      * exists (str "Invalid JSON format").
        split; [reflexivity|]. split; [discriminate|]. now intros _ H.
      * exists (m :: message). split; [reflexivity|]. split; [discriminate|].
        reflexivity.
Qed.

(** ** Failures of the relaxed parser *)

(** C8: [parseJson] throws [Empty input] on every input that is empty
    or has white space only, and on every input where something other
    than white space remains after the top-level value it throws the
    error that names the remaining text, cut to 20 characters.  So it
    does on the empty string, on three spaces and on [{"a":1} garbage]. *)
Theorem relaxed_parser_failures :
  (forall input,
      forallb isWhiteSpace input = true ->
      parseJson input = Throw (str "Empty input"))
  /\ (forall input result,
         parseValueTop (trim input) = Ok result ->
         trim (remaining result) <> [] ->
         parseJson input
         = Throw (str "Unexpected characters after parsed value: "
                    ++ substring0 20 (remaining result)))
  /\ (forall s, length (substring0 20 s) <= 20)
  /\ parseJson [] = Throw (str "Empty input")
  /\ parseJson (str "   ") = Throw (str "Empty input")
  /\ parseJson exampleTrailing
     = Throw (str "Unexpected characters after parsed value:  garbage").
Proof.
  split; [|split; [|split; [|repeat split; reflexivity]]].
  - intros input H. unfold parseJson. now rewrite trim_all_ws.
  - intros input result H Hrem. unfold parseJson.
    destruct (trim input) as [|c t] eqn:E; [discriminate|].
    rewrite H. cbn [bind].
    destruct (trim (remaining result)); [contradiction|reflexivity].
  - intros s. unfold substring0. apply firstn_le_length.
Qed.

Lemma relaxed_parser_failures_witness :
  forallb isWhiteSpace [TAB; LF; ch " "] = true
  /\ parseJson [TAB; LF; ch " "] = Throw (str "Empty input")
  /\ parseJson (str "[1, 2] ] and more than twenty characters")
     = Throw (str "Unexpected characters after parsed value: "
                ++ str " ] and more than twe").
Proof.
  split; [reflexivity|]. split.
  - apply (proj1 relaxed_parser_failures). reflexivity.
  - apply (proj1 (proj2 relaxed_parser_failures)
             (str "[1, 2] ] and more than twenty characters")
             (mkParseResult (plain (VArr [VNum (integer 1); VNum (integer 2)]))
                (str " ] and more than twenty characters")));
      [reflexivity|discriminate].
Defined.

(** C9: in the loop of [parseObject], once the value of an entry is
    parsed, what remains must start with [}] or [,]: anything else is
    the error [Expected ',' or '}'], but nothing at all ends the object
    there.  Nothing at all also ends it where a key is expected, after a
    comma or after the opening brace.  So [parseJson] returns the object
    with the one entry a -> 1 on [{"a": 1] and on [{"a": 1,], the empty
    object on [{], and throws on [{"a": 1 x]. *)
Theorem object_implicit_end :
  (forall rec fuel obj remaining0 key remaining3 valueResult,
      trim remaining0 <> [] ->
      parseObject_key (trim remaining0) = Ok (key, remaining3) ->
      rec remaining3 = Ok valueResult ->
      let obj' := setProperty obj key (value valueResult) in
      let remaining4 := trim (remaining valueResult) in
      (remaining4 = [] ->
       parseObject_loop rec (S fuel) obj remaining0
       = Ok (mkParseResult (objectValue obj') []))
      /\ (remaining4 <> [] ->
          startsWith remaining4 (str "}") = false ->
          startsWith remaining4 (str ",") = false ->
          parseObject_loop rec (S fuel) obj remaining0
          = Throw (str "Expected ',' or '}', got: "
                     ++ substring0 30 remaining4)))
  /\ (forall rec fuel obj remaining0,
         trim remaining0 = [] ->
         parseObject_loop rec (S fuel) obj remaining0
         = Ok (mkParseResult (objectValue obj) []))
  /\ parseJson exampleUnclosed = Ok (VObj [(str "a", VNum (integer 1))])
  /\ parseJson (exampleUnclosed ++ str ",")
     = Ok (VObj [(str "a", VNum (integer 1))])
  /\ parseJson (str "{") = Ok (VObj [])
  /\ parseJson (exampleUnclosed ++ str " x")
     = Throw (str "Expected ',' or '}', got: x").
Proof.
  split; [|split; [|repeat split; reflexivity]].
  - intros rec fuel obj remaining0 key remaining3 valueResult Hne Hkey Hval
      obj' remaining4.
    rewrite parseObject_loop_step by assumption.
    rewrite Hkey. cbn [bind]. rewrite Hval. cbn [bind].
    fold obj'. fold remaining4. unfold parseObject_after. split.
    + intros ->. reflexivity.
    + intros H4 -> ->. destruct remaining4; [contradiction|reflexivity].
  - intros rec fuel obj remaining0 H. rewrite parseObject_loop_unfold.
    now rewrite H.
Qed.

Lemma object_implicit_end_witness :
  parseObject_loop (parseValue 2) 1 emptyObject (quoted (str "a") ++ str ": 1  ")
  = Ok (mkParseResult (plain (VObj [(str "a", VNum (integer 1))])) [])
  /\ parseObject_loop (parseValue 2) 1 emptyObject
       (quoted (str "a") ++ str ": 1 x")
     = Throw (str "Expected ',' or '}', got: x")
  /\ parseObject_loop (parseValue 2) 1 emptyObject (str "  ")
     = Ok (mkParseResult (plain (VObj [])) []).
Proof.
  split; [|split].
  - apply (proj1 (proj1 object_implicit_end (parseValue 2) 0 emptyObject
                    (quoted (str "a") ++ str ": 1  ") (str "a") (str "1")
                    (mkParseResult (plain (VNum (integer 1))) [])
                    ltac:(discriminate) eq_refl eq_refl)).
    reflexivity.
  - apply (proj2 (proj1 object_implicit_end (parseValue 2) 0 emptyObject
                    (quoted (str "a") ++ str ": 1 x") (str "a") (str "1 x")
                    (mkParseResult (plain (VNum (integer 1))) (str " x"))
                    ltac:(discriminate) eq_refl eq_refl));
      [discriminate|reflexivity|reflexivity].
  - apply (proj1 (proj2 object_implicit_end) (parseValue 2) 0 emptyObject).
    reflexivity.
Defined.

(** ** Unquoted keys *)

Lemma trimStart_app_tight (x : jsstring) (c : char) (y : jsstring) :
  isWhiteSpace c = false -> trimStart (x ++ c :: y) = trimStart x ++ c :: y.
Proof.
  intros Hc. induction x as [|d x IH]; cbn [app trimStart].
  - now rewrite Hc.
  - destruct (isWhiteSpace d); [exact IH|reflexivity].
Qed.

Lemma trimEnd_app_tight (a : jsstring) (c : char) (s : jsstring) :
  isWhiteSpace c = false -> trimEnd (a ++ c :: s) = a ++ c :: trimEnd s.
Proof.
  intros Hc. unfold trimEnd. rewrite rev_app_distr. cbn [rev].
  rewrite <- app_assoc. cbn [app].
  rewrite trimStart_app_tight by assumption.
  rewrite rev_app_distr. cbn [rev]. rewrite rev_involutive.
  now rewrite <- app_assoc.
Qed.

Lemma trimStart_idempotent (s : jsstring) : trimStart (trimStart s) = trimStart s.
Proof.
  induction s as [|c s IH]; [reflexivity|]. cbn [trimStart].
  destruct (isWhiteSpace c) eqn:E; [exact IH|]. cbn [trimStart]. now rewrite E.
Qed.

Lemma trimEnd_idempotent (s : jsstring) : trimEnd (trimEnd s) = trimEnd s.
Proof.
  unfold trimEnd. rewrite rev_involutive. now rewrite trimStart_idempotent.
Qed.

Lemma parseString_loop_ident (s acc rest : jsstring) :
  forallb isIdentPart s = true ->
  parseString_loop DQ acc false (s ++ DQ :: rest)
  = Ok (mkParseResult (acc ++ s) rest).
Proof.
  revert acc. induction s as [|c s IH]; intros acc Hs.
  - cbn. now rewrite app_nil_r.
  - cbn [forallb] in Hs. apply andb_true_iff in Hs. destruct Hs as [Hc Hs].
    assert (N.eqb c BACKSLASH = false /\ N.eqb c DQ = false) as [H1 H2].
    { split; char_solve. }
    cbn [app parseString_loop]. rewrite H1, H2.
    rewrite IH by assumption. now rewrite <- app_assoc.
Qed.

Lemma isIdentifier_parts (key : jsstring) :
  isIdentifier key = true ->
  forallb isIdentPart key = true /\ startsTight key = true.
Proof.
  destruct key as [|c key]; [discriminate|]. cbn [isIdentifier].
  intros H. apply andb_true_iff in H. destruct H as [Hc Hk].
  destruct (isIdentStart_facts c Hc) as (Hw & _). split.
  - cbn [forallb]. rewrite Hk, andb_true_r. unfold isIdentPart. now rewrite Hc.
  - cbn. now rewrite Hw.
Qed.

(** The two forms of a key, once the text is trimmed. *)
Lemma parseObject_key_unquoted (key ws after : jsstring) :
  isIdentifier key = true -> forallb isWhiteSpace ws = true ->
  parseObject_key (key ++ ws ++ ch ":" :: after) = Ok (key, trim after).
Proof.
  intros Hk Hw. unfold parseObject_key.
  assert (startsWith (key ++ ws ++ ch ":" :: after) [DQ] = false
          /\ startsWith (key ++ ws ++ ch ":" :: after) [SQ] = false) as [H1 H2].
  { destruct key as [|c k]; [discriminate|].
    cbn [isIdentifier] in Hk. apply andb_true_iff in Hk.
    destruct Hk as [Hc _]. destruct (isIdentStart_facts c Hc) as (_ & Hq1 & Hq2).
    cbn [app]. now rewrite !startsWith_char, Hq1, Hq2. }
  rewrite H1, H2. cbn [orb].
  rewrite matchKey_identifier by assumption. reflexivity.
Qed.

Lemma parseObject_key_quoted (key ws after : jsstring) :
  isIdentifier key = true -> forallb isWhiteSpace ws = true ->
  trimEnd after = after ->
  parseObject_key (quoted key ++ ws ++ ch ":" :: after) = Ok (key, trim after).
Proof.
  intros Hk Hw Ha. unfold parseObject_key, quoted.
  destruct (isIdentifier_parts key Hk) as [Hparts _].
  rewrite <- !app_assoc. cbn [app]. rewrite startsWith_char, N.eqb_refl.
  cbn [orb parseString]. rewrite N.eqb_refl. cbn [orb].
  rewrite (parseString_loop_ident key [] _ Hparts).
  cbn [bind value remaining app negb andb].
  assert (trim (ws ++ ch ":" :: after) = ch ":" :: after) as Ht.
  { rewrite trim_ws by assumption. unfold trim.
    rewrite trimStart_tight by reflexivity.
    pose proof (trimEnd_app_tight [] (ch ":") after eq_refl) as Hte.
    cbn [app] in Hte. rewrite Hte. now rewrite Ha. }
  rewrite Ht.
  change (startsWith (ch ":" :: after) (str ":")) with true.
  cbn [negb]. reflexivity.
Qed.

(** C5: [parseJson] accepts [{name: "Alice", age: 30}] and gives the
    value tree that [parseToon] gives for
    [{"name": "Alice", "age": 30}]; and wherever [parseObject] reads a
    key, an identifier followed by optional white space and a colon is
    read as the same identifier between double quotes is: the two loops
    end alike. *)
Theorem unquoted_key_acceptance :
  parseJson exampleUnquoted
  = Ok (VObj [(str "name", VStr (str "Alice"));
              (str "age", VNum (integer 30))])
  /\ parseJson exampleUnquoted = parseToon exampleQuoted
  /\ (forall rec fuel obj key ws after,
         isIdentifier key = true -> forallb isWhiteSpace ws = true ->
         parseObject_loop rec fuel obj (key ++ ws ++ str ":" ++ after)
         = parseObject_loop rec fuel obj (quoted key ++ ws ++ str ":" ++ after)).
Proof.
  split; [reflexivity|]. split; [reflexivity|].
  intros rec fuel obj key ws after Hk Hw.
  destruct fuel as [|fuel]; [reflexivity|].
  destruct (isIdentifier_parts key Hk) as [_ Hs].
  assert (trim (key ++ ws ++ str ":" ++ after)
          = key ++ ws ++ ch ":" :: trimEnd after) as E1.
  { unfold trim. rewrite trimStart_tight by now apply startsTight_app.
    rewrite app_assoc. cbn [str app].
    rewrite trimEnd_app_tight by reflexivity. now rewrite <- app_assoc. }
  assert (trim (quoted key ++ ws ++ str ":" ++ after)
          = quoted key ++ ws ++ ch ":" :: trimEnd after) as E2.
  { unfold trim. rewrite trimStart_tight by reflexivity.
    rewrite app_assoc. cbn [str app].
    rewrite trimEnd_app_tight by reflexivity. now rewrite <- app_assoc. }
  rewrite !parseObject_loop_step.
  - rewrite E1, E2.
    rewrite parseObject_key_unquoted by assumption.
    rewrite parseObject_key_quoted by (try assumption; apply trimEnd_idempotent).
    reflexivity.
  - rewrite E2. unfold quoted. discriminate.
  - rewrite E1. destruct key; [discriminate|discriminate].
Qed.

Lemma unquoted_key_acceptance_witness :
  isIdentifier (str "$id_1") = true
  /\ forallb isWhiteSpace [ch " "; TAB] = true
  /\ parseObject_loop (parseValue 3) 3 emptyObject
       (str "$id_1" ++ [ch " "; TAB] ++ str ":" ++ str " [1] , b: 2}  ")
     = parseObject_loop (parseValue 3) 3 emptyObject
         (quoted (str "$id_1") ++ [ch " "; TAB] ++ str ":" ++ str " [1] , b: 2}  ").
Proof.
  split; [reflexivity|]. split; [reflexivity|].
  apply (proj2 (proj2 unquoted_key_acceptance)); reflexivity.
Defined.

(** ** Escapes the relaxed parser does not know *)

Lemma hexDigit_plain (h : char) (x : N) :
  JSON.hexDigit h = Some x -> N.eqb h BACKSLASH = false /\ N.eqb h DQ = false.
Proof.
  unfold JSON.hexDigit. intros H.
  destruct ((48 <=? h) && (h <=? 57))%N eqn:E1; [split; char_solve|].
  destruct ((97 <=? h) && (h <=? 102))%N eqn:E2; [split; char_solve|].
  destruct ((65 <=? h) && (h <=? 70))%N eqn:E3; [split; char_solve|].
  discriminate.
Qed.

Lemma hex4_plain (a b c d u : char) :
  JSON.hex4 a b c d = Some u ->
  (N.eqb a BACKSLASH = false /\ N.eqb a DQ = false)
  /\ (N.eqb b BACKSLASH = false /\ N.eqb b DQ = false)
  /\ (N.eqb c BACKSLASH = false /\ N.eqb c DQ = false)
  /\ (N.eqb d BACKSLASH = false /\ N.eqb d DQ = false).
Proof.
  unfold JSON.hex4. intros H.
  destruct (JSON.hexDigit a) as [x|] eqn:Ea; [|discriminate].
  destruct (JSON.hexDigit b) as [y|] eqn:Eb; [|discriminate].
  destruct (JSON.hexDigit c) as [z|] eqn:Ec; [|discriminate].
  destruct (JSON.hexDigit d) as [w|] eqn:Ed; [|discriminate].
  repeat split; eapply hexDigit_plain; eassumption.
Qed.

(** An escaped character other than n, t, r, the backslash and the
    quote stands for itself. *)
Lemma parseString_loop_other (quote c : char) (acc rest : jsstring) :
  N.eqb c (ch "n") = false -> N.eqb c (ch "t") = false ->
  N.eqb c (ch "r") = false -> N.eqb c BACKSLASH = false ->
  N.eqb c quote = false ->
  parseString_loop quote acc true (c :: rest)
  = parseString_loop quote (acc ++ [c]) false rest.
Proof.
  intros H1 H2 H3 H4 H5. cbn [parseString_loop].
  now rewrite H1, H2, H3, H4, H5.
Qed.

(** The two string scanners side by side: where [JSON.parse] reads a
    string, the relaxed parser reads one that is no shorter, and longer
    when a backslash-u escape occurs. *)
Lemma string_scanners (n : nat) :
  forall body accj accr rj,
    length body <= n ->
    JSON.stringChars accj body = Ok rj ->
    exists rr,
      parseString_loop DQ accr false body = Ok rr
      /\ remaining rr = remaining rj
      /\ length (value rj) + length accr <= length (value rr) + length accj
      /\ (hasUnicodeEscape body = true ->
          length (value rj) + length accr < length (value rr) + length accj).
Proof.
  induction n as [|n IH]; intros body accj accr rj Hn Hj.
  { destruct body; [discriminate|cbn in Hn; lia]. }
  destruct body as [|c s']; [discriminate|].
  cbn [JSON.stringChars] in Hj. cbn [parseString_loop hasUnicodeEscape].
  destruct (N.eqb c DQ) eqn:Ec.
  { (* the closing quote *)
    apply Ok_inj in Hj. subst rj.
    destruct (N.eqb c BACKSLASH) eqn:Eb.
    { apply N.eqb_eq in Ec, Eb. subst c. discriminate. }
    exists (mkParseResult accr s'). cbn [value remaining].
    repeat split; [lia|discriminate]. }
  destruct (N.eqb c BACKSLASH) eqn:Eb.
  { (* an escape *)
    destruct s' as [|e s'']; [discriminate|].
    cbn [parseString_loop].
    assert (forall x y : char,
               JSON.stringChars (accj ++ [x]) s'' = Ok rj ->
               exists rr,
                 parseString_loop DQ (accr ++ [y]) false s'' = Ok rr
                 /\ remaining rr = remaining rj
                 /\ length (value rj) + length accr
                    <= length (value rr) + length accj
                 /\ (hasUnicodeEscape s'' = true ->
                     length (value rj) + length accr
                     < length (value rr) + length accj)) as Hone.
    { intros x y Hx.
      destruct (IH s'' (accj ++ [x]) (accr ++ [y]) rj) as (rr & H1 & H2 & H3 & H4);
        [cbn [length] in Hn; lia|exact Hx|].
      rewrite !length_app in H3, H4. cbn [length] in H3, H4.
      exists rr. repeat split; [exact H1|exact H2|lia|intros H; specialize (H4 H); lia]. }
    destruct (N.eqb e DQ) eqn:E1.
    { apply N.eqb_eq in E1. subst e. decide_chars. now apply (Hone DQ DQ). }
    destruct (N.eqb e BACKSLASH) eqn:E2.
    { apply N.eqb_eq in E2. subst e. decide_chars.
      now apply (Hone BACKSLASH BACKSLASH). }
    destruct (N.eqb e (ch "/")) eqn:E3.
    { apply N.eqb_eq in E3. subst e. decide_chars.
      now apply (Hone (ch "/") (ch "/")). }
    destruct (N.eqb e (ch "b")) eqn:E4.
    { apply N.eqb_eq in E4. subst e. decide_chars. now apply (Hone BS (ch "b")). }
    destruct (N.eqb e (ch "f")) eqn:E5.
    { apply N.eqb_eq in E5. subst e. decide_chars. now apply (Hone FF (ch "f")). }
    destruct (N.eqb e (ch "n")) eqn:E6.
    { apply N.eqb_eq in E6. subst e. decide_chars. now apply (Hone LF LF). }
    destruct (N.eqb e (ch "r")) eqn:E7.
    { apply N.eqb_eq in E7. subst e. decide_chars. now apply (Hone CR CR). }
    destruct (N.eqb e (ch "t")) eqn:E8.
    { apply N.eqb_eq in E8. subst e. decide_chars. now apply (Hone TAB TAB). }
    destruct (N.eqb e (ch "u")) eqn:E9; [|discriminate].
    (* four hexadecimal digits *)
    apply N.eqb_eq in E9. subst e. decide_chars.
    destruct s'' as [|h1 [|h2 [|h3 [|h4 s3]]]]; try discriminate.
    destruct (JSON.hex4 h1 h2 h3 h4) as [u|] eqn:Eh; [|discriminate].
    destruct (hex4_plain h1 h2 h3 h4 u Eh)
      as ((A1 & A2) & (B1 & B2) & (C1 & C2) & (D1 & D2)).
    cbn [parseString_loop]. rewrite A1, A2, B1, B2, C1, C2, D1, D2.
    destruct (IH s3 (accj ++ [u])
                (((((accr ++ [ch "u"]) ++ [h1]) ++ [h2]) ++ [h3]) ++ [h4]) rj)
      as (rr & H1 & H2 & H3 & _); [cbn [length] in Hn; lia|exact Hj|].
    rewrite !length_app in H3. cbn [length] in H3.
    exists rr. repeat split; [exact H1|exact H2|lia|intros _; lia]. }
  (* a character as it is *)
  destruct (c <? 32)%N; [discriminate|].
  destruct (IH s' (accj ++ [c]) (accr ++ [c]) rj) as (rr & H1 & H2 & H3 & H4);
    [cbn [length] in Hn; lia|exact Hj|].
  rewrite !length_app in H3, H4. cbn [length] in H3, H4.
  exists rr. repeat split; [exact H1|exact H2|lia|intros H; specialize (H4 H); lia].
Qed.

Lemma hasUnicodeEscape_app (n : nat) :
  forall s x,
    length s <= n ->
    hasUnicodeEscape s = true -> hasUnicodeEscape (s ++ x) = true.
Proof.
  induction n as [|n IH]; intros s x Hn H.
  { destruct s; [discriminate|cbn in Hn; lia]. }
  destruct s as [|c s']; [discriminate|].
  cbn [hasUnicodeEscape app] in *.
  destruct (N.eqb c DQ); [discriminate|].
  destruct (N.eqb c BACKSLASH).
  - destruct s' as [|e s'']; [discriminate|]. cbn [app].
    destruct (N.eqb e (ch "u")); [reflexivity|].
    apply IH; [cbn [length] in Hn; lia|exact H].
  - apply IH; [cbn [length] in Hn; lia|exact H].
Qed.

Lemma JSON_skipWhiteSpace_nil (s : jsstring) :
  JSON.skipWhiteSpace s = [] -> trim s = [].
Proof.
  intros H. apply trim_all_ws.
  induction s as [|c s IH]; [reflexivity|].
  cbn [JSON.skipWhiteSpace] in H. cbn [forallb].
  destruct (JSON.isWhiteSpace c) eqn:E; [|discriminate].
  rewrite (IH H), andb_true_r. char_solve.
Qed.

(* ================================================================== *)
(** * The keys of parsed objects *)
(* ================================================================== *)

(** ** Array indices name their keys *)

Lemma startsWith_zero (c : char) (r : jsstring) :
  startsWith (c :: r) (str "0") = N.eqb c (ch "0").
Proof. exact (startsWith_char (ch "0") c r). Qed.

Lemma natOfDigits_positive (s : jsstring) :
  forallb isDigit s = true -> s <> [] ->
  startsWith s (str "0") = false -> (0 < natOfDigits s)%N.
Proof.
  induction s as [|d s' IH] using rev_ind; [congruence|].
  intros Hd _ Hz. rewrite natOfDigits_snoc.
  rewrite forallb_app in Hd. apply andb_true_iff in Hd.
  destruct Hd as [Hd' Hd]. cbn [forallb] in Hd. rewrite andb_true_r in Hd.
  destruct s' as [|c r].
  - cbn [app] in Hz. rewrite startsWith_zero in Hz.
    cbn [natOfDigits fold_left]. char_solve.
  - assert (0 < natOfDigits (c :: r))%N; [|lia].
    apply IH; [exact Hd'|discriminate|].
    cbn [app] in Hz. now rewrite startsWith_zero in *.
Qed.

Lemma natOfDigits_inj (s : jsstring) :
  forall t,
    forallb isDigit s = true -> forallb isDigit t = true ->
    startsWith s (str "0") = false -> startsWith t (str "0") = false ->
    natOfDigits s = natOfDigits t -> s = t.
Proof.
  induction s as [|d s' IH] using rev_ind; intros t Hs Ht Zs Zt E.
  - destruct t as [|c r]; [reflexivity|].
    pose proof (natOfDigits_positive (c :: r) Ht ltac:(discriminate) Zt) as H.
    rewrite <- E in H. cbn in H. lia.
  - destruct t as [|e t' _] using rev_ind.
    { pose proof (natOfDigits_positive (s' ++ [d]) Hs
                    ltac:(now destruct s') Zs) as H.
      rewrite E in H. cbn in H. lia. }
    rewrite !natOfDigits_snoc in E.
    rewrite forallb_app in Hs, Ht.
    apply andb_true_iff in Hs, Ht. destruct Hs as [Hs Hd], Ht as [Ht He].
    cbn [forallb] in Hd, He. rewrite andb_true_r in Hd, He.
    assert (d = e /\ natOfDigits s' = natOfDigits t') as [-> E'].
    { remember (natOfDigits s') as a. remember (natOfDigits t') as b.
      clear - E Hd He. char_solve. }
    f_equal. apply IH; try assumption.
    + destruct s' as [|c r]; [reflexivity|].
      cbn [app] in Zs. now rewrite startsWith_zero in *.
    + destruct t' as [|c r]; [reflexivity|].
      cbn [app] in Zt. now rewrite startsWith_zero in *.
Qed.

Lemma arrayIndex_digits (key : jsstring) (i : N) :
  arrayIndex key = Some i ->
  natOfDigits key = i
  /\ forallb isDigit key = true
  /\ (key = str "0" \/ (key <> [] /\ startsWith key (str "0") = false)).
Proof.
  unfold arrayIndex. destruct key as [|c r]; [discriminate|].
  destruct (forallb isDigit (c :: r)) eqn:Hd; [|discriminate].
  cbn [andb].
  destruct (negb (N.eqb c (ch "0")) || match r with [] => true | _ => false end)
    eqn:Hz; [|discriminate].
  cbn [andb].
  destruct ((length (c :: r) <=? 10)%nat && (natOfDigits (c :: r) <? 4294967295)%N);
    [|discriminate].
  intros H. injection H as H. repeat split; [exact H|].
  rewrite startsWith_zero.
  destruct (N.eqb c (ch "0")) eqn:Ec.
  - left. cbn [negb orb] in Hz. destruct r; [|discriminate].
    apply N.eqb_eq in Ec. now subst c.
  - right. split; [discriminate|reflexivity].
Qed.

Lemma arrayIndex_inj (k k' : jsstring) (i : N) :
  arrayIndex k = Some i -> arrayIndex k' = Some i -> k = k'.
Proof.
  intros H H'. apply arrayIndex_digits in H, H'.
  destruct H as (E & D & [Z|[N0 Z]]), H' as (E' & D' & [Z'|[N0' Z']]).
  - congruence.
  - subst k. pose proof (natOfDigits_positive k' D' N0' Z') as P.
    rewrite E', <- E in P. cbn in P. lia.
  - subst k'. pose proof (natOfDigits_positive k D N0 Z) as P.
    rewrite E, <- E' in P. cbn in P. lia.
  - apply natOfDigits_inj; congruence.
Qed.

(** ** Property order is kept by every assignment *)

Lemma jsstring_eqb_sym (a b : jsstring) : jsstring_eqb a b = jsstring_eqb b a.
Proof.
  destruct (jsstring_eqb a b) eqn:E.
  - apply jsstring_eqb_eq in E. subst b. symmetry. apply jsstring_eqb_refl.
  - symmetry. apply jsstring_eqb_neq. apply jsstring_eqb_neq in E. congruence.
Qed.


Lemma keysOrdered_snoc (keys : list jsstring) (k : jsstring) :
  keysOrdered keys = true ->
  forallb (fun k' => keyBefore k' k) keys = true ->
  keysOrdered (keys ++ [k]) = true.
Proof.
  induction keys as [|k0 keys IH]; cbn [keysOrdered app forallb]; [auto|].
  intros H H'. apply andb_true_iff in H, H'.
  destruct H as [H1 H2], H' as [H3 H4].
  rewrite forallb_app, H1, (IH H2 H4). cbn [forallb]. now rewrite H3.
Qed.

Lemma replaceValue_keys (obj : Object) (key : jsstring) (v : Value) :
  map fst (replaceValue obj key v) = map fst obj.
Proof.
  induction obj as [|[k w] obj IH]; cbn [replaceValue map fst]; [reflexivity|].
  destruct (jsstring_eqb k key); cbn [map fst]; congruence.
Qed.


Lemma replaceValue_holds (obj : Object) (key : jsstring) (v : Value) :
  hasKey obj key = true -> In (key, v) (replaceValue obj key v).
Proof.
  induction obj as [|[k w] obj IH]; cbn [hasKey replaceValue]; [discriminate|].
  destruct (jsstring_eqb k key) eqn:E; cbn [orb].
  - intros _. apply jsstring_eqb_eq in E. subst k. now left.
  - intros H. right. auto.
Qed.

Lemma insertIndex_keys (P : jsstring -> bool) (obj : Object) (i : N)
  (key : jsstring) (v : Value) :
  P key = true ->
  forallb P (map fst obj) = true ->
  forallb P (map fst (insertIndex obj i key v)) = true.
Proof.
  intros Hk. induction obj as [|[k w] obj IH];
    cbn [insertIndex map fst forallb]; [now rewrite Hk|].
  intros H. apply andb_true_iff in H. destruct H as [H1 H2].
  destruct (arrayIndex k) as [j|]; [destruct (j <? i)%N|];
    cbn [map fst forallb]; rewrite ?Hk, ?H1, ?H2, ?IH; auto.
Qed.


Lemma keyBefore_others (obj : Object) (k key : jsstring) :
  (forall k'', jsstring_eqb k'' key = false ->
               keyBefore k k'' = true -> keyBefore key k'' = true) ->
  hasKey obj key = false ->
  forallb (keyBefore k) (map fst obj) = true ->
  forallb (keyBefore key) (map fst obj) = true.
Proof.
  intros Hp. induction obj as [|[k0 w] obj IH];
    cbn [hasKey map fst forallb]; [reflexivity|].
  intros Hk H. apply orb_false_iff in Hk. destruct Hk as [Hk Hk'].
  apply andb_true_iff in H. destruct H as [H1 H2].
  now rewrite (Hp k0 Hk H1), IH.
Qed.

Lemma insertIndex_ordered (obj : Object) (i : N) (key : jsstring) (v : Value) :
  arrayIndex key = Some i -> hasKey obj key = false ->
  keysOrdered (map fst obj) = true ->
  keysOrdered (map fst (insertIndex obj i key v)) = true.
Proof.
  intros Hi. induction obj as [|[k w] obj IH]; [reflexivity|].
  cbn [hasKey map fst keysOrdered insertIndex].
  intros Hk Ho. apply orb_false_iff in Hk. destruct Hk as [Hk Hk'].
  apply andb_true_iff in Ho. destruct Ho as [Ho Ho'].
  destruct (arrayIndex k) as [j|] eqn:Ej.
  - destruct (N.ltb_spec j i) as [Hlt|Hge].
    + cbn [map fst keysOrdered]. rewrite (IH Hk' Ho'), andb_true_r.
      apply insertIndex_keys; [|exact Ho].
      unfold keyBefore. rewrite Hk, Ej, Hi. cbn [negb andb].
      now apply N.ltb_lt.
    + cbn [map fst keysOrdered forallb]. rewrite Ho, Ho', !andb_true_r.
      assert (i < j)%N as Hij.
      { destruct (N.eq_dec i j) as [->|]; [|lia].
        rewrite (arrayIndex_inj k key j Ej Hi), jsstring_eqb_refl in Hk.
        discriminate. }
      apply andb_true_iff. split.
      * unfold keyBefore. rewrite jsstring_eqb_sym, Hk, Hi, Ej.
        cbn [negb andb]. now apply N.ltb_lt.
      * apply keyBefore_others with k; [|exact Hk'|exact Ho].
        intros k'' Hne Hb. unfold keyBefore in *.
        rewrite jsstring_eqb_sym, Hne. rewrite Ej in Hb. rewrite Hi.
        cbn [negb andb]. apply andb_true_iff in Hb. destruct Hb as [_ Hb].
        destruct (arrayIndex k'') as [j'|]; [|reflexivity].
        apply N.ltb_lt in Hb. apply N.ltb_lt. lia.
  - cbn [map fst keysOrdered forallb]. rewrite Ho, Ho', !andb_true_r.
    apply andb_true_iff. split.
    + unfold keyBefore. now rewrite jsstring_eqb_sym, Hk, Hi, Ej.
    + apply keyBefore_others with k; [|exact Hk'|exact Ho].
      intros k'' Hne Hb. unfold keyBefore in *.
      rewrite jsstring_eqb_sym, Hne. rewrite Ej in Hb. rewrite Hi.
      cbn [negb andb]. apply andb_true_iff in Hb. destruct Hb as [_ Hb].
      destruct (arrayIndex k'') as [j'|]; [discriminate|reflexivity].
Qed.

Lemma hasKey_keyBefore (obj : Object) (key : jsstring) :
  hasKey obj key = false -> arrayIndex key = None ->
  forallb (fun k' => keyBefore k' key) (map fst obj) = true.
Proof.
  intros Hk Hi. induction obj as [|[k w] obj IH]; [reflexivity|].
  cbn [hasKey map fst forallb] in *.
  apply orb_false_iff in Hk. destruct Hk as [Hk Hk'].
  rewrite (IH Hk'), andb_true_r. unfold keyBefore. rewrite Hk, Hi.
  now destruct (arrayIndex k).
Qed.

Lemma defineProperty_fresh (obj : Object) (key : jsstring) (v : Value) :
  hasKey obj key = false -> arrayIndex key = None ->
  defineProperty obj key v = obj ++ [(key, v)].
Proof. intros H1 H2. unfold defineProperty. now rewrite H1, H2. Qed.


Lemma orderedKeys_VArr (items : list Value) :
  orderedKeys (VArr items) = forallb orderedKeys items.
Proof. reflexivity. Qed.



(** ** What the relaxed parser builds *)

Section RelaxedKeys.

Variable rec : jsstring -> Result (ParseResult JsValue).

Hypothesis rec_ordered :
  forall s r, rec s = Ok r -> orderedKeys (tree (value r)) = true.




End RelaxedKeys.



(** ** What [JSON.parse] builds *)

Section StrictKeys.

Variable rec : jsstring -> Result (ParseResult Value).

Hypothesis rec_ordered :
  forall s r, rec s = Ok r -> orderedKeys (value r) = true.




End StrictKeys.




(* ================================================================== *)
(** * Further properties of the code *)
(* ================================================================== *)

(** ** [JSON.parse] returns or throws *)

Lemma JSON_skipWhiteSpace_length (s : jsstring) :
  length (JSON.skipWhiteSpace s) <= length s.
Proof.
  induction s as [|c s IH]; cbn [JSON.skipWhiteSpace length]; [lia|].
  destruct (JSON.isWhiteSpace c); cbn [length]; lia.
Qed.

Lemma JSON_stringChars_consumes (n : nat) :
  forall s acc r,
    length s <= n ->
    JSON.stringChars acc s = Ok r -> length (remaining r) < length s.
Proof.
  induction n as [|n IH]; intros s acc r Hn H.
  { destruct s; [discriminate|cbn in Hn; lia]. }
  destruct s as [|c s']; [discriminate|].
  cbn [JSON.stringChars] in H. cbn [length] in *.
  destruct (N.eqb c DQ).
  { apply Ok_inj in H. subst r. cbn [remaining]. lia. }
  destruct (N.eqb c BACKSLASH).
  - destruct s' as [|e s'']; [discriminate|]. cbn [length] in *.
    assert (forall a, JSON.stringChars a s'' = Ok r ->
                      length (remaining r) < S (S (length s''))) as Hone.
    { intros a Ha. apply IH in Ha; lia. }
    repeat match type of H with
           | (if ?b then _ else _) = _ =>
               destruct b; [now apply Hone in H|]
           end.
    destruct (N.eqb e (ch "u")); [|discriminate].
    destruct s'' as [|h1 [|h2 [|h3 [|h4 s3]]]]; try discriminate.
    destruct (JSON.hex4 h1 h2 h3 h4); [|discriminate].
    apply IH in H; cbn [length] in *; lia.
  - destruct (c <? 32)%N; [discriminate|]. apply IH in H; lia.
Qed.

Lemma JSON_stringChars_returns (n : nat) :
  forall s acc, length s <= n -> JSON.stringChars acc s <> OutOfFuel.
Proof.
  induction n as [|n IH]; intros s acc Hn.
  { destruct s; [discriminate|cbn in Hn; lia]. }
  destruct s as [|c s']; [discriminate|]. cbn [JSON.stringChars length] in *.
  destruct (N.eqb c DQ); [discriminate|].
  destruct (N.eqb c BACKSLASH).
  - destruct s' as [|e s'']; [discriminate|]. cbn [length] in *.
    repeat match goal with
           | |- (if ?b then _ else _) <> _ => destruct b; [apply IH; lia|]
           end.
    destruct (N.eqb e (ch "u")); [|discriminate].
    destruct s'' as [|h1 [|h2 [|h3 [|h4 s3]]]]; try discriminate.
    destruct (JSON.hex4 h1 h2 h3 h4); [|discriminate].
    apply IH. cbn [length] in *. lia.
  - destruct (c <? 32)%N; [discriminate|]. apply IH. lia.
Qed.

Lemma JSON_number_consumes (s : jsstring) (r : ParseResult Value) :
  JSON.number s = Ok r -> length (remaining r) < length s.
Proof.
  unfold JSON.number.
  destruct (scanNumber s) as [[numStr x]|] eqn:E; [|discriminate].
  apply scanNumber_nonempty in E. destruct E as [E1 E2].
  destruct (JSON.leadingZero numStr); [discriminate|].
  destruct (_ || _); [discriminate|].
  intros H. apply Ok_inj in H. subst r. cbn [remaining]. unfold substring.
  apply skipn_shorter; [|assumption].
  destruct numStr; [contradiction|cbn; lia].
Qed.

Section StrictReturns.

Variable rec : jsstring -> Result (ParseResult Value).

Hypothesis rec_consumes :
  forall s r, rec s = Ok r -> length (remaining r) < length s.

Lemma JSON_members_consumes (fuel : nat) :
  forall obj s r,
    JSON.members rec fuel obj s = Ok r -> length (remaining r) < length s.
Proof.
  induction fuel as [|fuel IH]; intros obj s r; [discriminate|].
  cbn [JSON.members].
  pose proof (JSON_skipWhiteSpace_length s) as H0.
  destruct (JSON.skipWhiteSpace s) as [|c s1]; [discriminate|].
  destruct (N.eqb c DQ); [|discriminate].
  destruct (JSON.stringChars [] s1) as [key| |] eqn:Ek; cbn [bind];
    try discriminate.
  apply (JSON_stringChars_consumes (length s1)) in Ek; [|lia].
  pose proof (JSON_skipWhiteSpace_length (remaining key)) as H1.
  destruct (JSON.skipWhiteSpace (remaining key)) as [|d s2]; [discriminate|].
  destruct (N.eqb d (ch ":")); [|discriminate].
  destruct (rec s2) as [vr| |] eqn:Ev; cbn [bind]; try discriminate.
  apply rec_consumes in Ev.
  pose proof (JSON_skipWhiteSpace_length (remaining vr)) as H2.
  destruct (JSON.skipWhiteSpace (remaining vr)) as [|e s3]; [discriminate|].
  cbn [length] in *.
  destruct (N.eqb e (ch "}")).
  { intros H. apply Ok_inj in H. subst r. cbn [remaining]. lia. }
  destruct (N.eqb e (ch ",")); [|discriminate].
  intros H. apply IH in H. lia.
Qed.

Lemma JSON_elements_consumes (fuel : nat) :
  forall arr s r,
    JSON.elements rec fuel arr s = Ok r -> length (remaining r) < length s.
Proof.
  induction fuel as [|fuel IH]; intros arr s r; [discriminate|].
  cbn [JSON.elements].
  destruct (rec s) as [vr| |] eqn:Ev; cbn [bind]; try discriminate.
  apply rec_consumes in Ev.
  pose proof (JSON_skipWhiteSpace_length (remaining vr)) as H2.
  destruct (JSON.skipWhiteSpace (remaining vr)) as [|e s1]; [discriminate|].
  cbn [length] in *.
  destruct (N.eqb e (ch "]")).
  { intros H. apply Ok_inj in H. subst r. cbn [remaining]. lia. }
  destruct (N.eqb e (ch ",")); [|discriminate].
  intros H. apply IH in H. lia.
Qed.

Lemma JSON_value_body_consumes (s : jsstring) (r : ParseResult Value) :
  JSON.value_body rec s = Ok r -> length (remaining r) < length s.
Proof.
  unfold JSON.value_body.
  pose proof (JSON_skipWhiteSpace_length s) as H0.
  destruct (JSON.skipWhiteSpace s) as [|c s1]; [discriminate|].
  cbn [length] in H0.
  destruct (N.eqb c (ch "{")).
  { pose proof (JSON_skipWhiteSpace_length s1) as H1.
    destruct (JSON.skipWhiteSpace s1) as [|d s2]; [discriminate|].
    cbn [length] in H1.
    destruct (N.eqb d (ch "}")).
    - intros H. apply Ok_inj in H. subst r. cbn [remaining]. lia.
    - intros H. apply JSON_members_consumes in H. cbn [length] in H. lia. }
  destruct (N.eqb c (ch "[")).
  { pose proof (JSON_skipWhiteSpace_length s1) as H1.
    destruct (JSON.skipWhiteSpace s1) as [|d s2]; [discriminate|].
    cbn [length] in H1.
    destruct (N.eqb d (ch "]")).
    - intros H. apply Ok_inj in H. subst r. cbn [remaining]. lia.
    - intros H. apply JSON_elements_consumes in H. cbn [length] in H. lia. }
  destruct (N.eqb c DQ).
  { destruct (JSON.stringChars [] s1) as [sr| |] eqn:Es; cbn [bind];
      try discriminate.
    apply (JSON_stringChars_consumes (length s1)) in Es; [|lia].
    intros H. apply Ok_inj in H. subst r. cbn [remaining]. lia. }
  assert (forall k, 0 < k -> length (substring k (c :: s1)) < length s) as Hk.
  { intros k Hk.
    pose proof (skipn_shorter k (c :: s1) Hk ltac:(discriminate)) as H.
    unfold substring. cbn [length] in H. lia. }
  destruct (startsWith (c :: s1) (str "true")).
  { intros H. apply Ok_inj in H. subst r. apply Hk. lia. }
  destruct (startsWith (c :: s1) (str "false")).
  { intros H. apply Ok_inj in H. subst r. apply Hk. lia. }
  destruct (startsWith (c :: s1) (str "null")).
  { intros H. apply Ok_inj in H. subst r. apply Hk. lia. }
  intros H. apply JSON_number_consumes in H. cbn [length] in H. lia.
Qed.

Variable bound : nat.

Hypothesis rec_returns : forall s, length s < bound -> rec s <> OutOfFuel.

Lemma JSON_members_returns (fuel : nat) :
  forall obj s,
    length s < fuel -> length s <= bound ->
    JSON.members rec fuel obj s <> OutOfFuel.
Proof.
  induction fuel as [|fuel IH]; intros obj s Hf Hb; [lia|].
  cbn [JSON.members].
  pose proof (JSON_skipWhiteSpace_length s) as H0.
  destruct (JSON.skipWhiteSpace s) as [|c s1]; [discriminate|].
  destruct (N.eqb c DQ); [|discriminate].
  destruct (JSON.stringChars [] s1) as [key| |] eqn:Ek; cbn [bind];
    try discriminate.
  - apply (JSON_stringChars_consumes (length s1)) in Ek; [|lia].
    pose proof (JSON_skipWhiteSpace_length (remaining key)) as H1.
    destruct (JSON.skipWhiteSpace (remaining key)) as [|d s2]; [discriminate|].
    destruct (N.eqb d (ch ":")); [|discriminate].
    cbn [length] in *.
    assert (rec s2 <> OutOfFuel) as Hr by (apply rec_returns; lia).
    destruct (rec s2) as [vr| |] eqn:Ev; cbn [bind];
      try discriminate; try contradiction.
    apply rec_consumes in Ev.
    pose proof (JSON_skipWhiteSpace_length (remaining vr)) as H2.
    destruct (JSON.skipWhiteSpace (remaining vr)) as [|e s3]; [discriminate|].
    cbn [length] in *.
    destruct (N.eqb e (ch "}")); [discriminate|].
    destruct (N.eqb e (ch ",")); [|discriminate].
    apply IH; lia.
  - now apply (JSON_stringChars_returns (length s1)) in Ek.
Qed.

Lemma JSON_elements_returns (fuel : nat) :
  forall arr s,
    length s < fuel -> length s < bound ->
    JSON.elements rec fuel arr s <> OutOfFuel.
Proof.
  induction fuel as [|fuel IH]; intros arr s Hf Hb; [lia|].
  cbn [JSON.elements].
  assert (rec s <> OutOfFuel) as Hr by (apply rec_returns; lia).
  destruct (rec s) as [vr| |] eqn:Ev; cbn [bind];
    try discriminate; try contradiction.
  apply rec_consumes in Ev.
  pose proof (JSON_skipWhiteSpace_length (remaining vr)) as H2.
  destruct (JSON.skipWhiteSpace (remaining vr)) as [|e s1]; [discriminate|].
  cbn [length] in *.
  destruct (N.eqb e (ch "]")); [discriminate|].
  destruct (N.eqb e (ch ",")); [|discriminate].
  apply IH; lia.
Qed.

Lemma JSON_value_body_returns (s : jsstring) :
  length s <= bound -> JSON.value_body rec s <> OutOfFuel.
Proof.
  intros Hb. unfold JSON.value_body.
  pose proof (JSON_skipWhiteSpace_length s) as H0.
  destruct (JSON.skipWhiteSpace s) as [|c s1]; [discriminate|].
  cbn [length] in H0.
  destruct (N.eqb c (ch "{")).
  { pose proof (JSON_skipWhiteSpace_length s1) as H1.
    destruct (JSON.skipWhiteSpace s1) as [|d s2]; [discriminate|].
    cbn [length] in H1.
    destruct (N.eqb d (ch "}")); [discriminate|].
    apply JSON_members_returns; cbn [length]; lia. }
  destruct (N.eqb c (ch "[")).
  { pose proof (JSON_skipWhiteSpace_length s1) as H1.
    destruct (JSON.skipWhiteSpace s1) as [|d s2]; [discriminate|].
    cbn [length] in H1.
    destruct (N.eqb d (ch "]")); [discriminate|].
    apply JSON_elements_returns; cbn [length]; lia. }
  destruct (N.eqb c DQ).
  { pose proof (JSON_stringChars_returns (length s1) s1 [] (le_n _)) as Hs.
    destruct (JSON.stringChars [] s1); cbn [bind];
      try discriminate; try contradiction. }
  destruct (startsWith (c :: s1) (str "true")); [discriminate|].
  destruct (startsWith (c :: s1) (str "false")); [discriminate|].
  destruct (startsWith (c :: s1) (str "null")); [discriminate|].
  unfold JSON.number. destruct (scanNumber (c :: s1)) as [[numStr x]|];
    [|discriminate].
  destruct (JSON.leadingZero numStr); [discriminate|].
  destruct (_ || _); discriminate.
Qed.

End StrictReturns.

Lemma JSON_parseValue_consumes (fuel : nat) :
  forall s r,
    JSON.parseValue fuel s = Ok r -> length (remaining r) < length s.
Proof.
  induction fuel as [|fuel IH]; intros s r; [discriminate|].
  cbn [JSON.parseValue]. now apply JSON_value_body_consumes.
Qed.

Lemma JSON_parseValue_returns (fuel : nat) :
  forall s, length s < fuel -> JSON.parseValue fuel s <> OutOfFuel.
Proof.
  induction fuel as [|fuel IH]; intros s Hf; [lia|].
  cbn [JSON.parseValue].
  apply JSON_value_body_returns with (bound := fuel).
  - apply JSON_parseValue_consumes.
  - exact IH.
  - lia.
Qed.

Lemma parseToon_total (input : jsstring) : parseToon input <> OutOfFuel.
Proof.
  unfold parseToon, JSON.parse.
  pose proof (JSON_parseValue_returns (S (length input)) input (le_n _)) as H.
  destruct (JSON.parseValue _ input) as [r| |]; cbn [bind];
    try discriminate; try contradiction.
  destruct (JSON.skipWhiteSpace (remaining r)); discriminate.
Qed.


(** ** White space around a text *)

Lemma forallb_rev (p : char -> bool) (s : jsstring) :
  forallb p s = true -> forallb p (rev s) = true.
Proof.
  rewrite !forallb_forall. intros H c Hc. apply H. now apply in_rev.
Qed.

Lemma trimEnd_ws (s w : jsstring) :
  forallb isWhiteSpace w = true -> trimEnd (s ++ w) = trimEnd s.
Proof.
  intros Hw. unfold trimEnd. rewrite rev_app_distr.
  now rewrite trimStart_ws by now apply forallb_rev.
Qed.

Lemma trim_ws_end (s w : jsstring) :
  forallb isWhiteSpace w = true -> trim (s ++ w) = trim s.
Proof.
  intros Hw. unfold trim. induction s as [|c s IH]; cbn [app trimStart].
  - now rewrite trimStart_all_ws.
  - destruct (isWhiteSpace c); [exact IH|].
    now apply (trimEnd_ws (c :: s) w).
Qed.

Lemma forallb_trimStart (p : char -> bool) (s : jsstring) :
  forallb p s = true -> forallb p (trimStart s) = true.
Proof.
  induction s as [|c s IH]; cbn [trimStart forallb]; [auto|].
  intros H. destruct (isWhiteSpace c); [|exact H].
  apply andb_true_iff in H. now apply IH.
Qed.

Lemma forallb_trimEnd (p : char -> bool) (s : jsstring) :
  forallb p s = true -> forallb p (trimEnd s) = true.
Proof.
  intros H. unfold trimEnd.
  now apply forallb_rev, forallb_trimStart, forallb_rev.
Qed.

Lemma trim_head (c : char) (s : jsstring) :
  isWhiteSpace c = false -> trim (c :: s) = c :: trimEnd s.
Proof.
  intros Hc. unfold trim. cbn [trimStart]. rewrite Hc.
  exact (trimEnd_app_tight [] c s Hc).
Qed.

(** ** Strings of the relaxed parser *)

Lemma parseString_loop_open (quote : char) (body : jsstring) :
  forallb (fun c => negb (N.eqb c quote)) body = true ->
  forall acc escaped,
    parseString_loop quote acc escaped body = Throw (str "Unterminated string").
Proof.
  induction body as [|c body IH]; intros H acc escaped; [reflexivity|].
  cbn [forallb] in H. apply andb_true_iff in H. destruct H as [Hc H].
  apply negb_true_iff in Hc. cbn [parseString_loop]. rewrite Hc.
  destruct escaped; [now apply IH|].
  destruct (N.eqb c BACKSLASH); now apply IH.
Qed.

Lemma parseString_loop_raw (quote : char) (s acc rest : jsstring) :
  N.eqb quote BACKSLASH = false ->
  forallb (fun c => negb (N.eqb c quote) && negb (N.eqb c BACKSLASH)) s = true ->
  parseString_loop quote acc false (s ++ quote :: rest)
  = Ok (mkParseResult (acc ++ s) rest).
Proof.
  intros Hq. revert acc. induction s as [|c s IH]; intros acc Hs.
  - cbn [app parseString_loop]. now rewrite Hq, N.eqb_refl, app_nil_r.
  - cbn [forallb] in Hs. apply andb_true_iff in Hs. destruct Hs as [Hc Hs].
    apply andb_true_iff in Hc. destruct Hc as [H1 H2].
    apply negb_true_iff in H1, H2.
    cbn [app parseString_loop]. rewrite H1, H2.
    rewrite IH by assumption. now rewrite <- app_assoc.
Qed.

(** ** Numbers written with digits only *)

Lemma scanNumber_digits (ds : jsstring) :
  ds <> [] -> forallb isDigit ds = true ->
  scanNumber ds = Some (ds, decimalValue false ds [] 0).
Proof.
  intros Hne Hd. unfold scanNumber.
  destruct ds as [|c r]; [contradiction|].
  assert (N.eqb c (ch "-") = false) as Hc.
  { cbn [forallb] in Hd. apply andb_true_iff in Hd. destruct Hd as [Hd _].
    char_solve. }
  rewrite Hc.
  pose proof (span_app isDigit (c :: r) [] Hd I) as Hs.
  rewrite app_nil_r in Hs. rewrite Hs.
  cbn [scanFraction scanExponent exponentValue app].
  now rewrite app_nil_r.
Qed.

Lemma decimalValue_zeros (k : nat) (ds : jsstring) :
  decimalValue false (repeat (ch "0") k ++ ds) [] 0
  = decimalValue false ds [] 0.
Proof.
  unfold decimalValue. now rewrite !app_nil_r, dropZeros_repeat.
Qed.

Lemma isDigit_head (c : char) :
  isDigit c = true ->
  isWhiteSpace c = false
  /\ N.eqb c (ch "{") = false /\ N.eqb c (ch "[") = false
  /\ N.eqb c DQ = false /\ N.eqb c SQ = false.
Proof. intros H. repeat split; char_solve. Qed.

Lemma parseJson_digits (ds : jsstring) :
  ds <> [] -> forallb isDigit ds = true ->
  parseJson ds = Ok (VNum (decimalValue false ds [] 0)).
Proof.
  intros Hne Hd. pose proof (scanNumber_digits ds Hne Hd) as Hscan.
  destruct ds as [|c r]; [contradiction|].
  pose proof Hd as Hd'. cbn [forallb] in Hd'.
  apply andb_true_iff in Hd'. destruct Hd' as [Hc _].
  destruct (isDigit_head c Hc) as (Hw & H1 & H2 & H3 & H4).
  assert (trim (c :: r) = c :: r) as Ht.
  { apply trim_tight; [cbn; now rewrite Hw|].
    apply endsTight_digits; [discriminate|assumption]. }
  unfold parseJson. rewrite Ht. unfold parseValueTop.
  cbn [parseValue]. unfold parseValue_body. rewrite Ht.
  change (str "{") with [ch "{"]. change (str "[") with [ch "["].
  rewrite !startsWith_char, H1, H2, H3, H4. cbn [orb].
  unfold matchNumber. rewrite Hscan. cbn [option_map fst].
  unfold parseNumber, matchNumber, parseFloat. rewrite Hscan.
  cbn [option_map fst bind value remaining].
  unfold substring. rewrite skipn_all, Hscan. reflexivity.
Qed.

(** ** Texts [JSON.parse] rejects at their first character *)

Lemma JSON_value_body_no_token
  (rec : jsstring -> Result (ParseResult Value)) (c : char) (rest : jsstring) :
  JSON.isWhiteSpace c = false -> valueHead c = false ->
  JSON.value_body rec (c :: rest) = Throw JSON.syntaxError.
Proof.
  intros Hw Hv. unfold JSON.value_body.
  rewrite JSON_skipWhiteSpace_head by assumption.
  unfold valueHead in Hv.
  apply orb_false_iff in Hv. destruct Hv as [Hv Hf].
  apply orb_false_iff in Hv. destruct Hv as [Hv Ht].
  apply orb_false_iff in Hv. destruct Hv as [Hv Hn].
  apply orb_false_iff in Hv. destruct Hv as [Hv Hbrace].
  apply orb_false_iff in Hv. destruct Hv as [Hv Hbracket].
  apply orb_false_iff in Hv. destruct Hv as [Hv Hquote].
  apply orb_false_iff in Hv. destruct Hv as [Hv Hminus].
  rewrite Hbrace, Hbracket, Hquote.
  change (str "true") with (ch "t" :: str "rue").
  change (str "false") with (ch "f" :: str "alse").
  change (str "null") with (ch "n" :: str "ull").
  cbn [startsWith]. rewrite Hf, Ht, Hn. cbn [andb].
  unfold JSON.number, scanNumber. rewrite Hminus. cbn [span]. now rewrite Hv.
Qed.

Lemma parseToon_no_token (c : char) (rest : jsstring) :
  JSON.isWhiteSpace c = false -> valueHead c = false ->
  parseToon (c :: rest) = Throw (str "Invalid TOON format: " ++ JSON.syntaxError).
Proof.
  intros Hw Hv. unfold parseToon, JSON.parse. cbn [JSON.parseValue].
  now rewrite JSON_value_body_no_token.
Qed.

(* ================================================================== *)
(** * The TOON-to-JSON route and the two routes together *)
(* ================================================================== *)

(** X1: the handler of the [toon-to-json] route always answers.  To a
    POST request whose data is a string that is not empty it answers
    200 with [toJson] of what [parseToon] returns, or 400 with the
    message of the error [parseToon] throws; that message always begins
    with [Invalid TOON format: ], so the message the handler keeps in
    reserve is never sent. *)
Theorem toon_to_json_conversion (c : char) (text : jsstring) :
  match parseToon (c :: text) with
  | Ok parsed =>
      ToonToJson.handler (str "POST") (StringData (c :: text))
      = Ok (RespondData 200 (toJson parsed 0))
  | Throw message =>
      ToonToJson.handler (str "POST") (StringData (c :: text))
      = Ok (RespondError 400 message)
      /\ startsWith message (str "Invalid TOON format: ") = true
  | OutOfFuel => False
  end.
Proof.
  pose proof (parseToon_total (c :: text)) as Htotal.
  unfold ToonToJson.handler.
  change (jsstring_eqb (str "POST") (str "POST")) with true. cbn [negb].
  destruct (parseToon (c :: text)) as [parsed|message|] eqn:E;
    [reflexivity| |contradiction].
  unfold parseToon in E.
  destruct (JSON.parse (c :: text)) as [v|m|]; try discriminate.
  injection E as <-. split; [reflexivity|].
  apply (startsWith_app (str "Invalid TOON format: ") m).
Qed.

Lemma toJson_nonempty (v : Value) (indent : nat) :
  wellFormed v = true -> finiteNumbers v = true -> toJson v indent <> [].
Proof.
  intros Hw Hf. destruct (toJson_shape v indent Hw Hf) as [(c & t & E & _) _].
  rewrite E. discriminate.
Qed.

Lemma toToon_nonempty (v : Value) (indent : nat) :
  wellFormed v = true -> finiteNumbers v = true -> toToon v indent <> [].
Proof.
  intros Hw Hf. destruct (toToon_head v indent Hw Hf) as (c & t & E & _).
  rewrite E. discriminate.
Qed.

(** X2: each route undoes the other on the other's answer.  For a value
    tree the platform can hold, with finite numbers, no key named
    [__proto__], strings whose control characters are the newline, the
    carriage return and the tab, and keys without quote, backslash and
    control character: sending the JSON text [toJson V] to the
    [json-to-toon] route gives the TOON text [toToon V], and sending
    that to the [toon-to-json] route gives the JSON text back. *)
Theorem routes_invert_each_other (V : Value) :
  wellFormed V = true -> finiteNumbers V = true ->
  noProtoKey V = true -> jsonSafe V = true ->
  handler (str "POST") (StringData (toJson V 0))
  = Ok (RespondData 200 (toToon V 0))
  /\ ToonToJson.handler (str "POST") (StringData (toToon V 0))
     = Ok (RespondData 200 (toJson V 0)).
Proof.
  intros Hw Hf Hp Hj. split.
  - pose proof (toJson_nonempty V 0 Hw Hf) as Hne.
    pose proof (parseJson_toJson V Hw Hf Hp) as H.
    unfold handler.
    change (jsstring_eqb (str "POST") (str "POST")) with true. cbn [negb].
    destruct (toJson V 0) as [|c t]; [contradiction|]. now rewrite H.
  - pose proof (toToon_nonempty V 0 Hw Hf) as Hne.
    pose proof (parseToon_toToon V Hj Hw Hf) as H.
    unfold ToonToJson.handler.
    change (jsstring_eqb (str "POST") (str "POST")) with true. cbn [negb].
    destruct (toToon V 0) as [|c t]; [contradiction|]. now rewrite H.
Qed.

Lemma routes_invert_each_other_witness :
  wellFormed exampleTree = true /\ finiteNumbers exampleTree = true
  /\ noProtoKey exampleTree = true /\ jsonSafe exampleTree = true
  /\ handler (str "POST") (StringData (toJson exampleTree 0))
     = Ok (RespondData 200 (toToon exampleTree 0))
  /\ ToonToJson.handler (str "POST") (StringData (toToon exampleTree 0))
     = Ok (RespondData 200 (toJson exampleTree 0)).
Proof.
  split; [reflexivity|]. split; [reflexivity|]. split; [reflexivity|].
  split; [reflexivity|].
  apply (routes_invert_each_other exampleTree); reflexivity.
Defined.

(** X3: the indent level a serializer starts from changes the layout of
    its text and not the value the text stands for: whatever the level,
    [parseJson] reads [toJson V indent] back as [V], and [parseToon]
    reads [toToon V indent] back as [V], under the conditions of the two
    round trips. *)
Theorem round_trips_at_every_indent (V : Value) (indent : nat) :
  wellFormed V = true -> finiteNumbers V = true ->
  (noProtoKey V = true -> parseJson (toJson V indent) = Ok V)
  /\ (jsonSafe V = true -> parseToon (toToon V indent) = Ok V).
Proof.
  intros Hw Hf. split.
  - intros Hp. unfold parseJson.
    destruct (toJson_tight V indent Hw Hf) as [Hs He].
    rewrite trim_tight by assumption.
    pose proof (toJson_nonempty V indent Hw Hf) as Hne.
    destruct (toJson V indent) as [|c t] eqn:E; [contradiction|]. rewrite <- E.
    pose proof (parseValue_toJson V Hw Hf Hp indent
                  (S (length (toJson V indent)))) as H.
    unfold parseValueTop. rewrite <- (app_nil_r (toJson V indent)) at 2.
    rewrite H; [reflexivity| |reflexivity|reflexivity].
    pose proof (depth_le_toJson V indent). lia.
  - intros Hj. unfold parseToon, JSON.parse.
    destruct (JSON_parseValue_toToon V Hj Hw Hf (S (length (toToon V indent))))
      as (H & _).
    { destruct (depth_le_toToon V) as (Hd & _). specialize (Hd indent). lia. }
    specialize (H indent [] [] eq_refl eq_refl). cbn [app] in H.
    rewrite app_nil_r in H. rewrite H. reflexivity.
Qed.

Lemma round_trips_at_every_indent_witness :
  wellFormed exampleTree = true /\ finiteNumbers exampleTree = true
  /\ noProtoKey exampleTree = true /\ jsonSafe exampleTree = true
  /\ parseJson (toJson exampleTree 3) = Ok exampleTree
  /\ parseToon (toToon exampleTree 3) = Ok exampleTree.
Proof.
  split; [reflexivity|]. split; [reflexivity|]. split; [reflexivity|].
  split; [reflexivity|]. split.
  - apply (proj1 (round_trips_at_every_indent exampleTree 3 eq_refl eq_refl)).
    reflexivity.
  - apply (proj2 (round_trips_at_every_indent exampleTree 3 eq_refl eq_refl)).
    reflexivity.
Defined.

(* ================================================================== *)
(** * What the relaxed parser lets pass and the strict one does not *)
(* ================================================================== *)

(** X4: [parseJson] ignores white space around its input, of every kind
    [trim] removes; [parseToon] rejects an input that begins with a
    white-space character other than the space, the tab, the newline
    and the carriage return. *)
Theorem white_space_around_input :
  (forall w text w',
      forallb isWhiteSpace w = true -> forallb isWhiteSpace w' = true ->
      parseJson (w ++ text ++ w') = parseJson text)
  /\ (forall c rest,
         isWhiteSpace c = true -> JSON.isWhiteSpace c = false ->
         parseToon (c :: rest)
         = Throw (str "Invalid TOON format: " ++ JSON.syntaxError)).
Proof.
  split.
  - intros w text w' Hw Hw'. unfold parseJson.
    now rewrite trim_ws, trim_ws_end by assumption.
  - intros c rest Hc Hj. apply parseToon_no_token; [assumption|].
    unfold valueHead. unfold JSON.isWhiteSpace in Hj. clear rest. char_solve.
Qed.

Lemma white_space_around_input_witness :
  forallb isWhiteSpace [160%N; LF] = true /\ forallb isWhiteSpace [TAB] = true
  /\ parseJson ([160%N; LF] ++ exampleUnquoted ++ [TAB])
     = parseJson exampleUnquoted
  /\ isWhiteSpace 160%N = true /\ JSON.isWhiteSpace 160%N = false
  /\ parseToon (160%N :: exampleQuoted)
     = Throw (str "Invalid TOON format: " ++ JSON.syntaxError).
Proof.
  split; [reflexivity|]. split; [reflexivity|]. split.
  { apply (proj1 white_space_around_input); reflexivity. }
  split; [reflexivity|]. split; [reflexivity|].
  apply (proj2 white_space_around_input); reflexivity.
Defined.

(** X5: [parseJson] reads a run of digits as a number whatever zeros it
    begins with, the same number as without them; [parseToon] rejects
    every text that begins with the digit 0 followed by a digit. *)
Theorem leading_zeros :
  (forall k ds,
      ds <> [] -> forallb isDigit ds = true ->
      parseJson (repeat (ch "0") k ++ ds) = parseJson ds
      /\ parseJson ds = Ok (VNum (parseFloat ds)))
  /\ (forall d rest,
         isDigit d = true ->
         parseToon (ch "0" :: d :: rest)
         = Throw (str "Invalid TOON format: " ++ JSON.syntaxError)).
Proof.
  split.
  - intros k ds Hne Hd.
    assert (forallb isDigit (repeat (ch "0") k ++ ds) = true) as Hd'.
    { rewrite forallb_app, Hd, andb_true_r. clear. induction k; cbn; auto. }
    assert (repeat (ch "0") k ++ ds <> []) as Hne'.
    { destruct ds; [contradiction|]. now destruct (repeat (ch "0") k). }
    rewrite (parseJson_digits _ Hne' Hd'), (parseJson_digits _ Hne Hd).
    rewrite decimalValue_zeros. split; [reflexivity|].
    unfold parseFloat. now rewrite scanNumber_digits.
  - intros d rest Hd. unfold parseToon, JSON.parse. cbn [JSON.parseValue].
    unfold JSON.value_body. rewrite JSON_skipWhiteSpace_head by reflexivity.
    change (N.eqb (ch "0") (ch "{")) with false.
    change (N.eqb (ch "0") (ch "[")) with false.
    change (N.eqb (ch "0") DQ) with false.
    change (startsWith (ch "0" :: d :: rest) (str "true")) with false.
    change (startsWith (ch "0" :: d :: rest) (str "false")) with false.
    change (startsWith (ch "0" :: d :: rest) (str "null")) with false.
    cbv iota. unfold JSON.number, scanNumber.
    change (N.eqb (ch "0") (ch "-")) with false. cbv iota.
    cbn [span]. change (isDigit (ch "0")) with true. cbv iota. rewrite Hd.
    destruct (span isDigit rest) as [int s2].
    destruct (scanFraction s2) as [frac s3].
    destruct (scanExponent s3) as [e s4].
    cbn [app].
    assert (forall x, JSON.leadingZero (ch "0" :: d :: x) = true) as Hz.
    { intros x. unfold JSON.leadingZero.
      change (startsWith (ch "0" :: d :: x) (str "-")) with false.
      cbv iota. now rewrite Hd. }
    now rewrite Hz.
Qed.

Lemma leading_zeros_witness :
  str "12" <> [] /\ forallb isDigit (str "12") = true
  /\ parseJson (repeat (ch "0") 2 ++ str "12") = parseJson (str "12")
  /\ parseJson (str "12") = Ok (VNum (parseFloat (str "12")))
  /\ isDigit (ch "1") = true
  /\ parseToon (ch "0" :: ch "1" :: str "2")
     = Throw (str "Invalid TOON format: " ++ JSON.syntaxError).
Proof.
  split; [discriminate|]. split; [reflexivity|].
  split; [apply (proj1 leading_zeros 2 (str "12")); [discriminate|reflexivity]|].
  split; [apply (proj1 leading_zeros 2 (str "12")); [discriminate|reflexivity]|].
  split; [reflexivity|].
  apply (proj2 leading_zeros); reflexivity.
Defined.

(** X6: [parseJson] reads a string between single quotes: when the
    characters between them are no single quote and no backslash, they
    are the string, double quotes among them included.  [parseToon]
    rejects every text that begins with a single quote. *)
Theorem single_quoted_strings :
  (forall s : jsstring,
      forallb (fun c => negb (N.eqb c SQ) && negb (N.eqb c BACKSLASH)) s = true ->
      parseJson ([SQ] ++ s ++ [SQ]) = Ok (VStr s))
  /\ (forall rest,
         parseToon (SQ :: rest)
         = Throw (str "Invalid TOON format: " ++ JSON.syntaxError)).
Proof.
  split.
  - intros s Hs. unfold parseJson.
    assert (trim ([SQ] ++ s ++ [SQ]) = [SQ] ++ s ++ [SQ]) as Ht.
    { apply trim_tight; [reflexivity|].
      rewrite app_assoc. now apply endsTight_closed. }
    rewrite Ht. cbn [app]. unfold parseValueTop. cbn [parseValue].
    unfold parseValue_body. cbn [app] in Ht. rewrite Ht.
    change (startsWith (SQ :: s ++ [SQ]) (str "{")) with false.
    change (startsWith (SQ :: s ++ [SQ]) (str "[")) with false.
    change (startsWith (SQ :: s ++ [SQ]) [DQ]) with false.
    change (startsWith (SQ :: s ++ [SQ]) [SQ]) with true.
    cbn [orb]. cbv iota. cbn [parseString].
    change (N.eqb SQ DQ || N.eqb SQ SQ) with true. cbv iota.
    rewrite (parseString_loop_raw SQ s [] [] eq_refl Hs).
    reflexivity.
  - intros rest. now apply parseToon_no_token.
Qed.

Lemma single_quoted_strings_witness :
  forallb (fun c => negb (N.eqb c SQ) && negb (N.eqb c BACKSLASH))
    (str "say " ++ quoted (str "hi")) = true
  /\ parseJson ([SQ] ++ (str "say " ++ quoted (str "hi")) ++ [SQ])
     = Ok (VStr (str "say " ++ quoted (str "hi"))).
Proof.
  split; [reflexivity|].
  apply (proj1 single_quoted_strings); reflexivity.
Defined.

(** X7: a text that opens a string and has no further quote of the
    same kind makes [parseJson] throw [Unterminated string], whatever
    the quote (double or single) and whatever the other characters,
    backslashes included. *)
Theorem unterminated_string (quote : char) (body : jsstring) :
  N.eqb quote DQ || N.eqb quote SQ = true ->
  forallb (fun c => negb (N.eqb c quote)) body = true ->
  parseJson (quote :: body) = Throw (str "Unterminated string").
Proof.
  intros Hq Hb. unfold parseJson.
  assert (isWhiteSpace quote = false) as Hw.
  { apply orb_true_iff in Hq. destruct Hq as [Hq|Hq];
      apply N.eqb_eq in Hq; now subst quote. }
  rewrite trim_head by assumption.
  unfold parseValueTop. cbn [parseValue]. unfold parseValue_body.
  rewrite trim_head by assumption. rewrite trimEnd_idempotent.
  assert (startsWith (quote :: trimEnd body) (str "{") = false
          /\ startsWith (quote :: trimEnd body) (str "[") = false) as [H1 H2].
  { apply orb_true_iff in Hq. destruct Hq as [Hq|Hq];
      apply N.eqb_eq in Hq; now subst quote. }
  rewrite H1, H2, !startsWith_char, Hq. cbn [parseString]. rewrite Hq.
  now rewrite parseString_loop_open by now apply forallb_trimEnd.
Qed.

Lemma unterminated_string_witness :
  N.eqb SQ DQ || N.eqb SQ SQ = true
  /\ forallb (fun c => negb (N.eqb c SQ)) (str "abc" ++ [BACKSLASH; DQ]) = true
  /\ parseJson (SQ :: str "abc" ++ [BACKSLASH; DQ])
     = Throw (str "Unterminated string").
Proof.
  split; [reflexivity|]. split; [reflexivity|].
  apply (unterminated_string SQ); reflexivity.
Defined.

(** X8: the text [toJson] writes for an object whose first key is an
    identifier is no TOON: the key stands unquoted, and [parseToon]
    rejects the text, whatever the values, the other entries and the
    indent level. *)
Theorem relaxed_text_is_no_toon (key : jsstring) (v : Value) (entries : Object)
  (indent : nat) :
  isIdentifier key = true ->
  parseToon (toJson (VObj ((key, v) :: entries)) indent)
  = Throw (str "Invalid TOON format: " ++ JSON.syntaxError).
Proof.
  intros Hk.
  pose proof (toJson_object_text (key, v) entries indent []) as Ht.
  rewrite app_nil_r in Ht. rewrite Ht. clear Ht.
  unfold entryTexts. cbn [map fst snd]. unfold entriesText. cbn [map].
  unfold entryText at 1. cbn [fst snd]. unfold keyText. rewrite Hk.
  destruct key as [|c key]; [discriminate|].
  cbn [isIdentifier] in Hk. apply andb_true_iff in Hk. destruct Hk as [Hc _].
  assert (JSON.isWhiteSpace c = false /\ N.eqb c (ch "}") = false
          /\ N.eqb c DQ = false) as (Hw & Hb & Hq).
  { unfold JSON.isWhiteSpace. repeat split; char_solve. }
  set (tail := join _ _ ++ _).
  assert (exists more, tail = c :: more) as [more Hmore].
  { subst tail. destruct (map entryText _); cbn [join app]; eexists; reflexivity. }
  rewrite Hmore.
  unfold parseToon, JSON.parse. cbn [JSON.parseValue app str].
  unfold JSON.value_body. rewrite JSON_skipWhiteSpace_head by reflexivity.
  rewrite N.eqb_refl.
  change (LF :: indentation (indent + 1) ++ c :: more)
    with ((LF :: indentation (indent + 1)) ++ c :: more).
  rewrite JSON_skip_to;
    [|cbn [forallb]; now rewrite indentation_json_ws|assumption].
  rewrite Hb. cbn [JSON.members].
  rewrite JSON_skipWhiteSpace_head by assumption. now rewrite Hq.
Qed.

Lemma relaxed_text_is_no_toon_witness :
  isIdentifier (str "name") = true
  /\ parseToon (toJson (VObj [(str "name", VStr (str "Alice"))]) 0)
     = Throw (str "Invalid TOON format: " ++ JSON.syntaxError).
Proof.
  split; [reflexivity|].
  apply (relaxed_text_is_no_toon (str "name")); reflexivity.
Defined.

(* ================================================================== *)
(** * The relaxed parser on the texts the strict parser accepts *)
(* ================================================================== *)

(** ** More on [trim] *)

Lemma white_space_or_not (x : jsstring) :
  forallb isWhiteSpace x = true
  \/ exists w c y,
      x = w ++ c :: y /\ forallb isWhiteSpace w = true /\ isWhiteSpace c = false.
Proof.
  induction x as [|d x IH]; [now left|].
  destruct (isWhiteSpace d) eqn:Ed.
  - destruct IH as [IH|(w & c & y & -> & Hw & Hc)].
    + left. cbn [forallb]. now rewrite Ed.
    + right. exists (d :: w), c, y. repeat split; [|assumption].
      cbn [forallb]. now rewrite Ed.
  - right. now exists [], d, x.
Qed.

Lemma trimEnd_all_ws (x : jsstring) :
  forallb isWhiteSpace x = true -> trimEnd x = [].
Proof.
  intros H. unfold trimEnd. now rewrite trimStart_all_ws by now apply forallb_rev.
Qed.

Lemma trimStart_trimEnd (x : jsstring) :
  trimStart (trimEnd x) = trimEnd (trimStart x).
Proof.
  destruct (white_space_or_not x) as [H|(w & c & y & -> & Hw & Hc)].
  - now rewrite (trimEnd_all_ws x H), (trimStart_all_ws x H).
  - rewrite trimEnd_app_tight, !trimStart_ws by assumption.
    cbn [trimStart]. rewrite Hc.
    exact (eq_sym (trimEnd_app_tight [] c y Hc)).
Qed.

Lemma trim_trimEnd (x : jsstring) : trim (trimEnd x) = trim x.
Proof. unfold trim. now rewrite trimStart_trimEnd, trimEnd_idempotent. Qed.

Lemma trim_idempotent (x : jsstring) : trim (trim x) = trim x.
Proof.
  unfold trim at 2. rewrite trim_trimEnd. unfold trim.
  now rewrite trimStart_idempotent.
Qed.

Lemma JSON_isWhiteSpace_ws (c : char) :
  JSON.isWhiteSpace c = true -> isWhiteSpace c = true.
Proof. unfold JSON.isWhiteSpace. intros H. char_solve. Qed.

Lemma trim_skipWhiteSpace (s : jsstring) (c : char) (s1 : jsstring) :
  JSON.skipWhiteSpace s = c :: s1 -> isWhiteSpace c = false ->
  trim s = c :: trimEnd s1.
Proof.
  intros H Hc. induction s as [|d s IH]; [discriminate|].
  cbn [JSON.skipWhiteSpace] in H. destruct (JSON.isWhiteSpace d) eqn:Ed.
  - change (d :: s) with ([d] ++ s). rewrite (trim_ws [d] s); [now apply IH|].
    cbn [forallb]. now rewrite JSON_isWhiteSpace_ws.
  - injection H as -> ->. now apply trim_head.
Qed.

(** ** Backslashes outside and inside strings *)

Lemma plainEscapes_skip (p r : jsstring) :
  forallb (fun c => negb (N.eqb c BACKSLASH)) p = true ->
  plainEscapes (p ++ r) = plainEscapes r.
Proof.
  induction p as [|c p IH]; [reflexivity|]. cbn [forallb app plainEscapes].
  intros H. apply andb_true_iff in H. destruct H as [Hc H].
  apply negb_true_iff in Hc. rewrite Hc. auto.
Qed.

Lemma plainEscapes_tail (c : char) (s : jsstring) :
  N.eqb c BACKSLASH = false -> plainEscapes (c :: s) = plainEscapes s.
Proof. intros H. cbn [plainEscapes]. now rewrite H. Qed.

Lemma plainEscapes_skipWhiteSpace (s : jsstring) :
  plainEscapes s = true -> plainEscapes (JSON.skipWhiteSpace s) = true.
Proof.
  induction s as [|c s IH]; [auto|]. cbn [JSON.skipWhiteSpace].
  destruct (JSON.isWhiteSpace c) eqn:E; [|auto].
  rewrite plainEscapes_tail; [exact IH|].
  unfold JSON.isWhiteSpace in E. char_solve.
Qed.

(** Where [JSON.parse] reads a string whose escapes are not [\b], [\f]
    or [\uXXXX], the relaxed parser reads the same string and stops at
    the same place. *)
Lemma string_scanners_agree (n : nat) :
  forall s acc rj,
    length s <= n -> plainEscapes s = true ->
    JSON.stringChars acc s = Ok rj ->
    parseString_loop DQ acc false s = Ok rj
    /\ plainEscapes (remaining rj) = true.
Proof.
  induction n as [|n IH]; intros s acc rj Hn Hp Hj.
  { destruct s; [discriminate|cbn in Hn; lia]. }
  destruct s as [|c s']; [discriminate|].
  cbn [JSON.stringChars] in Hj. cbn [parseString_loop].
  cbn [plainEscapes] in Hp. cbn [length] in Hn.
  destruct (N.eqb c DQ) eqn:Ec.
  { apply Ok_inj in Hj. subst rj.
    destruct (N.eqb c BACKSLASH) eqn:Eb.
    { apply N.eqb_eq in Ec, Eb. subst c. discriminate. }
    now split. }
  destruct (N.eqb c BACKSLASH) eqn:Eb.
  - destruct s' as [|e s'']; [discriminate|]. cbn [parseString_loop].
    cbn [length] in Hn.
    apply andb_true_iff in Hp. destruct Hp as [Hp Hp'].
    apply andb_true_iff in Hp. destruct Hp as [Hp Hu].
    apply andb_true_iff in Hp. destruct Hp as [Hb Hf].
    apply negb_true_iff in Hb, Hf, Hu.
    destruct (N.eqb e DQ) eqn:E1.
    { apply N.eqb_eq in E1. subst e. decide_chars. apply IH; [lia|auto|auto]. }
    destruct (N.eqb e BACKSLASH) eqn:E2.
    { apply N.eqb_eq in E2. subst e. decide_chars. apply IH; [lia|auto|auto]. }
    destruct (N.eqb e (ch "/")) eqn:E3.
    { apply N.eqb_eq in E3. subst e. decide_chars. apply IH; [lia|auto|auto]. }
    rewrite Hb, Hf in Hj.
    destruct (N.eqb e (ch "n")) eqn:E6.
    { apply IH; [lia|auto|auto]. }
    destruct (N.eqb e (ch "r")) eqn:E7.
    { apply N.eqb_eq in E7. subst e. decide_chars. apply IH; [lia|auto|auto]. }
    destruct (N.eqb e (ch "t")) eqn:E8.
    { apply IH; [lia|auto|auto]. }
    rewrite Hu in Hj. discriminate.
  - destruct (c <? 32)%N; [discriminate|]. apply IH; [lia|auto|auto].
Qed.

(** The relaxed scanner does not look beyond the closing quote. *)
Lemma parseString_loop_prefix (quote : char) (s : jsstring) :
  forall acc escaped r,
    parseString_loop quote acc escaped s = Ok r ->
    exists before,
      s = before ++ quote :: remaining r
      /\ forall tail,
          parseString_loop quote acc escaped (before ++ quote :: tail)
          = Ok (mkParseResult (value r) tail).
Proof.
  induction s as [|c s IH]; intros acc escaped r H; [discriminate|].
  cbn [parseString_loop] in H.
  assert (forall acc' escaped',
             parseString_loop quote acc' escaped' s = Ok r ->
             (forall tail',
                 parseString_loop quote acc escaped (c :: tail')
                 = parseString_loop quote acc' escaped' tail') ->
             exists before,
               c :: s = before ++ quote :: remaining r
               /\ forall tail,
                   parseString_loop quote acc escaped (before ++ quote :: tail)
                   = Ok (mkParseResult (value r) tail)) as Hstep.
  { intros acc' escaped' H' Hc. destruct (IH _ _ _ H') as (before & E & Ht).
    exists (c :: before). split; [now rewrite E|].
    intros tail. cbn [app]. now rewrite Hc, Ht. }
  destruct escaped.
  - eapply Hstep; [exact H|]. reflexivity.
  - destruct (N.eqb c BACKSLASH) eqn:Eb.
    + eapply Hstep; [exact H|]. intros tail'. cbn [parseString_loop].
      now rewrite Eb.
    + destruct (N.eqb c quote) eqn:Eq.
      * apply Ok_inj in H. subst r. apply N.eqb_eq in Eq. subst c.
        exists []. split; [reflexivity|]. intros tail.
        cbn [app parseString_loop]. now rewrite Eb, N.eqb_refl.
      * eapply Hstep; [exact H|]. intros tail'. cbn [parseString_loop].
        now rewrite Eb, Eq.
Qed.

Lemma parseString_loop_trimEnd (quote : char) (s acc : jsstring)
  (escaped : bool) (r : ParseResult jsstring) :
  isWhiteSpace quote = false ->
  parseString_loop quote acc escaped s = Ok r ->
  parseString_loop quote acc escaped (trimEnd s)
  = Ok (mkParseResult (value r) (trimEnd (remaining r))).
Proof.
  intros Hq H. destruct (parseString_loop_prefix _ _ _ _ _ H) as (before & E & Ht).
  rewrite E at 1. rewrite trimEnd_app_tight by assumption. apply Ht.
Qed.

(** ** What the number pattern matches *)

Lemma digitEnd_digits (ds : jsstring) :
  ds <> [] -> forallb isDigit ds = true -> digitEnd ds = true.
Proof.
  intros Hne Hd. unfold digitEnd. apply andb_true_iff. split.
  - rewrite forallb_forall in *. intros c Hc. specialize (Hd c Hc).
    unfold isDull. char_solve.
  - apply forallb_rev in Hd. destruct (rev ds) as [|d r] eqn:E.
    + apply (f_equal (@rev _)) in E. rewrite rev_involutive in E. contradiction.
    + cbn [forallb] in Hd. now apply andb_true_iff in Hd.
Qed.

Lemma digitEnd_app (a b : jsstring) :
  forallb isDull a = true ->
  digitEnd b = true -> digitEnd (a ++ b) = true.
Proof.
  unfold digitEnd. intros Ha Hb. apply andb_true_iff in Hb.
  destruct Hb as [Hb1 Hb2]. apply andb_true_iff. split.
  - rewrite forallb_app. apply andb_true_iff. now split.
  - rewrite rev_app_distr. destruct (rev b); [discriminate|assumption].
Qed.

Lemma digitEnd_app_nil (a b : jsstring) :
  digitEnd a = true -> b = [] \/ digitEnd b = true -> digitEnd (a ++ b) = true.
Proof.
  intros Ha [->|Hb]; [now rewrite app_nil_r|].
  apply digitEnd_app; [|assumption].
  unfold digitEnd in Ha. now apply andb_true_iff in Ha.
Qed.

Lemma digitEnd_trimEnd (p rest : jsstring) :
  digitEnd p = true -> trimEnd (p ++ rest) = p ++ trimEnd rest.
Proof.
  unfold digitEnd. intros H. apply andb_true_iff in H. destruct H as [_ H].
  destruct (rev p) as [|d r] eqn:E; [discriminate|].
  apply (f_equal (@rev _)) in E. rewrite rev_involutive in E. cbn [rev] in E.
  subst p. rewrite <- !app_assoc. cbn [app].
  apply trimEnd_app_tight. char_solve.
Qed.

Lemma isDull_no_backslash (p : jsstring) :
  forallb isDull p = true ->
  forallb (fun c => negb (N.eqb c BACKSLASH)) p = true.
Proof.
  intros H. rewrite forallb_forall in *. intros c Hc. specialize (H c Hc).
  unfold isDull in H. apply andb_true_iff in H. destruct H as [H _].
  now apply andb_true_iff in H.
Qed.

Lemma digitEnd_plainEscapes (p rest : jsstring) :
  digitEnd p = true -> plainEscapes (p ++ rest) = plainEscapes rest.
Proof.
  unfold digitEnd. intros H. apply andb_true_iff in H. destruct H as [H _].
  apply plainEscapes_skip. now apply isDull_no_backslash.
Qed.

Lemma scanFraction_inv (s2 frac s3 : jsstring) :
  scanFraction s2 = (frac, s3) ->
  (frac = [] /\ s3 = s2)
  \/ (frac <> [] /\ forallb isDigit frac = true
      /\ s2 = ch "." :: frac ++ s3
      /\ match s3 with [] => True | c :: _ => isDigit c = false end).
Proof.
  unfold scanFraction. destruct s2 as [|c r].
  { intros H. injection H as <- <-. now left. }
  destruct (N.eqb_spec c (ch ".")) as [->|Hc].
  - pose proof (span_spec isDigit r) as (E & Hd & Hn).
    destruct (span isDigit r) as [[|f fr] r']; cbn [fst snd] in *.
    + intros H. injection H as <- <-. now left.
    + intros H. injection H as <- <-. right.
      repeat split; [discriminate|assumption|now rewrite E|assumption].
  - intros H. injection H as <- <-. now left.
Qed.

Lemma scanSign_inv (r sign r1 : jsstring) :
  scanSign r = (sign, r1) ->
  r = sign ++ r1
  /\ forallb isDull sign = true
  /\ forall ds tail,
      ds <> [] -> forallb isDigit ds = true ->
      scanSign (sign ++ ds ++ tail) = (sign, ds ++ tail).
Proof.
  unfold scanSign. destruct r as [|c r].
  { intros H. injection H as <- <-. repeat split.
    intros [|d ds] tail Hne Hd; [contradiction|]. cbn [app forallb] in *.
    apply andb_true_iff in Hd. destruct Hd as [Hd _].
    assert (N.eqb d (ch "+") || N.eqb d (ch "-") = false) as -> by char_solve.
    reflexivity. }
  destruct (N.eqb c (ch "+") || N.eqb c (ch "-")) eqn:E.
  - intros H. injection H as <- <-. repeat split.
    + cbn [forallb]. rewrite andb_true_r. unfold isDull. char_solve.
    + intros ds tail _ _. cbn [app]. now rewrite E.
  - intros H. injection H as <- <-. repeat split.
    intros [|d ds] tail Hne Hd; [contradiction|]. cbn [app forallb] in *.
    apply andb_true_iff in Hd. destruct Hd as [Hd _].
    assert (N.eqb d (ch "+") || N.eqb d (ch "-") = false) as -> by char_solve.
    reflexivity.
Qed.

Lemma scanExponent_inv (s3 e s4 : jsstring) :
  scanExponent s3 = (e, s4) ->
  (e = [] /\ s4 = s3)
  \/ (s3 = e ++ s4 /\ digitEnd e = true
      /\ (exists c e', e = c :: e' /\ isDigit c = false /\ N.eqb c (ch ".") = false)
      /\ match s4 with [] => True | c :: _ => isDigit c = false end
      /\ forall tail,
          match tail with [] => True | c :: _ => isDigit c = false end ->
          scanExponent (e ++ tail) = (e, tail)).
Proof.
  unfold scanExponent. destruct s3 as [|c r].
  { intros H. injection H as <- <-. now left. }
  destruct (N.eqb c (ch "e") || N.eqb c (ch "E")) eqn:Ec.
  - destruct (scanSign r) as [sign r1] eqn:Es.
    apply scanSign_inv in Es. destruct Es as (Er & Hsign & Hrescan).
    pose proof (span_spec isDigit r1) as (E & Hd & Hn).
    destruct (span isDigit r1) as [[|d ds] r2]; cbn [fst snd] in *.
    + intros H. injection H as <- <-. now left.
    + intros H. injection H as <- <-. right. repeat split.
      * rewrite Er, E. cbn [app]. now rewrite <- !app_assoc.
      * apply (digitEnd_app (c :: sign) (d :: ds)).
        -- cbn [forallb]. apply andb_true_iff.
           split; [unfold isDull; char_solve|exact Hsign].
        -- now apply digitEnd_digits.
      * exists c, (sign ++ d :: ds). repeat split; char_solve.
      * assumption.
      * intros tail Ht. cbn [app]. rewrite Ec. rewrite <- app_assoc.
        rewrite (Hrescan (d :: ds) tail) by (discriminate || assumption).
        now rewrite (span_app isDigit (d :: ds) tail Hd Ht).
  - intros H. injection H as <- <-. now left.
Qed.

Lemma numberBoundary_head (rest : jsstring) :
  numberBoundary rest = true ->
  match rest with [] => True | c :: _ => isDigit c = false end.
Proof.
  destruct rest as [|c rest]; [auto|]. cbn [numberBoundary]. intros H.
  destruct (isDigit c); [discriminate|reflexivity].
Qed.

Lemma Some_pair_inj (A B : Type) (a c : A) (b d : B) :
  Some (a, b) = Some (c, d) -> a = c /\ b = d.
Proof. intros H. now injection H. Qed.

(** What [scanNumber] matches ends with a digit and has no backslash;
    it is matched again, for the same number, before any text that does
    not continue a number. *)
Lemma scanNumber_stable (s numStr : jsstring) (x : number) :
  scanNumber s = Some (numStr, x) ->
  s = numStr ++ skipn (length numStr) s
  /\ digitEnd numStr = true
  /\ (exists c t, numStr = c :: t /\ (isDigit c = true \/ c = ch "-"))
  /\ match skipn (length numStr) s with
     | [] => True
     | c :: _ => isDigit c = false
     end
  /\ (forall tail,
         numberBoundary tail = true ->
         scanNumber (numStr ++ tail) = Some (numStr, x)).
Proof.
  intros H0. unfold scanNumber in H0. revert H0.
  set (sign := match s with
               | c :: r => if N.eqb c (ch "-") then (true, r) else (false, s)
               | [] => (false, s)
               end).
  assert (exists negative s1,
             sign = (negative, s1)
             /\ s = (if negative then str "-" else []) ++ s1
             /\ (negative = false ->
                 match s1 with [] => True | c :: _ => N.eqb c (ch "-") = false end))
    as (negative & s1 & -> & Es & Hs1).
  { subst sign. destruct s as [|c r]; [now exists false, []|].
    destruct (N.eqb_spec c (ch "-")) as [->|Hc].
    - now exists true, r.
    - exists false, (c :: r). repeat split. intros _. now apply N.eqb_neq. }
  pose proof (span_spec isDigit s1) as (E1 & Hint & Hn1).
  destruct (span isDigit s1) as [[|i int] s2]; cbn [fst snd] in *; [discriminate|].
  destruct (scanFraction s2) as [frac s3] eqn:Ef.
  destruct (scanExponent s3) as [e s4] eqn:Ee.
  intros H. apply Some_pair_inj in H. destruct H as [<- <-].
  set (fracText := match frac with [] => [] | _ :: _ => ch "." :: frac end).
  apply scanFraction_inv in Ef. apply scanExponent_inv in Ee.
  assert (s2 = fracText ++ s3
          /\ (fracText = [] \/ digitEnd fracText = true)) as [E2 Hfrac].
  { subst fracText. destruct Ef as [[-> ->]|(Hne & Hd & -> & _)].
    - split; [reflexivity|now left].
    - destruct frac as [|f frac]; [contradiction|]. split; [reflexivity|].
      right. apply (digitEnd_app [ch "."] (f :: frac)); [reflexivity|].
      now apply digitEnd_digits. }
  assert (s3 = e ++ s4 /\ (e = [] \/ digitEnd e = true)) as [E3 He].
  { destruct Ee as [[-> ->]|(-> & Hd & _)]; split; auto. }
  assert (digitEnd ((i :: int) ++ fracText ++ e) = true) as Hbody.
  { apply digitEnd_app_nil; [now apply digitEnd_digits|].
    destruct Hfrac as [->|Hfrac]; [exact He|].
    right. now apply digitEnd_app_nil. }
  set (numStr := (if negative then str "-" else []) ++ (i :: int) ++ fracText ++ e).
  assert (s = numStr ++ s4) as Es4.
  { subst numStr. rewrite Es, E1, E2, E3. now rewrite <- !app_assoc. }
  assert (skipn (length numStr) s = s4) as Hskip.
  { rewrite Es4. apply skipn_length_app. }
  rewrite Hskip. split; [exact Es4|]. split.
  { subst numStr. apply digitEnd_app; [now destruct negative|exact Hbody]. }
  split.
  { subst numStr. destruct negative; cbn [app str].
    - exists (ch "-"), ((i :: int) ++ fracText ++ e). split; [reflexivity|now right].
    - exists i, (int ++ fracText ++ e). split; [reflexivity|left].
      cbn [forallb] in Hint. now apply andb_true_iff in Hint. }
  split.
  { destruct Ee as [[-> ->]|(_ & _ & _ & Hn4 & _)]; [|exact Hn4].
    destruct Ef as [[-> ->]|(_ & _ & _ & Hn3)]; [exact Hn1|exact Hn3]. }
  intros tail Htail.
  pose proof (numberBoundary_head tail Htail) as Hhead.
  assert (i :: int <> []) as Hne by discriminate.
  assert (N.eqb i (ch "-") = false) as Hi.
  { apply isDigit_not_minus. cbn [forallb] in Hint.
    now apply andb_true_iff in Hint. }
  (* the digits before the point *)
  assert (span isDigit ((i :: int) ++ fracText ++ e ++ tail)
          = (i :: int, fracText ++ e ++ tail)) as Hspan.
  { apply span_app; [assumption|].
    subst fracText. destruct frac as [|f frac]; [|reflexivity]. cbn [app].
    destruct Ee as [[-> _]|(_ & _ & (c & e' & -> & Hc & _) & _)];
      [exact Hhead|exact Hc]. }
  (* the fraction *)
  assert (scanFraction (fracText ++ e ++ tail) = (frac, e ++ tail)) as Hfraction.
  { subst fracText. destruct Ef as [[-> ->]|(Hne' & Hd & -> & Hn3)].
    - cbn [app].
      destruct Ee as [[-> ->]|(_ & _ & (c & e' & -> & _ & Hc) & _)].
      + cbn [app]. now apply scanFraction_boundary.
      + cbn [app scanFraction]. now rewrite Hc.
    - destruct frac as [|f frac]; [contradiction|].
      rewrite <- app_comm_cons.
      apply scanFraction_digits; [discriminate|assumption|].
      destruct Ee as [[-> _]|(_ & _ & (c & e' & -> & Hc & _) & _)];
        [exact Hhead|exact Hc]. }
  (* the exponent *)
  assert (scanExponent (e ++ tail) = (e, tail)) as Hexponent.
  { destruct Ee as [[-> _]|(_ & _ & _ & _ & Hre)].
    - cbn [app]. now apply scanExponent_boundary.
    - now apply Hre. }
  subst numStr. rewrite <- !app_assoc. unfold scanNumber.
  destruct negative; cbn [app str]; [rewrite N.eqb_refl|rewrite Hi];
    rewrite app_comm_cons, Hspan, Hfraction, Hexponent;
    rewrite <- ?app_assoc; reflexivity.
Qed.



(* ================================================================== *)
(** * The two parsers side by side *)
(* ================================================================== *)

(** ** Entries and characters of the objects the parsers fill *)

Lemma entryCount_cons (k : jsstring) (w : Value) (obj : Object) :
  entryCount (VObj ((k, w) :: obj)) = S (entryCount w) + entryCount (VObj obj).
Proof. reflexivity. Qed.

Lemma characters_cons (k : jsstring) (w : Value) (obj : Object) :
  characters (VObj ((k, w) :: obj))
  = length k + characters w + characters (VObj obj).
Proof. reflexivity. Qed.

Lemma entryCount_app (a b : Object) :
  entryCount (VObj (a ++ b)) = entryCount (VObj a) + entryCount (VObj b).
Proof. cbn [entryCount]. now rewrite map_app, list_sum_app. Qed.

Lemma characters_app (a b : Object) :
  characters (VObj (a ++ b)) = characters (VObj a) + characters (VObj b).
Proof. cbn [characters]. now rewrite map_app, list_sum_app. Qed.

Lemma entryCount_items (arr : list Value) (v : Value) :
  entryCount (VArr (arr ++ [v])) = entryCount (VArr arr) + entryCount v.
Proof. cbn [entryCount]. rewrite map_app, list_sum_app. cbn. lia. Qed.

Lemma characters_items (arr : list Value) (v : Value) :
  characters (VArr (arr ++ [v])) = characters (VArr arr) + characters v.
Proof. cbn [characters]. rewrite map_app, list_sum_app. cbn. lia. Qed.

Lemma replaceValue_count (obj : Object) (key : jsstring) (v : Value) :
  hasKey obj key = true ->
  entryCount (VObj (replaceValue obj key v))
  <= entryCount (VObj obj) + entryCount v.
Proof.
  induction obj as [|[k w] obj IH]; [discriminate|].
  cbn [hasKey replaceValue]. destruct (jsstring_eqb k key); cbn [orb].
  - intros _. rewrite !entryCount_cons. lia.
  - intros H. specialize (IH H). rewrite !entryCount_cons. lia.
Qed.

Lemma insertIndex_count (obj : Object) (i : N) (key : jsstring) (v : Value) :
  entryCount (VObj (insertIndex obj i key v))
  = entryCount (VObj obj) + S (entryCount v)
  /\ characters (VObj (insertIndex obj i key v))
     = characters (VObj obj) + length key + characters v.
Proof.
  induction obj as [|[k w] obj [IH1 IH2]]; cbn [insertIndex].
  - rewrite entryCount_cons, characters_cons. cbn. lia.
  - destruct (arrayIndex k) as [j|]; [destruct (j <? i)%N|];
      rewrite ?(entryCount_cons key), ?(characters_cons key),
        ?(entryCount_cons k), ?(characters_cons k), ?IH1, ?IH2; lia.
Qed.

(** An assignment adds at most one entry and those of the value; when
    it adds them all, it has replaced nothing, and the characters of the
    key and of the value are added too. *)
Lemma defineProperty_count (obj : Object) (key : jsstring) (v : Value) :
  entryCount (VObj (defineProperty obj key v))
  <= entryCount (VObj obj) + S (entryCount v)
  /\ (entryCount (VObj (defineProperty obj key v))
      = entryCount (VObj obj) + S (entryCount v) ->
      characters (VObj (defineProperty obj key v))
      = characters (VObj obj) + length key + characters v).
Proof.
  unfold defineProperty. destruct (hasKey obj key) eqn:Hk.
  - pose proof (replaceValue_count obj key v Hk). split; lia.
  - destruct (arrayIndex key) as [i|].
    + destruct (insertIndex_count obj i key v) as [H1 H2]. split; [lia|auto].
    + rewrite entryCount_app, characters_app.
      rewrite (entryCount_cons key v []), (characters_cons key v []).
      cbn. split; lia.
Qed.

Lemma setProperty_count (obj : JsObject) (key : jsstring) (v : JsValue) :
  entryCount (VObj (properties (setProperty obj key v)))
  <= entryCount (VObj (properties obj)) + S (entryCount (tree v))
  /\ (entryCount (VObj (properties (setProperty obj key v)))
      = entryCount (VObj (properties obj)) + S (entryCount (tree v)) ->
      characters (VObj (properties (setProperty obj key v)))
      = characters (VObj (properties obj)) + length key + characters (tree v)).
Proof.
  unfold setProperty.
  destruct (jsstring_eqb key (str "__proto__") && inherits obj).
  - destruct (tree v); cbn [properties]; split; lia.
  - cbn [properties]. apply defineProperty_count.
Qed.

(** ** Objects that differ in their entries [__proto__] only *)

Lemma filter_notProto_cons (k : jsstring) (w : Value) (obj : Object) :
  filter notProto ((k, w) :: obj)
  = if jsstring_eqb k (str "__proto__") then filter notProto obj
    else (k, w) :: filter notProto obj.
Proof.
  cbn [filter]. unfold notProto at 1, isProto. cbn [fst].
  now destruct (jsstring_eqb k (str "__proto__")).
Qed.

Lemma jsstring_eqb_trans_false (k key p : jsstring) :
  jsstring_eqb key p = false -> jsstring_eqb k key = true ->
  jsstring_eqb k p = false.
Proof. intros H E. apply jsstring_eqb_eq in E. now subst k. Qed.

Lemma hasKey_filter (obj : Object) (key : jsstring) :
  jsstring_eqb key (str "__proto__") = false ->
  hasKey (filter notProto obj) key = hasKey obj key.
Proof.
  intros Hp. induction obj as [|[k w] obj IH]; [reflexivity|].
  rewrite filter_notProto_cons. cbn [hasKey].
  destruct (jsstring_eqb k (str "__proto__")) eqn:Ek.
  - rewrite IH. destruct (jsstring_eqb k key) eqn:E; [|reflexivity].
    apply jsstring_eqb_eq in E. subst k. congruence.
  - cbn [hasKey]. now rewrite IH.
Qed.

Lemma hasKey_proto_filter (obj : Object) :
  hasKey obj (str "__proto__") = false -> filter notProto obj = obj.
Proof.
  induction obj as [|[k w] obj IH]; [reflexivity|]. cbn [hasKey].
  intros H. apply orb_false_iff in H. destruct H as [H1 H2].
  rewrite filter_notProto_cons, H1. now rewrite IH.
Qed.

Lemma replaceValue_filter (obj : Object) (key : jsstring) (v : Value) :
  jsstring_eqb key (str "__proto__") = false ->
  filter notProto (replaceValue obj key v)
  = replaceValue (filter notProto obj) key v.
Proof.
  intros Hp. induction obj as [|[k w] obj IH]; [reflexivity|].
  cbn [replaceValue]. destruct (jsstring_eqb k key) eqn:E.
  - rewrite !filter_notProto_cons.
    rewrite (jsstring_eqb_trans_false k key _ Hp E).
    cbn [replaceValue]. now rewrite E.
  - rewrite !filter_notProto_cons.
    destruct (jsstring_eqb k (str "__proto__")); [exact IH|].
    cbn [replaceValue]. now rewrite E, IH.
Qed.

Lemma replaceValue_proto_filter (obj : Object) (v : Value) :
  filter notProto (replaceValue obj (str "__proto__") v) = filter notProto obj.
Proof.
  induction obj as [|[k w] obj IH]; [reflexivity|].
  cbn [replaceValue]. destruct (jsstring_eqb k (str "__proto__")) eqn:E.
  - rewrite !filter_notProto_cons. now rewrite E.
  - rewrite !filter_notProto_cons. now rewrite E, IH.
Qed.

Lemma arrayIndex_not_proto (key : jsstring) (i : N) :
  arrayIndex key = Some i -> jsstring_eqb key (str "__proto__") = false.
Proof.
  intros H. destruct (jsstring_eqb key (str "__proto__")) eqn:E; [|reflexivity].
  apply jsstring_eqb_eq in E. subst key. discriminate.
Qed.

Lemma insertIndex_first (obj : Object) (i : N) (key : jsstring) (v : Value) :
  forallb (fun kv => match arrayIndex (fst kv) with None => true | _ => false end)
    obj = true ->
  insertIndex obj i key v = (key, v) :: obj.
Proof.
  destruct obj as [|[k w] obj]; [reflexivity|]. cbn [forallb fst insertIndex].
  destruct (arrayIndex k); [discriminate|reflexivity].
Qed.

Lemma filter_no_index (obj : Object) :
  forallb (fun k => match arrayIndex k with None => true | _ => false end)
    (map fst obj) = true ->
  forallb (fun kv => match arrayIndex (fst kv) with None => true | _ => false end)
    (filter notProto obj) = true.
Proof.
  induction obj as [|[k w] obj IH]; [reflexivity|].
  cbn [map fst forallb]. intros H. apply andb_true_iff in H.
  destruct H as [H1 H2]. rewrite filter_notProto_cons.
  destruct (jsstring_eqb k (str "__proto__")); [auto|].
  cbn [forallb fst]. now rewrite H1, IH.
Qed.

Lemma keysOrdered_after_name (k : jsstring) (keys : list jsstring) :
  arrayIndex k = None -> forallb (keyBefore k) keys = true ->
  forallb (fun k' => match arrayIndex k' with None => true | _ => false end)
    keys = true.
Proof.
  intros Hk. induction keys as [|k' keys IH]; [reflexivity|].
  cbn [forallb]. intros H. apply andb_true_iff in H. destruct H as [H1 H2].
  rewrite (IH H2), andb_true_r. unfold keyBefore in H1. rewrite Hk in H1.
  apply andb_true_iff in H1. destruct H1 as [_ H1].
  now destruct (arrayIndex k').
Qed.

Lemma insertIndex_filter (obj : Object) (i : N) (key : jsstring) (v : Value) :
  arrayIndex key = Some i -> keysOrdered (map fst obj) = true ->
  filter notProto (insertIndex obj i key v)
  = insertIndex (filter notProto obj) i key v.
Proof.
  intros Hi. pose proof (arrayIndex_not_proto key i Hi) as Hp.
  induction obj as [|[k w] obj IH]; intros Ho.
  - cbn [insertIndex]. rewrite filter_notProto_cons. now rewrite Hp.
  - cbn [map fst keysOrdered] in Ho. apply andb_true_iff in Ho.
    destruct Ho as [Ho Ho']. cbn [insertIndex].
    destruct (arrayIndex k) as [j|] eqn:Ej.
    + pose proof (arrayIndex_not_proto k j Ej) as Hk.
      destruct (j <? i)%N eqn:Elt.
      * rewrite !filter_notProto_cons, Hk. cbn [insertIndex].
        now rewrite Ej, Elt, IH.
      * rewrite !filter_notProto_cons, Hk, Hp. cbn [insertIndex].
        now rewrite Ej, Elt.
    + rewrite (filter_notProto_cons key), Hp.
      rewrite insertIndex_first; [reflexivity|].
      apply filter_no_index. cbn [map fst forallb].
      rewrite Ej. now apply keysOrdered_after_name with k.
Qed.

Lemma defineProperty_keysOrdered (obj : Object) (key : jsstring) (v : Value) :
  keysOrdered (map fst obj) = true ->
  keysOrdered (map fst (defineProperty obj key v)) = true.
Proof.
  intros H. unfold defineProperty. destruct (hasKey obj key) eqn:Hk.
  - now rewrite replaceValue_keys.
  - destruct (arrayIndex key) as [i|] eqn:Hi.
    + now apply insertIndex_ordered.
    + rewrite map_app. cbn [map fst].
      apply keysOrdered_snoc; [assumption|now apply hasKey_keyBefore].
Qed.

Lemma setProperty_keysOrdered (obj : JsObject) (key : jsstring) (v : JsValue) :
  keysOrdered (map fst (properties obj)) = true ->
  keysOrdered (map fst (properties (setProperty obj key v))) = true.
Proof.
  intros H. unfold setProperty.
  destruct (jsstring_eqb key (str "__proto__") && inherits obj).
  - now destruct (tree v).
  - cbn [properties]. now apply defineProperty_keysOrdered.
Qed.

Lemma hasKey_replaceValue (obj : Object) (key k0 : jsstring) (v : Value) :
  hasKey (replaceValue obj key v) k0 = hasKey obj k0.
Proof.
  induction obj as [|[k w] obj IH]; [reflexivity|]. cbn [replaceValue].
  destruct (jsstring_eqb k key); cbn [hasKey]; [reflexivity|now rewrite IH].
Qed.

Lemma hasKey_insertIndex (obj : Object) (i : N) (key k0 : jsstring) (v : Value) :
  hasKey (insertIndex obj i key v) k0 = jsstring_eqb key k0 || hasKey obj k0.
Proof.
  induction obj as [|[k w] obj IH]; cbn [insertIndex hasKey]; [reflexivity|].
  destruct (arrayIndex k) as [j|]; [destruct (j <? i)%N|]; cbn [hasKey];
    rewrite ?IH; try reflexivity.
  destruct (jsstring_eqb k k0), (jsstring_eqb key k0); reflexivity.
Qed.

Lemma hasKey_app (a b : Object) (k0 : jsstring) :
  hasKey (a ++ b) k0 = hasKey a k0 || hasKey b k0.
Proof.
  induction a as [|[k w] a IH]; [reflexivity|]. cbn [app hasKey].
  now rewrite IH, orb_assoc.
Qed.

Lemma hasKey_defineProperty (obj : Object) (key k0 : jsstring) (v : Value) :
  hasKey (defineProperty obj key v) k0 = jsstring_eqb key k0 || hasKey obj k0.
Proof.
  unfold defineProperty. destruct (hasKey obj key) eqn:Hk.
  - rewrite hasKey_replaceValue.
    destruct (jsstring_eqb key k0) eqn:E; [|reflexivity].
    apply jsstring_eqb_eq in E. subst k0. now rewrite Hk.
  - destruct (arrayIndex key) as [i|].
    + apply hasKey_insertIndex.
    + rewrite hasKey_app. cbn [hasKey]. rewrite orb_false_r. apply orb_comm.
Qed.

Lemma defineProperty_proto_filter (obj : Object) (v : Value) :
  filter notProto (defineProperty obj (str "__proto__") v) = filter notProto obj.
Proof.
  unfold defineProperty. destruct (hasKey obj (str "__proto__")).
  - apply replaceValue_proto_filter.
  - change (arrayIndex (str "__proto__")) with (@None N). cbv iota.
    rewrite filter_app. cbn [filter]. apply app_nil_r.
Qed.

Lemma defineProperty_filter (obj : Object) (key : jsstring) (v : Value) :
  jsstring_eqb key (str "__proto__") = false ->
  keysOrdered (map fst obj) = true ->
  filter notProto (defineProperty obj key v)
  = defineProperty (filter notProto obj) key v.
Proof.
  intros Hp Ho. unfold defineProperty. rewrite hasKey_filter by assumption.
  destruct (hasKey obj key).
  - now apply replaceValue_filter.
  - destruct (arrayIndex key) as [i|] eqn:Hi.
    + now apply insertIndex_filter.
    + rewrite filter_app, (filter_notProto_cons key v []). now rewrite Hp.
Qed.

Section Alike.

Lemma hasKey_sameEntries (a b : Object) (key : jsstring) :
  Forall2 sameEntry a b -> hasKey a key = hasKey b key.
Proof.
  induction 1 as [|[k w] [k' w'] a b [E _] _ IH]; [reflexivity|].
  cbn [fst] in E. subst k'. cbn [hasKey]. now rewrite IH.
Qed.

Lemma replaceValue_sameEntries (a b : Object) (key : jsstring) (v v' : Value) :
  Forall2 sameEntry a b -> alike v v' ->
  Forall2 sameEntry (replaceValue a key v) (replaceValue b key v').
Proof.
  intros H Hv. induction H as [|[k w] [k' w'] a b [E Hw] H IH]; [constructor|].
  cbn [fst snd] in E, Hw. subst k'. cbn [replaceValue].
  destruct (jsstring_eqb k key).
  - constructor; [now split|assumption].
  - constructor; [now split|assumption].
Qed.

Lemma insertIndex_sameEntries (a b : Object) (i : N) (key : jsstring)
  (v v' : Value) :
  Forall2 sameEntry a b -> alike v v' ->
  Forall2 sameEntry (insertIndex a i key v) (insertIndex b i key v').
Proof.
  intros H Hv. induction H as [|[k w] [k' w'] a b [E Hw] H IH].
  - cbn [insertIndex]. constructor; [now split|constructor].
  - cbn [fst snd] in E, Hw. subst k'. cbn [insertIndex].
    destruct (arrayIndex k) as [j|]; [destruct (j <? i)%N|].
    + constructor; [now split|assumption].
    + constructor; [now split|]. constructor; [now split|assumption].
    + constructor; [now split|]. constructor; [now split|assumption].
Qed.

Lemma defineProperty_sameEntries (a b : Object) (key : jsstring) (v v' : Value) :
  Forall2 sameEntry a b -> alike v v' ->
  Forall2 sameEntry (defineProperty a key v) (defineProperty b key v').
Proof.
  intros H Hv. unfold defineProperty.
  rewrite (hasKey_sameEntries a b key H). destruct (hasKey b key).
  - now apply replaceValue_sameEntries.
  - destruct (arrayIndex key) as [i|].
    + now apply insertIndex_sameEntries.
    + apply Forall2_app; [assumption|]. constructor; [now split|constructor].
Qed.

(** An assignment by each parser keeps the two objects alike. *)
Lemma setProperty_alike (so : Object) (ro : JsObject) (key : jsstring)
  (v : Value) (jv : JsValue) :
  keysOrdered (map fst so) = true ->
  keysOrdered (map fst (properties ro)) = true ->
  alikeEntries so (properties ro) -> alike v (tree jv) ->
  alikeEntries (defineProperty so key v) (properties (setProperty ro key jv)).
Proof.
  intros Ho Hr [Hs Hp] Hv. unfold setProperty.
  destruct (jsstring_eqb key (str "__proto__")) eqn:Ek.
  - apply jsstring_eqb_eq in Ek. subst key.
    assert (alikeEntries (defineProperty so (str "__proto__") v) (properties ro))
      as Hsame.
    { split.
      - now rewrite defineProperty_proto_filter.
      - intros _. rewrite hasKey_defineProperty. now rewrite jsstring_eqb_refl. }
    destruct (inherits ro); cbn [andb].
    + now destruct (tree jv).
    + cbn [properties]. split.
      * now rewrite !defineProperty_proto_filter.
      * intros _. rewrite hasKey_defineProperty. now rewrite jsstring_eqb_refl.
  - cbn [andb properties]. split.
    + rewrite !defineProperty_filter by assumption.
      now apply defineProperty_sameEntries.
    + rewrite !hasKey_defineProperty, Ek. exact Hp.
Qed.

Lemma noProtoKey_VObj (obj : Object) :
  noProtoKey (VObj obj)
  = forallb (fun k => negb (jsstring_eqb k (str "__proto__"))) (map fst obj)
    && forallb (fun kv => noProtoKey (snd kv)) obj.
Proof. reflexivity. Qed.

Lemma noProtoKey_hasKey (obj : Object) :
  forallb (fun k => negb (jsstring_eqb k (str "__proto__"))) (map fst obj) = true ->
  hasKey obj (str "__proto__") = false.
Proof.
  induction obj as [|[k w] obj IH]; [reflexivity|].
  cbn [map fst forallb hasKey]. intros H. apply andb_true_iff in H.
  destruct H as [H1 H2]. apply negb_true_iff in H1. now rewrite H1, IH.
Qed.

(** Where the tree of the strict parser has no entry [__proto__], the
    two trees are the same. *)
Lemma alike_noProto (v : Value) :
  forall v', alike v v' -> noProtoKey v = true -> v' = v.
Proof.
  induction v as [|b|x|s|items IH|entries IH] using Value_ind;
    intros v' H Hn; inversion H as [| | | |xs ys H2|so ro H2 H3]; subst;
    try reflexivity.
  - f_equal.
    change (noProtoKey (VArr items)) with (forallb noProtoKey items) in Hn.
    clear H. induction H2 as [|x y xs ys Hxy _ IH2]; [reflexivity|].
    cbn [forallb] in Hn. apply andb_true_iff in Hn. destruct Hn as [Hx Hxs].
    inversion IH as [|? ? IHx IHxs]; subst.
    rewrite (IHx y Hxy Hx). f_equal. now apply IH2.
  - f_equal. rewrite noProtoKey_VObj in Hn. apply andb_true_iff in Hn.
    destruct Hn as [Hk Hv].
    pose proof (noProtoKey_hasKey entries Hk) as Hso.
    assert (hasKey ro (str "__proto__") = false) as Hro.
    { destruct (hasKey ro (str "__proto__")); [|reflexivity].
      rewrite H3 in Hso by reflexivity. discriminate. }
    rewrite (hasKey_proto_filter entries Hso) in H2.
    rewrite (hasKey_proto_filter ro Hro) in H2.
    clear H H3 Hk Hso Hro.
    induction H2 as [|[k w] [k' w'] xs ys [E Hw] _ IH2]; [reflexivity|].
    cbn [fst snd] in E, Hw. subst k'.
    cbn [forallb snd] in Hv. apply andb_true_iff in Hv. destruct Hv as [Hx Hxs].
    inversion IH as [|? ? IHx IHxs]; subst. cbn [snd] in IHx.
    rewrite (IHx w' Hw Hx). f_equal. now apply IH2.
Qed.

Lemma withoutProtoEntries_cons (k : jsstring) (w : Value) (obj : Object) :
  withoutProtoEntries ((k, w) :: obj)
  = if jsstring_eqb k (str "__proto__") then withoutProtoEntries obj
    else (k, withoutProto w) :: withoutProtoEntries obj.
Proof.
  unfold withoutProtoEntries, isProto. cbn [map filter fst snd].
  now destruct (jsstring_eqb k (str "__proto__")).
Qed.

Lemma withoutProtoEntries_filter (obj : Object) :
  withoutProtoEntries obj
  = map (fun kv => (fst kv, withoutProto (snd kv))) (filter notProto obj).
Proof.
  induction obj as [|[k w] obj IH]; [reflexivity|].
  rewrite withoutProtoEntries_cons, filter_notProto_cons.
  destruct (jsstring_eqb k (str "__proto__")); [exact IH|].
  cbn [map fst snd]. now rewrite IH.
Qed.

(** The two trees are the same once their entries [__proto__] are
    dropped. *)
Lemma alike_withoutProto (v : Value) :
  forall v', alike v v' -> withoutProto v' = withoutProto v.
Proof.
  induction v as [|b|x|s|items IH|entries IH] using Value_ind;
    intros v' H; inversion H as [| | | |xs ys H2|so ro H2 H3]; subst;
    try reflexivity.
  - cbn [withoutProto]. f_equal.
    clear H. induction H2 as [|x y xs ys Hxy _ IH2]; [reflexivity|].
    inversion IH as [|? ? IHx IHxs]; subst. cbn [map].
    rewrite (IHx y Hxy). f_equal. now apply IH2.
  - change (withoutProto (VObj entries)) with (VObj (withoutProtoEntries entries)).
    change (withoutProto (VObj ro)) with (VObj (withoutProtoEntries ro)).
    f_equal. rewrite !withoutProtoEntries_filter.
    assert (Forall (fun kv => forall v', alike (snd kv) v' ->
                                         withoutProto v' = withoutProto (snd kv))
              (filter notProto entries)) as IH'.
    { rewrite Forall_forall in *. intros kv Hin. apply IH.
      apply filter_In in Hin. tauto. }
    clear H IH. induction H2 as [|[k w] [k' w'] xs ys [E Hw] _ IH2];
      [reflexivity|].
    cbn [fst snd] in E, Hw. subst k'.
    inversion IH' as [|? ? IHx IHxs]; subst. cbn [snd] in IHx. cbn [map fst snd].
    rewrite (IHx w' Hw). f_equal. now apply IH2.
Qed.

End Alike.

(** ** Colons and backslashes of a text *)

Lemma passes_refl (s : jsstring) : passes 0 s s.
Proof. now repeat split. Qed.

Lemma passes_trans (n m : nat) (s r t : jsstring) :
  passes n s r -> passes m r t -> passes (n + m) s t.
Proof.
  intros (H1 & H2 & H3) (H4 & H5 & H6). repeat split; [lia|congruence|congruence].
Qed.

Lemma passes_char (c : char) (s : jsstring) :
  isDull c = true -> passes 0 (c :: s) s.
Proof.
  unfold isDull. intros H. apply andb_true_iff in H. destruct H as [H H3].
  apply andb_true_iff in H. destruct H as [H1 H2].
  apply negb_true_iff in H1, H2, H3.
  repeat split; cbn [colons unicodeEscaped plainEscapes];
    now rewrite ?H1, ?H2, ?H3.
Qed.

Lemma passes_dull (p r : jsstring) :
  forallb isDull p = true -> passes 0 (p ++ r) r.
Proof.
  induction p as [|c p IH]; [intros _; apply passes_refl|].
  cbn [forallb app]. intros H. apply andb_true_iff in H. destruct H as [Hc Hp].
  apply (passes_trans 0 0 _ (p ++ r)); [now apply passes_char|auto].
Qed.

Lemma passes_colon (s : jsstring) : passes 1 (ch ":" :: s) s.
Proof. now repeat split. Qed.

Lemma passes_skipWhiteSpace (s : jsstring) : passes 0 s (JSON.skipWhiteSpace s).
Proof.
  induction s as [|c s IH]; [apply passes_refl|]. cbn [JSON.skipWhiteSpace].
  destruct (JSON.isWhiteSpace c) eqn:E; [|apply passes_refl].
  apply (passes_trans 0 0 _ s); [|exact IH]. apply passes_char.
  unfold JSON.isWhiteSpace in E. unfold isDull. char_solve.
Qed.

(** A string literal: the colons inside it do not count, and a
    backslash-u of the text is one of the literal or comes after it. *)
Lemma string_text (n : nat) :
  forall s acc rj,
    length s <= n ->
    JSON.stringChars acc s = Ok rj ->
    colons true s = colons false (remaining rj)
    /\ unicodeEscaped s = hasUnicodeEscape s || unicodeEscaped (remaining rj).
Proof.
  induction n as [|n IH]; intros s acc rj Hn Hj.
  { destruct s; [discriminate|cbn in Hn; lia]. }
  destruct s as [|c s']; [discriminate|].
  cbn [JSON.stringChars] in Hj.
  cbn [colons unicodeEscaped hasUnicodeEscape]. cbn [length] in Hn.
  destruct (N.eqb c DQ) eqn:Ec.
  { apply Ok_inj in Hj. subst rj. cbn [remaining].
    destruct (N.eqb c BACKSLASH) eqn:Eb.
    { apply N.eqb_eq in Ec, Eb. subst c. discriminate. }
    now split. }
  destruct (N.eqb c BACKSLASH) eqn:Eb.
  - destruct s' as [|e s'']; [discriminate|]. cbn [length] in Hn.
    assert (forall x,
               JSON.stringChars (acc ++ [x]) s'' = Ok rj ->
               N.eqb e (ch "u") = false ->
               colons true s'' = colons false (remaining rj)
               /\ N.eqb e (ch "u") || unicodeEscaped s''
                  = (if N.eqb e (ch "u") then true else hasUnicodeEscape s'')
                    || unicodeEscaped (remaining rj)) as Hone.
    { intros x Hx Hu. rewrite Hu. cbn [orb].
      apply (IH s'' (acc ++ [x]) rj); [lia|exact Hx]. }
    destruct (N.eqb e DQ) eqn:E1.
    { apply (Hone DQ Hj). char_solve. }
    destruct (N.eqb e BACKSLASH) eqn:E2.
    { apply (Hone BACKSLASH Hj). char_solve. }
    destruct (N.eqb e (ch "/")) eqn:E3.
    { apply (Hone (ch "/") Hj). char_solve. }
    destruct (N.eqb e (ch "b")) eqn:E4.
    { apply (Hone BS Hj). char_solve. }
    destruct (N.eqb e (ch "f")) eqn:E5.
    { apply (Hone FF Hj). char_solve. }
    destruct (N.eqb e (ch "n")) eqn:E6.
    { apply (Hone LF Hj). char_solve. }
    destruct (N.eqb e (ch "r")) eqn:E7.
    { apply (Hone CR Hj). char_solve. }
    destruct (N.eqb e (ch "t")) eqn:E8.
    { apply (Hone TAB Hj). char_solve. }
    destruct (N.eqb e (ch "u")) eqn:E9; [|discriminate].
    destruct s'' as [|h1 [|h2 [|h3 [|h4 s3]]]]; try discriminate.
    destruct (JSON.hex4 h1 h2 h3 h4) as [u|] eqn:Eh; [|discriminate].
    destruct (hex4_plain h1 h2 h3 h4 u Eh)
      as ((A1 & A2) & (B1 & B2) & (C1 & C2) & (D1 & D2)).
    cbn [colons orb]. rewrite A1, A2, B1, B2, C1, C2, D1, D2.
    split; [|reflexivity].
    apply (IH s3 (acc ++ [u]) rj); [cbn [length] in Hn; lia|exact Hj].
  - destruct (c <? 32)%N; [discriminate|].
    apply (IH s' (acc ++ [c]) rj); [lia|exact Hj].
Qed.

(** ** Strings and keys, side by side *)

Lemma strings_side_by_side (s1 : jsstring) (key : ParseResult jsstring) :
  JSON.stringChars [] s1 = Ok key ->
  exists k',
    parseString_loop DQ [] false s1 = Ok (mkParseResult k' (remaining key))
    /\ length (value key) <= length k'
    /\ (hasUnicodeEscape s1 = true -> length (value key) < length k')
    /\ (plainEscapes s1 = true ->
        k' = value key /\ plainEscapes (remaining key) = true).
Proof.
  intros Hk.
  destruct (string_scanners (length s1) s1 [] [] key (le_n _) Hk)
    as ([k' r'] & H1 & H2 & H3 & H4).
  cbn [value remaining length] in *. subst r'. rewrite !Nat.add_0_r in *.
  exists k'. split; [exact H1|]. split; [exact H3|]. split; [exact H4|].
  intros Hp.
  destruct (string_scanners_agree (length s1) s1 [] key (le_n _) Hp Hk)
    as [Hr Hp'].
  rewrite H1 in Hr. apply Ok_inj in Hr. rewrite <- Hr. now split.
Qed.

Lemma trim_JSON_skipWhiteSpace (s : jsstring) :
  trim (JSON.skipWhiteSpace s) = trim s.
Proof.
  induction s as [|c s IH]; [reflexivity|]. cbn [JSON.skipWhiteSpace].
  destruct (JSON.isWhiteSpace c) eqn:E; [|reflexivity].
  change (c :: s) with ([c] ++ s). rewrite (trim_ws [c] s); [exact IH|].
  cbn [forallb]. now rewrite JSON_isWhiteSpace_ws.
Qed.

(** A quoted key of the relaxed parser, where [JSON.parse] has read the
    key and the colon. *)
Lemma keys_side_by_side (s1 s2 : jsstring) (key : ParseResult jsstring) :
  JSON.stringChars [] s1 = Ok key ->
  JSON.skipWhiteSpace (remaining key) = ch ":" :: s2 ->
  exists k',
    parseObject_key (DQ :: trimEnd s1) = Ok (k', trim s2)
    /\ length (value key) <= length k'
    /\ (hasUnicodeEscape s1 = true -> length (value key) < length k')
    /\ (plainEscapes s1 = true -> k' = value key).
Proof.
  intros Hk Hs.
  destruct (strings_side_by_side s1 key Hk) as (k' & Hr & H1 & H2 & H3).
  exists k'. split; [|split; [exact H1|split; [exact H2|]]].
  - apply (parseString_loop_trimEnd DQ s1 [] false _ eq_refl) in Hr.
    cbn [value remaining] in Hr.
    unfold parseObject_key. rewrite startsWith_char, N.eqb_refl. cbn [orb].
    cbn [parseString]. rewrite N.eqb_refl. cbn [orb]. rewrite Hr.
    cbn [bind value remaining]. rewrite trim_trimEnd.
    rewrite (trim_skipWhiteSpace _ _ _ Hs eq_refl).
    change (startsWith (ch ":" :: trimEnd s2) (str ":")) with true.
    cbn [negb andb].
    change (substring 1 (ch ":" :: trimEnd s2)) with (trimEnd s2).
    now rewrite trim_trimEnd.
  - intros Hp. now destruct (H3 Hp).
Qed.

(** The text of a member up to its value. *)
Lemma member_text (s s1 s2 : jsstring) (key : ParseResult jsstring) :
  JSON.skipWhiteSpace s = DQ :: s1 ->
  JSON.stringChars [] s1 = Ok key ->
  JSON.skipWhiteSpace (remaining key) = ch ":" :: s2 ->
  colons false s = S (colons false s2)
  /\ unicodeEscaped s = hasUnicodeEscape s1 || unicodeEscaped s2
  /\ (plainEscapes s = true -> plainEscapes s1 = true /\ plainEscapes s2 = true).
Proof.
  intros Es Hk Ed.
  destruct (passes_skipWhiteSpace s) as (A1 & A2 & A3). rewrite Es in A1, A2, A3.
  destruct (string_text (length s1) s1 [] key (le_n _) Hk) as [B1 B2].
  destruct (passes_skipWhiteSpace (remaining key)) as (C1 & C2 & C3).
  rewrite Ed in C1, C2, C3.
  destruct (passes_colon s2) as (D1 & D2 & D3).
  change (colons false (DQ :: s1)) with (colons true s1) in A1.
  change (unicodeEscaped (DQ :: s1)) with (unicodeEscaped s1) in A2.
  change (plainEscapes (DQ :: s1)) with (plainEscapes s1) in A3.
  split; [lia|]. split; [congruence|].
  intros Hp. rewrite A3 in Hp. split; [exact Hp|].
  destruct (strings_side_by_side s1 key Hk) as (k' & _ & _ & _ & H3).
  destruct (H3 Hp) as [_ Hp']. congruence.
Qed.

(** ** One step of each loop, and the whole value *)

Lemma sideBySide_leaf (s r : jsstring) (v : Value) :
  passes 0 s r -> entryCount v = 0 -> alike v v -> sideBySide s r v v.
Proof.
  intros (H1 & H2 & H3) He Ha. split.
  - intros Hp. split; [congruence|exact Ha].
  - exists 0. repeat split; try lia. intros Hu. left. congruence.
Qed.

Lemma sideBySide_string (s s1 : jsstring) (key : ParseResult jsstring)
  (k' : jsstring) :
  JSON.skipWhiteSpace s = DQ :: s1 ->
  JSON.stringChars [] s1 = Ok key ->
  length (value key) <= length k' ->
  (hasUnicodeEscape s1 = true -> length (value key) < length k') ->
  (plainEscapes s1 = true -> k' = value key /\ plainEscapes (remaining key) = true) ->
  sideBySide s (remaining key) (VStr (value key)) (VStr k').
Proof.
  intros Es Hk H1 H2 H3.
  destruct (passes_skipWhiteSpace s) as (A1 & A2 & A3). rewrite Es in A1, A2, A3.
  destruct (string_text (length s1) s1 [] key (le_n _) Hk) as [B1 B2].
  change (colons false (DQ :: s1)) with (colons true s1) in A1.
  change (unicodeEscaped (DQ :: s1)) with (unicodeEscaped s1) in A2.
  change (plainEscapes (DQ :: s1)) with (plainEscapes s1) in A3.
  split.
  - intros Hp. rewrite A3 in Hp. destruct (H3 Hp) as [-> Hp'].
    split; [exact Hp'|constructor].
  - exists 0. cbn [entryCount characters]. repeat split; try lia.
    intros Hu. rewrite A2, B2 in Hu. apply orb_true_iff in Hu.
    destruct Hu as [Hu|Hu]; [right; auto|now left].
Qed.

Lemma sideBySideFrom_done (P : Prop) (acc acc' : Value) (s : jsstring) :
  (P -> alike acc acc') -> sideBySideFrom P acc acc' s s acc acc'.
Proof.
  intros Ha. split; [now auto|].
  exists 0. repeat split; try lia. now left.
Qed.

Lemma sideBySideFrom_passes (P : Prop) (acc acc' : Value) (s u r : jsstring)
  (v v' : Value) :
  passes 0 s u -> sideBySideFrom P acc acc' u r v v' ->
  sideBySideFrom P acc acc' s r v v'.
Proof.
  intros (A1 & A2 & A3) [Hplain (n & B1 & B2 & B3 & B4)]. split.
  - intros HP Hp. apply Hplain; congruence.
  - exists n. split; [lia|]. split; [exact B2|]. split; [exact B3|].
    intros E1 E2. destruct (B4 E1 E2) as [B5 B6]. split; [exact B5|].
    intros Hu. apply B6. congruence.
Qed.

Lemma sideBySide_whole (acc acc' : Value) (s u r : jsstring) (v v' : Value) :
  entryCount acc = 0 -> characters acc = 0 ->
  entryCount acc' = 0 -> characters acc' = 0 ->
  passes 0 s u -> sideBySideFrom True acc acc' u r v v' ->
  sideBySide s r v v'.
Proof.
  intros E1 E2 E3 E4 Hs H.
  destruct (sideBySideFrom_passes _ _ _ _ _ _ _ _ Hs H)
    as [Hplain (n & B1 & B2 & B3 & B4)].
  split; [now auto|]. exists n. rewrite E1, E3, E2, E4 in *. cbn [plus] in *.
  split; [assumption|]. split; [assumption|]. split; [assumption|].
  intros F1 F2. destruct (B4 F1 F2) as [B5 B6]. split; [lia|].
  intros Hu. destruct (B6 Hu); [now left|right; lia].
Qed.

Lemma member_step (P : Prop) (so : Object) (ro : JsObject)
  (s s2 r2 s3 r k k' : jsstring) (bk : bool) (vj : Value) (jv : JsValue)
  (v v' : Value) :
  colons false s = S (colons false s2) ->
  unicodeEscaped s = bk || unicodeEscaped s2 ->
  (plainEscapes s = true -> plainEscapes s2 = true) ->
  length k <= length k' -> (bk = true -> length k < length k') ->
  sideBySide s2 r2 vj (tree jv) ->
  passes 0 r2 s3 ->
  sideBySideFrom (P /\ plainEscapes s = true)
    (VObj (defineProperty so k vj)) (VObj (properties (setProperty ro k' jv)))
    s3 r v v' ->
  sideBySideFrom P (VObj so) (VObj (properties ro)) s r v v'.
Proof.
  intros C1 U1 P1 L1 L2 [Vplain (nv & V1 & V2 & V3 & V4)] (T1 & T2 & T3)
    [Rplain (nr & R1 & R2 & R3 & R4)].
  destruct (defineProperty_count so k vj) as [D1 D2].
  destruct (setProperty_count ro k' jv) as [S1 S2].
  split.
  - intros HP Hp. apply Rplain; [now split|].
    destruct (Vplain (P1 Hp)) as [Hp' _]. congruence.
  - exists (S (nv + nr)). split; [lia|]. split; [lia|]. split; [lia|].
    intros E1 E2.
    assert (entryCount vj = nv) as Ev by lia.
    assert (entryCount (tree jv) = nv) as Ev' by lia.
    destruct (V4 Ev Ev') as [V5 V6].
    assert (characters (VObj (defineProperty so k vj))
            = characters (VObj so) + length k + characters vj) as D3
      by (apply D2; lia).
    assert (characters (VObj (properties (setProperty ro k' jv)))
            = characters (VObj (properties ro)) + length k'
              + characters (tree jv)) as S3
      by (apply S2; lia).
    destruct R4 as [R5 R6]; [lia|lia|]. split; [lia|].
    intros Hu. rewrite U1 in Hu. apply orb_true_iff in Hu.
    destruct Hu as [Hu|Hu]; [specialize (L2 Hu); right; lia|].
    destruct (V6 Hu) as [Hu'|Hlt]; [|right; lia].
    rewrite T2 in Hu'. destruct (R6 Hu') as [Hr|Hlt]; [now left|right; lia].
Qed.

Lemma item_step (P : Prop) (arr arr' : list Value) (s r2 s3 r : jsstring)
  (vj : Value) (jv : JsValue) (v v' : Value) :
  sideBySide s r2 vj (tree jv) ->
  passes 0 r2 s3 ->
  sideBySideFrom (P /\ plainEscapes s = true)
    (VArr (arr ++ [vj])) (VArr (arr' ++ [tree jv])) s3 r v v' ->
  sideBySideFrom P (VArr arr) (VArr arr') s r v v'.
Proof.
  intros [Vplain (nv & V1 & V2 & V3 & V4)] (T1 & T2 & T3)
    [Rplain (nr & R1 & R2 & R3 & R4)].
  rewrite !entryCount_items, !characters_items in *.
  split.
  - intros HP Hp. apply Rplain; [now split|].
    destruct (Vplain Hp) as [Hp' _]. congruence.
  - exists (nv + nr). split; [lia|]. split; [lia|]. split; [lia|].
    intros E1 E2.
    assert (entryCount vj = nv) as Ev by lia.
    assert (entryCount (tree jv) = nv) as Ev' by lia.
    destruct (V4 Ev Ev') as [V5 V6].
    destruct R4 as [R5 R6]; [lia|lia|]. split; [lia|].
    intros Hu. destruct (V6 Hu) as [Hu'|Hlt]; [|right; lia].
    rewrite T2 in Hu'. destruct (R6 Hu') as [Hr|Hlt]; [now left|right; lia].
Qed.

(** ** The two parsers side by side *)

Lemma startsWith_split (p s : jsstring) :
  startsWith s p = true -> s = p ++ skipn (length p) s.
Proof.
  revert s. induction p as [|c p IH]; intros s; [reflexivity|].
  destruct s as [|d s]; cbn [startsWith]; [discriminate|].
  intros H. apply andb_true_iff in H. destruct H as [Hc H].
  apply N.eqb_eq in Hc. subst d. cbn [length skipn app]. f_equal. auto.
Qed.

Lemma numberBoundary_trimEnd (r : jsstring) :
  numberBoundary r = true -> numberBoundary (trimEnd r) = true.
Proof.
  intros H. destruct (white_space_or_not r) as [Hw|(w & c & y & -> & Hw & Hc)].
  - now rewrite trimEnd_all_ws.
  - rewrite trimEnd_app_tight by assumption.
    destruct w as [|d w]; exact H.
Qed.

Lemma JSON_value_body_head
  (rec : jsstring -> Result (ParseResult Value)) (s : jsstring)
  (r : ParseResult Value) :
  JSON.value_body rec s = Ok r ->
  exists c s1, JSON.skipWhiteSpace s = c :: s1 /\ valueHead c = true.
Proof.
  unfold JSON.value_body.
  destruct (JSON.skipWhiteSpace s) as [|c s1]; [discriminate|].
  intros H. exists c, s1. split; [reflexivity|]. unfold valueHead.
  destruct (N.eqb c (ch "{")) eqn:E1; [now rewrite !orb_true_r|].
  destruct (N.eqb c (ch "[")) eqn:E2; [now rewrite !orb_true_r|].
  destruct (N.eqb c DQ) eqn:E3; [now rewrite !orb_true_r|].
  change (str "true") with (ch "t" :: str "rue") in H.
  change (str "false") with (ch "f" :: str "alse") in H.
  change (str "null") with (ch "n" :: str "ull") in H.
  cbn [startsWith] in H.
  destruct (N.eqb c (ch "t")) eqn:E4; [now rewrite !orb_true_r|].
  destruct (N.eqb c (ch "f")) eqn:E5; [now rewrite !orb_true_r|].
  destruct (N.eqb c (ch "n")) eqn:E6; [now rewrite !orb_true_r|].
  cbn [andb] in H. unfold JSON.number in H.
  destruct (scanNumber (c :: s1)) as [[numStr x]|] eqn:En; [|discriminate].
  apply scanNumber_stable in En.
  destruct En as (E & _ & (c' & t & -> & Hc) & _).
  cbn [app] in E. injection E as -> _.
  destruct Hc as [Hc| ->]; [now rewrite Hc|reflexivity].
Qed.

Lemma JSON_members_head
  (rec : jsstring -> Result (ParseResult Value)) (fuel : nat) (obj : Object)
  (s : jsstring) (r : ParseResult Value) :
  JSON.members rec fuel obj s = Ok r ->
  exists s1, JSON.skipWhiteSpace s = DQ :: s1.
Proof.
  destruct fuel as [|fuel]; [discriminate|]. cbn [JSON.members].
  destruct (JSON.skipWhiteSpace s) as [|c s1]; [discriminate|].
  destruct (N.eqb_spec c DQ) as [->|]; [|discriminate]. now exists s1.
Qed.

Lemma JSON_skipWhiteSpace_tight (s : jsstring) (d : char) (s2 : jsstring) :
  JSON.skipWhiteSpace s = d :: s2 -> JSON.isWhiteSpace d = false.
Proof.
  induction s as [|x s IH]; [discriminate|]. cbn [JSON.skipWhiteSpace].
  destruct (JSON.isWhiteSpace x) eqn:Ex; [exact IH|].
  intros H. injection H as -> _. exact Ex.
Qed.

Lemma alike_empty_object : alike (VObj []) (VObj []).
Proof. constructor; [constructor|auto]. Qed.

Section StrictAsRelaxed.

Variable strict : jsstring -> Result (ParseResult Value).
Variable relaxed : jsstring -> Result (ParseResult JsValue).
Variable bound : nat.

Hypothesis strict_head :
  forall s r, strict s = Ok r ->
              exists c s1, JSON.skipWhiteSpace s = c :: s1 /\ valueHead c = true.

Hypothesis relaxed_consumes :
  forall s r, relaxed s = Ok r -> length (remaining r) < length s.

Hypothesis rec_agree :
  forall s rj a,
    strict s = Ok rj -> trim a = trim s -> length a < bound ->
    exists jv,
      relaxed a = Ok (mkParseResult jv (trimEnd (remaining rj)))
      /\ sideBySide s (remaining rj) (value rj) (tree jv).

Lemma members_agree (fuelj : nat) :
  forall so ro s rj a fuelr (P : Prop),
    JSON.members strict fuelj so s = Ok rj ->
    keysOrdered (map fst so) = true ->
    keysOrdered (map fst (properties ro)) = true ->
    (P -> alikeEntries so (properties ro)) ->
    trim a = trim s -> length (trim a) < fuelr -> length (trim a) <= bound ->
    exists jv,
      parseObject_loop relaxed fuelr ro a
      = Ok (mkParseResult jv (trimEnd (remaining rj)))
      /\ sideBySideFrom P (VObj so) (VObj (properties ro)) s (remaining rj)
           (value rj) (tree jv).
Proof.
  induction fuelj as [|fuelj IH];
    intros so ro s rj a fuelr P Hj Ho Hr HP Ha Hfuel Hbound; [discriminate|].
  destruct fuelr as [|fuelr]; [lia|].
  cbn [JSON.members] in Hj.
  destruct (JSON.skipWhiteSpace s) as [|c s1] eqn:Es; [discriminate|].
  destruct (N.eqb_spec c DQ) as [->|]; [|discriminate].
  pose proof (trim_skipWhiteSpace s DQ s1 Es eq_refl) as Ht.
  destruct (JSON.stringChars [] s1) as [key| |] eqn:Ek; cbn [bind] in Hj;
    try discriminate.
  destruct (JSON.skipWhiteSpace (remaining key)) as [|d s2] eqn:Ed;
    [discriminate|].
  destruct (N.eqb_spec d (ch ":")) as [->|]; [|discriminate].
  destruct (keys_side_by_side s1 s2 key Ek Ed) as (k' & Hkey & L1 & L2 & L3).
  destruct (member_text s s1 s2 key Es Ek Ed) as (C1 & U1 & P1).
  destruct (strict s2) as [vj| |] eqn:Ev; cbn [bind] in Hj; try discriminate.
  pose proof (parseObject_key_consumes _ _ _ Hkey) as Hlen.
  rewrite <- Ht, <- Ha in Hlen.
  destruct (rec_agree s2 vj (trim s2) Ev (trim_idempotent s2))
    as (jv & Hv & Hside); [lia|].
  pose proof (relaxed_consumes _ _ Hv) as Hlen'. cbn [remaining] in Hlen'.
  rewrite parseObject_loop_unfold, Ha, Ht, Hkey. cbn [bind]. rewrite Hv.
  cbn [bind value remaining].
  pose proof (defineProperty_keysOrdered so (value key) (value vj) Ho) as Ho'.
  pose proof (setProperty_keysOrdered ro k' jv Hr) as Hr'.
  assert (P /\ plainEscapes s = true ->
          alikeEntries (defineProperty so (value key) (value vj))
            (properties (setProperty ro k' jv))) as HP'.
  { intros [HP0 Hp]. destruct (P1 Hp) as [Hp1 Hp2].
    rewrite (L3 Hp1). apply setProperty_alike; auto.
    destruct Hside as [Hplain _]. now destruct (Hplain Hp2). }
  assert (plainEscapes s = true -> plainEscapes s2 = true) as P2.
  { intros Hp. now destruct (P1 Hp). }
  rewrite trim_trimEnd.
  pose proof (trim_length (trimEnd (remaining vj))) as Hlen''.
  rewrite trim_trimEnd in Hlen''.
  pose proof (passes_skipWhiteSpace (remaining vj)) as Hpass.
  destruct (JSON.skipWhiteSpace (remaining vj)) as [|e s3] eqn:Ee;
    [discriminate|].
  destruct (N.eqb_spec e (ch "}")) as [->|He1].
  { apply Ok_inj in Hj. subst rj. cbn [value remaining].
    rewrite (trim_skipWhiteSpace _ _ _ Ee eq_refl).
    exists (objectValue (setProperty ro k' jv)). split; [reflexivity|].
    apply (member_step P so ro s s2 (remaining vj) s3 s3 (value key) k'
             (hasUnicodeEscape s1) (value vj) jv _ _ C1 U1 P2 L1 L2 Hside).
    - apply (passes_trans 0 0 _ _ _ Hpass). now apply passes_char.
    - apply sideBySideFrom_done. intros H. destruct (HP' H). now constructor. }
  destruct (N.eqb_spec e (ch ",")) as [->|He2]; [|discriminate].
  rewrite (trim_skipWhiteSpace _ _ _ Ee eq_refl) in *.
  unfold parseObject_after.
  change (startsWith (ch "," :: trimEnd s3) (str "}")) with false.
  change (startsWith (ch "," :: trimEnd s3) (str ",")) with true.
  cbv iota.
  change (substring 1 (ch "," :: trimEnd s3)) with (trimEnd s3).
  rewrite trim_trimEnd.
  pose proof (trim_length (trimEnd s3)) as H3. rewrite trim_trimEnd in H3.
  cbn [length] in Hlen''.
  destruct (IH _ _ s3 rj (trim s3) fuelr (P /\ plainEscapes s = true)
              Hj Ho' Hr' HP' (trim_idempotent s3)) as (jvr & Hloop & Hfrom);
    [rewrite trim_idempotent; lia|rewrite trim_idempotent; lia|].
  exists jvr. split; [exact Hloop|].
  apply (member_step P so ro s s2 (remaining vj) s3 (remaining rj) (value key) k'
           (hasUnicodeEscape s1) (value vj) jv _ _ C1 U1 P2 L1 L2 Hside);
    [|exact Hfrom].
  apply (passes_trans 0 0 _ _ _ Hpass). now apply passes_char.
Qed.

Lemma elements_agree (fuelj : nat) :
  forall arr arr' s rj a fuelr (P : Prop),
    JSON.elements strict fuelj arr s = Ok rj ->
    (P -> Forall2 alike arr arr') ->
    trim a = trim s -> length (trim a) < fuelr -> length (trim a) < bound ->
    exists jv,
      parseArray_loop relaxed fuelr arr' a
      = Ok (mkParseResult jv (trimEnd (remaining rj)))
      /\ sideBySideFrom P (VArr arr) (VArr arr') s (remaining rj)
           (value rj) (tree jv).
Proof.
  induction fuelj as [|fuelj IH];
    intros arr arr' s rj a fuelr P Hj HP Ha Hfuel Hbound; [discriminate|].
  destruct fuelr as [|fuelr]; [lia|].
  cbn [JSON.elements] in Hj.
  destruct (strict s) as [vj| |] eqn:Ev; cbn [bind] in Hj; try discriminate.
  destruct (rec_agree s vj (trim a) Ev) as (jv & Hv & Hside);
    [now rewrite trim_idempotent|assumption|].
  pose proof (relaxed_consumes _ _ Hv) as Hlen'. cbn [remaining] in Hlen'.
  cbn [parseArray_loop]. rewrite Hv. cbn [bind value remaining].
  rewrite trim_trimEnd.
  assert (P /\ plainEscapes s = true ->
          Forall2 alike (arr ++ [value vj]) (arr' ++ [tree jv])) as HP'.
  { intros [HP0 Hp]. apply Forall2_app; [auto|].
    destruct Hside as [Hplain _]. destruct (Hplain Hp). now repeat constructor. }
  pose proof (trim_length (trimEnd (remaining vj))) as Hlen''.
  rewrite trim_trimEnd in Hlen''.
  pose proof (passes_skipWhiteSpace (remaining vj)) as Hpass.
  destruct (JSON.skipWhiteSpace (remaining vj)) as [|e s1] eqn:Ee;
    [discriminate|].
  destruct (N.eqb_spec e (ch "]")) as [->|He1].
  { apply Ok_inj in Hj. subst rj. cbn [value remaining].
    rewrite (trim_skipWhiteSpace _ _ _ Ee eq_refl).
    exists (plain (VArr (arr' ++ [tree jv]))). split; [reflexivity|].
    apply (item_step P arr arr' s (remaining vj) s1 s1 (value vj) jv _ _ Hside).
    - apply (passes_trans 0 0 _ _ _ Hpass). now apply passes_char.
    - apply sideBySideFrom_done. intros H. constructor. auto. }
  destruct (N.eqb_spec e (ch ",")) as [->|He2]; [|discriminate].
  rewrite (trim_skipWhiteSpace _ _ _ Ee eq_refl) in *.
  change (startsWith (ch "," :: trimEnd s1) (str "]")) with false.
  change (startsWith (ch "," :: trimEnd s1) (str ",")) with true.
  cbv iota.
  change (substring 1 (ch "," :: trimEnd s1)) with (trimEnd s1).
  rewrite trim_trimEnd.
  pose proof (trim_length (trimEnd s1)) as H3. rewrite trim_trimEnd in H3.
  cbn [length] in Hlen''.
  destruct (IH _ _ s1 rj (trim s1) fuelr (P /\ plainEscapes s = true)
              Hj HP' (trim_idempotent s1)) as (jvr & Hloop & Hfrom);
    [rewrite trim_idempotent; lia|rewrite trim_idempotent; lia|].
  exists jvr. split; [exact Hloop|].
  apply (item_step P arr arr' s (remaining vj) s1 (remaining rj) (value vj) jv
           _ _ Hside); [|exact Hfrom].
  apply (passes_trans 0 0 _ _ _ Hpass). now apply passes_char.
Qed.

Lemma value_body_agree (s : jsstring) (rj : ParseResult Value) (a : jsstring) :
  JSON.value_body strict s = Ok rj ->
  trim a = trim s -> length a <= bound ->
  exists jv,
    parseValue_body relaxed a = Ok (mkParseResult jv (trimEnd (remaining rj)))
    /\ sideBySide s (remaining rj) (value rj) (tree jv).
Proof.
  intros Hj Ha Hbound.
  destruct (JSON_value_body_head _ _ _ Hj) as (c & s1 & Es & Hc).
  destruct (valueHead_facts c Hc) as (Hw & _ & _ & _).
  pose proof (trim_skipWhiteSpace s c s1 Es Hw) as Ht.
  pose proof (passes_skipWhiteSpace s) as Hs0. rewrite Es in Hs0.
  pose proof (trim_length a) as Hla. rewrite Ha, Ht in Hla. cbn [length] in Hla.
  pose proof (trimEnd_app_tight [] c s1 Hw) as Hte. cbn [app] in Hte.
  unfold JSON.value_body in Hj. rewrite Es in Hj.
  unfold parseValue_body. rewrite Ha, Ht.
  change (str "{") with [ch "{"]. change (str "[") with [ch "["].
  rewrite !startsWith_char.
  destruct (N.eqb_spec c (ch "{")) as [->|Hc1].
  { (* an object *)
    unfold parseObject.
    change (startsWith (ch "{" :: trimEnd s1) (str "{")) with true. cbn [negb].
    change (substring 1 (ch "{" :: trimEnd s1)) with (trimEnd s1).
    rewrite trim_trimEnd.
    pose proof (passes_skipWhiteSpace s1) as Hs1.
    pose proof (trim_JSON_skipWhiteSpace s1) as Hu.
    pose proof (trim_length (trimEnd s1)) as Hl1. rewrite trim_trimEnd in Hl1.
    pose proof (trimEnd_length s1) as Hl2.
    assert (passes 0 s s1) as Hs01.
    { apply (passes_trans 0 0 _ _ _ Hs0). now apply passes_char. }
    destruct (JSON.skipWhiteSpace s1) as [|d s2] eqn:Ed; [discriminate|].
    pose proof (JSON_skipWhiteSpace_tight _ _ _ Ed) as Hdw.
    destruct (N.eqb_spec d (ch "}")) as [->|Hd].
    - apply Ok_inj in Hj. subst rj.
      rewrite (trim_skipWhiteSpace _ _ _ Ed eq_refl).
      exists (plain (VObj [])). split; [reflexivity|].
      cbn [value remaining tree plain].
      apply sideBySide_leaf; [|reflexivity|apply alike_empty_object].
      apply (passes_trans 0 0 _ _ _ Hs01).
      apply (passes_trans 0 0 _ _ _ Hs1). now apply passes_char.
    - destruct (JSON_members_head _ _ _ _ _ Hj) as (s3 & E3).
      rewrite JSON_skipWhiteSpace_head in E3 by assumption.
      injection E3 as -> ->.
      rewrite <- Hu. rewrite (trim_head DQ s3 eq_refl).
      change (startsWith (DQ :: trimEnd s3) (str "}")) with false. cbv iota.
      rewrite <- (trim_head DQ s3 eq_refl).
      destruct (members_agree _ [] emptyObject (DQ :: s3) rj (trim (DQ :: s3))
                  (S (length (trim (DQ :: s3)))) True Hj eq_refl eq_refl)
        as (jv & Hloop & Hfrom).
      + intros _. split; [constructor|auto].
      + apply trim_idempotent.
      + rewrite trim_idempotent. lia.
      + rewrite trim_idempotent, Hu. cbn [length] in *. lia.
      + exists jv. split; [exact Hloop|].
        apply (sideBySide_whole (VObj []) (VObj []) s (DQ :: s3));
          try reflexivity; [|exact Hfrom].
        apply (passes_trans 0 0 _ _ _ Hs01). exact Hs1. }
  destruct (N.eqb_spec c (ch "[")) as [->|Hc2].
  { (* an array *)
    unfold parseArray.
    change (startsWith (ch "[" :: trimEnd s1) (str "[")) with true. cbn [negb].
    change (substring 1 (ch "[" :: trimEnd s1)) with (trimEnd s1).
    rewrite trim_trimEnd.
    pose proof (passes_skipWhiteSpace s1) as Hs1.
    pose proof (trim_JSON_skipWhiteSpace s1) as Hu.
    pose proof (trim_length (trimEnd s1)) as Hl1. rewrite trim_trimEnd in Hl1.
    pose proof (trimEnd_length s1) as Hl2.
    assert (passes 0 s s1) as Hs01.
    { apply (passes_trans 0 0 _ _ _ Hs0). now apply passes_char. }
    destruct (JSON.skipWhiteSpace s1) as [|d s2] eqn:Ed; [discriminate|].
    pose proof (JSON_skipWhiteSpace_tight _ _ _ Ed) as Hdw.
    destruct (N.eqb_spec d (ch "]")) as [->|Hd].
    - apply Ok_inj in Hj. subst rj.
      rewrite (trim_skipWhiteSpace _ _ _ Ed eq_refl).
      exists (plain (VArr [])). split; [reflexivity|].
      cbn [value remaining tree plain].
      apply sideBySide_leaf; [|reflexivity|repeat constructor].
      apply (passes_trans 0 0 _ _ _ Hs01).
      apply (passes_trans 0 0 _ _ _ Hs1). now apply passes_char.
    - assert (exists vj, strict (d :: s2) = Ok vj) as [vj Ev].
      { cbn [JSON.elements] in Hj.
        destruct (strict (d :: s2)) as [vj| |]; try discriminate. now exists vj. }
      destruct (strict_head _ _ Ev) as (d' & s2' & E' & Hd').
      rewrite JSON_skipWhiteSpace_head in E' by assumption.
      injection E' as <- <-.
      destruct (valueHead_facts d Hd') as (Hdws & Hd1 & _ & _).
      rewrite <- Hu. rewrite (trim_head d s2 Hdws).
      change (str "]") with [ch "]"]. rewrite startsWith_char, Hd1.
      rewrite <- (trim_head d s2 Hdws).
      destruct (elements_agree _ [] [] (d :: s2) rj (trim (d :: s2))
                  (S (length (trim (d :: s2)))) True Hj)
        as (jv & Hloop & Hfrom).
      + intros _. constructor.
      + apply trim_idempotent.
      + rewrite trim_idempotent. lia.
      + rewrite trim_idempotent, Hu. cbn [length] in *. lia.
      + exists jv. split; [exact Hloop|].
        apply (sideBySide_whole (VArr []) (VArr []) s (d :: s2));
          try reflexivity; [|exact Hfrom].
        apply (passes_trans 0 0 _ _ _ Hs01). exact Hs1. }
  destruct (N.eqb_spec c DQ) as [->|Hc3].
  { (* a string *)
    cbn [orb].
    destruct (JSON.stringChars [] s1) as [r| |] eqn:Er; cbn [bind] in Hj;
      try discriminate.
    apply Ok_inj in Hj. subst rj. cbn [value remaining].
    destruct (strings_side_by_side s1 r Er) as (k' & Hr & L1 & L2 & L3).
    apply (parseString_loop_trimEnd DQ s1 [] false _ eq_refl) in Hr.
    cbn [value remaining] in Hr.
    cbn [parseString]. rewrite N.eqb_refl. cbn [orb]. rewrite Hr.
    cbn [bind value remaining].
    exists (plain (VStr k')). split; [reflexivity|].
    now apply (sideBySide_string s s1 r k' Es Er). }
  change (str "true") with (ch "t" :: str "rue") in Hj.
  change (str "false") with (ch "f" :: str "alse") in Hj.
  change (str "null") with (ch "n" :: str "ull") in Hj.
  assert (forall word : jsstring,
             word <> [] -> endsTight word = true ->
             forallb isDull word = true ->
             startsWith (c :: s1) word = true ->
             c :: trimEnd s1 = word ++ trimEnd (skipn (length word) (c :: s1))
             /\ passes 0 s (skipn (length word) (c :: s1)))
    as Hword.
  { intros word Hne Hend Hnb Hstart.
    pose proof (startsWith_split word (c :: s1) Hstart) as E.
    split.
    - rewrite <- Hte. rewrite E at 1.
      destruct (rev word) as [|l front] eqn:Erev.
      { apply (f_equal (@rev _)) in Erev. rewrite rev_involutive in Erev.
        contradiction. }
      apply (f_equal (@rev _)) in Erev. rewrite rev_involutive in Erev.
      cbn [rev] in Erev. subst word. rewrite <- !app_assoc. cbn [app].
      apply trimEnd_app_tight.
      unfold endsTight in Hend. rewrite rev_app_distr in Hend. cbn in Hend.
      now apply negb_true_iff.
    - apply (passes_trans 0 0 _ _ _ Hs0). rewrite E at 1.
      now apply passes_dull. }
  cbn [startsWith] in Hj.
  destruct (N.eqb_spec c (ch "t")) as [->|Hc4].
  { cbn [andb] in Hj.
    destruct (startsWith s1 (str "rue")) eqn:Eword.
    - apply Ok_inj in Hj. subst rj. cbn [value remaining].
      destruct (Hword (str "true") ltac:(discriminate) eq_refl eq_refl Eword)
        as [E Hpass].
      rewrite E. exists (plain (VBool true)). split; [reflexivity|].
      apply sideBySide_leaf; [exact Hpass|reflexivity|constructor].
    - cbn [andb] in Hj. unfold JSON.number in Hj. discriminate. }
  destruct (N.eqb_spec c (ch "f")) as [->|Hc5].
  { cbn [andb] in Hj.
    destruct (startsWith s1 (str "alse")) eqn:Eword.
    - apply Ok_inj in Hj. subst rj. cbn [value remaining].
      destruct (Hword (str "false") ltac:(discriminate) eq_refl eq_refl Eword)
        as [E Hpass].
      rewrite E. exists (plain (VBool false)). split; [reflexivity|].
      apply sideBySide_leaf; [exact Hpass|reflexivity|constructor].
    - cbn [andb] in Hj. unfold JSON.number in Hj. discriminate. }
  destruct (N.eqb_spec c (ch "n")) as [->|Hc6].
  { cbn [andb] in Hj.
    destruct (startsWith s1 (str "ull")) eqn:Eword.
    - apply Ok_inj in Hj. subst rj. cbn [value remaining].
      destruct (Hword (str "null") ltac:(discriminate) eq_refl eq_refl Eword)
        as [E Hpass].
      rewrite E. exists (plain VNull). split; [reflexivity|].
      apply sideBySide_leaf; [exact Hpass|reflexivity|constructor].
    - cbn [andb] in Hj. unfold JSON.number in Hj. discriminate. }
  (* a number *)
  cbn [andb] in Hj. unfold JSON.number in Hj.
  destruct (scanNumber (c :: s1)) as [[numStr x]|] eqn:En; [|discriminate].
  destruct (JSON.leadingZero numStr); [discriminate|].
  destruct (startsWith (substring (length numStr) (c :: s1)) (str ".")
            || startsWith (substring (length numStr) (c :: s1)) (str "e")
            || startsWith (substring (length numStr) (c :: s1)) (str "E"))
    eqn:Edot; [discriminate|].
  apply Ok_inj in Hj. subst rj. cbn [value remaining].
  destruct (scanNumber_stable _ _ _ En)
    as (E & Hde & (c' & t & Enum & Hc') & Hnd & Hstable).
  unfold substring in *. set (rest := skipn (length numStr) (c :: s1)) in *.
  assert (numberBoundary rest = true) as Hb.
  { destruct rest as [|r0 rest]; [reflexivity|]. cbn [numberBoundary].
    change (str ".") with [ch "."] in Edot. change (str "e") with [ch "e"] in Edot.
    change (str "E") with [ch "E"] in Edot.
    rewrite !startsWith_char in Edot.
    apply orb_false_iff in Edot. destruct Edot as [Edot E3].
    apply orb_false_iff in Edot. destruct Edot as [E1 E2].
    now rewrite Hnd, E1, E2, E3. }
  assert (c :: trimEnd s1 = numStr ++ trimEnd rest) as Etrim.
  { rewrite <- Hte. rewrite E at 1. now apply digitEnd_trimEnd. }
  assert (N.eqb c SQ = false) as Hc7.
  { rewrite Enum in E. cbn [app] in E. injection E as -> _.
    destruct Hc' as [Hc'| ->]; [|reflexivity]. char_solve. }
  rewrite Hc7. cbn [orb]. rewrite Etrim.
  pose proof (Hstable (trimEnd rest) (numberBoundary_trimEnd rest Hb)) as Hscan.
  unfold matchNumber. rewrite Hscan. cbn [option_map fst].
  unfold parseNumber, matchNumber. rewrite Hscan. cbn [option_map fst].
  unfold substring. rewrite skipn_length_app.
  unfold parseFloat.
  pose proof (Hstable [] eq_refl) as Hscan'. rewrite app_nil_r in Hscan'.
  rewrite Hscan'. exists (plain (VNum x)). split; [reflexivity|].
  apply sideBySide_leaf; [|reflexivity|constructor].
  apply (passes_trans 0 0 _ _ _ Hs0). rewrite E at 1. apply passes_dull.
  unfold digitEnd in Hde. now apply andb_true_iff in Hde.
Qed.

End StrictAsRelaxed.

Lemma JSON_parseValue_head (fuel : nat) (s : jsstring) (r : ParseResult Value) :
  JSON.parseValue fuel s = Ok r ->
  exists c s1, JSON.skipWhiteSpace s = c :: s1 /\ valueHead c = true.
Proof.
  destruct fuel as [|fuel]; [discriminate|]. apply JSON_value_body_head.
Qed.

Lemma parseValue_agree (fuelj : nat) :
  forall s rj a fuelr,
    JSON.parseValue fuelj s = Ok rj -> trim a = trim s -> length a < fuelr ->
    exists jv,
      parseValue fuelr a = Ok (mkParseResult jv (trimEnd (remaining rj)))
      /\ sideBySide s (remaining rj) (value rj) (tree jv).
Proof.
  induction fuelj as [|fuelj IH]; intros s rj a fuelr Hj Ha Hfuel;
    [discriminate|].
  destruct fuelr as [|fuelr]; [lia|].
  cbn [JSON.parseValue] in Hj. cbn [parseValue].
  apply (value_body_agree (JSON.parseValue fuelj) (parseValue fuelr) fuelr)
    with (s := s); try assumption.
  - apply JSON_parseValue_head.
  - apply parseValue_consumes.
  - intros s' rj' a' H1 H2 H3. now apply (IH s').
  - lia.
Qed.

(** Every text [parseToon] accepts, [parseJson] accepts, and the two
    values are side by side. *)
Lemma parsers_side_by_side (text : jsstring) (v : Value) :
  parseToon text = Ok v ->
  exists v',
    parseJson text = Ok v'
    /\ (plainEscapes text = true -> alike v v')
    /\ entryCount v <= colons false text
    /\ entryCount v' <= colons false text
    /\ (entryCount v = colons false text ->
        entryCount v' = colons false text ->
        characters v <= characters v'
        /\ (unicodeEscaped text = true -> characters v < characters v')).
Proof.
  intros Hj. unfold parseToon in Hj.
  destruct (JSON.parse text) as [v0| |] eqn:E; try discriminate.
  apply Ok_inj in Hj. subst v0. unfold JSON.parse in E.
  destruct (JSON.parseValue (S (length text)) text) as [rj| |] eqn:Ev;
    cbn [bind] in E; try discriminate.
  pose proof (passes_skipWhiteSpace (remaining rj)) as (T1 & T2 & T3).
  destruct (JSON.skipWhiteSpace (remaining rj)) eqn:Er; [|discriminate].
  apply Ok_inj in E. subst v.
  destruct (JSON_parseValue_head _ _ _ Ev) as (c & s1 & Es & Hc).
  destruct (valueHead_facts c Hc) as (Hw & _ & _ & _).
  pose proof (trim_skipWhiteSpace text c s1 Es Hw) as Ht.
  destruct (parseValue_agree _ text rj (trim text) (S (length (trim text)))
              Ev (trim_idempotent text) (le_n _))
    as (jv & Hr & [Hplain (n & B1 & B2 & B3 & B4)]).
  exists (tree jv). split.
  { unfold parseJson. rewrite Ht in *. unfold parseValueTop. rewrite Hr.
    cbn [bind value remaining].
    now rewrite trim_trimEnd, (JSON_skipWhiteSpace_nil _ Er). }
  cbn [colons unicodeEscaped plainEscapes] in T1, T2, T3.
  split; [intros Hp; now destruct (Hplain Hp)|].
  rewrite T1, Nat.add_0_r in B1. rewrite B1.
  split; [exact B2|]. split; [exact B3|].
  intros E1 E2. destruct (B4 E1 E2) as [B5 B6]. split; [exact B5|].
  intros Hu. destruct (B6 Hu) as [Hu'|Hlt]; [congruence|exact Hlt].
Qed.

(** On a text without the escapes only [JSON.parse] decodes, whose value
    has no entry [__proto__], the two parsers agree. *)
Lemma parseJson_parseToon (text : jsstring) (v : Value) :
  plainEscapes text = true -> parseToon text = Ok v -> noProtoKey v = true ->
  parseJson text = Ok v.
Proof.
  intros Hp Hj Hn.
  destruct (parsers_side_by_side text v Hj) as (v' & Hr & Ha & _).
  now rewrite Hr, (alike_noProto v v' (Ha Hp) Hn).
Qed.


(* ================================================================== *)
(** * What the relaxed parser never does *)
(* ================================================================== *)

(** ** It throws no other errors than these *)

Lemma Throw_inj (A : Type) (a b : jsstring) : @Throw A a = Throw b -> a = b.
Proof. intros H. now injection H. Qed.

Lemma isRelaxedError_prefix (p x : jsstring) :
  In p relaxedErrorPrefixes -> isRelaxedError (p ++ x) = true.
Proof.
  intros H. unfold isRelaxedError. apply orb_true_iff. right.
  apply existsb_exists. exists p. split; [assumption|apply startsWith_app].
Qed.

Lemma parseString_loop_throws (quote : char) (s : jsstring) :
  forall acc escaped m,
    parseString_loop quote acc escaped s = Throw m ->
    m = str "Unterminated string".
Proof.
  induction s as [|c s IH]; intros acc escaped m; cbn [parseString_loop].
  - intros H. apply Throw_inj in H. now subst m.
  - destruct escaped; [apply IH|].
    destruct (N.eqb c BACKSLASH); [apply IH|].
    destruct (N.eqb c quote); [discriminate|apply IH].
Qed.

Lemma parseString_throws (input : jsstring) (m : jsstring) :
  startsWith input [DQ] || startsWith input [SQ] = true ->
  parseString input = Throw m -> isRelaxedError m = true.
Proof.
  destruct input as [|q rest]; [discriminate|].
  rewrite !startsWith_char. intros Hq. cbn [parseString]. rewrite Hq.
  intros H. apply parseString_loop_throws in H. now subst m.
Qed.

Lemma parseObject_key_throws (remaining1 m : jsstring) :
  parseObject_key remaining1 = Throw m -> isRelaxedError m = true.
Proof.
  unfold parseObject_key.
  destruct (startsWith remaining1 [DQ] || startsWith remaining1 [SQ]) eqn:Eq.
  - destruct (parseString remaining1) as [kr| |] eqn:Ek; cbn [bind].
    + cbn [negb andb].
      destruct (startsWith (trim (remaining kr)) (str ":")); cbn [negb];
        [discriminate|].
      intros H. apply Throw_inj in H. subst m.
      apply isRelaxedError_prefix. cbn. auto.
    + intros H. apply Throw_inj in H. subst m. now apply (parseString_throws remaining1).
    + discriminate.
  - destruct (matchKey remaining1) as [[key after]|]; cbn [bind].
    + cbn [negb andb]. discriminate.
    + intros H. apply Throw_inj in H. subst m. apply isRelaxedError_prefix. cbn. auto.
Qed.

Section RelaxedErrors.

Variable rec : jsstring -> Result (ParseResult JsValue).

Hypothesis rec_throws :
  forall s m, rec s = Throw m -> isRelaxedError m = true.

Lemma parseObject_loop_throws (fuel : nat) :
  forall obj remaining0 m,
    parseObject_loop rec fuel obj remaining0 = Throw m ->
    isRelaxedError m = true.
Proof.
  induction fuel as [|fuel IH]; intros obj remaining0 m; [discriminate|].
  rewrite parseObject_loop_unfold.
  destruct (trim remaining0) as [|c t]; [discriminate|].
  destruct (parseObject_key (c :: t)) as [[key remaining3]| |] eqn:Ek;
    cbn [bind]; try discriminate.
  2: { intros H. apply Throw_inj in H. subst m. now apply parseObject_key_throws in Ek. }
  destruct (rec remaining3) as [vr| |] eqn:Ev; cbn [bind]; try discriminate.
  2: { intros H. apply Throw_inj in H. subst m. now apply rec_throws in Ev. }
  unfold parseObject_after.
  destruct (startsWith _ (str "}")); [discriminate|].
  destruct (startsWith _ (str ",")); [apply IH|].
  destruct (0 <? _)%nat; [|discriminate].
  intros H. apply Throw_inj in H. subst m. apply isRelaxedError_prefix. cbn. auto 10.
Qed.

Lemma parseArray_loop_throws (fuel : nat) :
  forall arr remaining0 m,
    parseArray_loop rec fuel arr remaining0 = Throw m ->
    isRelaxedError m = true.
Proof.
  induction fuel as [|fuel IH]; intros arr remaining0 m; [discriminate|].
  cbn [parseArray_loop].
  destruct (rec (trim remaining0)) as [vr| |] eqn:Ev; cbn [bind];
    try discriminate.
  2: { intros H. apply Throw_inj in H. subst m. now apply rec_throws in Ev. }
  destruct (startsWith _ (str "]")); [discriminate|].
  destruct (startsWith _ (str ",")); [apply IH|].
  intros H. apply Throw_inj in H. subst m. apply isRelaxedError_prefix. cbn. auto 10.
Qed.

Lemma parseValue_body_throws (input m : jsstring) :
  parseValue_body rec input = Throw m -> isRelaxedError m = true.
Proof.
  unfold parseValue_body.
  destruct (startsWith (trim input) (str "{")) eqn:E1.
  { unfold parseObject. rewrite E1. cbn [negb].
    destruct (startsWith _ (str "}")); [discriminate|].
    apply parseObject_loop_throws. }
  destruct (startsWith (trim input) (str "[")) eqn:E2.
  { unfold parseArray. rewrite E2. cbn [negb].
    destruct (startsWith _ (str "]")); [discriminate|].
    apply parseArray_loop_throws. }
  destruct (startsWith (trim input) [DQ] || startsWith (trim input) [SQ]) eqn:E3.
  { destruct (parseString (trim input)) eqn:Es; cbn [bind]; try discriminate.
    intros H. apply Throw_inj in H. subst m. now apply (parseString_throws (trim input)). }
  destruct (matchNumber (trim input)) eqn:E.
  { unfold parseNumber. rewrite E. discriminate. }
  destruct (startsWith (trim input) (str "true")); [discriminate|].
  destruct (startsWith (trim input) (str "false")); [discriminate|].
  destruct (startsWith (trim input) (str "null")); [discriminate|].
  intros H. apply Throw_inj in H. subst m. apply isRelaxedError_prefix. cbn. auto.
Qed.

End RelaxedErrors.

Lemma parseValue_throws (fuel : nat) :
  forall input m, parseValue fuel input = Throw m -> isRelaxedError m = true.
Proof.
  induction fuel as [|fuel IH]; intros input m; [discriminate|].
  cbn [parseValue]. now apply parseValue_body_throws.
Qed.

Lemma parseJson_throws (input m : jsstring) :
  parseJson input = Throw m -> isRelaxedError m = true.
Proof.
  unfold parseJson. destruct (trim input) as [|c t].
  { intros H. apply Throw_inj in H. now subst m. }
  unfold parseValueTop.
  destruct (parseValue _ (c :: t)) as [r| |] eqn:E; cbn [bind]; try discriminate.
  - destruct (0 <? _)%nat; [|discriminate].
    intros H. apply Throw_inj in H. subst m. apply isRelaxedError_prefix. cbn. auto.
  - intros H. apply Throw_inj in H. subst m. exact (parseValue_throws _ _ _ E).
Qed.



(* ================================================================== *)
(** * The relaxed parser on the strict serializer's text *)
(* ================================================================== *)

Lemma closedEscapes_app (a b : jsstring) :
  closedEscapes a -> closedEscapes b -> closedEscapes (a ++ b).
Proof. intros Ha Hb rest. now rewrite <- app_assoc, Ha, Hb. Qed.

Lemma closedEscapes_plain (p : jsstring) :
  forallb (fun c => negb (N.eqb c BACKSLASH)) p = true -> closedEscapes p.
Proof. intros H rest. now apply plainEscapes_skip. Qed.

Lemma closedEscapes_digits (ds : jsstring) :
  forallb isDigit ds = true -> closedEscapes ds.
Proof.
  intros H. apply closedEscapes_plain. rewrite forallb_forall in *.
  intros c Hc. specialize (H c Hc). char_solve.
Qed.

Lemma closedEscapes_escape (s : jsstring) : closedEscapes (escape s).
Proof.
  induction s as [|c s IH]; [red; intros rest; reflexivity|].
  rewrite escape_cons. apply closedEscapes_app; [|exact IH].
  unfold escapeChar. red. intros rest.
  destruct (N.eqb c BACKSLASH) eqn:E1; [reflexivity|].
  destruct (N.eqb c DQ); [reflexivity|].
  destruct (N.eqb c LF); [reflexivity|].
  destruct (N.eqb c CR); [reflexivity|].
  destruct (N.eqb c TAB); [reflexivity|].
  cbn [app plainEscapes]. now rewrite E1.
Qed.

Lemma closedEscapes_join (sep : jsstring) (parts : list jsstring) :
  closedEscapes sep -> (forall p, In p parts -> closedEscapes p) ->
  closedEscapes (join sep parts).
Proof.
  intros Hs. induction parts as [|p parts IH]; intros H.
  - red. intros rest. reflexivity.
  - destruct parts as [|q parts]; [apply H; now left|].
    rewrite join_cons by discriminate.
    apply closedEscapes_app; [apply H; now left|].
    apply closedEscapes_app; [exact Hs|].
    apply IH. intros p' Hp'. apply H. now right.
Qed.

Lemma closedEscapes_indentation (n : nat) : closedEscapes (indentation n).
Proof.
  apply closedEscapes_plain. induction n; cbn; auto.
Qed.

Lemma closedEscapes_number (x : number) :
  wellFormedNumber x = true -> closedEscapes (Number_toString x).
Proof.
  destruct x as [|[|]| |negative ds n]; try (intros _; red; intros rest; reflexivity).
  cbn [wellFormedNumber]. intros H.
  destruct (Number_toString_parts negative ds n H)
    as (int & frac & e & -> & _ & Hint & Hfrac & _).
  apply closedEscapes_app; [destruct negative; red; intros rest; reflexivity|].
  apply closedEscapes_app; [now apply closedEscapes_digits|].
  apply closedEscapes_app.
  - destruct frac as [|f frac]; [red; intros rest; reflexivity|].
    apply (closedEscapes_app [ch "."] (f :: frac));
      [red; intros rest; reflexivity|now apply closedEscapes_digits].
  - destruct e as [z|]; [|red; intros rest; reflexivity].
    cbn [optionalExponent]. unfold exponentText.
    apply closedEscapes_app; [red; intros rest; reflexivity|].
    apply closedEscapes_app; [destruct (z <? 0)%Z; red; intros rest; reflexivity|].
    apply closedEscapes_digits. apply digitsOf_spec.
Qed.

Lemma closedEscapes_key (key : jsstring) :
  forallb isPlainChar key = true -> closedEscapes ([DQ] ++ key ++ [DQ]).
Proof.
  intros H. apply closedEscapes_plain. rewrite !forallb_app.
  apply andb_true_iff. split; [reflexivity|].
  apply andb_true_iff. split; [|reflexivity].
  rewrite forallb_forall in *. intros c Hc. specialize (H c Hc).
  unfold isPlainChar in H. char_solve.
Qed.

Lemma closedEscapes_itemsText (sepw closew : jsstring)
  (render : Value -> jsstring) (items : list Value) :
  closedEscapes sepw -> closedEscapes closew ->
  (forall item, In item items -> closedEscapes (render item)) ->
  closedEscapes (itemsText sepw closew (itemTexts render items) []).
Proof.
  intros Hs Hc H. unfold itemsText. rewrite map_fst_itemTexts.
  apply closedEscapes_app.
  - apply closedEscapes_join.
    + apply closedEscapes_app; [red; intros rest; reflexivity|exact Hs].
    + intros p Hp. apply in_map_iff in Hp. destruct Hp as (item & <- & Hin). auto.
  - apply closedEscapes_app; [exact Hc|red; intros rest; reflexivity].
Qed.

Lemma closedEscapes_membersText (sepw closew : jsstring)
  (render : Value -> jsstring) (entries : Object) :
  closedEscapes sepw -> closedEscapes closew ->
  (forall kv, In kv entries ->
              forallb isPlainChar (fst kv) = true
              /\ closedEscapes (render (snd kv))) ->
  closedEscapes (membersText sepw closew (entryTexts render entries) []).
Proof.
  intros Hs Hc H. unfold membersText. rewrite map_memberText_entryTexts.
  apply closedEscapes_app.
  - apply closedEscapes_join.
    + apply closedEscapes_app; [red; intros rest; reflexivity|exact Hs].
    + intros p Hp. apply in_map_iff in Hp. destruct Hp as (kv & <- & Hin).
      destruct (H kv Hin) as [Hk Hv].
      apply closedEscapes_app; [now apply closedEscapes_key|].
      apply closedEscapes_app; [red; intros rest; reflexivity|exact Hv].
  - apply closedEscapes_app; [exact Hc|red; intros rest; reflexivity].
Qed.

Lemma closedEscapes_newline (n : nat) : closedEscapes (LF :: indentation n).
Proof.
  apply (closedEscapes_app [LF] (indentation n));
    [red; intros rest; reflexivity|apply closedEscapes_indentation].
Qed.

Lemma closedEscapes_scalar (v : Value) (indent : nat) :
  isScalar v = true -> wellFormed v = true -> closedEscapes (toToon v indent).
Proof.
  destruct v as [|[|]|x|s| |]; try discriminate; intros _ Hw;
    try (red; intros rest; reflexivity).
  - now apply closedEscapes_number.
  - cbn [toToon].
    apply (closedEscapes_app [DQ] (escape s ++ [DQ])); [red; intros rest; reflexivity|].
    apply closedEscapes_app; [apply closedEscapes_escape|red; intros rest; reflexivity].
Qed.

Lemma closedEscapes_toToon (v : Value) :
  jsonSafe v = true -> wellFormed v = true ->
  (forall indent, closedEscapes (toToon v indent))
  /\ closedEscapes (inlineItem v) /\ closedEscapes (inlineValue v).
Proof.
  induction v as [|b|x|s|items IH|entries IH] using Value_ind; intros Hj Hw.
  1-4: repeat split; intros; now apply closedEscapes_scalar.
  - (* arrays *)
    rewrite Forall_forall in IH.
    assert (forall item, In item items ->
                          (forall indent, closedEscapes (toToon item indent))
                          /\ closedEscapes (inlineItem item)) as Hitems.
    { intros item Hin.
      destruct (IH item Hin (everywhere_items _ _ _ _ _ Hj Hin)
                  (everywhere_items _ _ _ _ _ Hw Hin)) as (H1 & H2 & _).
      now split. }
    assert (forall indent, closedEscapes (toToon (VArr items) indent)) as Harr.
    { intros indent. destruct items as [|item items]; [red; intros rest; reflexivity|].
      destruct (forallb isCompactItem (item :: items)) eqn:E.
      - rewrite toToon_array_compact by assumption.
        apply closedEscapes_app; [red; intros rest; reflexivity|].
        apply closedEscapes_app; [apply closedEscapes_newline|].
        apply closedEscapes_itemsText; try apply closedEscapes_newline.
        intros it Hin. now apply Hitems.
      - rewrite toToon_array_normal by assumption.
        apply closedEscapes_app; [red; intros rest; reflexivity|].
        apply closedEscapes_app; [apply closedEscapes_newline|].
        apply closedEscapes_itemsText; try apply closedEscapes_newline.
        intros it Hin. now apply Hitems. }
    repeat split; [exact Harr|apply Harr|].
    destruct items as [|item items]; [red; intros rest; reflexivity|].
    rewrite inlineValue_array.
    apply closedEscapes_app; [red; intros rest; reflexivity|].
    apply closedEscapes_app; [apply closedEscapes_newline|].
    apply closedEscapes_itemsText;
      [apply closedEscapes_newline|red; intros rest; reflexivity|].
    intros it Hin. now apply Hitems.
  - (* objects *)
    rewrite Forall_forall in IH.
    assert (forall kv, In kv entries ->
                       forallb isPlainChar (fst kv) = true
                       /\ (forall indent, closedEscapes (toToon (snd kv) indent))
                       /\ closedEscapes (inlineValue (snd kv))) as Hentries.
    { intros kv Hin.
      destruct (IH kv Hin (everywhere_entries _ _ _ _ _ Hj Hin)
                  (everywhere_entries _ _ _ _ _ Hw Hin)) as (H1 & _ & H3).
      split; [now apply (jsonSafe_keys entries)|now split]. }
    assert (forall indent, closedEscapes (toToon (VObj entries) indent)) as Hobj.
    { intros indent. destruct entries as [|e entries]; [red; intros rest; reflexivity|].
      destruct (isCompactObject (e :: entries) && (indent =? 0)%nat) eqn:E.
      - apply andb_true_iff in E. destruct E as [E E0].
        apply Nat.eqb_eq in E0. subst indent.
        rewrite toToon_object_compact by assumption.
        apply closedEscapes_app; [red; intros rest; reflexivity|].
        apply closedEscapes_app; [apply closedEscapes_newline|].
        apply closedEscapes_membersText;
          [apply closedEscapes_newline|red; intros rest; reflexivity|].
        intros kv Hin. destruct (Hentries kv Hin) as (H1 & _ & H3). now split.
      - rewrite toToon_object_normal by assumption.
        apply closedEscapes_app; [red; intros rest; reflexivity|].
        apply closedEscapes_app; [apply closedEscapes_newline|].
        apply closedEscapes_membersText; try apply closedEscapes_newline.
        intros kv Hin. destruct (Hentries kv Hin) as (H1 & H2 & _). now split. }
    repeat split; [exact Hobj| |apply Hobj].
    cbn [inlineItem]. destruct entries as [|e entries]; [red; intros rest; reflexivity|].
    rewrite braceBlock_text.
    apply closedEscapes_app; [red; intros rest; reflexivity|].
    apply closedEscapes_app; [red; intros rest; reflexivity|].
    apply closedEscapes_membersText; try (red; intros rest; reflexivity).
    intros kv Hin. destruct (Hentries kv Hin) as (H1 & H2 & _). now split.
Qed.

Lemma parseToon_toToon_indent (v : Value) (indent : nat) :
  jsonSafe v = true -> wellFormed v = true -> finiteNumbers v = true ->
  parseToon (toToon v indent) = Ok v.
Proof.
  intros Hj Hw Hf. unfold parseToon, JSON.parse.
  destruct (JSON_parseValue_toToon v Hj Hw Hf (S (length (toToon v indent))))
    as (H & _).
  { destruct (depth_le_toToon v) as (Hd & _). specialize (Hd indent). lia. }
  specialize (H indent [] [] eq_refl eq_refl). cbn [app] in H.
  rewrite app_nil_r in H. rewrite H. reflexivity.
Qed.

(** X12: the relaxed parser reads the text of the strict serializer
    back: [parseJson (toToon V indent) = V] for every value tree the
    strict round trip holds for that has no entry named [__proto__].  So
    the [json-to-toon] route, given a TOON text written by [toToon],
    answers with the text [toToon] writes at indent level 0: the text
    itself when it was written there. *)
Theorem toon_text_is_a_fixed_point (V : Value) (indent : nat) :
  wellFormed V = true -> finiteNumbers V = true ->
  jsonSafe V = true -> noProtoKey V = true ->
  parseJson (toToon V indent) = Ok V
  /\ handler (str "POST") (StringData (toToon V indent))
     = Ok (RespondData 200 (toToon V 0)).
Proof.
  intros Hw Hf Hj Hp.
  assert (parseJson (toToon V indent) = Ok V) as H.
  { apply parseJson_parseToon;
      [|now apply parseToon_toToon_indent|exact Hp].
    destruct (closedEscapes_toToon V Hj Hw) as (Hc & _).
    rewrite <- (app_nil_r (toToon V indent)). now rewrite Hc. }
  split; [exact H|].
  pose proof (toToon_nonempty V indent Hw Hf) as Hne.
  unfold handler.
  change (jsstring_eqb (str "POST") (str "POST")) with true. cbn [negb].
  destruct (toToon V indent) as [|c t]; [contradiction|]. now rewrite H.
Qed.

Lemma toon_text_is_a_fixed_point_witness :
  wellFormed exampleTree = true /\ finiteNumbers exampleTree = true
  /\ jsonSafe exampleTree = true /\ noProtoKey exampleTree = true
  /\ parseJson (toToon exampleTree 0) = Ok exampleTree
  /\ handler (str "POST") (StringData (toToon exampleTree 0))
     = Ok (RespondData 200 (toToon exampleTree 0)).
Proof.
  split; [reflexivity|]. split; [reflexivity|]. split; [reflexivity|].
  split; [reflexivity|].
  apply (toon_text_is_a_fixed_point exampleTree 0); reflexivity.
Defined.

(* ================================================================== *)
(** * What is left of the input *)
(* ================================================================== *)

Lemma endsWith_refl (s : jsstring) : endsWith s s.
Proof. now exists []. Qed.

Lemma endsWith_trans (a b c : jsstring) :
  endsWith a b -> endsWith b c -> endsWith a c.
Proof.
  intros [x ->] [y ->]. exists (x ++ y). now rewrite app_assoc.
Qed.

Lemma endsWith_cons (c : char) (s : jsstring) : endsWith (c :: s) s.
Proof. now exists [c]. Qed.

Lemma endsWith_skipn (k : nat) (s : jsstring) : endsWith s (skipn k s).
Proof. exists (firstn k s). symmetry. apply firstn_skipn. Qed.

Lemma endsWith_trimStart (s : jsstring) : endsWith s (trimStart s).
Proof.
  induction s as [|c s IH]; [apply endsWith_refl|]. cbn [trimStart].
  destruct (isWhiteSpace c); [|apply endsWith_refl].
  eapply endsWith_trans; [apply endsWith_cons|exact IH].
Qed.

Lemma endsWith_endsTight (a b : jsstring) :
  endsWith a b -> endsTight a = true -> endsTight b = true.
Proof.
  intros [x ->] H. destruct b as [|c b]; [reflexivity|].
  apply (endsTight_tail x (c :: b)); [discriminate|assumption].
Qed.

Lemma trim_endsTight (s : jsstring) : endsTight (trim s) = true.
Proof.
  unfold trim, trimEnd, endsTight. rewrite rev_involutive.
  generalize (rev (trimStart s)). intros y.
  induction y as [|c y IH]; [reflexivity|]. cbn [trimStart].
  destruct (isWhiteSpace c) eqn:E; [exact IH|]. now rewrite E.
Qed.

Lemma endsWith_trim (s : jsstring) :
  endsTight s = true -> endsWith s (trim s) /\ endsTight (trim s) = true.
Proof.
  intros H. split; [|apply trim_endsTight]. unfold trim.
  rewrite trimEnd_tight; [apply endsWith_trimStart|].
  exact (endsWith_endsTight _ _ (endsWith_trimStart s) H).
Qed.

Lemma endsTight_all_ws (s : jsstring) :
  endsTight s = true -> trim s = [] -> s = [].
Proof.
  intros H Ht. apply trim_nil_inv in Ht. apply forallb_rev in Ht.
  unfold endsTight in H. destruct (rev s) as [|c r] eqn:E.
  - apply (f_equal (@rev _)) in E. now rewrite rev_involutive in E.
  - cbn [forallb] in Ht. apply andb_true_iff in Ht. destruct Ht as [Hc _].
    now rewrite Hc in H.
Qed.

Lemma parseString_suffix (input : jsstring) (r : ParseResult jsstring) :
  parseString input = Ok r ->
  endsWith input (DQ :: remaining r) \/ endsWith input (SQ :: remaining r).
Proof.
  destruct input as [|q rest]; [discriminate|]. cbn [parseString].
  destruct (N.eqb q DQ || N.eqb q SQ) eqn:Eq; [|discriminate].
  intros H. destruct (parseString_loop_prefix _ _ _ _ _ H) as (before & -> & _).
  apply orb_true_iff in Eq. destruct Eq as [Eq|Eq]; apply N.eqb_eq in Eq;
    subst q; [left; now exists (DQ :: before)|right; now exists (SQ :: before)].
Qed.

Lemma parseString_rest (input : jsstring) (r : ParseResult jsstring) :
  parseString input = Ok r -> endsWith input (remaining r).
Proof.
  intros H. destruct (parseString_suffix _ _ H) as [H'|H'];
    (eapply endsWith_trans; [exact H'|apply endsWith_cons]).
Qed.

Lemma matchKey_suffix (s key after : jsstring) :
  matchKey s = Some (key, after) -> endsWith s after.
Proof.
  destruct s as [|c s]; cbn [matchKey]; [discriminate|].
  destruct (isIdentStart c); [|discriminate].
  pose proof (span_spec isIdentPart s) as (E1 & _).
  destruct (span isIdentPart s) as [name rest]. cbn [fst snd] in *.
  pose proof (span_spec isWhiteSpace rest) as (E2 & _).
  destruct (span isWhiteSpace rest) as [ws rest']. cbn [fst snd] in *.
  destruct rest' as [|d rest'']; [discriminate|].
  destruct (N.eqb d (ch ":")); [|discriminate].
  intros H. apply Some_pair_inj in H. destruct H as [_ <-].
  exists (c :: name ++ ws ++ [d]). rewrite E1, E2.
  cbn [app]. now rewrite <- !app_assoc.
Qed.

Lemma parseObject_key_suffix (remaining1 key remaining3 : jsstring) :
  endsTight remaining1 = true ->
  parseObject_key remaining1 = Ok (key, remaining3) ->
  endsWith remaining1 remaining3 /\ endsTight remaining3 = true.
Proof.
  intros Ht. unfold parseObject_key.
  assert (forall x, endsWith remaining1 x ->
                    endsWith remaining1 (trim x) /\ endsTight (trim x) = true)
    as Htrim.
  { intros x Hx. pose proof (endsWith_endsTight _ _ Hx Ht) as Hxt.
    destruct (endsWith_trim x Hxt) as [H1 H2].
    split; [now apply endsWith_trans with x|exact H2]. }
  destruct (startsWith remaining1 [DQ] || startsWith remaining1 [SQ]).
  - destruct (parseString remaining1) as [kr| |] eqn:Ek; cbn [bind];
      try discriminate.
    apply parseString_rest in Ek. destruct (Htrim _ Ek) as [H1 H2].
    cbn [negb andb].
    destruct (startsWith (trim (remaining kr)) (str ":")); cbn [negb];
      [|discriminate].
    intros H. apply Ok_inj in H. apply (f_equal snd) in H. cbn [snd] in H.
    subst remaining3. apply Htrim.
    eapply endsWith_trans; [exact H1|apply endsWith_skipn].
  - destruct (matchKey remaining1) as [[k after]|] eqn:Em; cbn [bind];
      [|discriminate].
    apply matchKey_suffix in Em. cbn [negb andb].
    intros H. apply Ok_inj in H. apply (f_equal snd) in H. cbn [snd] in H.
    subst remaining3. now apply Htrim.
Qed.

Section RelaxedRest.

Variable rec : jsstring -> Result (ParseResult JsValue).

Hypothesis rec_rest :
  forall s r, rec s = Ok r -> endsTight s = true -> endsWith s (remaining r).

Lemma parseObject_loop_rest (fuel : nat) :
  forall obj remaining0 r,
    endsTight remaining0 = true ->
    parseObject_loop rec fuel obj remaining0 = Ok r ->
    endsWith remaining0 (remaining r).
Proof.
  induction fuel as [|fuel IH]; intros obj remaining0 r Ht; [discriminate|].
  rewrite parseObject_loop_unfold.
  destruct (endsWith_trim remaining0 Ht) as [H0 Ht0].
  destruct (trim remaining0) as [|c t] eqn:E.
  { intros H. apply Ok_inj in H. subst r. exact H0. }
  destruct (parseObject_key (c :: t)) as [[key remaining3]| |] eqn:Ek;
    cbn [bind]; try discriminate.
  destruct (parseObject_key_suffix _ _ _ Ht0 Ek) as [H3 Ht3].
  destruct (rec remaining3) as [vr| |] eqn:Ev; cbn [bind]; try discriminate.
  pose proof (rec_rest _ _ Ev Ht3) as Hv.
  pose proof (endsWith_endsTight _ _ Hv Ht3) as Htv.
  destruct (endsWith_trim _ Htv) as [H4 Ht4].
  assert (endsWith remaining0 (trim (remaining vr))) as Hall.
  { apply endsWith_trans with (c :: t); [exact H0|].
    apply endsWith_trans with remaining3; [exact H3|].
    now apply endsWith_trans with (remaining vr). }
  unfold parseObject_after.
  destruct (startsWith _ (str "}")).
  { intros H. apply Ok_inj in H. subst r. cbn [remaining].
    eapply endsWith_trans; [exact Hall|apply endsWith_skipn]. }
  destruct (startsWith _ (str ",")).
  { intros H.
    assert (endsWith (trim (remaining vr)) (substring 1 (trim (remaining vr))))
      as Hs by apply endsWith_skipn.
    pose proof (endsWith_endsTight _ _ Hs Ht4) as Hts.
    destruct (endsWith_trim _ Hts) as [H5 Ht5].
    apply IH in H; [|exact Ht5].
    apply endsWith_trans with (trim (remaining vr)); [exact Hall|].
    apply endsWith_trans with (substring 1 (trim (remaining vr))); [exact Hs|].
    now apply endsWith_trans with (trim (substring 1 (trim (remaining vr)))). }
  destruct (0 <? _)%nat; [discriminate|].
  intros H. apply Ok_inj in H. subst r. exact Hall.
Qed.

Lemma parseArray_loop_rest (fuel : nat) :
  forall arr remaining0 r,
    endsTight remaining0 = true ->
    parseArray_loop rec fuel arr remaining0 = Ok r ->
    endsWith remaining0 (ch "]" :: remaining r).
Proof.
  induction fuel as [|fuel IH]; intros arr remaining0 r Ht; [discriminate|].
  cbn [parseArray_loop].
  destruct (endsWith_trim remaining0 Ht) as [H0 Ht0].
  destruct (rec (trim remaining0)) as [vr| |] eqn:Ev; cbn [bind];
    try discriminate.
  pose proof (rec_rest _ _ Ev Ht0) as Hv.
  pose proof (endsWith_endsTight _ _ Hv Ht0) as Htv.
  destruct (endsWith_trim _ Htv) as [H4 Ht4].
  assert (endsWith remaining0 (trim (remaining vr))) as Hall.
  { apply endsWith_trans with (trim remaining0); [exact H0|].
    now apply endsWith_trans with (remaining vr). }
  destruct (startsWith (trim (remaining vr)) (str "]")) eqn:E1.
  { intros H. apply Ok_inj in H. subst r. cbn [remaining].
    apply endsWith_trans with (trim (remaining vr)); [exact Hall|].
    rewrite (startsWith_split _ _ E1) at 1. apply endsWith_refl. }
  destruct (startsWith _ (str ",")); [|discriminate].
  intros H.
  assert (endsWith (trim (remaining vr)) (substring 1 (trim (remaining vr))))
    as Hs by apply endsWith_skipn.
  pose proof (endsWith_endsTight _ _ Hs Ht4) as Hts.
  destruct (endsWith_trim _ Hts) as [H5 Ht5].
  apply IH in H; [|exact Ht5].
  apply endsWith_trans with (trim (remaining vr)); [exact Hall|].
  apply endsWith_trans with (substring 1 (trim (remaining vr))); [exact Hs|].
  now apply endsWith_trans with (trim (substring 1 (trim (remaining vr)))).
Qed.

Lemma parseObject_loop_value (fuel : nat) :
  forall obj remaining0 r,
    parseObject_loop rec fuel obj remaining0 = Ok r ->
    exists entries, tree (value r) = VObj entries.
Proof.
  induction fuel as [|fuel IH]; intros obj remaining0 r; [discriminate|].
  rewrite parseObject_loop_unfold.
  destruct (trim remaining0) as [|c t].
  { intros H. apply Ok_inj in H. subst r. now exists (properties obj). }
  destruct (parseObject_key (c :: t)) as [[key remaining3]| |];
    cbn [bind]; try discriminate.
  destruct (rec remaining3) as [vr| |]; cbn [bind]; try discriminate.
  unfold parseObject_after.
  destruct (startsWith _ (str "}")).
  { intros H. apply Ok_inj in H. subst r. cbn [value tree objectValue plain]. eauto. }
  destruct (startsWith _ (str ",")); [apply IH|].
  destruct (0 <? _)%nat; [discriminate|].
  intros H. apply Ok_inj in H. subst r. cbn [value tree objectValue plain]. eauto.
Qed.

Lemma parseArray_loop_value (fuel : nat) :
  forall arr remaining0 r,
    parseArray_loop rec fuel arr remaining0 = Ok r ->
    exists items, tree (value r) = VArr items.
Proof.
  induction fuel as [|fuel IH]; intros arr remaining0 r; [discriminate|].
  cbn [parseArray_loop].
  destruct (rec (trim remaining0)) as [vr| |]; cbn [bind]; try discriminate.
  destruct (startsWith _ (str "]")).
  { intros H. apply Ok_inj in H. subst r. cbn [value tree objectValue plain]. eauto. }
  destruct (startsWith _ (str ",")); [apply IH|discriminate].
Qed.

(** What [parseValue] leaves is the end of its trimmed input; before it
    stands the closing bracket when the value is an array, and the
    closing quote when it is a string. *)
Lemma parseValue_body_rest (input : jsstring) (r : ParseResult JsValue) :
  parseValue_body rec input = Ok r ->
  endsWith (trim input) (remaining r)
  /\ match tree (value r) with
     | VArr _ => endsWith (trim input) (ch "]" :: remaining r)
     | VStr _ =>
         endsWith (trim input) (DQ :: remaining r)
         \/ endsWith (trim input) (SQ :: remaining r)
     | _ => True
     end.
Proof.
  unfold parseValue_body. pose proof (trim_endsTight input) as Ht.
  set (trimmed := trim input) in *.
  assert (forall x, endsWith trimmed x ->
                    endsWith trimmed (trim x) /\ endsTight (trim x) = true)
    as Htrim.
  { intros x Hx. pose proof (endsWith_endsTight _ _ Hx Ht) as Hxt.
    destruct (endsWith_trim x Hxt) as [H1 H2].
    split; [now apply endsWith_trans with x|exact H2]. }
  destruct (startsWith trimmed (str "{")).
  { unfold parseObject. destruct (negb _); [discriminate|].
    destruct (Htrim (substring 1 trimmed) (endsWith_skipn 1 trimmed)) as [H1 H2].
    destruct (startsWith _ (str "}")).
    - intros H. apply Ok_inj in H. subst r. cbn [value remaining].
      split; [|exact I].
      eapply endsWith_trans; [exact H1|apply endsWith_skipn].
    - intros H.
      destruct (parseObject_loop_value _ _ _ _ H) as [obj Eo].
      rewrite Eo. split; [|exact I].
      apply parseObject_loop_rest in H; [|exact H2].
      now apply endsWith_trans with (trim (substring 1 trimmed)). }
  destruct (startsWith trimmed (str "[")).
  { unfold parseArray. destruct (negb _); [discriminate|].
    destruct (Htrim (substring 1 trimmed) (endsWith_skipn 1 trimmed)) as [H1 H2].
    destruct (startsWith (trim (substring 1 trimmed)) (str "]")) eqn:E1.
    - intros H. apply Ok_inj in H. subst r. cbn [value remaining].
      assert (endsWith trimmed
                (ch "]" :: substring 1 (trim (substring 1 trimmed)))) as Hc.
      { apply endsWith_trans with (trim (substring 1 trimmed)); [exact H1|].
        rewrite (startsWith_split _ _ E1) at 1. apply endsWith_refl. }
      split; [|exact Hc].
      eapply endsWith_trans; [exact Hc|apply endsWith_cons].
    - intros H.
      destruct (parseArray_loop_value _ _ _ _ H) as [items Ei].
      rewrite Ei.
      apply parseArray_loop_rest in H; [|exact H2].
      assert (endsWith trimmed (ch "]" :: remaining r)) as Hc
        by now apply endsWith_trans with (trim (substring 1 trimmed)).
      split; [|exact Hc].
      eapply endsWith_trans; [exact Hc|apply endsWith_cons]. }
  destruct (startsWith trimmed [DQ] || startsWith trimmed [SQ]).
  { destruct (parseString trimmed) as [sr| |] eqn:Es; cbn [bind];
      try discriminate.
    intros H. apply Ok_inj in H. subst r. cbn [value remaining].
    split; [now apply parseString_rest|now apply parseString_suffix]. }
  destruct (matchNumber trimmed) eqn:E.
  { unfold parseNumber. rewrite E. intros H. apply Ok_inj in H. subst r.
    cbn [value remaining]. split; [apply endsWith_skipn|exact I]. }
  destruct (startsWith trimmed (str "true")).
  { intros H. apply Ok_inj in H. subst r.
    cbn [value remaining]. split; [apply endsWith_skipn|exact I]. }
  destruct (startsWith trimmed (str "false")).
  { intros H. apply Ok_inj in H. subst r.
    cbn [value remaining]. split; [apply endsWith_skipn|exact I]. }
  destruct (startsWith trimmed (str "null")); [|discriminate].
  intros H. apply Ok_inj in H. subst r.
  cbn [value remaining]. split; [apply endsWith_skipn|exact I].
Qed.

End RelaxedRest.

Lemma parseValue_rest (fuel : nat) :
  forall input r,
    parseValue fuel input = Ok r ->
    endsWith (trim input) (remaining r)
    /\ match tree (value r) with
       | VArr _ => endsWith (trim input) (ch "]" :: remaining r)
       | VStr _ =>
           endsWith (trim input) (DQ :: remaining r)
           \/ endsWith (trim input) (SQ :: remaining r)
       | _ => True
       end.
Proof.
  induction fuel as [|fuel IH]; intros input r; [discriminate|].
  cbn [parseValue]. apply parseValue_body_rest.
  intros s r' H Ht. destruct (IH s r' H) as [H1 _].
  destruct (endsWith_trim s Ht) as [H2 _].
  now apply endsWith_trans with (trim s).
Qed.

(** X13: what a call of [parseValue] leaves unread is the end of its
    trimmed input, and shorter than its input: a value is read from the
    left and from at least one character.  An array [parseJson] returns
    has its closing bracket at the very end of the trimmed input, and a
    string its closing quote: unlike an object, neither is ever closed by
    the end of the input. *)
Theorem arrays_and_strings_are_closed :
  (forall fuel input r,
      parseValue fuel input = Ok r ->
      endsWith (trim input) (remaining r)
      /\ length (remaining r) < length input)
  /\ (forall input items,
         parseJson input = Ok (VArr items) -> endsWith (trim input) (str "]"))
  /\ (forall input s,
         parseJson input = Ok (VStr s) ->
         endsWith (trim input) [DQ] \/ endsWith (trim input) [SQ]).
Proof.
  split.
  { intros fuel input r H. split; [now apply (parseValue_rest fuel)|].
    now apply (parseValue_consumes fuel). }
  assert (forall input v,
             parseJson input = Ok v ->
             exists r, tree (value r) = v /\ remaining r = []
                       /\ parseValue (S (length (trim input))) (trim input) = Ok r)
    as Htop.
  { intros input v. unfold parseJson, parseValueTop.
    destruct (trim input) as [|c t] eqn:E; [discriminate|].
    destruct (parseValue _ (c :: t)) as [r| |] eqn:Ev; cbn [bind];
      try discriminate.
    destruct (trim (remaining r)) as [|x y] eqn:Er; [|discriminate].
    cbn [length Nat.ltb Nat.leb]. intros H. apply Ok_inj in H.
    exists r. split; [exact H|]. split; [|reflexivity].
    destruct (parseValue_rest _ _ _ Ev) as [Hs _].
    rewrite <- E, trim_idempotent in Hs.
    apply endsTight_all_ws; [|exact Er].
    exact (endsWith_endsTight _ _ Hs (trim_endsTight input)). }
  split.
  - intros input items H. destruct (Htop _ _ H) as (r & Ev & Er & Hp).
    destruct (parseValue_rest _ _ _ Hp) as [_ Hc].
    rewrite Ev, Er, trim_idempotent in Hc. exact Hc.
  - intros input s H. destruct (Htop _ _ H) as (r & Ev & Er & Hp).
    destruct (parseValue_rest _ _ _ Hp) as [_ Hc].
    rewrite Ev, Er, trim_idempotent in Hc. exact Hc.
Qed.

Lemma arrays_and_strings_are_closed_witness :
  parseJson (str " [1, [2]] ")
  = Ok (VArr [VNum (integer 1); VArr [VNum (integer 2)]])
  /\ endsWith (trim (str " [1, [2]] ")) (str "]").
Proof.
  split; [reflexivity|].
  apply (proj1 (proj2 arrays_and_strings_are_closed) (str " [1, [2]] ")
           [VNum (integer 1); VArr [VNum (integer 2)]]).
  reflexivity.
Defined.

(* ================================================================== *)
(** * Strings in the serializers' text *)
(* ================================================================== *)

Lemma escapeChar_shape (c : char) :
  forallb (fun x => negb (N.eqb x LF) && negb (N.eqb x CR) && negb (N.eqb x TAB))
    (escapeChar c) = true
  /\ 1 <= length (escapeChar c) <= 2.
Proof.
  unfold escapeChar.
  destruct (N.eqb c BACKSLASH); [split; [reflexivity|cbn; lia]|].
  destruct (N.eqb c DQ); [split; [reflexivity|cbn; lia]|].
  destruct (N.eqb c LF) eqn:E1; [split; [reflexivity|cbn; lia]|].
  destruct (N.eqb c CR) eqn:E2; [split; [reflexivity|cbn; lia]|].
  destruct (N.eqb c TAB) eqn:E3; [split; [reflexivity|cbn; lia]|].
  split; [|cbn; lia]. cbn [forallb]. now rewrite E1, E2, E3.
Qed.

(** X14: both serializers write a string value the same way at every
    indent level, between double quotes and on one line: the text has no
    newline, no carriage return and no tab, whatever the string, and at
    most two characters for each character of the string. *)
Theorem string_values_on_one_line (s : jsstring) (indent indent' : nat) :
  toJson (VStr s) indent = toToon (VStr s) indent'
  /\ toToon (VStr s) indent' = quoted (escape s)
  /\ forallb (fun x => negb (N.eqb x LF) && negb (N.eqb x CR) && negb (N.eqb x TAB))
       (toToon (VStr s) indent') = true
  /\ length s + 2 <= length (toToon (VStr s) indent') <= 2 * length s + 2.
Proof.
  split; [reflexivity|]. split; [reflexivity|]. cbn [toToon].
  assert (forallb (fun x => negb (N.eqb x LF) && negb (N.eqb x CR)
                            && negb (N.eqb x TAB)) (escape s) = true
          /\ length s <= length (escape s) <= 2 * length s) as [H1 H2].
  { induction s as [|c s IH]; [split; [reflexivity|cbn; lia]|].
    rewrite escape_cons, forallb_app, length_app. cbn [length].
    destruct (escapeChar_shape c) as [Hc Hl]. destruct IH as [IH1 IH2].
    split; [apply andb_true_iff; split; assumption|lia]. }
  split.
  - rewrite !forallb_app. cbn [forallb]. apply andb_true_iff. split; [reflexivity|].
    apply andb_true_iff. split; [exact H1|reflexivity].
  - rewrite !length_app. cbn [length]. lia.
Qed.

(* ================================================================== *)
(** * The status codes of the two routes *)
(* ================================================================== *)

Section Statuses.

Variable parse : jsstring -> Result Value.
Variable render : Value -> jsstring.
Variable fallback : jsstring.
Variable route : jsstring -> BodyData -> Result Response.

Hypothesis parse_total : forall text, parse text <> OutOfFuel.

Hypothesis route_def :
  forall method body,
    route method body
    = if negb (jsstring_eqb method (str "POST")) then
        Ok (RespondError 405 (str "Method not allowed"))
      else
        match body with
        | NoData | StringData [] =>
            Ok (RespondError 400 (str "Invalid input: expected a string"))
        | StringData data =>
            match parse data with
            | Ok parsed => Ok (RespondData 200 (render parsed))
            | Throw message =>
                Ok (RespondError 400
                      (match message with [] => fallback | _ => message end))
            | OutOfFuel => OutOfFuel
            end
        end.

Lemma route_statuses (method : jsstring) (body : BodyData) :
  exists response,
    route method body = Ok response
    /\ (responseStatus response = 405
        <-> jsstring_eqb method (str "POST") = false)
    /\ (responseStatus response = 200
        <-> jsstring_eqb method (str "POST") = true
            /\ exists text v,
                body = StringData text /\ text <> [] /\ parse text = Ok v)
    /\ (responseStatus response = 200 \/ responseStatus response = 400
        \/ responseStatus response = 405)
    /\ (hasData response = true <-> responseStatus response = 200).
Proof.
  rewrite route_def. destruct (jsstring_eqb method (str "POST")); cbn [negb].
  2: { eexists. split; [reflexivity|]. cbn [responseStatus hasData].
       repeat split; try discriminate; auto.
       intros [H _]. discriminate. }
  assert (forall error,
             (responseStatus (RespondError 400 error) = 405 <-> true = false)
             /\ (responseStatus (RespondError 400 error) = 200 \/
                 responseStatus (RespondError 400 error) = 400 \/
                 responseStatus (RespondError 400 error) = 405)
             /\ (hasData (RespondError 400 error) = true
                 <-> responseStatus (RespondError 400 error) = 200)) as Herr.
  { intros error. cbn [responseStatus hasData].
    repeat split; try discriminate; auto. }
  destruct body as [|[|c text]].
  - eexists. split; [reflexivity|]. destruct (Herr (str "Invalid input: expected a string")) as (H1 & H2 & H3).
    repeat split; try apply H1; try apply H3; try exact H2; try discriminate.
    intros (_ & text & v & H & _). discriminate.
  - eexists. split; [reflexivity|]. destruct (Herr (str "Invalid input: expected a string")) as (H1 & H2 & H3).
    repeat split; try apply H1; try apply H3; try exact H2; try discriminate.
    intros (_ & text & v & H & Hne & _). injection H as <-. contradiction.
  - pose proof (parse_total (c :: text)) as Ht.
    destruct (parse (c :: text)) as [v|m|] eqn:E; [| |contradiction].
    + eexists. split; [reflexivity|]. cbn [responseStatus hasData].
      repeat split; try discriminate; auto.
      exists (c :: text), v. repeat split; [discriminate|exact E].
    + eexists. split; [reflexivity|].
      destruct (Herr (match m with [] => fallback | _ => m end)) as (H1 & H2 & H3).
      repeat split; try apply H1; try apply H3; try exact H2; try discriminate.
      intros (_ & text' & v & H & _ & Hv). injection H as <-. congruence.
Qed.

End Statuses.

(** X15: both routes answer every request, with one of three status
    codes: 405 exactly when the method is not POST, 200 exactly when the
    method is POST and the data is a non-empty string its parser
    accepts, and 400 otherwise; the answer carries [data] exactly when
    the status is 200. *)
Theorem route_status_codes (method : jsstring) (body : BodyData) :
  (exists response,
      handler method body = Ok response
      /\ (responseStatus response = 405
          <-> jsstring_eqb method (str "POST") = false)
      /\ (responseStatus response = 200
          <-> jsstring_eqb method (str "POST") = true
              /\ exists text v,
                  body = StringData text /\ text <> [] /\ parseJson text = Ok v)
      /\ (responseStatus response = 200 \/ responseStatus response = 400
          \/ responseStatus response = 405)
      /\ (hasData response = true <-> responseStatus response = 200))
  /\ (exists response,
         ToonToJson.handler method body = Ok response
         /\ (responseStatus response = 405
             <-> jsstring_eqb method (str "POST") = false)
         /\ (responseStatus response = 200
             <-> jsstring_eqb method (str "POST") = true
                 /\ exists text v,
                     body = StringData text /\ text <> []
                     /\ parseToon text = Ok v)
         /\ (responseStatus response = 200 \/ responseStatus response = 400
             \/ responseStatus response = 405)
         /\ (hasData response = true <-> responseStatus response = 200)).
Proof.
  split.
  - apply (route_statuses parseJson (fun v => toToon v 0)
             (str "Invalid JSON format") handler parseJson_total).
    reflexivity.
  - apply (route_statuses parseToon (fun v => toJson v 0)
             (str "Invalid TOON format") ToonToJson.handler parseToon_total).
    reflexivity.
Qed.


(* ================================================================== *)
(** * Object literals with repeated keys *)
(* ================================================================== *)

(** ** The members of a literal, defined one after the other *)











(** ** The keys that are no array index, in the order of their first
    appearance *)






(** ** The strict parser on a literal with any members *)

Section JsonMembers.

Variable rec : jsstring -> Result (ParseResult Value).
Variables sepw closew : jsstring.
Hypothesis sepw_ws : forallb JSON.isWhiteSpace sepw = true.
Hypothesis closew_ws : forallb JSON.isWhiteSpace closew = true.


End JsonMembers.






(** ** The relaxed parser on the same literal *)








(** ** Duplicate keys *)




(* ================================================================== *)
(** * Unicode escapes *)
(* ================================================================== *)

Lemma strict_message_is_not_relaxed (m : jsstring) :
  isRelaxedError (str "Invalid TOON format: " ++ m) = false.
Proof. reflexivity. Qed.

(** C10, as stated, fails: an input with a backslash-u escape on which
    the two parsers agree.  The key written with the escape names an
    entry that both parsers have stored before, so each of them
    overwrites a member: the text has three members, the object two
    entries. *)
Lemma unicode_escape_agreement :
  parseJson exampleUnicodeKey
  = Ok (VObj [(str "a", VNum (integer 1)); (str "u0061", VNum (integer 1))])
  /\ parseToon exampleUnicodeKey
     = Ok (VObj [(str "a", VNum (integer 1)); (str "u0061", VNum (integer 1))])
  /\ unicodeEscaped exampleUnicodeKey = true
  /\ colons false exampleUnicodeKey = 3
  /\ entryCount (VObj [(str "a", VNum (integer 1));
                       (str "u0061", VNum (integer 1))]) = 2.
Proof. repeat split; reflexivity. Qed.

(** C10, amended: in a string the relaxed parser reads, a backslash
    followed by a character other than n, t, r, the backslash and the
    enclosing quote yields that character itself, so a backslash-u
    sequence is not decoded: on the 8 characters of the literal with the
    escape of A, [parseJson] returns the 5 characters u0041 where
    [parseToon] returns the one character A, and on every string
    literal with a backslash-u escape that [parseToon] accepts,
    [parseJson] returns a longer string.  The two parsers disagree on
    every input with a backslash-u escape but those of which the value
    of each has fewer entries than the input has members, a member
    being overwritten by a later one with the same key or, in the
    relaxed parser, not stored for being named [__proto__]: when
    [parseToon] accepts the input, [parseJson] accepts it too, and
    returns another value if either value has as many entries as the
    input has members; when [parseToon] rejects it, [parseJson] returns
    a value or throws another message. *)
Theorem no_unicode_escapes :
  (forall quote c acc rest,
      N.eqb c (ch "n") = false -> N.eqb c (ch "t") = false ->
      N.eqb c (ch "r") = false -> N.eqb c BACKSLASH = false ->
      N.eqb c quote = false ->
      parseString_loop quote acc true (c :: rest)
      = parseString_loop quote (acc ++ [c]) false rest)
  /\ length exampleUnicode = 8
  /\ parseJson exampleUnicode = Ok (VStr (str "u0041"))
  /\ parseToon exampleUnicode = Ok (VStr (str "A"))
  /\ (forall body s,
         hasUnicodeEscape body = true ->
         parseToon (quoted body) = Ok (VStr s) ->
         exists s',
           parseJson (quoted body) = Ok (VStr s') /\ length s < length s')
  /\ (forall text v,
         unicodeEscaped text = true ->
         parseToon text = Ok v ->
         exists v',
           parseJson text = Ok v'
           /\ (entryCount v = colons false text
               \/ entryCount v' = colons false text -> v' <> v))
  /\ (forall text message,
         parseToon text = Throw message -> parseJson text <> Throw message).
Proof.
  split; [exact parseString_loop_other|].
  split; [reflexivity|]. split; [reflexivity|]. split; [reflexivity|].
  split; [|split].
  2:{ intros text v Hu Hs.
      destruct (parsers_side_by_side text v Hs) as (v' & Hr & _ & L & L' & H).
      exists v'. split; [exact Hr|]. intros Hn E. subst v'.
      assert (entryCount v = colons false text) as Hc by (destruct Hn; assumption).
      destruct (H Hc Hc) as (_ & Hlt). specialize (Hlt Hu). lia. }
  2:{ intros text message Hs Hr. apply parseJson_throws in Hr.
      unfold parseToon in Hs.
      destruct (JSON.parse text) as [v|m|]; try discriminate.
      apply Throw_inj in Hs. subst message.
      now rewrite strict_message_is_not_relaxed in Hr. }
  intros body s Hu Hj.
  (* what the strict parser did *)
  unfold parseToon in Hj.
  destruct (JSON.parse (quoted body)) as [v| |] eqn:Ep; try discriminate.
  apply Ok_inj in Hj. subst v. unfold JSON.parse in Ep.
  change (JSON.parseValue (S (length (quoted body))) (quoted body))
    with (JSON.value_body (JSON.parseValue (length (quoted body)))
            (DQ :: body ++ [DQ])) in Ep.
  unfold JSON.value_body in Ep.
  rewrite JSON_skipWhiteSpace_head in Ep by reflexivity.
  change (N.eqb DQ (ch "{")) with false in Ep.
  change (N.eqb DQ (ch "[")) with false in Ep.
  rewrite N.eqb_refl in Ep. cbv iota in Ep.
  destruct (JSON.stringChars [] (body ++ [DQ])) as [rj| |] eqn:Es;
    cbn [bind value remaining] in Ep; try discriminate.
  destruct (JSON.skipWhiteSpace (remaining rj)) eqn:Er; [|discriminate].
  apply Ok_inj in Ep. injection Ep as Ev.
  (* the relaxed parser on the same characters *)
  destruct (string_scanners (length (body ++ [DQ])) (body ++ [DQ]) [] [] rj
              (le_n _) Es) as (rr & H1 & H2 & _ & H4).
  specialize (H4 (hasUnicodeEscape_app (length body) body [DQ] (le_n _) Hu)).
  cbn [length] in H4. rewrite !Nat.add_0_r in H4. rewrite Ev in H4.
  exists (value rr). split; [|exact H4].
  unfold parseJson.
  assert (trim (quoted body) = quoted body) as Ht.
  { apply trim_tight; [reflexivity|].
    unfold quoted. rewrite app_assoc. now apply endsTight_closed. }
  rewrite Ht. unfold quoted at 1. cbn [app].
  unfold parseValueTop. cbn [parseValue]. unfold parseValue_body. rewrite Ht.
  change (startsWith (quoted body) (str "{")) with false.
  change (startsWith (quoted body) (str "[")) with false.
  change (startsWith (quoted body) [DQ]) with true.
  cbn [orb]. cbv iota.
  unfold quoted at 1. cbn [app parseString]. rewrite N.eqb_refl. cbn [orb].
  rewrite H1. cbn [bind value remaining].
  rewrite H2, (JSON_skipWhiteSpace_nil _ Er). reflexivity.
Qed.

Lemma no_unicode_escapes_witness :
  exists v',
    parseJson (str "[1, " ++ quoted (BACKSLASH :: str "u00e9") ++ str " ]") = Ok v'
    /\ v' <> VArr [VNum (integer 1); VStr [233%N]].
Proof.
  destruct (proj1 (proj2 (proj2 (proj2 (proj2 (proj2 no_unicode_escapes)))))
              (str "[1, " ++ quoted (BACKSLASH :: str "u00e9") ++ str " ]")
              (VArr [VNum (integer 1); VStr [233%N]]) eq_refl eq_refl)
    as (v' & H1 & H2).
  exists v'. split; [exact H1|]. apply H2. left. reflexivity.
Defined.

(* ================================================================== *)
(** * The texts of the strict format in the relaxed parser *)
(* ================================================================== *)

(** X9: every text [parseToon] accepts, [parseJson] accepts too.  When
    no backslash of the text is followed by [b], [f] or [u] (the escapes
    only [JSON.parse] decodes), the two values are the same once the
    entries named [__proto__] are taken out of both, and the very same
    when the value of [parseToon] has no such entry.  Hence the
    [json-to-toon] route answers 200 to every text the [toon-to-json]
    route answers 200 to. *)
Theorem strict_texts_are_relaxed_texts :
  (forall text v,
      parseToon text = Ok v ->
      exists v',
        parseJson text = Ok v'
        /\ (plainEscapes text = true ->
            withoutProto v' = withoutProto v
            /\ (noProtoKey v = true -> v' = v)))
  /\ (forall text json,
         ToonToJson.handler (str "POST") (StringData text)
         = Ok (RespondData 200 json) ->
         exists toon,
           handler (str "POST") (StringData text)
           = Ok (RespondData 200 toon)).
Proof.
  split.
  - intros text v Hs.
    destruct (parsers_side_by_side text v Hs) as (v' & Hr & Ha & _).
    exists v'. split; [exact Hr|]. intros Hp. specialize (Ha Hp).
    split; [now apply alike_withoutProto|now apply alike_noProto].
  - intros text json H. unfold ToonToJson.handler in H.
    change (jsstring_eqb (str "POST") (str "POST")) with true in H.
    cbn [negb] in H. destruct text as [|c text]; [discriminate|].
    destruct (parseToon (c :: text)) as [v| |] eqn:E; try discriminate.
    destruct (parsers_side_by_side _ v E) as (v' & Hr & _).
    exists (toToon v' 0). unfold handler.
    change (jsstring_eqb (str "POST") (str "POST")) with true. cbn [negb].
    now rewrite Hr.
Qed.

Lemma strict_texts_are_relaxed_texts_witness :
  exists v',
    parseJson exampleProtoCut = Ok v'
    /\ withoutProto v' = VObj [].
Proof.
  destruct (proj1 strict_texts_are_relaxed_texts exampleProtoCut
              (VObj [(str "__proto__", VNum (integer 1))]) eq_refl)
    as (v' & H1 & H2).
  exists v'. split; [exact H1|].
  destruct (H2 eq_refl) as (H3 & _). rewrite H3. reflexivity.
Defined.

(** X10: what the assignment [obj[key] = value] of [parseObject] does
    with the key [__proto__].  On a text without the escapes [b], [f]
    and [u] that both parsers accept, the value of [parseJson] differs
    from the one of [parseToon] in entries named [__proto__] only: the
    other entries are the same, in the same order, and an object has an
    entry [__proto__] in the value of [parseJson] only where it has one
    in the value of [parseToon].  So [{"__proto__": 1, "__proto__": 2}]
    and the text [toToon] writes for the object with the one key
    [__proto__] become the empty object, the setter of
    [Object.prototype] storing nothing, whereas [{"__proto__": null,
    "__proto__": 1}] keeps the key with the value 1, the first member
    having cut the object off [Object.prototype]. *)
Theorem relaxed_parser_proto_entries :
  (forall text v v',
      plainEscapes text = true ->
      parseToon text = Ok v -> parseJson text = Ok v' -> alike v v')
  /\ parseJson exampleProtoTwice = Ok (VObj [])
  /\ parseToon exampleProtoTwice = Ok (VObj [(str "__proto__", VNum (integer 2))])
  /\ parseJson (toToon exampleProto 0) = Ok (VObj [])
  /\ parseToon (toToon exampleProto 0) = Ok exampleProto
  /\ parseJson exampleProtoCut = Ok (VObj [(str "__proto__", VNum (integer 1))])
  /\ parseToon exampleProtoCut = Ok (VObj [(str "__proto__", VNum (integer 1))]).
Proof.
  split; [|repeat split; reflexivity].
  intros text v v' Hp Hs Hr.
  destruct (parsers_side_by_side text v Hs) as (w & Hw & Ha & _).
  rewrite Hw in Hr. apply Ok_inj in Hr. subst w. now apply Ha.
Qed.

Lemma relaxed_parser_proto_entries_witness :
  alike (VObj [(str "__proto__", VNum (integer 2))]) (VObj []).
Proof.
  apply (proj1 relaxed_parser_proto_entries exampleProtoTwice); reflexivity.
Defined.

